(** * game-journaling: the synchronization engine, its parsers and validators

    A shallow embedding of [src/sync/wiki-link.ts], [src/sync/parser.ts],
    [src/sync/validators.ts], [src/sync/csv-parser.ts] and
    [src/sync/sync-engine.ts], with the tables of [src/db/schema.ts].

    Conventions.
    - A JavaScript string is a [string]; each [ascii] stands for one code
      unit in the Latin-1 range.
    - A thrown exception is [Throw msg]; code that can throw returns a
      [result].
    - The engine runs in a state-and-exception monad over the database, the
      report and the three sets of pending references. *)

From Stdlib Require Import String Ascii List ZArith Lia Bool Arith Permutation.
From stdpp Require Import gmap strings list fin_maps.
Import ListNotations.
Local Open Scope string_scope.
Local Open Scope list_scope.
Local Open Scope nat_scope.

Local Set Warnings "-register-all".

(* ===================================================================== *)
(** * JavaScript string primitives *)
(* ===================================================================== *)

Module Js.

Definition code (c : ascii) : nat := nat_of_ascii c.

(** Line terminators: LF and CR. *)
Definition is_lt (c : ascii) : bool :=
  (code c =? 10) || (code c =? 13).

(** [\s], which is also what [trim] strips: TAB, LF, VT, FF, CR, SPACE
    and NBSP. *)
Definition is_ws (c : ascii) : bool :=
  ((9 <=? code c) && (code c <=? 13)) || (code c =? 32) || (code c =? 160).

(** [.] without the [s] flag: anything but a line terminator. *)
Definition is_dot (c : ascii) : bool := negb (is_lt c).

Definition is_char (d c : ascii) : bool := Ascii.eqb d c.

Definition chars (s : string) : list ascii := list_ascii_of_string s.
Definition str (l : list ascii) : string := string_of_list_ascii l.

Definition lower_char (c : ascii) : ascii :=
  let n := code c in
  if ((65 <=? n) && (n <=? 90))
     || ((192 <=? n) && (n <=? 222) && negb (n =? 215))
  then ascii_of_nat (n + 32) else c.

(** [s.toLowerCase()] *)
Definition toLowerCase (s : string) : string := str (map lower_char (chars s)).

Fixpoint trimStartL (l : list ascii) : list ascii :=
  match l with
  | c :: l' => if is_ws c then trimStartL l' else l
  | [] => []
  end.

Definition trimEndL (l : list ascii) : list ascii := rev (trimStartL (rev l)).

(** [s.trim()] *)
Definition trim (s : string) : string := str (trimEndL (trimStartL (chars s))).

(** [s.split(sep)] for a one-character separator: never empty. *)
Fixpoint splitL (sep : ascii) (cur : list ascii) (l : list ascii) : list string :=
  match l with
  | [] => [str (rev cur)]
  | c :: l' =>
      if Ascii.eqb c sep then str (rev cur) :: splitL sep [] l'
      else splitL sep (c :: cur) l'
  end.

Definition split (sep : ascii) (s : string) : list string := splitL sep [] (chars s).

(** [s.startsWith(p)] *)
Definition startsWith (p s : string) : bool := String.prefix p s.

(** [s.slice(a, b)] for [0 <= a] and [0 <= b]. *)
Definition slice (a b : nat) (s : string) : string := substring a (b - a) s.

(** [!s] for a string: only the empty string is falsy. *)
Definition falsy (s : string) : bool := String.eqb s "".

End Js.

(* ===================================================================== *)
(** * Regular expressions (the fragment the sources use)

    Every pattern of the sources is a sequence of anchors and greedily
    quantified character classes with at most one capture group.  The
    matcher backtracks as the ECMAScript one does: a quantifier first takes
    as many characters as it can and gives them back one at a time. *)
(* ===================================================================== *)

Module Re.
Import Js.

Inductive atom :=
| Bol                                                     (* ^ *)
| Eol                                                     (* $ *)
| Rep (cls : ascii -> bool) (lo : nat) (hi : option nat)  (* cls{lo,hi} *)
| Open                                                    (* ( *)
| Close.                                                  (* ) *)

Definition regex := list atom.

Definition lit (c : ascii) : atom := Rep (is_char c) 1 (Some 1).
Definition plus (cls : ascii -> bool) : atom := Rep cls 1 None.
Definition star (cls : ascii -> bool) : atom := Rep cls 0 None.

(** Length of the longest run of [cls] at the head of [l], capped by [hi]. *)
Fixpoint run (cls : ascii -> bool) (hi : option nat) (l : list ascii) : nat :=
  match l with
  | [] => 0
  | c :: l' =>
      match hi with
      | Some 0 => 0
      | _ => if cls c then S (run cls (pred <$> hi) l') else 0
      end
  end.

(** Try [f k], [f (k-1)], ..., [f lo]. *)
Fixpoint try_down {R} (f : nat -> option R) (lo k : nat) : option R :=
  if k <? lo then None
  else match f k with
       | Some r => Some r
       | None => match k with
                 | 0 => None
                 | S k' => try_down f lo k'
                 end
       end.

(** The character before the position reached after [j] more characters. *)
Definition prev_after (prev : option ascii) (rest : list ascii) (j : nat) : option ascii :=
  match j with
  | 0 => prev
  | S j' => nth_error rest j'
  end.

(** A successful match: its end, and the span of the capture group. *)
Definition found : Type := nat * option (nat * nat).

(** Match [r] at position [pos]: [prev] is the character before it,
    [rest] the input from it. [ml] is the [m] flag. *)
Fixpoint exec_at (ml : bool) (r : regex) (prev : option ascii) (rest : list ascii)
    (pos : nat) (op : nat) (cap : option (nat * nat)) : option found :=
  match r with
  | [] => Some (pos, cap)
  | Bol :: r' =>
      if match prev with None => true | Some c => ml && is_lt c end
      then exec_at ml r' prev rest pos op cap else None
  | Eol :: r' =>
      if match rest with [] => true | c :: _ => ml && is_lt c end
      then exec_at ml r' prev rest pos op cap else None
  | Open :: r' => exec_at ml r' prev rest pos pos cap
  | Close :: r' => exec_at ml r' prev rest pos op (Some (op, pos))
  | Rep cls lo hi :: r' =>
      try_down
        (fun j => exec_at ml r' (prev_after prev rest j) (skipn j rest) (pos + j) op cap)
        lo (run cls hi rest)
  end.

(** The leftmost match at or after [pos]: (start, end, capture). *)
Fixpoint search (ml : bool) (r : regex) (prev : option ascii) (rest : list ascii)
    (pos : nat) : option (nat * nat * option (nat * nat)) :=
  match exec_at ml r prev rest pos pos None with
  | Some (e, cap) => Some (pos, e, cap)
  | None =>
      match rest with
      | [] => None
      | c :: rest' => search ml r (Some c) rest' (S pos)
      end
  end.

Definition search_from (ml : bool) (r : regex) (input : list ascii) (from : nat) :=
  search ml r (prev_after None input from) (skipn from input) from.

(** [s.match(r)] without the [g] flag. *)
Definition match_first (ml : bool) (r : regex) (s : string) :=
  search_from ml r (chars s) 0.

(** The loop [while ((m = r.exec(s)) !== null)] of a [g] regex whose
    matches are never empty: [lastIndex] moves to the end of each match. *)
Fixpoint exec_all (ml : bool) (r : regex) (input : list ascii) (lastIndex : nat)
    (fuel : nat) : list (nat * nat * option (nat * nat)) :=
  match fuel with
  | 0 => []
  | S fuel' =>
      match search_from ml r input lastIndex with
      | None => []
      | Some (s, e, cap) => (s, e, cap) :: exec_all ml r input e fuel'
      end
  end.

(** [s.replace(r, "")] without the [g] flag: the first match is removed. *)
Definition remove_first (ml : bool) (r : regex) (s : string) : string :=
  match match_first ml r s with
  | None => s
  | Some (b, e, _) => str (firstn b (chars s) ++ skipn e (chars s))
  end.

End Re.

(* ===================================================================== *)
(** * Values, exceptions and the host environment *)
(* ===================================================================== *)

(** What the YAML front matter of a document can hold. *)
Inductive jsval :=
| JNull
| JBool (b : bool)
| JNum (n : Z)
| JStr (s : string)
| JDate (t : Z)
| JArr (items : list jsval)
| JObj (members : list (string * jsval)).

(** A plain object, as an association list in key order. *)
Definition jsobject : Type := list (string * jsval).

(** [o[k]]: [None] is [undefined]. *)
Fixpoint prop (k : string) (o : jsobject) : option jsval :=
  match o with
  | [] => None
  | (k', v) :: o' => if String.eqb k k' then Some v else prop k o'
  end.

(** [o[k] = v] *)
Fixpoint setProp (k : string) (v : jsval) (o : jsobject) : jsobject :=
  match o with
  | [] => [(k, v)]
  | (k', v') :: o' =>
      if String.eqb k k' then (k', v) :: o' else (k', v') :: setProp k v o'
  end.

Inductive result (A : Type) :=
| Ok (a : A)
| Throw (err : string).
Arguments Ok {A} a.
Arguments Throw {A} err.

(** What the engine takes from its platform: the file system, the
    gray-matter front-matter parser, [Date] and the database driver's
    rendering of a constraint violation. *)
Record Env := {
  globSync : string -> list string;
  readFileSync : string -> result string;
  matter : string -> result (jsobject * string);
  toISOString : Z -> string;
  clock : nat -> Z;
  sqliteError : string -> string;
}.

(* ===================================================================== *)
(** * wiki-link.ts *)
(* ===================================================================== *)

Definition wikiLinkRegex : Re.regex :=
  [Re.Bol; Re.lit "["; Re.lit "["; Re.Open; Re.plus Js.is_dot; Re.Close;
   Re.lit "]"; Re.lit "]"; Re.Eol].

Definition parseWikiLink (raw : string) : string :=
  match Re.match_first false wikiLinkRegex raw with
  | Some (_, _, Some (a, b)) => Js.slice a b raw
  | _ => raw
  end.

(** [replace(/\s+/g, "-")]: every maximal run of white space becomes one
    hyphen; [in_run] tells that the run was already replaced. *)
Fixpoint hyphenate (in_run : bool) (l : list ascii) : list ascii :=
  match l with
  | [] => []
  | c :: l' =>
      if Js.is_ws c
      then if in_run then hyphenate true l' else "-"%char :: hyphenate true l'
      else c :: hyphenate false l'
  end.

Definition toSlug (name : string) : string :=
  Js.str (hyphenate false (Js.chars (Js.trim name))).

Definition mdSuffixRegex : Re.regex :=
  [Re.lit "."; Re.lit "m"; Re.lit "d"; Re.Eol].

Definition slugFromPath (filePath : string) : string :=
  let filename := List.last (Js.split "/" filePath) filePath in
  Re.remove_first false mdSuffixRegex filename.

(* ===================================================================== *)
(** * parser.ts *)
(* ===================================================================== *)

Record ParsedMarkdown := {
  frontmatter : jsobject;
  sections : gmap string string;
  rawContent : string;
}.

(** [/^#{1,3}\s+(.+)$/gm] *)
Definition headingRegex : Re.regex :=
  [Re.Bol; Re.Rep (Js.is_char "#") 1 (Some 3); Re.plus Js.is_ws;
   Re.Open; Re.plus Js.is_dot; Re.Close; Re.Eol].

(** [/#{1,3}\s+.+$/m], which the end of a section is computed with. *)
Definition headingTailRegex : Re.regex :=
  [Re.Rep (Js.is_char "#") 1 (Some 3); Re.plus Js.is_ws; Re.plus Js.is_dot; Re.Eol].

Record Heading := { h_name : string; h_index : nat }.

Definition findHeadings (content : string) : list Heading :=
  map (fun m : nat * nat * option (nat * nat) =>
         let '(_, e, cap) := m in
         {| h_name :=
              match cap with
              | Some (a, b) => Js.toLowerCase (Js.trim (Js.slice a b content))
              | None => ""
              end;
            h_index := e |})
      (Re.exec_all true headingRegex (Js.chars content) 0 (S (String.length content))).

(** [content.slice(0, index).match(/#{1,3}\s+.+$/m)?.[0]?.length ?? 0] *)
Definition headingTailLength (content : string) (index : nat) : nat :=
  match Re.match_first true headingTailRegex (Js.slice 0 index content) with
  | Some (b, e, _) => e - b
  | None => 0
  end.

(** The second loop of [splitContentSections], from heading [i] on. *)
Fixpoint fillSections (content : string) (headings : list Heading)
    (sections : gmap string string) : gmap string string :=
  match headings with
  | [] => sections
  | h :: rest =>
      let start := h_index h in
      let end_ :=
        match rest with
        | next :: _ => h_index next - headingTailLength content (h_index next)
        | [] => String.length content
        end in
      let sectionContent := Js.trim (Js.slice start end_ content) in
      fillSections content rest
        (if Js.falsy sectionContent then sections
         else <[h_name h := sectionContent]> sections)
  end.

Definition splitContentSections (content : string) : gmap string string :=
  fillSections content (findHeadings content) ∅.

Definition parseMarkdownFile (env : Env) (filePath : string) : result ParsedMarkdown :=
  match readFileSync env filePath with
  | Throw e => Throw e
  | Ok raw =>
      match matter env raw with
      | Throw e => Throw e
      | Ok (data, content) =>
          Ok {| frontmatter := data;
                sections := splitContentSections content;
                rawContent := content |}
      end
  end.

(* ===================================================================== *)
(** * validators.ts

    A zod schema is a function from the value found under a key ([None]
    when the key is missing) to the normalised value, or [None] when
    validation fails. *)
(* ===================================================================== *)

Definition Schema (A : Type) : Type := option jsval -> option A.

(** [z.string()] *)
Definition zString : Schema string :=
  fun v => match v with Some (JStr s) => Some s | _ => None end.

(** [z.literal(lit)] *)
Definition zLiteral (lit : string) : Schema string :=
  fun v => match v with
           | Some (JStr s) => if String.eqb s lit then Some s else None
           | _ => None
           end.

(** [inner.optional().nullable()]: [undefined] and [null] pass, as [None]. *)
Definition optionalNullable {A} (inner : Schema A) : Schema (option A) :=
  fun v => match v with
           | None | Some JNull => Some None
           | Some _ => option_map Some (inner v)
           end.

(** [schema.transform(f)] *)
Definition transform {A B} (schema : Schema A) (f : A -> B) : Schema B :=
  fun v => option_map f (schema v).

(** [z.array(z.string())] *)
Fixpoint stringItems (items : list jsval) : option (list string) :=
  match items with
  | [] => Some []
  | JStr s :: items' => option_map (cons s) (stringItems items')
  | _ :: _ => None
  end.

(** [z.union([z.string(), z.array(z.string())])]: the array form of either. *)
Definition zStringOrArray : Schema (list string) :=
  fun v => match v with
           | Some (JStr s) => Some [s]
           | Some (JArr items) => stringItems items
           | _ => None
           end.

(** [z.union([z.string(), z.date()])] *)
Definition zStringOrDate : Schema (string + Z) :=
  fun v => match v with
           | Some (JStr s) => Some (inl s)
           | Some (JDate t) => Some (inr t)
           | _ => None
           end.

Definition wikiLinkSchema : Schema string := transform zString parseWikiLink.

Definition optionalWikiLinkArray : Schema (list string) :=
  transform (optionalNullable zStringOrArray)
    (fun val => match val with
                | None => []
                | Some arr => map parseWikiLink arr
                end).

Definition optionalStringArray : Schema (list string) :=
  transform (optionalNullable zStringOrArray)
    (fun val => match val with
                | None => []
                | Some arr => arr
                end).

(** The transform of [statusSchema]. *)
Definition normalizeStatus (val : option string) : option string :=
  match val with
  | None => None
  | Some val =>
      if Js.falsy val then None
      else
        let n := Js.toLowerCase (Js.trim val) in
        if String.eqb n "finished" then Some "finished"
        else if String.eqb n "started" then Some "started"
        else if String.eqb n "bought" then Some "bought"
        else if Js.startsWith "not start" n then Some "not started"
        else if String.eqb n "not finished" then Some "started"
        else None
  end.

Definition statusSchema : Schema (option string) :=
  transform (optionalNullable zString) normalizeStatus.

(** [s || null] for a string. *)
Definition orNull (s : string) : option string :=
  if Js.falsy s then None else Some s.

(** The transform of [platformSchema]. *)
Definition normalizePlatform (val : option string) : option string :=
  match val with
  | None => None
  | Some val =>
      if Js.falsy val then None
      else
        let trimmed := Js.trim val in
        if String.eqb trimmed "Xbok 360" then Some "Xbox 360"
        else orNull trimmed
  end.

Definition platformSchema : Schema (option string) :=
  transform (optionalNullable zString) normalizePlatform.

(** [(v) => v?.trim() || null] *)
Definition trimOrNull (v : option string) : option string :=
  match v with
  | None => None
  | Some v => orNull (Js.trim v)
  end.

(** The transform of the [release] field. *)
Definition normalizeRelease (env : Env) (val : option (string + Z)) : option string :=
  match val with
  | None => None
  | Some (inr t) => Some (List.hd "" (Js.split "T" (toISOString env t)))
  | Some (inl s) =>
      if Js.falsy s then None
      else
        let trimmed := Js.trim s in
        if String.eqb trimmed "YYYY-MM-DD" || String.eqb trimmed "" then None
        else Some trimmed
  end.

Record GameFrontmatter := {
  fm_status : option string;
  fm_game_genre : list string;
  fm_game_modes : list string;
  fm_game_genre_tags : list string;
  fm_player_perspective : list string;
  fm_platform : option string;
  fm_engine : option string;
  fm_developer : list string;
  fm_publisher : list string;
  fm_director : option string;
  fm_release : option string;
}.

Definition gameFrontmatterSchema (env : Env) (data : jsobject) : option GameFrontmatter :=
  _ ← zLiteral "game" (prop "class" data);
  status ← statusSchema (prop "status" data);
  genre ← optionalStringArray (prop "game-genre" data);
  modes ← optionalStringArray (prop "game-modes" data);
  tags ← optionalStringArray (prop "game-genre-tags" data);
  perspective ← optionalStringArray (prop "player-perspective" data);
  platform ← platformSchema (prop "platform" data);
  engine ← transform (optionalNullable zString) trimOrNull (prop "engine" data);
  developer ← optionalWikiLinkArray (prop "developer" data);
  publisher ← optionalWikiLinkArray (prop "publisher" data);
  director ← optionalNullable wikiLinkSchema (prop "director" data);
  release ← transform (optionalNullable zStringOrDate) (normalizeRelease env)
              (prop "release" data);
  Some {| fm_status := status;
          fm_game_genre := genre;
          fm_game_modes := modes;
          fm_game_genre_tags := tags;
          fm_player_perspective := perspective;
          fm_platform := platform;
          fm_engine := engine;
          fm_developer := developer;
          fm_publisher := publisher;
          fm_director := director;
          fm_release := release |}.

Record StudioFrontmatter := {
  sfm_director : option string;
  sfm_games : list string;
  sfm_studios : list string;
}.

Definition studioFrontmatterSchema (data : jsobject) : option StudioFrontmatter :=
  _ ← zLiteral "studio" (prop "class" data);
  director ← optionalNullable wikiLinkSchema (prop "director" data);
  games ← optionalWikiLinkArray (prop "games" data);
  studios ← optionalWikiLinkArray (prop "studios" data);
  Some {| sfm_director := director; sfm_games := games; sfm_studios := studios |}.

Record PublisherFrontmatter := {
  pfm_games : list string;
  pfm_studios : list string;
}.

Definition publisherFrontmatterSchema (data : jsobject) : option PublisherFrontmatter :=
  _ ← zLiteral "publisher" (prop "class" data);
  games ← optionalWikiLinkArray (prop "games" data);
  studios ← optionalWikiLinkArray (prop "studios" data);
  Some {| pfm_games := games; pfm_studios := studios |}.

(** [.passthrough()]: the other keys are kept as they are. *)
Definition designerFrontmatterSchema (data : jsobject) : option jsobject :=
  _ ← zLiteral "designer" (prop "class" data);
  Some data.

Record CsvRow := {
  csv_name : string;
  csv_status : option string;
  csv_platform : option string;
  csv_notes : option string;
}.

Definition csvRowSchema (record : jsobject) : option CsvRow :=
  name ← transform zString Js.trim (prop "name" record);
  status ← statusSchema (prop "status" record);
  platform ← platformSchema (prop "platform" record);
  notes ← transform (optionalNullable zString) trimOrNull (prop "notes" record);
  Some {| csv_name := name; csv_status := status;
          csv_platform := platform; csv_notes := notes |}.

(* ===================================================================== *)
(** * csv-parser.ts *)
(* ===================================================================== *)

Record ParsedCsvGame := {
  pc_slug : string;
  pc_row : CsvRow;
}.

(** [/,\s*$/] *)
Definition trailingCommaRegex : Re.regex :=
  [Re.lit ","; Re.star Js.is_ws; Re.Eol].

Definition splitCsvLine (line : string) : list string :=
  map Js.trim (Js.split "," line).

(** The header of the file, from its first line. *)
Definition csvHeader (line0 : string) : list string :=
  map (fun h => Js.toLowerCase (Js.trim h))
      (Js.split "," (Re.remove_first false trailingCommaRegex line0)).

(** The inner loop: [record[header[j]] = (values[j] ?? "").trim()]. *)
Fixpoint fillRecord (header : list string) (values : list string)
    (record : jsobject) : jsobject :=
  match header with
  | [] => record
  | h :: header' =>
      fillRecord header' (List.tl values)
        (setProp h (JStr (Js.trim (List.hd "" values))) record)
  end.

(** The cells of a data line, its trailing comma stripped. *)
Definition csvCells (rawLine : string) : list string :=
  let line := Re.remove_first false trailingCommaRegex rawLine in
  splitCsvLine line.

Definition csvRecord (header : list string) (rawLine : string) : jsobject :=
  fillRecord header (csvCells rawLine) [].

(** [!record.name || record.name === ""] *)
Definition nameMissing (record : jsobject) : bool :=
  match prop "name" record with
  | Some (JStr s) => Js.falsy s
  | Some (JNull) | None => true
  | Some (JBool b) => negb b
  | Some (JNum n) => (n =? 0)%Z
  | Some _ => false
  end.

(** One turn of the outer loop: [None] when the line is skipped. *)
Definition csvLine (header : list string) (rawLine : string) : option ParsedCsvGame :=
  let record := csvRecord header rawLine in
  if nameMissing record then None
  else
    match csvRowSchema record with
    | None => None
    | Some data => Some {| pc_slug := toSlug (csv_name data); pc_row := data |}
    end.

Definition csvLines (raw : string) : list string :=
  List.filter (fun line => negb (String.eqb (Js.trim line) "")) (Js.split "010" raw).

Definition parseCsvFile (env : Env) (filePath : string) : result (list ParsedCsvGame) :=
  match readFileSync env filePath with
  | Throw e => Throw e
  | Ok raw =>
      match csvLines raw with
      | [] => Ok []
      | line0 :: lines =>
          let header := csvHeader line0 in
          Ok (omap (csvLine header) lines)
      end
  end.

(* ===================================================================== *)
(** * db/schema.ts: the store *)
(* ===================================================================== *)

Inductive EntityKind := EGame | EStudio | EPublisher | EDesigner.
Inductive Junction := GameDevelopers | GamePublishers | PublisherStudios | RelatedStudios.

#[global] Instance EntityKind_eq_dec : EqDecision EntityKind.
Proof. solve_decision. Defined.
#[global] Instance Junction_eq_dec : EqDecision Junction.
Proof. solve_decision. Defined.

(** The value of a column, or of a property of a row object. *)
Inductive fval :=
| FNull
| FText (s : string)
| FJson (items : list string)   (* a [{ mode: "json" }] column *)
| FDate (t : Z).                (* a [timestamp_ms] column *)

(** A row object, in key order. *)
Definition Row : Type := list (string * fval).

(** [row[k]]: [None] is [undefined]. *)
Fixpoint field (k : string) (row : Row) : option fval :=
  match row with
  | [] => None
  | (k', v) :: row' => if String.eqb k k' then Some v else field k row'
  end.

Definition columns (kind : EntityKind) : list string :=
  match kind with
  | EGame =>
      ["slug"; "status"; "platform"; "engine"; "release"; "director";
       "gameGenre"; "gameModes"; "gameGenreTags"; "playerPerspective";
       "gameplayText"; "synopsisText"; "reviewText"; "notesText";
       "sourceFile"; "lastSyncedAt"]
  | EStudio => ["slug"; "director"; "overviewText"; "sourceFile"; "lastSyncedAt"]
  | EPublisher | EDesigner => ["slug"; "overviewText"; "sourceFile"; "lastSyncedAt"]
  end.

Definition tableName (kind : EntityKind) : string :=
  match kind with
  | EGame => "games"
  | EStudio => "studios"
  | EPublisher => "publishers"
  | EDesigner => "designers"
  end.

Definition junctionName (j : Junction) : string :=
  match j with
  | GameDevelopers => "game_developers"
  | GamePublishers => "game_publishers"
  | PublisherStudios => "publisher_studios"
  | RelatedStudios => "related_studios"
  end.

(** Entity tables are keyed by their primary key [slug]; a junction table
    is the list of its pairs, its primary key being the pair. *)
Record Db := {
  games : gmap string Row;
  studios : gmap string Row;
  publishers : gmap string Row;
  designers : gmap string Row;
  gameDevelopers : list (string * string);
  gamePublishers : list (string * string);
  publisherStudios : list (string * string);
  relatedStudios : list (string * string);
}.

Definition table (kind : EntityKind) (d : Db) : gmap string Row :=
  match kind with
  | EGame => games d
  | EStudio => studios d
  | EPublisher => publishers d
  | EDesigner => designers d
  end.

Definition set_table (kind : EntityKind) (t : gmap string Row) (d : Db) : Db :=
  match kind with
  | EGame =>
      {| games := t; studios := studios d; publishers := publishers d;
         designers := designers d; gameDevelopers := gameDevelopers d;
         gamePublishers := gamePublishers d; publisherStudios := publisherStudios d;
         relatedStudios := relatedStudios d |}
  | EStudio =>
      {| games := games d; studios := t; publishers := publishers d;
         designers := designers d; gameDevelopers := gameDevelopers d;
         gamePublishers := gamePublishers d; publisherStudios := publisherStudios d;
         relatedStudios := relatedStudios d |}
  | EPublisher =>
      {| games := games d; studios := studios d; publishers := t;
         designers := designers d; gameDevelopers := gameDevelopers d;
         gamePublishers := gamePublishers d; publisherStudios := publisherStudios d;
         relatedStudios := relatedStudios d |}
  | EDesigner =>
      {| games := games d; studios := studios d; publishers := publishers d;
         designers := t; gameDevelopers := gameDevelopers d;
         gamePublishers := gamePublishers d; publisherStudios := publisherStudios d;
         relatedStudios := relatedStudios d |}
  end.

Definition jtable (j : Junction) (d : Db) : list (string * string) :=
  match j with
  | GameDevelopers => gameDevelopers d
  | GamePublishers => gamePublishers d
  | PublisherStudios => publisherStudios d
  | RelatedStudios => relatedStudios d
  end.

Definition set_jtable (j : Junction) (t : list (string * string)) (d : Db) : Db :=
  match j with
  | GameDevelopers =>
      {| games := games d; studios := studios d; publishers := publishers d;
         designers := designers d; gameDevelopers := t;
         gamePublishers := gamePublishers d; publisherStudios := publisherStudios d;
         relatedStudios := relatedStudios d |}
  | GamePublishers =>
      {| games := games d; studios := studios d; publishers := publishers d;
         designers := designers d; gameDevelopers := gameDevelopers d;
         gamePublishers := t; publisherStudios := publisherStudios d;
         relatedStudios := relatedStudios d |}
  | PublisherStudios =>
      {| games := games d; studios := studios d; publishers := publishers d;
         designers := designers d; gameDevelopers := gameDevelopers d;
         gamePublishers := gamePublishers d; publisherStudios := t;
         relatedStudios := relatedStudios d |}
  | RelatedStudios =>
      {| games := games d; studios := studios d; publishers := publishers d;
         designers := designers d; gameDevelopers := gameDevelopers d;
         gamePublishers := gamePublishers d; publisherStudios := publisherStudios d;
         relatedStudios := t |}
  end.

Definition emptyDb : Db :=
  {| games := ∅; studios := ∅; publishers := ∅; designers := ∅;
     gameDevelopers := []; gamePublishers := []; publisherStudios := [];
     relatedStudios := [] |}.

(** The row the database keeps for [values]: a column that is not given is
    NULL. *)
Definition storedRow (kind : EntityKind) (values : Row) : Row :=
  map (fun c => (c, default FNull (field c values))) (columns kind).

(** The row after [UPDATE ... SET values]: a column that is not given keeps
    its value. *)
Definition updatedRow (kind : EntityKind) (old values : Row) : Row :=
  map (fun c => (c, default (default FNull (field c old)) (field c values)))
      (columns kind).

(* ===================================================================== *)
(** * sync-engine.ts: report and state *)
(* ===================================================================== *)

Record Change := {
  entity : string;
  entityType : EntityKind;
  field_ : string;
  oldValue : option string;
  newValue : option string;
}.

Record SyncReport := {
  gamesProcessed : nat;
  studiosProcessed : nat;
  publishersProcessed : nat;
  designersProcessed : nat;
  created : nat;
  updated : nat;
  unchanged : nat;
  errors : list string;
  changes : list Change;
}.

Definition emptyReport : SyncReport :=
  {| gamesProcessed := 0; studiosProcessed := 0; publishersProcessed := 0;
     designersProcessed := 0; created := 0; updated := 0; unchanged := 0;
     errors := []; changes := [] |}.

Inductive Counter := Created | Updated | Unchanged | Processed (kind : EntityKind).

(** [report.counter++] *)
Definition bump (c : Counter) (r : SyncReport) : SyncReport :=
  let inc (on : bool) (n : nat) := if on then S n else n in
  {| gamesProcessed :=
       inc (match c with Processed EGame => true | _ => false end) (gamesProcessed r);
     studiosProcessed :=
       inc (match c with Processed EStudio => true | _ => false end) (studiosProcessed r);
     publishersProcessed :=
       inc (match c with Processed EPublisher => true | _ => false end) (publishersProcessed r);
     designersProcessed :=
       inc (match c with Processed EDesigner => true | _ => false end) (designersProcessed r);
     created := inc (match c with Created => true | _ => false end) (created r);
     updated := inc (match c with Updated => true | _ => false end) (updated r);
     unchanged := inc (match c with Unchanged => true | _ => false end) (unchanged r);
     errors := errors r;
     changes := changes r |}.

(** [report.errors.push(e)] *)
Definition pushError (e : string) (r : SyncReport) : SyncReport :=
  {| gamesProcessed := gamesProcessed r; studiosProcessed := studiosProcessed r;
     publishersProcessed := publishersProcessed r;
     designersProcessed := designersProcessed r; created := created r;
     updated := updated r; unchanged := unchanged r;
     errors := errors r ++ [e]; changes := changes r |}.

(** [report.changes.push(c)] *)
Definition pushChange (c : Change) (r : SyncReport) : SyncReport :=
  {| gamesProcessed := gamesProcessed r; studiosProcessed := studiosProcessed r;
     publishersProcessed := publishersProcessed r;
     designersProcessed := designersProcessed r; created := created r;
     updated := updated r; unchanged := unchanged r;
     errors := errors r; changes := changes r ++ [c] |}.

(** The three [Set<string>] of pending references. *)
Inductive RefSet := ReferencedStudios | ReferencedPublishers | ReferencedDesigners.

#[global] Instance RefSet_eq_dec : EqDecision RefSet.
Proof. solve_decision. Defined.

(** [set.add(x)]: a [Set] keeps insertion order and no duplicate. *)
Definition setAdd (x : string) (s : list string) : list string :=
  if bool_decide (x ∈ s) then s else s ++ [x].

Record St := {
  db : Db;
  report : SyncReport;
  referencedStudios : list string;
  referencedPublishers : list string;
  referencedDesigners : list string;
  tick : nat;                       (* how many times [new Date()] was called *)
}.

Definition refs (which : RefSet) (st : St) : list string :=
  match which with
  | ReferencedStudios => referencedStudios st
  | ReferencedPublishers => referencedPublishers st
  | ReferencedDesigners => referencedDesigners st
  end.

Definition set_db (d : Db) (st : St) : St :=
  {| db := d; report := report st; referencedStudios := referencedStudios st;
     referencedPublishers := referencedPublishers st;
     referencedDesigners := referencedDesigners st; tick := tick st |}.

Definition set_report (r : SyncReport) (st : St) : St :=
  {| db := db st; report := r; referencedStudios := referencedStudios st;
     referencedPublishers := referencedPublishers st;
     referencedDesigners := referencedDesigners st; tick := tick st |}.

Definition set_refs (which : RefSet) (s : list string) (st : St) : St :=
  match which with
  | ReferencedStudios =>
      {| db := db st; report := report st; referencedStudios := s;
         referencedPublishers := referencedPublishers st;
         referencedDesigners := referencedDesigners st; tick := tick st |}
  | ReferencedPublishers =>
      {| db := db st; report := report st; referencedStudios := referencedStudios st;
         referencedPublishers := s;
         referencedDesigners := referencedDesigners st; tick := tick st |}
  | ReferencedDesigners =>
      {| db := db st; report := report st; referencedStudios := referencedStudios st;
         referencedPublishers := referencedPublishers st;
         referencedDesigners := s; tick := tick st |}
  end.

Definition set_tick (n : nat) (st : St) : St :=
  {| db := db st; report := report st; referencedStudios := referencedStudios st;
     referencedPublishers := referencedPublishers st;
     referencedDesigners := referencedDesigners st; tick := n |}.

(* ===================================================================== *)
(** * The monad of the engine: state, and exceptions that keep the state *)
(* ===================================================================== *)

Definition M (A : Type) : Type := St -> result A * St.

Definition ret {A} (a : A) : M A := fun st => (Ok a, st).

Definition bind {A B} (m : M A) (k : A -> M B) : M B :=
  fun st =>
    match m st with
    | (Ok a, st') => k a st'
    | (Throw e, st') => (Throw e, st')
    end.

Definition throw {A} (e : string) : M A := fun st => (Throw e, st).

Notation "x <~ m ;; k" := (bind m (fun x => k))
  (at level 100, m at next level, right associativity).
Notation "m ;;; k" := (bind m (fun _ => k))
  (at level 100, right associativity).

(** [try { body } catch (err) { handler(err) }] *)
Definition tryCatch (body : M unit) (handler : string -> M unit) : M unit :=
  fun st =>
    match body st with
    | (Ok _, st') => (Ok tt, st')
    | (Throw e, st') => handler e st'
    end.

(** [for (const x of l) body(x)] *)
Fixpoint forEach {A} (l : list A) (body : A -> M unit) : M unit :=
  match l with
  | [] => ret tt
  | x :: l' => body x ;;; forEach l' body
  end.

Definition gets {A} (f : St -> A) : M A := fun st => (Ok (f st), st).
Definition modify (f : St -> St) : M unit := fun st => (Ok tt, f st).

(** A call that can throw and does not touch the state. *)
Definition lift {A} (r : result A) : M A := fun st => (r, st).

(** [new Date()] *)
Definition newDate (env : Env) : M Z :=
  fun st => (Ok (clock env (tick st)), set_tick (S (tick st)) st).

Definition count (c : Counter) : M unit :=
  modify (fun st => set_report (bump c (report st)) st).

Definition addRef (which : RefSet) (x : string) : M unit :=
  modify (fun st => set_refs which (setAdd x (refs which st)) st).

(** [db.select().from(t).where(eq(t.slug, slug)).get()] *)
Definition selectBySlug (kind : EntityKind) (slug : string) : M (option Row) :=
  gets (fun st => table kind (db st) !! slug).

(** [db.insert(t).values(values).run()]: the primary key must be new. *)
Definition insertRow (env : Env) (kind : EntityKind) (slug : string) (values : Row) : M unit :=
  fun st =>
    match table kind (db st) !! slug with
    | Some _ => (Throw (sqliteError env (tableName kind)), st)
    | None =>
        (Ok tt, set_db (set_table kind (<[slug := storedRow kind values]> (table kind (db st)))
                          (db st)) st)
    end.

(** [db.update(t).set(values).where(eq(t.slug, slug)).run()] *)
Definition updateRow (kind : EntityKind) (slug : string) (values : Row) : M unit :=
  modify (fun st =>
    match table kind (db st) !! slug with
    | Some old =>
        set_db (set_table kind (<[slug := updatedRow kind old values]> (table kind (db st)))
                  (db st)) st
    | None => st
    end).

(** [db.select().from(j).where(eq(j.first, a)).all()] *)
Definition selectJunction (j : Junction) (a : string) : M (list (string * string)) :=
  gets (fun st => List.filter (fun r => String.eqb (fst r) a) (jtable j (db st))).

(** [db.delete(j).where(eq(j.first, a)).run()] *)
Definition deleteJunction (j : Junction) (a : string) : M unit :=
  modify (fun st =>
    set_db (set_jtable j (List.filter (fun r => negb (String.eqb (fst r) a)) (jtable j (db st)))
              (db st)) st).

(** [db.insert(j).values(pair).run()]: the pair must be new. *)
Definition insertJunction (env : Env) (j : Junction) (pair : string * string) : M unit :=
  fun st =>
    if bool_decide (pair ∈ jtable j (db st))
    then (Throw (sqliteError env (junctionName j)), st)
    else (Ok tt, set_db (set_jtable j (jtable j (db st) ++ [pair]) (db st)) st).

(* ===================================================================== *)
(** * sync-engine.ts: change detection *)
(* ===================================================================== *)

Definition hexDigit (n : nat) : ascii :=
  nth n (Js.chars "0123456789abcdef") "0"%char.

(** One code unit of a string, as [JSON.stringify] writes it. *)
Definition jsonChar (c : ascii) : list ascii :=
  let n := Js.code c in
  if n =? 34 then ["\"%char; "034"%char]
  else if n =? 92 then ["\"%char; "\"%char]
  else if n =? 8 then ["\"%char; "b"%char]
  else if n =? 12 then ["\"%char; "f"%char]
  else if n =? 10 then ["\"%char; "n"%char]
  else if n =? 13 then ["\"%char; "r"%char]
  else if n =? 9 then ["\"%char; "t"%char]
  else if n <? 32
       then ["\"%char; "u"%char; "0"%char; "0"%char; hexDigit (n / 16); hexDigit (n mod 16)]
  else [c].

Definition jsonString (s : string) : list ascii :=
  "034"%char :: concat (map jsonChar (Js.chars s)) ++ ["034"%char].

Fixpoint joinL (sep : list ascii) (parts : list (list ascii)) : list ascii :=
  match parts with
  | [] => []
  | [p] => p
  | p :: parts' => p ++ sep ++ joinL sep parts'
  end.

(** [JSON.stringify(items)] for an array of strings. *)
Definition jsonStringify (items : list string) : string :=
  Js.str ("["%char :: joinL [","%char] (map jsonString items) ++ ["]"%char]).

Definition serialize (env : Env) (value : option fval) : option string :=
  match value with
  | None | Some FNull => None
  | Some (FDate t) => Some (toISOString env t)
  | Some (FJson items) => Some (jsonStringify items)
  | Some (FText s) => Some s
  end.

(** [Object.keys(incoming).filter(...)] *)
Definition fieldsToCompare (incoming : Row) : list string :=
  List.filter
    (fun k => negb (String.eqb k "lastSyncedAt") && negb (String.eqb k "sourceFile")
              && negb (String.eqb k "slug"))
    (map fst incoming).

Definition detectChanges (env : Env) (slug : string) (entityType : EntityKind)
    (existing incoming : Row) : M unit :=
  forEach (fieldsToCompare incoming) (fun fieldName =>
    let oldVal := serialize env (field fieldName existing) in
    let newVal := serialize env (field fieldName incoming) in
    if bool_decide (oldVal = newVal) then ret tt
    else modify (fun st =>
           set_report
             (pushChange {| entity := slug; entityType := entityType;
                            field_ := fieldName; oldValue := oldVal;
                            newValue := newVal |} (report st)) st)).

(** The block [if (existing) { detectChanges ...; update or unchanged }
    else { insert; created++ }], which the four kinds share. *)
Definition upsert (env : Env) (kind : EntityKind) (slug : string)
    (existing : option Row) (row : Row) : M unit :=
  match existing with
  | Some ex =>
      changesBefore <~ gets (fun st => length (changes (report st))) ;;
      detectChanges env slug kind ex row ;;;
      changesNow <~ gets (fun st => length (changes (report st))) ;;
      if changesBefore <? changesNow
      then updateRow kind slug row ;;; count Updated
      else count Unchanged
  | None =>
      insertRow env kind slug row ;;; count Created
  end.

(* ===================================================================== *)
(** * sync-engine.ts: the phases *)
(* ===================================================================== *)

Definition otext (o : option string) : fval :=
  match o with
  | Some s => FText s
  | None => FNull
  end.

(** [if (s)] for [s : string | null | undefined] *)
Definition truthy (o : option string) : bool :=
  match o with
  | Some s => negb (Js.falsy s)
  | None => false
  end.

Definition syncStubGame (env : Env) (slug filePath : string) : M unit :=
  existing <~ selectBySlug EGame slug ;;
  match existing with
  | None =>
      now <~ newDate env ;;
      insertRow env EGame slug
        [("slug", FText slug); ("sourceFile", FText filePath); ("lastSyncedAt", FDate now)] ;;;
      count Created
  | Some _ => ret tt
  end ;;;
  count (Processed EGame).

Definition gameRow (slug : string) (fm : GameFrontmatter) (parsed : ParsedMarkdown)
    (filePath : string) (now : Z) : Row :=
  [("slug", FText slug);
   ("status", otext (fm_status fm));
   ("platform", otext (fm_platform fm));
   ("engine", otext (fm_engine fm));
   ("release", otext (fm_release fm));
   ("director", otext (fm_director fm));
   ("gameGenre", FJson (fm_game_genre fm));
   ("gameModes", FJson (fm_game_modes fm));
   ("gameGenreTags", FJson (fm_game_genre_tags fm));
   ("playerPerspective", FJson (fm_player_perspective fm));
   ("gameplayText", otext (sections parsed !! "gameplay"));
   ("synopsisText", otext (sections parsed !! "synopsis"));
   ("reviewText", otext (sections parsed !! "review"));
   ("notesText", otext (sections parsed !! "notes"));
   ("sourceFile", FText filePath);
   ("lastSyncedAt", FDate now)].

(** Delete-all-for-slug, then one insert per element of the list. *)
Definition replaceJunction (env : Env) (j : Junction) (slug : string)
    (targets : list string) : M unit :=
  deleteJunction j slug ;;;
  forEach targets (fun target => insertJunction env j (slug, target)).

(** [fm.developer.forEach(...)], [fm.publisher.forEach(...)] and
    [if (fm.director) ...]: the references of a game document. *)
Definition trackGameReferences (fm : GameFrontmatter) : M unit :=
  forEach (fm_developer fm) (addRef ReferencedStudios) ;;;
  forEach (fm_publisher fm) (addRef ReferencedPublishers) ;;;
  if truthy (fm_director fm)
  then addRef ReferencedDesigners (default "" (fm_director fm))
  else ret tt.

(** The existing record is looked up, the row is built, and the shared
    block runs. *)
Definition saveGame (env : Env) (slug : string) (fm : GameFrontmatter)
    (parsed : ParsedMarkdown) (filePath : string) : M unit :=
  existing <~ selectBySlug EGame slug ;;
  now <~ newDate env ;;
  upsert env EGame slug existing (gameRow slug fm parsed filePath now).

(** The handler of the [try] around one document. *)
Definition recordError (what filePath err : string) : M unit :=
  modify (fun st =>
    set_report (pushError ("Error syncing " +:+ what +:+ " " +:+ filePath +:+ ": " +:+ err)
                  (report st)) st).

(** One turn of the loop over [gameFiles]. *)
Definition syncGameFile (env : Env) (filePath : string) : M unit :=
  tryCatch
    (let slug := slugFromPath filePath in
     parsed <~ lift (parseMarkdownFile env filePath) ;;
     match gameFrontmatterSchema env (frontmatter parsed) with
     | None => syncStubGame env slug filePath
     | Some fm =>
         trackGameReferences fm ;;;
         saveGame env slug fm parsed filePath ;;;
         replaceJunction env GameDevelopers slug (fm_developer fm) ;;;
         replaceJunction env GamePublishers slug (fm_publisher fm) ;;;
         count (Processed EGame)
     end)
    (recordError "game" filePath).

Definition csvGameRow (slug : string) (row : CsvRow) (now : Z) : Row :=
  [("slug", FText slug);
   ("status", otext (csv_status row));
   ("platform", otext (csv_platform row));
   ("engine", FNull);
   ("release", FNull);
   ("director", FNull);
   ("gameGenre", FNull);
   ("gameModes", FNull);
   ("gameGenreTags", FNull);
   ("playerPerspective", FNull);
   ("gameplayText", FNull);
   ("synopsisText", FNull);
   ("reviewText", FNull);
   ("notesText", FNull);
   ("sourceFile", FText "lib/games.csv");
   ("lastSyncedAt", FDate now)].

(** One turn of the loop over [csvGames]. *)
Definition syncCsvGame (env : Env) (g : ParsedCsvGame) : M unit :=
  existing <~ selectBySlug EGame (pc_slug g) ;;
  match existing with
  | Some _ => ret tt
  | None =>
      now <~ newDate env ;;
      insertRow env EGame (pc_slug g) (csvGameRow (pc_slug g) (pc_row g) now) ;;;
      count Created ;;;
      count (Processed EGame)
  end.

(** The reverse direction, for one game of [owner.games]: the pair is
    inserted only when the junction rows of the game do not have it. *)
Definition linkGame (env : Env) (j : Junction) (slug gameSlug : string) : M unit :=
  rows <~ selectJunction j gameSlug ;;
  match List.find (fun r => String.eqb (snd r) slug) rows with
  | Some _ => ret tt
  | None => insertJunction env j (gameSlug, slug)
  end.

Definition linkGames (env : Env) (j : Junction) (slug : string)
    (gameSlugs : list string) : M unit :=
  forEach gameSlugs (linkGame env j slug).

(** [owner.studios]: replaced as a whole, each target becoming a pending
    reference once its pair is inserted. *)
Definition replaceStudios (env : Env) (j : Junction) (slug : string)
    (studioSlugs : list string) : M unit :=
  deleteJunction j slug ;;;
  forEach studioSlugs (fun studioSlug =>
    insertJunction env j (slug, studioSlug) ;;;
    addRef ReferencedStudios studioSlug).

Definition studioRow (slug : string) (fm : option StudioFrontmatter)
    (parsed : ParsedMarkdown) (filePath : string) (now : Z) : Row :=
  [("slug", FText slug);
   ("director", otext (fm ≫= sfm_director));
   ("overviewText", otext (sections parsed !! "overview"));
   ("sourceFile", FText filePath);
   ("lastSyncedAt", FDate now)].

(** [if (fm.director) referencedDesigners.add(fm.director)], when the
    front matter is valid. *)
Definition trackDirector (fm : option StudioFrontmatter) : M unit :=
  if truthy (fm ≫= sfm_director)
  then addRef ReferencedDesigners (default "" (fm ≫= sfm_director))
  else ret tt.

(** The row is built, the existing record is looked up, and the shared
    block runs. *)
Definition saveRow (env : Env) (kind : EntityKind) (slug : string)
    (row : Z -> Row) : M unit :=
  now <~ newDate env ;;
  existing <~ selectBySlug kind slug ;;
  upsert env kind slug existing (row now).

(** [if (fm?.games.length) { ... }] *)
Definition linkOwnGames (env : Env) (j : Junction) (slug : string)
    (games : option (list string)) : M unit :=
  match games with
  | Some (g :: gs) => linkGames env j slug (g :: gs)
  | _ => ret tt
  end.

(** [if (fm?.studios.length) { ... }] *)
Definition replaceOwnStudios (env : Env) (j : Junction) (slug : string)
    (studios : option (list string)) : M unit :=
  match studios with
  | Some (s :: ss) => replaceStudios env j slug (s :: ss)
  | _ => ret tt
  end.

(** One turn of the loop over [studioFiles]. *)
Definition syncStudioFile (env : Env) (filePath : string) : M unit :=
  tryCatch
    (let slug := slugFromPath filePath in
     parsed <~ lift (parseMarkdownFile env filePath) ;;
     let fm := studioFrontmatterSchema (frontmatter parsed) in
     trackDirector fm ;;;
     saveRow env EStudio slug (studioRow slug fm parsed filePath) ;;;
     linkOwnGames env GameDevelopers slug (sfm_games <$> fm) ;;;
     replaceOwnStudios env RelatedStudios slug (sfm_studios <$> fm) ;;;
     count (Processed EStudio))
    (recordError "studio" filePath).

Definition overviewRow (slug : string) (parsed : ParsedMarkdown)
    (filePath : string) (now : Z) : Row :=
  [("slug", FText slug);
   ("overviewText", otext (sections parsed !! "overview"));
   ("sourceFile", FText filePath);
   ("lastSyncedAt", FDate now)].

(** One turn of the loop over [publisherFiles]. *)
Definition syncPublisherFile (env : Env) (filePath : string) : M unit :=
  tryCatch
    (let slug := slugFromPath filePath in
     parsed <~ lift (parseMarkdownFile env filePath) ;;
     let fm := publisherFrontmatterSchema (frontmatter parsed) in
     saveRow env EPublisher slug (overviewRow slug parsed filePath) ;;;
     linkOwnGames env GamePublishers slug (pfm_games <$> fm) ;;;
     replaceOwnStudios env PublisherStudios slug (pfm_studios <$> fm) ;;;
     count (Processed EPublisher))
    (recordError "publisher" filePath).

(** One turn of the loop over [designerFiles]. *)
Definition syncDesignerFile (env : Env) (filePath : string) : M unit :=
  tryCatch
    (let slug := slugFromPath filePath in
     parsed <~ lift (parseMarkdownFile env filePath) ;;
     saveRow env EDesigner slug (overviewRow slug parsed filePath) ;;;
     count (Processed EDesigner))
    (recordError "designer" filePath).

Definition stubRow (kind : EntityKind) (slug : string) (now : Z) : Row :=
  match kind with
  | EStudio =>
      [("slug", FText slug); ("director", FNull); ("overviewText", FNull);
       ("sourceFile", FText "(referenced)"); ("lastSyncedAt", FDate now)]
  | _ =>
      [("slug", FText slug); ("overviewText", FNull);
       ("sourceFile", FText "(referenced)"); ("lastSyncedAt", FDate now)]
  end.

(** One turn of a loop over a set of pending references. *)
Definition createStub (env : Env) (kind : EntityKind) (slug : string) : M unit :=
  exists_ <~ selectBySlug kind slug ;;
  match exists_ with
  | Some _ => ret tt
  | None =>
      now <~ newDate env ;;
      insertRow env kind slug (stubRow kind slug now)
  end.

Definition createStubs (env : Env) (kind : EntityKind) (which : RefSet) : M unit :=
  pending <~ gets (refs which) ;;
  forEach pending (createStub env kind).

(** Phases 2 to 4: every document and the catalog. *)
Definition syncDocuments (env : Env) (csvGames : list ParsedCsvGame) : M unit :=
  forEach (globSync env "lib/games/*.md") (syncGameFile env) ;;;
  forEach csvGames (syncCsvGame env) ;;;
  forEach (globSync env "lib/studios/*.md") (syncStudioFile env) ;;;
  forEach (globSync env "lib/publishers/*.md") (syncPublisherFile env) ;;;
  forEach (globSync env "lib/designers/*.md") (syncDesignerFile env).

(** Phase 5. *)
Definition materializeStubs (env : Env) : M unit :=
  createStubs env EStudio ReferencedStudios ;;;
  createStubs env EPublisher ReferencedPublishers ;;;
  createStubs env EDesigner ReferencedDesigners.

(** The body of the transaction. *)
Definition transact (env : Env) (csvGames : list ParsedCsvGame) : M unit :=
  syncDocuments env csvGames ;;;
  materializeStubs env.

(** Phase 1, for the catalog: [(csvGames, report)] after the [try]. *)
Definition readCatalog (env : Env) : list ParsedCsvGame * SyncReport :=
  match parseCsvFile env "lib/games.csv" with
  | Ok csvGames => (csvGames, emptyReport)
  | Throw err => ([], pushError ("CSV parse error: " +:+ err) emptyReport)
  end.

Definition initialState (env : Env) (now0 : nat) (d : Db) : St :=
  {| db := d; report := snd (readCatalog env);
     referencedStudios := []; referencedPublishers := []; referencedDesigners := [];
     tick := now0 |}.

(** [syncAll]: the report and the store after the run.  A transaction that
    throws is rolled back and the exception goes to the caller.  [now0]
    is the position of the clock when the run starts. *)
Definition syncAll (env : Env) (now0 : nat) (d : Db) : result SyncReport * Db :=
  match transact env (fst (readCatalog env)) (initialState env now0 d) with
  | (Ok _, st) => (Ok (report st), db st)
  | (Throw err, _) => (Throw err, d)
  end.

(* ===================================================================== *)
(** * Sample documents and corpora, for the concrete cases *)
(* ===================================================================== *)

Module Sample.

Definition LF : string := String "010"%char "".

(** Lines joined by line feeds. *)
Definition lines (ls : list string) : string :=
  Js.str (joinL (Js.chars LF) (map Js.chars ls)).

(** A short heading, then a longer one. *)
Definition shortThenLong : string := lines ["# A"; "foo"; "## Beta"; "bar"].

(** A long heading, then a shorter one. *)
Definition longThenShort : string := lines ["## Beta"; "foo"; "# A"; "bar"].

(** The layout of the game template, without blank lines. *)
Definition gameTemplate : string :=
  lines ["# Gameplay"; "foo"; "# Synopsis"; "bar"; "# Review"; "baz"; "## Notes"; "qux"].

(** A host whose documents are given with their parsed front matter: a
    file holds its own path, and gray-matter looks the path up. *)
Definition host (gameDocs studioDocs publisherDocs designerDocs :
                   list (string * (jsobject * string)))
    (catalog : result string) : Env :=
  let docs := gameDocs ++ studioDocs ++ publisherDocs ++ designerDocs in
  {| globSync := fun pattern =>
       if String.eqb pattern "lib/games/*.md" then map fst gameDocs
       else if String.eqb pattern "lib/studios/*.md" then map fst studioDocs
       else if String.eqb pattern "lib/publishers/*.md" then map fst publisherDocs
       else if String.eqb pattern "lib/designers/*.md" then map fst designerDocs
       else [];
     readFileSync := fun path =>
       if String.eqb path "lib/games.csv" then catalog else Ok path;
     matter := fun raw =>
       match List.find (fun doc => String.eqb (fst doc) raw) docs with
       | Some (_, parsed) => Ok parsed
       | None => Throw "YAMLException"
       end;
     toISOString := fun _ => "1970-01-01T00:00:00.000Z";
     clock := fun n => Z.of_nat n;
     sqliteError := fun t => "UNIQUE constraint failed: " +:+ t |}.

Definition noCatalog : result string := Throw "ENOENT".

(** A catalog whose only data line has one column for a header of four. *)
Definition shortLineCatalog : string := lines ["name,status,platform,notes"; "Doom"].

Definition quietHost : Env := host [] [] [] [] noCatalog.

(** A publisher row that a reference created, and the row that its
    document gives later, with the same overview. *)
Definition storedPublisher : Row :=
  [("slug", FText "Valve"); ("overviewText", FText "A publisher.");
   ("sourceFile", FText "(referenced)"); ("lastSyncedAt", FDate 7)].

Definition incomingPublisher : Row :=
  [("slug", FText "Valve"); ("overviewText", FText "A publisher.");
   ("sourceFile", FText "lib/publishers/Valve.md"); ("lastSyncedAt", FDate 99)].

Definition stateOf (d : Db) : St :=
  {| db := d; report := emptyReport; referencedStudios := [];
     referencedPublishers := []; referencedDesigners := []; tick := 0 |}.

Definition stateWithPublisher : St :=
  stateOf (set_table EPublisher {[ "Valve" := storedPublisher ]} emptyDb).

Definition overviewBody : string := lines ["# Overview"; "Makes games."].

(** A studio document whose [class] is misspelt. *)
Definition invalidStudioHost : Env :=
  host [] [("lib/studios/Valve.md", ([("class", JStr "studi0")], overviewBody))] [] []
    noCatalog.

(** A studio with a director, one game and two related studios. *)
Definition groupStudioDoc : jsobject :=
  [("class", JStr "studio"); ("director", JStr "[[Dana]]");
   ("games", JArr [JStr "[[G]]"]);
   ("studios", JArr [JStr "[[North]]"; JStr "[[South]]"])].

Definition groupStudioHost : Env :=
  host [] [("lib/studios/S.md", (groupStudioDoc, ""))] [] [] noCatalog.

(** A publisher with one game and two studios. *)
Definition groupPublisherDoc : jsobject :=
  [("class", JStr "publisher"); ("games", JArr [JStr "[[G]]"]);
   ("studios", JArr [JStr "[[North]]"; JStr "[[South]]"])].

Definition groupPublisherHost : Env :=
  host [] [] [("lib/publishers/P.md", (groupPublisherDoc, ""))] [] noCatalog.

(** A designer document whose [class] is that of a studio. *)
Definition misfiledDesignerHost : Env :=
  host [] [] [] [("lib/designers/D.md", ([("class", JStr "studio")], overviewBody))]
    noCatalog.

(** A game document that names the same developer twice, once as a
    wiki link and once plainly, and no publisher. *)
Definition duplicateDeveloperDoc : jsobject :=
  [("class", JStr "game"); ("developer", JArr [JStr "[[A]]"; JStr "A"])].

Definition duplicateDeveloperHost : Env :=
  host [("lib/games/G.md", (duplicateDeveloperDoc, ""))] [] [] [] noCatalog.

(** A store where game G is linked to publisher P. *)
Definition storeWithPublisherLink : Db := set_jtable GamePublishers [("G", "P")] emptyDb.

(** A game document with two developers and one publisher. *)
Definition twoDevelopersDoc : jsobject :=
  [("class", JStr "game"); ("developer", JArr [JStr "[[A]]"; JStr "[[B]]"]);
   ("publisher", JStr "[[P]]")].

Definition twoDevelopersHost : Env :=
  host [("lib/games/G.md", (twoDevelopersDoc, ""))] [] [] [] noCatalog.

Definition parsedOf (data : jsobject) (content : string) : ParsedMarkdown :=
  {| frontmatter := data; sections := splitContentSections content; rawContent := content |}.

(** A game that names studio S, and the document of S that names the
    game. *)
Definition gameOfStudioDoc : jsobject :=
  [("class", JStr "game"); ("developer", JArr [JStr "[[S]]"])].

Definition studioOfGameDoc : jsobject :=
  [("class", JStr "studio"); ("games", JArr [JStr "[[G]]"])].

Definition bothSidesHost : Env :=
  host [("lib/games/G.md", (gameOfStudioDoc, ""))]
       [("lib/studios/S.md", (studioOfGameDoc, ""))] [] [] noCatalog.

(** A studio that names a game which has no document and no catalog line. *)
Definition studioOfGhostDoc : jsobject :=
  [("class", JStr "studio"); ("games", JStr "[[Ghost]]")].

Definition ghostGameHost : Env :=
  host [] [("lib/studios/S.md", (studioOfGhostDoc, ""))] [] [] noCatalog.

(** A catalog with a trailing comma on every line, padded cells and the
    known misspellings. *)
Definition typoCatalog : string :=
  lines ["Name,Status,Platform,Notes,"; " Doom ,Finished,Xbok 360,"; "Quake,not startedv,,"].

Definition catalogHost : Env := host [] [] [] [] (Ok typoCatalog).

End Sample.

(* ===================================================================== *)
(** * Vocabulary of the statements *)
(* ===================================================================== *)

(** Every value of the record is a string, as in [Record<string, string>]. *)
Definition allStrings (o : jsobject) : Prop :=
  forall k v, prop k o = Some v -> exists s, v = JStr s.

(** The state a computation leaves, whether it returns or throws. *)
Definition run {A} (m : M A) (st : St) : St := snd (m st).

(** The computation returns from every state. *)
Definition nothrow {A} (m : M A) : Prop := forall st, exists a, fst (m st) = Ok a.

(** The computation takes every state to a state related by [R]. *)
Definition rel (R : St -> St -> Prop) {A} (m : M A) : Prop :=
  forall st, R st (run m st).

(** The change records of the fields whose serialized values differ. *)
Definition changedFields (env : Env) (slug : string) (kind : EntityKind)
    (existing incoming : Row) : list Change :=
  omap (fun fieldName =>
          let oldVal := serialize env (field fieldName existing) in
          let newVal := serialize env (field fieldName incoming) in
          if bool_decide (oldVal = newVal) then None
          else Some {| entity := slug; entityType := kind; field_ := fieldName;
                       oldValue := oldVal; newValue := newVal |})
       (fieldsToCompare incoming).

(** Equal under serialization on every compared field. *)
Definition sameComparable (env : Env) (existing incoming : Row) : Prop :=
  forall f, f ∈ fieldsToCompare incoming ->
    serialize env (field f existing) = serialize env (field f incoming).

Definition addChanges (cs : list Change) (r : SyncReport) : SyncReport :=
  fold_left (fun r c => pushChange c r) cs r.

(** The targets a replacement inserts before it meets one it has already
    inserted, and whether it meets one. *)
Fixpoint freshPrefix (seen : list string) (targets : list string) : list string * bool :=
  match targets with
  | [] => ([], false)
  | x :: targets' =>
      if bool_decide (x ∈ seen) then ([], true)
      else let '(p, dup) := freshPrefix (seen ++ [x]) targets' in (x :: p, dup)
  end.

(** The rows of a junction table under one key. *)
Definition rowsOf (slug : string) (t : list (string * string)) : list (string * string) :=
  List.filter (fun r => String.eqb (fst r) slug) t.

(** The rows of a junction table under the other keys. *)
Definition rowsNotOf (slug : string) (t : list (string * string)) : list (string * string) :=
  List.filter (fun r => negb (String.eqb (fst r) slug)) t.

(** The computation throws from every state. *)
Definition throws {A} (m : M A) : Prop := forall st, exists e, fst (m st) = Throw e.

(** [P] is kept: the relation of the states before and after. *)
Definition keeps (P : St -> Prop) : St -> St -> Prop := fun st st' => P st -> P st'.

(** The entity kind a set of pending references is about. *)
Definition kindOf (which : RefSet) : EntityKind :=
  match which with
  | ReferencedStudios => EStudio
  | ReferencedPublishers => EPublisher
  | ReferencedDesigners => EDesigner
  end.

(** The junction tables are as before. *)
Definition keepJunctions (st st' : St) : Prop :=
  forall j, jtable j (db st') = jtable j (db st).

(** The junction tables and the pending references are as before. *)
Definition keepLinks (st st' : St) : Prop :=
  (forall j, jtable j (db st') = jtable j (db st)) /\
  (forall w, refs w st' = refs w st).

(** No row is removed, and a row outside [W] that exists is left as it is. *)
Definition growTables (W : EntityKind -> string -> Prop) (st st' : St) : Prop :=
  (forall k s, is_Some (table k (db st) !! s) -> is_Some (table k (db st') !! s)) /\
  (forall k s r, table k (db st) !! s = Some r -> ~ W k s -> table k (db st') !! s = Some r).

(** No pair is removed from junction table [j]. *)
Definition growJunction (j : Junction) (st st' : St) : Prop :=
  forall p, p ∈ jtable j (db st) -> p ∈ jtable j (db st').

(** No pending reference is forgotten. *)
Definition growRefs (st st' : St) : Prop :=
  forall w x, x ∈ refs w st -> x ∈ refs w st'.

(** The entity tables and the counts of created and updated rows and of
    changes are as before. *)
Definition keepEntities (st st' : St) : Prop :=
  (forall k, table k (db st') = table k (db st)) /\
  created (report st') = created (report st) /\
  updated (report st') = updated (report st) /\
  changes (report st') = changes (report st).

(** No pair occurs twice in junction table [j]: its primary key. *)
Definition junctionKey (j : Junction) (st : St) : Prop := NoDup (jtable j (db st)).

(** What reconciling one document of [kind] with the row [row] does to the
    store and the report: the row is created, left as it is, or replaced,
    and the document is counted. *)
Definition reconciled (env : Env) (kind : EntityKind) (slug : string) (row : Row)
    (st st' : St) : Prop :=
  keepLinks st st' /\
  (forall k, k <> kind -> table k (db st') = table k (db st)) /\
  match table kind (db st) !! slug with
  | None =>
      table kind (db st') = <[slug := row]> (table kind (db st)) /\
      report st' = bump (Processed kind) (bump Created (report st))
  | Some ex =>
      match changedFields env slug kind ex row with
      | [] =>
          table kind (db st') = table kind (db st) /\
          report st' = bump (Processed kind) (bump Unchanged (report st))
      | cs =>
          table kind (db st') = <[slug := row]> (table kind (db st)) /\
          report st' = bump (Processed kind) (bump Updated (addChanges cs (report st)))
      end
  end.

(** No error is recorded and no game is counted. *)
Definition keepErrors (st st' : St) : Prop :=
  errors (report st') = errors (report st) /\
  gamesProcessed (report st') = gamesProcessed (report st).

(** The state after a replacement of the rows of [slug] in table [j]. *)
Definition replaced (j : Junction) (slug : string) (targets : list string) (st : St) : St :=
  set_db (set_jtable j (rowsNotOf slug (jtable j (db st))
                        ++ map (pair slug) (fst (freshPrefix [] targets)))
            (db st)) st.

(** [Q] holds in the state the computation leaves, from every state. *)
Definition post (Q : St -> Prop) {A} (m : M A) : Prop := forall st, Q (run m st).

(** No pair occurs twice among the rows of [slug] in table [j]. *)
Definition keyAt (j : Junction) (slug : string) (st : St) : Prop :=
  NoDup (rowsOf slug (jtable j (db st))).

(** The pair is in table [j]. *)
Definition linked (j : Junction) (pair : string * string) (st : St) : Prop :=
  pair ∈ jtable j (db st).

(** How many rows of a junction table hold the pair. *)
Definition occurrences (pair : string * string) (t : list (string * string)) : nat :=
  length (List.filter (fun r => bool_decide (r = pair)) t).

(** [xs.forEach((x) => set.add(x))] *)
Definition addAll (xs : list string) (s : list string) : list string :=
  fold_left (fun acc x => setAdd x acc) xs s.

(** The row of [slug] in the table of [kind] is as before. *)
Definition untouched (kind : EntityKind) (slug : string) (st st' : St) : Prop :=
  table kind (db st') !! slug = table kind (db st) !! slug.

(** The pending references are as before. *)
Definition keepRefs (st st' : St) : Prop := forall w, refs w st' = refs w st.

(** The slugs that a valid game document makes pending. *)
Definition gameReferences (fm : GameFrontmatter) (w : RefSet) : list string :=
  match w with
  | ReferencedStudios => fm_developer fm
  | ReferencedPublishers => fm_publisher fm
  | ReferencedDesigners =>
      if truthy (fm_director fm) then [default "" (fm_director fm)] else []
  end.

(** The slugs that a valid studio document makes pending: its director,
    and the related studios whose pair it inserts. *)
Definition studioReferences (fm : StudioFrontmatter) (w : RefSet) : list string :=
  match w with
  | ReferencedStudios => fst (freshPrefix [] (sfm_studios fm))
  | ReferencedPublishers => []
  | ReferencedDesigners =>
      if truthy (sfm_director fm) then [default "" (sfm_director fm)] else []
  end.

(** The slugs that a valid publisher document makes pending: the studios
    whose pair it inserts. *)
Definition publisherReferences (fm : PublisherFrontmatter) (w : RefSet) : list string :=
  match w with
  | ReferencedStudios => fst (freshPrefix [] (pfm_studios fm))
  | _ => []
  end.

(** The slug is pending in set [w]. *)
Definition pending (w : RefSet) (x : string) (st : St) : Prop := x ∈ refs w st.

(** The slug has a row in the table of [kind]. *)
Definition hasRow (kind : EntityKind) (x : string) (st : St) : Prop :=
  is_Some (table kind (db st) !! x).

(** The slug has no row in the table of [kind]. *)
Definition noRow (kind : EntityKind) (x : string) (st : St) : Prop :=
  table kind (db st) !! x = None.

(** The row of the slug in the table of [kind] is a stub. *)
Definition hasStub (kind : EntityKind) (x : string) (st : St) : Prop :=
  exists now, table kind (db st) !! x = Some (stubRow kind x now).

(** The computation acts on the junction tables, seen as sets of pairs, in
    a way that does not depend on the state: it removes the pairs in [D]
    and adds the pairs in [Add]. *)
Definition affine {A} (m : M A) : Prop :=
  exists D Add : Junction -> string * string -> Prop,
    forall st j p,
      p ∈ jtable j (db (run m st)) <-> (p ∈ jtable j (db st) /\ ~ D j p) \/ Add j p.

(** The pending references that the computation leaves are a function of
    the pending references it starts with. *)
Definition refsOnly {A} (m : M A) : Prop :=
  forall st st', (forall w, refs w st = refs w st') ->
                 forall w, refs w (run m st) = refs w (run m st').

(** The table of [kind] has a row for [slug] that the document row
    [mkRow now] would leave unchanged, whatever the time of the run. *)
Definition rowSettled (env : Env) (kind : EntityKind) (slug : string) (mkRow : Z -> Row)
    (st : St) : Prop :=
  exists ex, table kind (db st) !! slug = Some ex /\
             forall now, sameComparable env ex (mkRow now).

(** No row is removed, and the row of [slug] in the table of [kind] is
    left as it is when it exists. *)
Definition spares (kind : EntityKind) (slug : string) : St -> St -> Prop :=
  growTables (fun k s => k <> kind \/ s <> slug).

(** The time of the run shows in no compared field of the row. *)
Definition timeless (mkRow : Z -> Row) : Prop :=
  forall now now',
    map fst (mkRow now') = map fst (mkRow now) /\
    forall f, f <> "lastSyncedAt" -> f <> "sourceFile" -> f <> "slug" ->
              field f (mkRow now') = field f (mkRow now).

(** The entity tables are those of [st0], and the report counts no created
    row, no updated row and no change. *)
Definition quiet (st0 st : St) : Prop :=
  (forall k, table k (db st) = table k (db st0)) /\
  created (report st) = 0 /\
  updated (report st) = 0 /\
  changes (report st) = [].

(** Every document of the corpus and every game of the catalog has its
    row in [st0], settled for the documents whose row is compared. *)
Record settled (env : Env) (csvGames : list ParsedCsvGame) (st0 : St) : Prop := {
  settled_game : forall filePath parsed fm,
    filePath ∈ globSync env "lib/games/*.md" ->
    parseMarkdownFile env filePath = Ok parsed ->
    gameFrontmatterSchema env (frontmatter parsed) = Some fm ->
    rowSettled env EGame (slugFromPath filePath)
      (gameRow (slugFromPath filePath) fm parsed filePath) st0;
  settled_invalid_game : forall filePath parsed,
    filePath ∈ globSync env "lib/games/*.md" ->
    parseMarkdownFile env filePath = Ok parsed ->
    gameFrontmatterSchema env (frontmatter parsed) = None ->
    hasRow EGame (slugFromPath filePath) st0;
  settled_catalog : forall g, g ∈ csvGames -> hasRow EGame (pc_slug g) st0;
  settled_studio : forall filePath parsed,
    filePath ∈ globSync env "lib/studios/*.md" ->
    parseMarkdownFile env filePath = Ok parsed ->
    rowSettled env EStudio (slugFromPath filePath)
      (studioRow (slugFromPath filePath) (studioFrontmatterSchema (frontmatter parsed))
         parsed filePath) st0;
  settled_publisher : forall filePath parsed,
    filePath ∈ globSync env "lib/publishers/*.md" ->
    parseMarkdownFile env filePath = Ok parsed ->
    rowSettled env EPublisher (slugFromPath filePath)
      (overviewRow (slugFromPath filePath) parsed filePath) st0;
  settled_designer : forall filePath parsed,
    filePath ∈ globSync env "lib/designers/*.md" ->
    parseMarkdownFile env filePath = Ok parsed ->
    rowSettled env EDesigner (slugFromPath filePath)
      (overviewRow (slugFromPath filePath) parsed filePath) st0;
}.

(** The recorded errors are kept, in their order, and others may follow. *)
Definition growErrors (st st' : St) : Prop :=
  errors (report st) `prefix_of` errors (report st').

(** The error is in the report. *)
Definition reported (msg : string) (st : St) : Prop := msg ∈ errors (report st).

(** The pattern that the documents of a kind are listed with. *)
Definition pattern (kind : EntityKind) : string :=
  match kind with
  | EGame => "lib/games/*.md"
  | EStudio => "lib/studios/*.md"
  | EPublisher => "lib/publishers/*.md"
  | EDesigner => "lib/designers/*.md"
  end.

(** What a report accounts for: the documents it counts as processed and
    the errors it lists. *)
Definition accounted (r : SyncReport) : nat :=
  gamesProcessed r + studiosProcessed r + publishersProcessed r + designersProcessed r
  + length (errors r).

(** What the report accounts for is as before. *)
Definition keepAccounted (st st' : St) : Prop :=
  accounted (report st') = accounted (report st).

(** The computation accounts for one more when it returns, and for nothing
    more when it throws. *)
Definition counts {A} (m : M A) : Prop :=
  forall st,
    accounted (report (run m st)) =
    match fst (m st) with
    | Ok _ => S (accounted (report st))
    | Throw _ => accounted (report st)
    end.

(** The change tells a difference, in a field that is compared. *)
Definition realChange (c : Change) : Prop :=
  oldValue c <> newValue c /\ field_ c ∉ ["lastSyncedAt"; "sourceFile"; "slug"].

(** The updates and the changes of the report agree: no update without a
    change, no change without an update, and every change is real. *)
Definition changesExplained (st : St) : Prop :=
  updated (report st) <= length (changes (report st)) /\
  (updated (report st) = 0 -> changes (report st) = []) /\
  Forall realChange (changes (report st)).

(** The count of updates and the changes are as before. *)
Definition keepChanges (st st' : St) : Prop :=
  updated (report st') = updated (report st) /\
  changes (report st') = changes (report st).

(** The value of a hexadecimal digit that [hexDigit] writes. *)
Definition unhex (c : ascii) : nat :=
  match List.find (fun n => Ascii.eqb (hexDigit n) c) (seq 0 16) with
  | Some n => n
  | None => 0
  end.

(** Reading back one code unit that [jsonChar] wrote: the unit, and what
    follows it. *)
Definition unjsonChar (l : list ascii) : option (ascii * list ascii) :=
  match l with
  | [] => None
  | a :: l' =>
      if Ascii.eqb a "\" then
        match l' with
        | [] => None
        | b :: l'' =>
            if Ascii.eqb b "034" then Some ("034"%char, l'')
            else if Ascii.eqb b "\" then Some ("\"%char, l'')
            else if Ascii.eqb b "b" then Some ("008"%char, l'')
            else if Ascii.eqb b "f" then Some ("012"%char, l'')
            else if Ascii.eqb b "n" then Some ("010"%char, l'')
            else if Ascii.eqb b "r" then Some ("013"%char, l'')
            else if Ascii.eqb b "t" then Some ("009"%char, l'')
            else if Ascii.eqb b "u" then
              match l'' with
              | _ :: _ :: h1 :: h2 :: rest =>
                  Some (ascii_of_nat (16 * unhex h1 + unhex h2), rest)
              | _ => None
              end
            else None
        end
      else if Ascii.eqb a "034" then None
      else Some (a, l')
  end.

(** The row of the slug in the games table is the row of an entry of the
    catalog. *)
Definition hasCatalogRow (csvGames : list ParsedCsvGame) (slug : string) (st : St) : Prop :=
  exists g now,
    g ∈ csvGames /\ pc_slug g = slug /\
    table EGame (db st) !! slug = Some (csvGameRow slug (pc_row g) now).

(* ===================================================================== *)
(** * Strings: the facts the proofs use *)
(* ===================================================================== *)

Lemma chars_str (l : list ascii) : Js.chars (Js.str l) = l.
Proof. apply list_ascii_of_string_of_list_ascii. Qed.

Lemma str_chars (s : string) : Js.str (Js.chars s) = s.
Proof. apply string_of_list_ascii_of_string. Qed.

Lemma chars_inj (s t : string) : Js.chars s = Js.chars t -> s = t.
Proof. intros H. rewrite <- (str_chars s), <- (str_chars t). now rewrite H. Qed.

Lemma is_ws_lower_char (c : ascii) : Js.is_ws (Js.lower_char c) = Js.is_ws c.
Proof. destruct c as [[] [] [] [] [] [] [] []]; reflexivity. Qed.

Lemma trimStartL_lower (l : list ascii) :
  Js.trimStartL (map Js.lower_char l) = map Js.lower_char (Js.trimStartL l).
Proof.
  induction l as [|c l IH]; simpl; [reflexivity|].
  rewrite is_ws_lower_char. destruct (Js.is_ws c); [exact IH | reflexivity].
Qed.

Lemma trimEndL_lower (l : list ascii) :
  Js.trimEndL (map Js.lower_char l) = map Js.lower_char (Js.trimEndL l).
Proof.
  unfold Js.trimEndL. rewrite <- map_rev, trimStartL_lower, map_rev. reflexivity.
Qed.

(** Lower-casing and trimming commute. *)
Lemma trim_toLowerCase (s : string) :
  Js.trim (Js.toLowerCase s) = Js.toLowerCase (Js.trim s).
Proof.
  unfold Js.trim, Js.toLowerCase. rewrite !chars_str.
  now rewrite trimStartL_lower, trimEndL_lower.
Qed.

Lemma toLowerCase_empty (s : string) : Js.toLowerCase s = "" -> s = "".
Proof.
  unfold Js.toLowerCase. intros H. apply (f_equal Js.chars) in H.
  rewrite chars_str in H. destruct s; [reflexivity | discriminate H].
Qed.

Lemma falsy_spec (s : string) : Js.falsy s = true <-> s = "".
Proof. unfold Js.falsy. apply String.eqb_eq. Qed.

Lemma falsy_toLowerCase (a b : string) :
  Js.toLowerCase a = Js.toLowerCase b -> Js.falsy a = Js.falsy b.
Proof.
  intros H. destruct (Js.falsy a) eqn:Ha, (Js.falsy b) eqn:Hb; try reflexivity.
  - apply falsy_spec in Ha. subst a. symmetry in H. apply toLowerCase_empty in H.
    subst b. discriminate Hb.
  - apply falsy_spec in Hb. subst b. apply toLowerCase_empty in H.
    subst a. discriminate Ha.
Qed.

(* ===================================================================== *)
(** * Status normalization *)
(* ===================================================================== *)

Lemma normalizeStatus_case_insensitive (a b : string) :
  Js.toLowerCase a = Js.toLowerCase b ->
  normalizeStatus (Some a) = normalizeStatus (Some b).
Proof.
  intros H. unfold normalizeStatus.
  rewrite (falsy_toLowerCase a b H).
  now rewrite <- !trim_toLowerCase, H.
Qed.

(** When the value is not empty the result is decided by [n] alone; the
    empty value has [n = ""], which no rule recognises. *)
Lemma normalizeStatus_by_n (val : string) :
  normalizeStatus (Some val) =
  let n := Js.toLowerCase (Js.trim val) in
  if String.eqb n "finished" then Some "finished"
  else if String.eqb n "started" then Some "started"
  else if String.eqb n "bought" then Some "bought"
  else if Js.startsWith "not start" n then Some "not started"
  else if String.eqb n "not finished" then Some "started"
  else None.
Proof.
  unfold normalizeStatus. destruct (Js.falsy val) eqn:F; [|reflexivity].
  apply falsy_spec in F. subst val. reflexivity.
Qed.

(** C4. Status normalization looks only at the trimmed, lower-cased value
    [n]: it gives finished, started and bought for these three words,
    not started for every [n] that begins with "not start", started for
    "not finished", and absent for everything else, the empty string
    included; two inputs that differ only in case normalize alike; and the
    four inputs of the specification normalize as it says. *)
Theorem status_normalization (val : string) :
  let n := Js.toLowerCase (Js.trim val) in
  let out := statusSchema (Some (JStr val)) in
  (n = "finished" -> out = Some (Some "finished")) /\
  (n = "started" -> out = Some (Some "started")) /\
  (n = "bought" -> out = Some (Some "bought")) /\
  (Js.startsWith "not start" n = true -> out = Some (Some "not started")) /\
  (n = "not finished" -> out = Some (Some "started")) /\
  (n <> "finished" -> n <> "started" -> n <> "bought" ->
   Js.startsWith "not start" n = false -> n <> "not finished" -> out = Some None) /\
  (forall other, Js.toLowerCase other = Js.toLowerCase val ->
     statusSchema (Some (JStr other)) = out) /\
  statusSchema (Some (JStr "")) = Some None /\
  statusSchema (Some JNull) = Some None /\
  statusSchema None = Some None /\
  statusSchema (Some (JStr "Finished")) = Some (Some "finished") /\
  statusSchema (Some (JStr " started ")) = Some (Some "started") /\
  statusSchema (Some (JStr "not startedv")) = Some (Some "not started") /\
  statusSchema (Some (JStr "not finished")) = Some (Some "started").
Proof.
  cbv zeta.
  assert (E : statusSchema (Some (JStr val)) = Some (normalizeStatus (Some val)))
    by reflexivity.
  rewrite E, normalizeStatus_by_n. cbv zeta.
  set (n := Js.toLowerCase (Js.trim val)).
  repeat split; try reflexivity.
  - intros ->. reflexivity.
  - intros ->. reflexivity.
  - intros ->. reflexivity.
  - intros H.
    destruct (String.eqb n "finished") eqn:E1;
      [apply String.eqb_eq in E1; rewrite E1 in H; discriminate H|].
    destruct (String.eqb n "started") eqn:E2;
      [apply String.eqb_eq in E2; rewrite E2 in H; discriminate H|].
    destruct (String.eqb n "bought") eqn:E3;
      [apply String.eqb_eq in E3; rewrite E3 in H; discriminate H|].
    now rewrite H.
  - intros ->. reflexivity.
  - intros H1 H2 H3 H4 H5.
    apply String.eqb_neq in H1, H2, H3, H5. now rewrite H1, H2, H3, H4, H5.
  - intros other H. subst n. rewrite <- normalizeStatus_by_n.
    assert (E' : statusSchema (Some (JStr other)) = Some (normalizeStatus (Some other)))
      by reflexivity.
    rewrite E'. f_equal. now apply normalizeStatus_case_insensitive.
Qed.

Lemma status_normalization_witness :
  statusSchema (Some (JStr "  NOT Starting soon")) = Some (Some "not started") /\
  statusSchema (Some (JStr "BoUgHt ")) = Some (Some "bought") /\
  statusSchema (Some (JStr "wishlist")) = Some None.
Proof.
  split; [|split].
  - apply (proj1 (proj2 (proj2 (proj2 (status_normalization "  NOT Starting soon"))))).
    reflexivity.
  - apply (proj1 (proj2 (proj2 (status_normalization "BoUgHt ")))). reflexivity.
  - apply (proj1 (proj2 (proj2 (proj2 (proj2 (proj2 (status_normalization "wishlist"))))))).
    all: (discriminate || reflexivity).
Defined.

(* ===================================================================== *)
(** * The document parser at concrete documents *)
(* ===================================================================== *)

(** The headings of the first sample: ["# A"] ends at 3 and ["## Beta"]
    at 15. *)
Example findHeadings_shortThenLong :
  findHeadings Sample.shortThenLong =
  [{| h_name := "a"; h_index := 3 |}; {| h_name := "beta"; h_index := 15 |}].
Proof. vm_compute. reflexivity. Qed.

(** The length that is taken off the end of heading 1 is the length of
    heading 0, the first match in the text before it. *)
Example headingTailLength_shortThenLong :
  headingTailLength Sample.shortThenLong 15 = 3.
Proof. vm_compute. reflexivity. Qed.

(** C3. The end of a section is computed from the length of the first
    heading of the document, not of the next one: after a short first
    heading the section runs into the next heading line; after a long
    first heading it is cut short, here to nothing, so the key is not
    bound; and in the layout of the game template the sections lose their
    last characters. *)
Theorem section_end_uses_first_heading_length :
  splitContentSections Sample.shortThenLong !! "a" = Some (Sample.lines ["foo"; "## B"]) /\
  splitContentSections Sample.shortThenLong !! "a" <> Some "foo" /\
  splitContentSections Sample.longThenShort !! "beta" = None /\
  splitContentSections Sample.gameTemplate !! "synopsis" = Some "ba".
Proof.
  repeat split; try (vm_compute; reflexivity).
  vm_compute. discriminate.
Qed.

(* ===================================================================== *)
(** * The catalog parser *)
(* ===================================================================== *)

Lemma prop_setProp (k k' : string) (v : jsval) (o : jsobject) :
  prop k (setProp k' v o) = if String.eqb k k' then Some v else prop k o.
Proof.
  induction o as [|[k0 v0] o IH]; simpl.
  - reflexivity.
  - destruct (String.eqb k' k0) eqn:E'; simpl.
    + apply String.eqb_eq in E'. subst k0.
      destruct (String.eqb k k'); reflexivity.
    + rewrite IH. destruct (String.eqb k k0) eqn:E0; [|reflexivity].
      apply String.eqb_eq in E0. subst k0.
      rewrite String.eqb_sym, E'. reflexivity.
Qed.

Lemma allStrings_setProp (k : string) (s : string) (o : jsobject) :
  allStrings o -> allStrings (setProp k (JStr s) o).
Proof.
  intros H k' v. rewrite prop_setProp.
  destruct (String.eqb k' k); [intros [= <-]; eauto | apply H].
Qed.

Lemma allStrings_fillRecord (header values : list string) (o : jsobject) :
  allStrings o -> allStrings (fillRecord header values o).
Proof.
  revert values o. induction header as [|h header IH]; intros values o H; simpl.
  - exact H.
  - apply IH. now apply allStrings_setProp.
Qed.

Lemma allStrings_csvRecord (header : list string) (rawLine : string) :
  allStrings (csvRecord header rawLine).
Proof. apply allStrings_fillRecord. intros k v H. discriminate H. Qed.

(** The guard [!record.name || record.name === ""] on a record of strings. *)
Lemma nameMissing_spec (record : jsobject) :
  allStrings record ->
  nameMissing record = true <->
  (prop "name" record = None \/ prop "name" record = Some (JStr "")).
Proof.
  intros H. unfold nameMissing.
  destruct (prop "name" record) as [v|] eqn:E.
  - destruct (H _ _ E) as [s ->]. rewrite falsy_spec. split.
    + intros ->. now right.
    + intros [H'|[= ->]]; [discriminate H' | reflexivity].
  - split; [now left | reflexivity].
Qed.

(** A schema for an optional string accepts whatever a record of strings
    holds under the key. *)
Lemma optional_string_accepts (record : jsobject) (k : string)
    {B} (f : option string -> B) :
  allStrings record ->
  exists b, transform (optionalNullable zString) f (prop k record) = Some b.
Proof.
  intros H. unfold transform, optionalNullable.
  destruct (prop k record) as [v|] eqn:E; [|eauto].
  destruct (H _ _ E) as [s ->]. simpl. eauto.
Qed.

(** Validation of a catalog record only needs the name to be there. *)
Lemma csvRowSchema_total (record : jsobject) (name : string) :
  allStrings record ->
  prop "name" record = Some (JStr name) ->
  exists data, csvRowSchema record = Some data /\ csv_name data = Js.trim name.
Proof.
  intros H Hn. unfold csvRowSchema. rewrite Hn.
  destruct (optional_string_accepts record "status" normalizeStatus H) as [st Hst].
  destruct (optional_string_accepts record "platform" normalizePlatform H) as [pl Hpl].
  destruct (optional_string_accepts record "notes" trimOrNull H) as [nt Hnt].
  unfold statusSchema, platformSchema. simpl. rewrite Hst, Hpl, Hnt. simpl. eauto.
Qed.

(** A line is skipped exactly when its name is missing or blank. *)
Lemma csvLine_None (header : list string) (rawLine : string) :
  csvLine header rawLine = None <-> nameMissing (csvRecord header rawLine) = true.
Proof.
  unfold csvLine.
  pose proof (allStrings_csvRecord header rawLine) as HS.
  destruct (nameMissing (csvRecord header rawLine)) eqn:E; [tauto|].
  split; [|discriminate].
  assert (exists name, prop "name" (csvRecord header rawLine) = Some (JStr name)) as [name Hn].
  { destruct (prop "name" (csvRecord header rawLine)) as [v|] eqn:E'.
    - destruct (HS _ _ E') as [s ->]. eauto.
    - unfold nameMissing in E. rewrite E' in E. discriminate E. }
  destruct (csvRowSchema_total _ _ HS Hn) as [data [-> _]]. discriminate.
Qed.

Lemma parseCsvFile_readable (env : Env) (path raw : string) :
  readFileSync env path = Ok raw ->
  parseCsvFile env path =
  Ok match csvLines raw with
     | [] => []
     | line0 :: lines => omap (csvLine (csvHeader line0)) lines
     end.
Proof. intros H. unfold parseCsvFile. rewrite H. now destruct (csvLines raw). Qed.

(** With no cell left, every column of the header reads as empty. *)
Lemma fillRecord_no_values (header : list string) (record : jsobject) (k : string) :
  prop k (fillRecord header [] record) =
  if bool_decide (k ∈ header) then Some (JStr "") else prop k record.
Proof.
  revert record. induction header as [|h header IH]; intros record; simpl.
  - reflexivity.
  - rewrite IH, prop_setProp.
    destruct (decide (k ∈ header)) as [Hin|Hin].
    + rewrite !bool_decide_eq_true_2; [reflexivity | now right | exact Hin].
    + rewrite (bool_decide_eq_false_2 _ Hin).
      destruct (String.eqb k h) eqn:E.
      * apply String.eqb_eq in E. subst h.
        rewrite bool_decide_eq_true_2; [reflexivity | now left].
      * apply String.eqb_neq in E. rewrite bool_decide_eq_false_2; [reflexivity|].
        intros Hk. apply list_elem_of_In in Hk. destruct Hk as [->|Hk]; [now apply E|].
        apply Hin. now apply list_elem_of_In.
Qed.

(** A column beyond the cells of the line reads as the empty string. *)
Lemma fillRecord_padding (header values : list string) (record : jsobject) (k : string) :
  k ∈ skipn (length values) header ->
  prop k (fillRecord header values record) = Some (JStr "").
Proof.
  revert header record. induction values as [|v values IH]; intros header record Hk.
  - simpl in Hk. rewrite fillRecord_no_values. now rewrite bool_decide_eq_true_2.
  - destruct header as [|h header]; simpl in Hk.
    + now apply elem_of_nil in Hk.
    + simpl. now apply IH.
Qed.

(** C8, as the code has it. Once the file is read, [parseCsvFile] returns:
    no data line makes it raise.  A data line is left out exactly when its
    name cell is missing or blank, so every entry comes from a line with a
    name.  The number of cells of a line plays no part: a column that the
    line has no cell for reads as the empty string. *)
Theorem parseCsvFile_skips_nameless_lines (env : Env) (path raw : string) :
  readFileSync env path = Ok raw ->
  exists results,
    parseCsvFile env path = Ok results /\
    forall line0 lines, csvLines raw = line0 :: lines ->
      let header := csvHeader line0 in
      (forall line, line ∈ lines ->
         (csvLine header line = None <->
          prop "name" (csvRecord header line) = None \/
          prop "name" (csvRecord header line) = Some (JStr ""))) /\
      (forall entry, entry ∈ results ->
         exists line name,
           line ∈ lines /\ csvLine header line = Some entry /\
           prop "name" (csvRecord header line) = Some (JStr name) /\ name <> "") /\
      (forall line k, line ∈ lines ->
         k ∈ skipn (length (csvCells line)) header ->
         prop k (csvRecord header line) = Some (JStr "")).
Proof.
  intros Hread. rewrite (parseCsvFile_readable _ _ _ Hread).
  eexists. split; [reflexivity|].
  intros line0 lines Hlines header. rewrite Hlines. repeat split.
  - rewrite csvLine_None.
    apply nameMissing_spec, allStrings_csvRecord.
  - rewrite csvLine_None.
    apply nameMissing_spec, allStrings_csvRecord.
  - intros entry Hin. apply list_elem_of_omap in Hin as [line [Hline Hsome]].
    pose proof (allStrings_csvRecord header line) as HS.
    assert (nameMissing (csvRecord header line) = false) as Hname.
    { destruct (nameMissing (csvRecord header line)) eqn:E; [|reflexivity].
      apply csvLine_None in E. fold header in Hsome. congruence. }
    destruct (prop "name" (csvRecord header line)) as [v|] eqn:E.
    + destruct (HS _ _ E) as [name ->]. exists line, name.
      repeat split; try assumption.
      intros ->. unfold nameMissing in Hname. rewrite E in Hname. discriminate Hname.
    + unfold nameMissing in Hname. rewrite E in Hname. discriminate Hname.
  - intros line k _ Hk. now apply fillRecord_padding.
Qed.

Lemma parseCsvFile_skips_nameless_lines_witness :
  exists results,
    parseCsvFile (Sample.host [] [] [] [] (Ok Sample.shortLineCatalog)) "lib/games.csv"
    = Ok results /\ length results = 1.
Proof.
  destruct (parseCsvFile_skips_nameless_lines
              (Sample.host [] [] [] [] (Ok Sample.shortLineCatalog))
              "lib/games.csv" Sample.shortLineCatalog eq_refl)
    as [results [Hres _]].
  exists results. split; [exact Hres|].
  vm_compute in Hres. injection Hres as <-. reflexivity.
Defined.

(** C8 as stated fails: a data line with one cell under a header of four
    columns is not left out. *)
Lemma short_line_is_kept :
  length (csvCells "Doom") < length (csvHeader "name,status,platform,notes") /\
  parseCsvFile (Sample.host [] [] [] [] (Ok Sample.shortLineCatalog)) "lib/games.csv" =
  Ok [{| pc_slug := "Doom";
         pc_row := {| csv_name := "Doom"; csv_status := None;
                      csv_platform := None; csv_notes := None |} |}].
Proof. split; [vm_compute; lia | vm_compute; reflexivity]. Qed.



(* ===================================================================== *)
(** * The monad *)
(* ===================================================================== *)

Lemma bind_ok {A B} (m : M A) (k : A -> M B) (st st' : St) (a : A) :
  m st = (Ok a, st') -> bind m k st = k a st'.
Proof. intros H. unfold bind. now rewrite H. Qed.

Lemma bind_throw {A B} (m : M A) (k : A -> M B) (st st' : St) (e : string) :
  m st = (Throw e, st') -> bind m k st = (Throw e, st').
Proof. intros H. unfold bind. now rewrite H. Qed.

Lemma St_eta (st : St) :
  {| db := db st; report := report st; referencedStudios := referencedStudios st;
     referencedPublishers := referencedPublishers st;
     referencedDesigners := referencedDesigners st; tick := tick st |} = st.
Proof. now destruct st. Qed.

Lemma set_report_id (st : St) : set_report (report st) st = st.
Proof. apply St_eta. Qed.

Lemma set_db_id (st : St) : set_db (db st) st = st.
Proof. apply St_eta. Qed.

Lemma set_table_id (kind : EntityKind) (d : Db) : set_table kind (table kind d) d = d.
Proof. now destruct kind, d. Qed.

Lemma set_jtable_id (j : Junction) (d : Db) : set_jtable j (jtable j d) d = d.
Proof. now destruct j, d. Qed.

Lemma table_set_table (k k' : EntityKind) (t : gmap string Row) (d : Db) :
  table k (set_table k' t d) = if decide (k = k') then t else table k d.
Proof. now destruct k, k'. Qed.

Lemma jtable_set_table (j : Junction) (k : EntityKind) (t : gmap string Row) (d : Db) :
  jtable j (set_table k t d) = jtable j d.
Proof. now destruct j, k. Qed.

Lemma jtable_set_jtable (j j' : Junction) (t : list (string * string)) (d : Db) :
  jtable j (set_jtable j' t d) = if decide (j = j') then t else jtable j d.
Proof. now destruct j, j'. Qed.

Lemma table_set_jtable (k : EntityKind) (j : Junction) (t : list (string * string)) (d : Db) :
  table k (set_jtable j t d) = table k d.
Proof. now destruct j, k. Qed.

(* ===================================================================== *)
(** * Change detection and the shared upsert *)
(* ===================================================================== *)

Lemma changes_addChanges (cs : list Change) (r : SyncReport) :
  changes (addChanges cs r) = changes r ++ cs.
Proof.
  unfold addChanges. revert r. induction cs as [|c cs IH]; intros r; simpl.
  - now rewrite app_nil_r.
  - rewrite IH. simpl. now rewrite <- app_assoc.
Qed.

Lemma addChanges_nil (r : SyncReport) : addChanges [] r = r.
Proof. reflexivity. Qed.

Lemma detectChanges_spec (env : Env) (slug : string) (kind : EntityKind)
    (ex row : Row) (st : St) :
  detectChanges env slug kind ex row st =
  (Ok tt, set_report (addChanges (changedFields env slug kind ex row) (report st)) st).
Proof.
  unfold detectChanges, changedFields.
  generalize (fieldsToCompare row) as fs. intros fs. revert st.
  induction fs as [|f fs IH]; intros st.
  - simpl. unfold ret. now rewrite set_report_id.
  - cbn [forEach omap list_omap].
    destruct (bool_decide (serialize env (field f ex) = serialize env (field f row))).
    + unfold bind at 1. unfold ret at 1. apply IH.
    + unfold bind at 1. unfold modify at 1. rewrite IH. reflexivity.
Qed.

Lemma changedFields_nil (env : Env) (slug : string) (kind : EntityKind) (ex row : Row) :
  changedFields env slug kind ex row = [] <-> sameComparable env ex row.
Proof.
  unfold changedFields, sameComparable.
  induction (fieldsToCompare row) as [|f fs IH]; cbn [omap list_omap].
  - split; [intros _ f Hf; now apply elem_of_nil in Hf | reflexivity].
  - destruct (bool_decide (serialize env (field f ex) = serialize env (field f row))) eqn:E.
    + apply bool_decide_eq_true in E. rewrite IH. split.
      * intros H f' Hf'. apply elem_of_cons in Hf' as [->|Hf']; [exact E | now apply H].
      * intros H f' Hf'. apply H. now right.
    + apply bool_decide_eq_false in E. split; [discriminate|].
      intros H. exfalso. apply E, H. now left.
Qed.

(** What the shared block does when the row exists. *)
Lemma upsert_existing (env : Env) (kind : EntityKind) (slug : string) (ex row : Row) (st : St) :
  table kind (db st) !! slug = Some ex ->
  upsert env kind slug (Some ex) row st =
  match changedFields env slug kind ex row with
  | [] => (Ok tt, set_report (bump Unchanged (report st)) st)
  | cs =>
      (Ok tt,
       set_report (bump Updated (addChanges cs (report st)))
         (set_db (set_table kind (<[slug := updatedRow kind ex row]> (table kind (db st)))
                    (db st)) st))
  end.
Proof.
  intros Hex. unfold upsert.
  unfold bind at 1. unfold gets at 1.
  unfold bind at 1. rewrite detectChanges_spec.
  unfold bind at 1. unfold gets at 1. cbn [report set_report].
  rewrite changes_addChanges, length_app.
  destruct (changedFields env slug kind ex row) as [|c cs] eqn:E.
  - simpl length. rewrite Nat.add_0_r, Nat.ltb_irrefl.
    unfold count, modify. cbn. now rewrite set_report_id.
  - assert ((length (changes (report st)) <? length (changes (report st)) + length (c :: cs)) = true)
      as -> by (apply Nat.ltb_lt; simpl; lia).
    unfold bind, updateRow, count, modify. cbn [db set_report report].
    rewrite Hex. reflexivity.
Qed.

(** What the shared block does when the row is new. *)
Lemma upsert_new (env : Env) (kind : EntityKind) (slug : string) (row : Row) (st : St) :
  table kind (db st) !! slug = None ->
  upsert env kind slug None row st =
  (Ok tt,
   set_report (bump Created (report st))
     (set_db (set_table kind (<[slug := storedRow kind row]> (table kind (db st)))
                (db st)) st)).
Proof.
  intros Hex. unfold upsert, bind, insertRow, count, modify. rewrite Hex. reflexivity.
Qed.

Lemma fieldsToCompare_excludes (row : Row) (f : string) :
  f ∈ fieldsToCompare row ->
  f <> "lastSyncedAt" /\ f <> "sourceFile" /\ f <> "slug".
Proof.
  unfold fieldsToCompare. intros H. apply list_elem_of_In, filter_In in H as [_ H].
  apply andb_true_iff in H as [H H3]. apply andb_true_iff in H as [H1 H2].
  apply negb_true_iff, String.eqb_neq in H1, H2, H3. auto.
Qed.

(* ===================================================================== *)
(** * Reasoning about computations: relations between the state before
      and the state after *)
(* ===================================================================== *)

#[global] Instance keeps_preorder (P : St -> Prop) : PreOrder (keeps P).
Proof. split; unfold keeps; [intros st H; exact H | intros a b c H1 H2 H; auto]. Qed.

Lemma run_bind_ok {A B} (m : M A) (k : A -> M B) (st : St) (a : A) :
  fst (m st) = Ok a -> run (bind m k) st = run (k a) (run m st).
Proof.
  unfold run, bind. destruct (m st) as [[a'|e] st']; simpl; [|discriminate].
  now intros [= ->].
Qed.

Lemma run_bind_throw {A B} (m : M A) (k : A -> M B) (st : St) (e : string) :
  fst (m st) = Throw e -> run (bind m k) st = run m st.
Proof.
  unfold run, bind. destruct (m st) as [[a'|e'] st']; simpl; [discriminate|].
  now intros [= ->].
Qed.

Lemma fst_bind_ok {A B} (m : M A) (k : A -> M B) (st : St) (a : A) :
  fst (m st) = Ok a -> fst (bind m k st) = fst (k a (run m st)).
Proof.
  unfold run, bind. destruct (m st) as [[a'|e] st']; simpl; [|discriminate].
  now intros [= ->].
Qed.

Lemma fst_bind_throw {A B} (m : M A) (k : A -> M B) (st : St) (e : string) :
  fst (m st) = Throw e -> fst (bind m k st) = Throw e.
Proof.
  unfold run, bind. destruct (m st) as [[a'|e'] st']; simpl; [discriminate|].
  now intros [= ->].
Qed.

Lemma run_tryCatch_ok (body : M unit) (h : string -> M unit) (st : St) (a : unit) :
  fst (body st) = Ok a -> run (tryCatch body h) st = run body st.
Proof. unfold run, tryCatch. destruct (body st) as [[a'|e] st']; simpl; [easy|discriminate]. Qed.

Lemma run_tryCatch_throw (body : M unit) (h : string -> M unit) (st : St) (e : string) :
  fst (body st) = Throw e -> run (tryCatch body h) st = run (h e) (run body st).
Proof.
  unfold run, tryCatch. destruct (body st) as [[a'|e'] st']; simpl; [discriminate|].
  now intros [= ->].
Qed.

Section Rel.
Context (R : St -> St -> Prop) `{!PreOrder R}.

Lemma rel_ret {A} (a : A) : rel R (ret a).
Proof. intros st. reflexivity. Qed.

Lemma rel_gets {A} (f : St -> A) : rel R (gets f).
Proof. intros st. reflexivity. Qed.

Lemma rel_lift {A} (r : result A) : rel R (lift r).
Proof. intros st. reflexivity. Qed.

Lemma rel_modify (f : St -> St) : (forall st, R st (f st)) -> rel R (modify f).
Proof. intros H st. apply H. Qed.

Lemma rel_bind {A B} (m : M A) (k : A -> M B) :
  rel R m -> (forall a, rel R (k a)) -> rel R (bind m k).
Proof.
  intros Hm Hk st. destruct (fst (m st)) as [a|e] eqn:E.
  - rewrite (run_bind_ok _ _ _ _ E). etransitivity; [apply Hm | apply Hk].
  - rewrite (run_bind_throw _ _ _ _ E). apply Hm.
Qed.

Lemma rel_tryCatch (body : M unit) (h : string -> M unit) :
  rel R body -> (forall e, rel R (h e)) -> rel R (tryCatch body h).
Proof.
  intros Hb Hh st. destruct (fst (body st)) as [a|e] eqn:E.
  - rewrite (run_tryCatch_ok _ _ _ _ E). apply Hb.
  - rewrite (run_tryCatch_throw _ _ _ _ E). etransitivity; [apply Hb | apply Hh].
Qed.

Lemma rel_forEach {A} (l : list A) (body : A -> M unit) :
  (forall x, x ∈ l -> rel R (body x)) -> rel R (forEach l body).
Proof.
  induction l as [|x l IH]; intros H; simpl.
  - apply rel_ret.
  - apply rel_bind; [apply H; now left | intros _; apply IH].
    intros y Hy. apply H. now right.
Qed.

(** What [R] must allow for each primitive of the engine. *)
Lemma rel_selectBySlug kind slug : rel R (selectBySlug kind slug).
Proof. apply rel_gets. Qed.

Lemma rel_selectJunction j a : rel R (selectJunction j a).
Proof. apply rel_gets. Qed.

Lemma rel_newDate env :
  (forall st n, R st (set_tick n st)) -> rel R (newDate env).
Proof. intros H st. apply H. Qed.

Lemma rel_count c :
  (forall st, R st (set_report (bump c (report st)) st)) -> rel R (count c).
Proof. intros H st. apply H. Qed.

Lemma rel_recordError what filePath err :
  (forall st e, R st (set_report (pushError e (report st)) st)) ->
  rel R (recordError what filePath err).
Proof. intros H st. apply H. Qed.

Lemma rel_detectChanges env slug kind ex row :
  (forall st cs, R st (set_report (addChanges cs (report st)) st)) ->
  rel R (detectChanges env slug kind ex row).
Proof. intros H st. unfold run. rewrite detectChanges_spec. apply H. Qed.

Lemma rel_addRef which x :
  (forall st, R st (set_refs which (setAdd x (refs which st)) st)) ->
  rel R (addRef which x).
Proof. intros H st. apply H. Qed.

Lemma rel_insertRow env kind slug values :
  (forall st, table kind (db st) !! slug = None ->
     R st (set_db (set_table kind (<[slug := storedRow kind values]> (table kind (db st)))
                     (db st)) st)) ->
  rel R (insertRow env kind slug values).
Proof.
  intros H st. unfold run, insertRow.
  destruct (table kind (db st) !! slug) eqn:E; simpl; [reflexivity | now apply H].
Qed.

Lemma rel_updateRow kind slug values :
  (forall st old, table kind (db st) !! slug = Some old ->
     R st (set_db (set_table kind (<[slug := updatedRow kind old values]> (table kind (db st)))
                     (db st)) st)) ->
  rel R (updateRow kind slug values).
Proof.
  intros H st. unfold run, updateRow, modify. simpl.
  destruct (table kind (db st) !! slug) eqn:E; [now apply H | reflexivity].
Qed.

Lemma rel_deleteJunction j a :
  (forall st, R st (set_db (set_jtable j (rowsNotOf a (jtable j (db st))) (db st)) st)) ->
  rel R (deleteJunction j a).
Proof. intros H st. apply H. Qed.

Lemma rel_insertJunction env j pair :
  (forall st, pair ∉ jtable j (db st) ->
     R st (set_db (set_jtable j (jtable j (db st) ++ [pair]) (db st)) st)) ->
  rel R (insertJunction env j pair).
Proof.
  intros H st. unfold run, insertJunction.
  destruct (bool_decide (pair ∈ jtable j (db st))) eqn:E; simpl; [reflexivity|].
  apply H. now apply bool_decide_eq_false in E.
Qed.
End Rel.

(** The computations that always return. *)
Lemma nothrow_ret {A} (a : A) : nothrow (ret a).
Proof. intros st. now exists a. Qed.

Lemma nothrow_gets {A} (f : St -> A) : nothrow (gets f).
Proof. intros st. now eexists. Qed.

Lemma nothrow_modify (f : St -> St) : nothrow (modify f).
Proof. intros st. now eexists. Qed.

Lemma nothrow_bind {A B} (m : M A) (k : A -> M B) :
  nothrow m -> (forall a, nothrow (k a)) -> nothrow (bind m k).
Proof.
  intros Hm Hk st. destruct (Hm st) as [a Ha].
  rewrite (fst_bind_ok _ _ _ _ Ha). apply Hk.
Qed.

Lemma nothrow_tryCatch (body : M unit) (h : string -> M unit) :
  (forall e, nothrow (h e)) -> nothrow (tryCatch body h).
Proof.
  intros Hh st. unfold tryCatch. destruct (body st) as [[a|e] st']; simpl.
  - now eexists.
  - apply Hh.
Qed.

Lemma nothrow_forEach {A} (l : list A) (body : A -> M unit) :
  (forall x, x ∈ l -> nothrow (body x)) -> nothrow (forEach l body).
Proof.
  induction l as [|x l IH]; intros H; simpl.
  - apply nothrow_ret.
  - apply nothrow_bind; [apply H; now left | intros _; apply IH].
    intros y Hy. apply H. now right.
Qed.

Lemma run_seq {A B} (m : M A) (k : M B) (st : St) :
  nothrow m -> run (m ;;; k) st = run k (run m st).
Proof. intros H. destruct (H st) as [a Ha]. apply (run_bind_ok _ _ _ _ Ha). Qed.

Lemma fst_seq {A B} (m : M A) (k : M B) (st : St) :
  nothrow m -> fst ((m ;;; k) st) = fst (k (run m st)).
Proof. intros H. destruct (H st) as [a Ha]. apply (fst_bind_ok _ _ _ _ Ha). Qed.

Lemma run_forEach_cons {A} (x : A) (l : list A) (body : A -> M unit) (st : St) :
  nothrow (body x) ->
  run (forEach (x :: l) body) st = run (forEach l body) (run (body x) st).
Proof. intros H. simpl. now apply run_seq. Qed.

Lemma run_forEach_app {A} (l1 l2 : list A) (body : A -> M unit) (st : St) :
  (forall x, x ∈ l1 -> nothrow (body x)) ->
  run (forEach (l1 ++ l2) body) st = run (forEach l2 body) (run (forEach l1 body) st).
Proof.
  revert st. induction l1 as [|x l1 IH]; intros st H.
  - reflexivity.
  - rewrite <- app_comm_cons, !run_forEach_cons by (apply H; now left).
    apply IH. intros y Hy. apply H. now right.
Qed.

(* ===================================================================== *)
(** * Projections of updated states *)
(* ===================================================================== *)

Lemma db_set_db d st : db (set_db d st) = d.
Proof. reflexivity. Qed.
Lemma db_set_report r st : db (set_report r st) = db st.
Proof. reflexivity. Qed.
Lemma db_set_refs w s st : db (set_refs w s st) = db st.
Proof. now destruct w. Qed.
Lemma db_set_tick n st : db (set_tick n st) = db st.
Proof. reflexivity. Qed.
Lemma report_set_db d st : report (set_db d st) = report st.
Proof. reflexivity. Qed.
Lemma report_set_report r st : report (set_report r st) = r.
Proof. reflexivity. Qed.
Lemma report_set_refs w s st : report (set_refs w s st) = report st.
Proof. now destruct w. Qed.
Lemma report_set_tick n st : report (set_tick n st) = report st.
Proof. reflexivity. Qed.
Lemma refs_set_db w d st : refs w (set_db d st) = refs w st.
Proof. now destruct w. Qed.
Lemma refs_set_report w r st : refs w (set_report r st) = refs w st.
Proof. now destruct w. Qed.
Lemma refs_set_tick w n st : refs w (set_tick n st) = refs w st.
Proof. now destruct w. Qed.
Lemma refs_set_refs w w' s st :
  refs w (set_refs w' s st) = if decide (w = w') then s else refs w st.
Proof. now destruct w, w'. Qed.
Lemma tick_set_db d st : tick (set_db d st) = tick st.
Proof. reflexivity. Qed.
Lemma tick_set_report r st : tick (set_report r st) = tick st.
Proof. reflexivity. Qed.

Lemma run_count c st : run (count c) st = set_report (bump c (report st)) st.
Proof. reflexivity. Qed.

Lemma run_recordError what filePath err st :
  run (recordError what filePath err) st =
  set_report (pushError ("Error syncing " +:+ what +:+ " " +:+ filePath +:+ ": " +:+ err)
                (report st)) st.
Proof. reflexivity. Qed.

Lemma run_ret {A} (a : A) st : run (ret a) st = st.
Proof. reflexivity. Qed.

Lemma errors_pushError e r : errors (pushError e r) = errors r ++ [e].
Proof. reflexivity. Qed.

Lemma errors_addChanges cs r : errors (addChanges cs r) = errors r.
Proof.
  unfold addChanges. revert r. induction cs as [|c cs IH]; intros r; simpl;
    [reflexivity | now rewrite IH].
Qed.

Lemma created_addChanges cs r : created (addChanges cs r) = created r.
Proof.
  unfold addChanges. revert r. induction cs as [|c cs IH]; intros r; simpl;
    [reflexivity | now rewrite IH].
Qed.

Lemma updated_addChanges cs r : updated (addChanges cs r) = updated r.
Proof.
  unfold addChanges. revert r. induction cs as [|c cs IH]; intros r; simpl;
    [reflexivity | now rewrite IH].
Qed.

Lemma unchanged_addChanges cs r : unchanged (addChanges cs r) = unchanged r.
Proof.
  unfold addChanges. revert r. induction cs as [|c cs IH]; intros r; simpl;
    [reflexivity | now rewrite IH].
Qed.

Lemma gamesProcessed_addChanges cs r : gamesProcessed (addChanges cs r) = gamesProcessed r.
Proof.
  unfold addChanges. revert r. induction cs as [|c cs IH]; intros r; simpl;
    [reflexivity | now rewrite IH].
Qed.

Lemma gamesProcessed_bump c r :
  gamesProcessed (bump c r) =
  match c with Processed EGame => S (gamesProcessed r) | _ => gamesProcessed r end.
Proof. now destruct c as [| | |[]]. Qed.

Create Rewrite HintDb st.
#[global] Hint Rewrite @run_ret run_count run_recordError : st.
#[global] Hint Rewrite db_set_db db_set_report db_set_refs db_set_tick
  report_set_db report_set_report report_set_refs report_set_tick
  refs_set_db refs_set_report refs_set_tick refs_set_refs
  tick_set_db tick_set_report
  table_set_table jtable_set_table jtable_set_jtable table_set_jtable : st.

Lemma created_bump c r :
  created (bump c r) = match c with Created => S (created r) | _ => created r end.
Proof. now destruct c. Qed.
Lemma updated_bump c r :
  updated (bump c r) = match c with Updated => S (updated r) | _ => updated r end.
Proof. now destruct c. Qed.
Lemma unchanged_bump c r :
  unchanged (bump c r) = match c with Unchanged => S (unchanged r) | _ => unchanged r end.
Proof. now destruct c. Qed.
Lemma changes_bump c r : changes (bump c r) = changes r.
Proof. reflexivity. Qed.
Lemma errors_bump c r : errors (bump c r) = errors r.
Proof. reflexivity. Qed.

Lemma elem_of_setAdd (x y : string) (s : list string) :
  y ∈ setAdd x s <-> y = x \/ y ∈ s.
Proof.
  unfold setAdd. case_bool_decide as H.
  - split; [now right | intros [->|H']; assumption].
  - rewrite elem_of_app, list_elem_of_singleton. tauto.
Qed.

Lemma NoDup_setAdd (x : string) (s : list string) : NoDup s -> NoDup (setAdd x s).
Proof.
  intros H. unfold setAdd. case_bool_decide as Hx; [exact H|].
  apply NoDup_app. repeat split; [exact H | | apply NoDup_singleton].
  intros y Hy Hy'. apply list_elem_of_singleton in Hy'. now subst y.
Qed.

(* ===================================================================== *)
(** * The relations are preorders *)
(* ===================================================================== *)

#[global] Instance keepLinks_preorder : PreOrder keepLinks.
Proof.
  split.
  - intros st. now split.
  - intros a b c [H1 H2] [H3 H4]. split; intros; [rewrite H3, H1 | rewrite H4, H2]; reflexivity.
Qed.

#[global] Instance keepJunctions_preorder : PreOrder keepJunctions.
Proof.
  split.
  - intros st j. reflexivity.
  - intros a b c H1 H2 j. now rewrite H2, H1.
Qed.

#[global] Instance growTables_preorder W : PreOrder (growTables W).
Proof.
  split.
  - intros st. split; auto.
  - intros a b c [H1 H2] [H3 H4]. split; intros; eauto.
Qed.

#[global] Instance growJunction_preorder j : PreOrder (growJunction j).
Proof. split; [intros st p H; exact H | intros a b c H1 H2 p H; auto]. Qed.

#[global] Instance growRefs_preorder : PreOrder growRefs.
Proof. split; [intros st w x H; exact H | intros a b c H1 H2 w x H; auto]. Qed.

#[global] Instance keepEntities_preorder : PreOrder keepEntities.
Proof.
  split.
  - intros st. now repeat split.
  - intros a b c (H1 & H2 & H3 & H4) (H5 & H6 & H7 & H8).
    repeat split; intros; congruence.
Qed.

Lemma growTables_weaken (W W' : EntityKind -> string -> Prop) st st' :
  (forall k s, W k s -> W' k s) -> growTables W st st' -> growTables W' st st'.
Proof. intros H [H1 H2]. split; [exact H1 | intros k s r Hr Hn; apply H2; auto]. Qed.

Lemma rel_weaken (R R' : St -> St -> Prop) {A} (m : M A) :
  (forall st st', R st st' -> R' st st') -> rel R m -> rel R' m.
Proof. intros H Hm st. apply H, Hm. Qed.

(* ===================================================================== *)
(** * Decomposing a computation into the primitives of the engine *)
(* ===================================================================== *)

Ltac unfold_engine :=
  unfold transact, syncDocuments, materializeStubs, createStubs, createStub,
    syncGameFile, syncCsvGame, syncStudioFile, syncPublisherFile, syncDesignerFile,
    syncStubGame, saveGame, saveRow, upsert, trackGameReferences, trackDirector,
    replaceJunction, linkOwnGames, replaceOwnStudios, linkGames, linkGame, replaceStudios.

(** [side] solves what the relation must allow for a primitive. *)
Ltac rel_tac side :=
  unfold_engine; cbv zeta;
  repeat first
    [ apply rel_ret; apply _ | apply rel_gets; apply _ | apply rel_lift; apply _
    | apply rel_selectBySlug; apply _ | apply rel_selectJunction; apply _
    | apply rel_detectChanges; first [apply _ | solve [side]]
    | apply rel_newDate; first [apply _ | solve [side]]
    | apply rel_count; first [apply _ | solve [side]]
    | apply rel_recordError; first [apply _ | solve [side]]
    | apply rel_addRef; first [apply _ | solve [side]]
    | apply rel_insertRow; first [apply _ | solve [side]]
    | apply rel_updateRow; first [apply _ | solve [side]]
    | apply rel_deleteJunction; first [apply _ | solve [side]]
    | apply rel_insertJunction; first [apply _ | solve [side]]
    | match goal with
      | |- rel _ (bind _ _) => apply rel_bind; try apply _; [ | intros ?]
      | |- rel _ (tryCatch _ _) => apply rel_tryCatch; try apply _; [ | intros ?]
      | |- rel _ (forEach _ _) => apply rel_forEach; try apply _; intros ? ?
      | |- rel _ (match ?x with _ => _ end) => destruct x
      end ].

(** Pending references only grow. *)
Ltac side_growRefs :=
  idtac; intros; unfold growRefs; intros ? ? ?; autorewrite with st; try case_decide; subst;
  rewrite ?elem_of_setAdd; auto.

Lemma growRefs_transact env csvGames : rel growRefs (transact env csvGames).
Proof. rel_tac side_growRefs. Qed.

(** Rows are only inserted, or written under their own key. *)
Ltac side_growTables :=
  idtac; intros; unfold growTables; split; intros *; autorewrite with st; try case_decide; subst;
  rewrite ?lookup_insert; try case_decide; subst;
  auto; try congruence; try tauto.

Lemma growTables_transact env csvGames :
  rel (growTables (fun _ _ => True)) (transact env csvGames).
Proof. rel_tac side_growTables. Qed.

(* ===================================================================== *)
(** * The blocks that always return *)
(* ===================================================================== *)

Lemma bind_lift_ok {A B} (a : A) (k : A -> M B) : bind (lift (Ok a)) k = k a.
Proof. reflexivity. Qed.

Lemma bind_lift_throw {A B} (e : string) (k : A -> M B) :
  bind (lift (Throw e)) k = throw e.
Proof. reflexivity. Qed.

Lemma saveGame_eq env slug fm parsed filePath st :
  saveGame env slug fm parsed filePath st =
  upsert env EGame slug (table EGame (db st) !! slug)
    (gameRow slug fm parsed filePath (clock env (tick st)))
    (set_tick (S (tick st)) st).
Proof. reflexivity. Qed.

Lemma saveRow_eq env kind slug row st :
  saveRow env kind slug row st =
  upsert env kind slug (table kind (db st) !! slug)
    (row (clock env (tick st))) (set_tick (S (tick st)) st).
Proof. reflexivity. Qed.

(** The shared block returns when it is given the record that is there. *)
Lemma upsert_returns env kind slug row st :
  fst (upsert env kind slug (table kind (db st) !! slug) row st) = Ok tt.
Proof.
  destruct (table kind (db st) !! slug) as [ex|] eqn:E.
  - rewrite (upsert_existing _ _ _ _ _ _ E).
    now destruct (changedFields env slug kind ex row).
  - now rewrite (upsert_new _ _ _ _ _ E).
Qed.

Lemma nothrow_saveGame env slug fm parsed filePath :
  nothrow (saveGame env slug fm parsed filePath).
Proof.
  intros st. exists tt. rewrite saveGame_eq.
  apply (upsert_returns env EGame slug _ (set_tick (S (tick st)) st)).
Qed.

Lemma nothrow_saveRow env kind slug row : nothrow (saveRow env kind slug row).
Proof.
  intros st. exists tt. rewrite saveRow_eq.
  apply (upsert_returns env kind slug _ (set_tick (S (tick st)) st)).
Qed.

Lemma nothrow_count c : nothrow (count c).
Proof. apply nothrow_modify. Qed.

Lemma nothrow_addRef w x : nothrow (addRef w x).
Proof. apply nothrow_modify. Qed.

Lemma nothrow_recordError what filePath err : nothrow (recordError what filePath err).
Proof. apply nothrow_modify. Qed.

Lemma insertRow_new env kind slug values st :
  table kind (db st) !! slug = None ->
  insertRow env kind slug values st =
  (Ok tt, set_db (set_table kind (<[slug := storedRow kind values]> (table kind (db st)))
                    (db st)) st).
Proof. intros H. unfold insertRow. now rewrite H. Qed.

(** An insert under a key that was just found missing, with the time
    read in between. *)
Lemma dated_insert_eq env kind slug (row : Z -> Row) st :
  table kind (db st) !! slug = None ->
  (now <~ newDate env ;; insertRow env kind slug (row now)) st =
  (Ok tt,
   set_db (set_table kind
             (<[slug := storedRow kind (row (clock env (tick st)))]> (table kind (db st)))
             (db st))
     (set_tick (S (tick st)) st)).
Proof.
  intros H. unfold bind at 1. unfold newDate at 1.
  now rewrite insertRow_new by (autorewrite with st; exact H).
Qed.

Lemma dated_insert_then_eq env kind slug (row : Z -> Row) {B} (k : M B) st :
  table kind (db st) !! slug = None ->
  (now <~ newDate env ;; insertRow env kind slug (row now) ;;; k) st =
  k (set_db (set_table kind
               (<[slug := storedRow kind (row (clock env (tick st)))]> (table kind (db st)))
               (db st))
       (set_tick (S (tick st)) st)).
Proof.
  intros H. unfold bind at 1. unfold newDate at 1. unfold bind at 1.
  now rewrite insertRow_new by (autorewrite with st; exact H).
Qed.

Lemma syncStubGame_eq env slug filePath st :
  syncStubGame env slug filePath st =
  match table EGame (db st) !! slug with
  | Some _ => (Ok tt, set_report (bump (Processed EGame) (report st)) st)
  | None =>
      let st' :=
        set_db (set_table EGame
                  (<[slug := storedRow EGame
                               [("slug", FText slug); ("sourceFile", FText filePath);
                                ("lastSyncedAt", FDate (clock env (tick st)))]]>
                     (table EGame (db st)))
                  (db st))
          (set_tick (S (tick st)) st) in
      (Ok tt, set_report (bump (Processed EGame) (bump Created (report st'))) st')
  end.
Proof.
  unfold syncStubGame. unfold bind at 1. unfold bind at 1. unfold selectBySlug, gets.
  destruct (table EGame (db st) !! slug) as [r|] eqn:E.
  - reflexivity.
  - rewrite (dated_insert_then_eq env EGame slug
               (fun now => [("slug", FText slug); ("sourceFile", FText filePath);
                            ("lastSyncedAt", FDate now)]) (count Created) st E).
    reflexivity.
Qed.

Lemma nothrow_syncStubGame env slug filePath : nothrow (syncStubGame env slug filePath).
Proof.
  intros st. exists tt. rewrite syncStubGame_eq.
  now destruct (table EGame (db st) !! slug).
Qed.

Lemma syncCsvGame_eq env g st :
  syncCsvGame env g st =
  match table EGame (db st) !! pc_slug g with
  | Some _ => (Ok tt, st)
  | None =>
      let st' :=
        set_db (set_table EGame
                  (<[pc_slug g := storedRow EGame
                                    (csvGameRow (pc_slug g) (pc_row g) (clock env (tick st)))]>
                     (table EGame (db st)))
                  (db st))
          (set_tick (S (tick st)) st) in
      (Ok tt, set_report (bump (Processed EGame) (bump Created (report st'))) st')
  end.
Proof.
  unfold syncCsvGame. unfold bind at 1. unfold selectBySlug, gets.
  destruct (table EGame (db st) !! pc_slug g) as [r|] eqn:E.
  - reflexivity.
  - rewrite (dated_insert_then_eq env EGame (pc_slug g)
               (csvGameRow (pc_slug g) (pc_row g)) (count Created ;;; count (Processed EGame))
               st E).
    reflexivity.
Qed.

Lemma nothrow_syncCsvGame env g : nothrow (syncCsvGame env g).
Proof.
  intros st. exists tt. rewrite syncCsvGame_eq.
  now destruct (table EGame (db st) !! pc_slug g).
Qed.

Lemma createStub_eq env kind slug st :
  createStub env kind slug st =
  match table kind (db st) !! slug with
  | Some _ => (Ok tt, st)
  | None =>
      (Ok tt,
       set_db (set_table kind
                 (<[slug := storedRow kind (stubRow kind slug (clock env (tick st)))]>
                    (table kind (db st)))
                 (db st))
         (set_tick (S (tick st)) st))
  end.
Proof.
  unfold createStub. unfold bind at 1. unfold selectBySlug, gets.
  destruct (table kind (db st) !! slug) as [r|] eqn:E.
  - reflexivity.
  - now rewrite (dated_insert_eq env kind slug (stubRow kind slug) st E).
Qed.

Lemma nothrow_createStub env kind slug : nothrow (createStub env kind slug).
Proof.
  intros st. exists tt. rewrite createStub_eq.
  now destruct (table kind (db st) !! slug).
Qed.

Lemma nothrow_createStubs env kind which : nothrow (createStubs env kind which).
Proof.
  unfold createStubs. apply nothrow_bind; [apply nothrow_gets|].
  intros pending. apply nothrow_forEach. intros x _. apply nothrow_createStub.
Qed.

Lemma nothrow_trackGameReferences fm : nothrow (trackGameReferences fm).
Proof.
  unfold trackGameReferences.
  repeat (apply nothrow_bind; [|intros _]);
    try (apply nothrow_forEach; intros x _; apply nothrow_addRef).
  destruct (truthy (fm_director fm)); [apply nothrow_addRef | apply nothrow_ret].
Qed.

Lemma nothrow_trackDirector fm : nothrow (trackDirector fm).
Proof.
  unfold trackDirector.
  destruct (truthy (fm ≫= sfm_director)); [apply nothrow_addRef | apply nothrow_ret].
Qed.

(** A pair that the lookup of the reverse direction does not find is not
    in the table. *)
Lemma find_junction_None (t : list (string * string)) (a b : string) :
  List.find (fun r => String.eqb (snd r) b) (List.filter (fun r => String.eqb (fst r) a) t)
  = None ->
  (a, b) ∉ t.
Proof.
  intros H Hin. apply list_elem_of_In in Hin.
  assert (String.eqb (snd (a, b)) b = false) as Hf.
  { apply (find_none _ _ H (a, b)). apply filter_In.
    split; [exact Hin | apply String.eqb_refl]. }
  simpl in Hf. now rewrite String.eqb_refl in Hf.
Qed.

Lemma find_junction_Some (t : list (string * string)) (a b : string) r :
  List.find (fun r => String.eqb (snd r) b) (List.filter (fun r => String.eqb (fst r) a) t)
  = Some r ->
  (a, b) ∈ t.
Proof.
  intros H. apply find_some in H as [Hin Hb]. apply filter_In in Hin as [Hin Ha].
  apply String.eqb_eq in Ha, Hb. destruct r as [a' b']. simpl in *. subst.
  now apply list_elem_of_In.
Qed.

Lemma nothrow_linkGame env j slug gameSlug : nothrow (linkGame env j slug gameSlug).
Proof.
  intros st. exists tt.
  unfold linkGame, bind, selectJunction, gets, insertJunction. simpl.
  destruct (List.find _ _) eqn:E; [reflexivity|].
  apply find_junction_None in E. now rewrite bool_decide_eq_false_2.
Qed.

Lemma nothrow_linkGames env j slug gameSlugs : nothrow (linkGames env j slug gameSlugs).
Proof. unfold linkGames. apply nothrow_forEach. intros g _. apply nothrow_linkGame. Qed.

Lemma nothrow_linkOwnGames env j slug games : nothrow (linkOwnGames env j slug games).
Proof.
  unfold linkOwnGames. destruct games as [[|g gs]|];
    [apply nothrow_ret | apply nothrow_linkGames | apply nothrow_ret].
Qed.

Lemma nothrow_syncGameFile env filePath : nothrow (syncGameFile env filePath).
Proof. apply nothrow_tryCatch. intros e. apply nothrow_recordError. Qed.

Lemma nothrow_syncStudioFile env filePath : nothrow (syncStudioFile env filePath).
Proof. apply nothrow_tryCatch. intros e. apply nothrow_recordError. Qed.

Lemma nothrow_syncPublisherFile env filePath : nothrow (syncPublisherFile env filePath).
Proof. apply nothrow_tryCatch. intros e. apply nothrow_recordError. Qed.

Lemma nothrow_syncDesignerFile env filePath : nothrow (syncDesignerFile env filePath).
Proof. apply nothrow_tryCatch. intros e. apply nothrow_recordError. Qed.

Lemma nothrow_syncDocuments env csvGames : nothrow (syncDocuments env csvGames).
Proof.
  unfold syncDocuments.
  repeat (apply nothrow_bind; [|intros _]); apply nothrow_forEach; intros x _.
  - apply nothrow_syncGameFile.
  - apply nothrow_syncCsvGame.
  - apply nothrow_syncStudioFile.
  - apply nothrow_syncPublisherFile.
  - apply nothrow_syncDesignerFile.
Qed.

Lemma nothrow_materializeStubs env : nothrow (materializeStubs env).
Proof.
  unfold materializeStubs.
  repeat (apply nothrow_bind; [|intros _]); apply nothrow_createStubs.
Qed.

Lemma nothrow_transact env csvGames : nothrow (transact env csvGames).
Proof.
  unfold transact. apply nothrow_bind; [apply nothrow_syncDocuments|].
  intros _. apply nothrow_materializeStubs.
Qed.

(** The transaction is never rolled back: [syncAll] returns the report and
    the store that the body leaves. *)
Lemma syncAll_eq env now0 d :
  syncAll env now0 d =
  (Ok (report (run (transact env (fst (readCatalog env))) (initialState env now0 d))),
   db (run (transact env (fst (readCatalog env))) (initialState env now0 d))).
Proof.
  unfold syncAll, run.
  destruct (nothrow_transact env (fst (readCatalog env)) (initialState env now0 d)) as [a Ha].
  destruct (transact env (fst (readCatalog env)) (initialState env now0 d)) as [[a'|e] st'];
    simpl in *; [reflexivity | discriminate Ha].
Qed.

Lemma run_transact env csvGames st :
  run (transact env csvGames) st =
  run (materializeStubs env) (run (syncDocuments env csvGames) st).
Proof. unfold transact. apply run_seq, nothrow_syncDocuments. Qed.

Lemma tryCatch_nothrow (body : M unit) (h : string -> M unit) st :
  nothrow body -> tryCatch body h st = (Ok tt, run body st).
Proof.
  intros H. destruct (H st) as [a Ha]. unfold tryCatch, run.
  destruct (body st) as [[a'|e] st']; simpl in *; [reflexivity | discriminate Ha].
Qed.

(* ===================================================================== *)
(** * Change detection looks at the compared fields only *)
(* ===================================================================== *)

Lemma fieldsToCompare_keys (row row' : Row) :
  map fst row' = map fst row -> fieldsToCompare row' = fieldsToCompare row.
Proof. unfold fieldsToCompare. now intros ->. Qed.

Lemma changedFields_ext env slug kind (ex ex' row row' : Row) :
  map fst row' = map fst row ->
  (forall f, f <> "lastSyncedAt" -> f <> "sourceFile" -> f <> "slug" ->
     field f ex' = field f ex /\ field f row' = field f row) ->
  changedFields env slug kind ex' row' = changedFields env slug kind ex row.
Proof.
  intros Hk H. unfold changedFields. rewrite (fieldsToCompare_keys _ _ Hk).
  pose proof (fieldsToCompare_excludes row) as Hex.
  induction (fieldsToCompare row) as [|f fs IH]; [reflexivity|].
  cbn [omap list_omap].
  destruct (Hex f) as (H1 & H2 & H3); [now left|].
  destruct (H f H1 H2 H3) as [-> ->].
  rewrite IH; [reflexivity|]. intros f' Hf'. apply Hex. now right.
Qed.

Lemma sameComparable_ext env (ex ex' row row' : Row) :
  map fst row' = map fst row ->
  (forall f, f <> "lastSyncedAt" -> f <> "sourceFile" -> f <> "slug" ->
     field f ex' = field f ex /\ field f row' = field f row) ->
  sameComparable env ex row -> sameComparable env ex' row'.
Proof.
  intros Hk H Hs. apply (changedFields_nil env "" EGame).
  rewrite (changedFields_ext env "" EGame ex ex' row row' Hk H).
  now apply changedFields_nil.
Qed.

(** What the row block does, as a whole. *)
Lemma saveRow_existing env kind slug (row : Z -> Row) ex st :
  table kind (db st) !! slug = Some ex ->
  saveRow env kind slug row st =
  match changedFields env slug kind ex (row (clock env (tick st))) with
  | [] => (Ok tt, set_report (bump Unchanged (report st)) (set_tick (S (tick st)) st))
  | cs =>
      (Ok tt,
       set_report (bump Updated (addChanges cs (report st)))
         (set_db (set_table kind
                    (<[slug := updatedRow kind ex (row (clock env (tick st)))]>
                       (table kind (db st)))
                    (db st))
            (set_tick (S (tick st)) st)))
  end.
Proof.
  intros H. rewrite saveRow_eq, H.
  now rewrite (upsert_existing env kind slug ex _ (set_tick (S (tick st)) st)).
Qed.

Lemma saveRow_new env kind slug (row : Z -> Row) st :
  table kind (db st) !! slug = None ->
  saveRow env kind slug row st =
  (Ok tt,
   set_report (bump Created (report st))
     (set_db (set_table kind
                (<[slug := storedRow kind (row (clock env (tick st)))]> (table kind (db st)))
                (db st))
        (set_tick (S (tick st)) st))).
Proof.
  intros H. rewrite saveRow_eq, H.
  now rewrite (upsert_new env kind slug _ (set_tick (S (tick st)) st)).
Qed.

Lemma saveGame_existing env slug fm parsed filePath ex st :
  table EGame (db st) !! slug = Some ex ->
  saveGame env slug fm parsed filePath st =
  match changedFields env slug EGame ex (gameRow slug fm parsed filePath (clock env (tick st))) with
  | [] => (Ok tt, set_report (bump Unchanged (report st)) (set_tick (S (tick st)) st))
  | cs =>
      (Ok tt,
       set_report (bump Updated (addChanges cs (report st)))
         (set_db (set_table EGame
                    (<[slug := updatedRow EGame ex
                                 (gameRow slug fm parsed filePath (clock env (tick st)))]>
                       (table EGame (db st)))
                    (db st))
            (set_tick (S (tick st)) st)))
  end.
Proof.
  intros H. rewrite saveGame_eq, H.
  now rewrite (upsert_existing env EGame slug ex _ (set_tick (S (tick st)) st)).
Qed.

Lemma saveGame_new env slug fm parsed filePath st :
  table EGame (db st) !! slug = None ->
  saveGame env slug fm parsed filePath st =
  (Ok tt,
   set_report (bump Created (report st))
     (set_db (set_table EGame
                (<[slug := storedRow EGame
                             (gameRow slug fm parsed filePath (clock env (tick st)))]>
                   (table EGame (db st)))
                (db st))
        (set_tick (S (tick st)) st))).
Proof.
  intros H. rewrite saveGame_eq, H.
  now rewrite (upsert_new env EGame slug _ (set_tick (S (tick st)) st)).
Qed.

(** C7. When every compared field of the stored row serializes as the
    incoming one, the shared block writes nothing: the store is the same,
    so the row keeps its [lastSyncedAt] and [sourceFile], and the report
    counts one more unchanged row; this holds for the block as the game
    loop runs it and as the other loops run it.  [sourceFile] and
    [lastSyncedAt] are not compared: the change records do not depend on
    them.  And the stored row is different after the block only when
    there was none or when a compared field differs. *)
Theorem unchanged_row_is_not_written (env : Env) (kind : EntityKind) (slug : string)
    (ex row : Row) (st : St) :
  table kind (db st) !! slug = Some ex ->
  sameComparable env ex row ->
  (upsert env kind slug (Some ex) row st =
   (Ok tt, set_report (bump Unchanged (report st)) st)) /\
  (forall mkRow : Z -> Row,
     (forall now, sameComparable env ex (mkRow now)) ->
     db (run (saveRow env kind slug mkRow) st) = db st /\
     report (run (saveRow env kind slug mkRow) st) = bump Unchanged (report st)) /\
  (forall fm parsed filePath,
     kind = EGame ->
     (forall now, sameComparable env ex (gameRow slug fm parsed filePath now)) ->
     db (run (saveGame env slug fm parsed filePath) st) = db st /\
     report (run (saveGame env slug fm parsed filePath) st) = bump Unchanged (report st)) /\
  ("lastSyncedAt" ∉ fieldsToCompare row) /\
  ("sourceFile" ∉ fieldsToCompare row) /\
  (forall ex' row' : Row,
     map fst row' = map fst row ->
     (forall f, f <> "lastSyncedAt" -> f <> "sourceFile" -> f <> "slug" ->
        field f ex' = field f ex /\ field f row' = field f row) ->
     changedFields env slug kind ex' row' = changedFields env slug kind ex row) /\
  (forall (st2 : St) (row2 : Row),
     table kind (db (run (upsert env kind slug (table kind (db st2) !! slug) row2) st2)) !! slug
     <> table kind (db st2) !! slug ->
     table kind (db st2) !! slug = None \/
     exists ex2, table kind (db st2) !! slug = Some ex2 /\ ~ sameComparable env ex2 row2).
Proof.
  intros Hex Hsame.
  split; [|split; [|split; [|split; [|split; [|split]]]]].
  - rewrite (upsert_existing _ _ _ _ _ _ Hex).
    now rewrite (proj2 (changedFields_nil env slug kind ex row) Hsame).
  - intros mkRow H. unfold run. rewrite (saveRow_existing _ _ _ _ _ _ Hex).
    now rewrite (proj2 (changedFields_nil env slug kind ex _) (H _)).
  - intros fm parsed filePath -> H. unfold run. rewrite (saveGame_existing _ _ _ _ _ _ _ Hex).
    now rewrite (proj2 (changedFields_nil env slug EGame ex _) (H _)).
  - intros H. now destruct (fieldsToCompare_excludes _ _ H) as (? & _).
  - intros H. now destruct (fieldsToCompare_excludes _ _ H) as (_ & ? & _).
  - intros ex' row' Hk H. now apply changedFields_ext.
  - intros st2 row2 Hne.
    destruct (table kind (db st2) !! slug) as [ex2|] eqn:E2; [right | now left].
    exists ex2. split; [reflexivity|]. intros Hs. apply Hne. unfold run.
    rewrite (upsert_existing _ _ _ _ _ _ E2).
    rewrite (proj2 (changedFields_nil env slug kind ex2 row2) Hs). simpl.
    exact E2.
Qed.

Lemma unchanged_row_is_not_written_witness :
  upsert Sample.quietHost EPublisher "Valve" (Some Sample.storedPublisher)
    Sample.incomingPublisher Sample.stateWithPublisher =
  (Ok tt, set_report (bump Unchanged (report Sample.stateWithPublisher))
            Sample.stateWithPublisher).
Proof.
  apply (unchanged_row_is_not_written Sample.quietHost EPublisher "Valve"
           Sample.storedPublisher Sample.incomingPublisher Sample.stateWithPublisher).
  - vm_compute. reflexivity.
  - apply (changedFields_nil Sample.quietHost "Valve" EPublisher). vm_compute. reflexivity.
Defined.

(* ===================================================================== *)
(** * A document whose front matter fails validation *)
(* ===================================================================== *)

(** A row object that gives every column is stored as it is. *)
Lemma storedRow_studioRow slug fm parsed filePath now :
  storedRow EStudio (studioRow slug fm parsed filePath now) =
  studioRow slug fm parsed filePath now.
Proof. reflexivity. Qed.

Lemma updatedRow_studioRow ex slug fm parsed filePath now :
  updatedRow EStudio ex (studioRow slug fm parsed filePath now) =
  studioRow slug fm parsed filePath now.
Proof. reflexivity. Qed.

Lemma storedRow_overviewRow kind slug parsed filePath now :
  kind = EPublisher \/ kind = EDesigner ->
  storedRow kind (overviewRow slug parsed filePath now) =
  overviewRow slug parsed filePath now.
Proof. now intros [-> | ->]. Qed.

Lemma updatedRow_overviewRow kind ex slug parsed filePath now :
  kind = EPublisher \/ kind = EDesigner ->
  updatedRow kind ex (overviewRow slug parsed filePath now) =
  overviewRow slug parsed filePath now.
Proof. now intros [-> | ->]. Qed.

Lemma storedRow_gameRow slug fm parsed filePath now :
  storedRow EGame (gameRow slug fm parsed filePath now) =
  gameRow slug fm parsed filePath now.
Proof. reflexivity. Qed.

Lemma updatedRow_gameRow ex slug fm parsed filePath now :
  updatedRow EGame ex (gameRow slug fm parsed filePath now) =
  gameRow slug fm parsed filePath now.
Proof. reflexivity. Qed.

(** The row block followed by the count of the document. *)
Ltac frame_tac :=
  intros; autorewrite with st; try reflexivity;
  try (case_decide; [congruence | reflexivity]).

Lemma saveRow_reconciled env kind slug (row : Z -> Row) st :
  (forall now, storedRow kind (row now) = row now) ->
  (forall ex now, updatedRow kind ex (row now) = row now) ->
  reconciled env kind slug (row (clock env (tick st))) st
    (run (count (Processed kind)) (run (saveRow env kind slug row) st)).
Proof.
  intros Hs Hu. unfold reconciled, run.
  destruct (table kind (db st) !! slug) as [ex|] eqn:E.
  - rewrite (saveRow_existing _ _ _ _ _ _ E).
    destruct (changedFields env slug kind ex (row (clock env (tick st)))) as [|c cs].
    + simpl. repeat split; frame_tac.
    + simpl. rewrite Hu. repeat split; frame_tac.
      now rewrite decide_True.
  - rewrite (saveRow_new _ _ _ _ _ E). simpl. rewrite Hs.
    repeat split; frame_tac. now rewrite decide_True.
Qed.

Lemma syncStudioFile_invalid env filePath parsed st :
  parseMarkdownFile env filePath = Ok parsed ->
  studioFrontmatterSchema (frontmatter parsed) = None ->
  syncStudioFile env filePath st =
  (Ok tt,
   run (count (Processed EStudio))
     (run (saveRow env EStudio (slugFromPath filePath)
             (studioRow (slugFromPath filePath) None parsed filePath)) st)).
Proof.
  intros Hp Hv. unfold syncStudioFile. rewrite Hp, bind_lift_ok. cbv beta zeta. rewrite Hv.
  change (trackDirector None) with (ret tt).
  change (linkOwnGames env GameDevelopers (slugFromPath filePath) (sfm_games <$> None))
    with (ret tt).
  change (replaceOwnStudios env RelatedStudios (slugFromPath filePath) (sfm_studios <$> None))
    with (ret tt).
  rewrite tryCatch_nothrow.
  - f_equal. unfold run at 1. unfold bind at 1. unfold ret at 1.
    fold (run (saveRow env EStudio (slugFromPath filePath)
                 (studioRow (slugFromPath filePath) None parsed filePath) ;;;
               ret tt ;;; ret tt ;;; count (Processed EStudio)) st).
    rewrite run_seq by apply nothrow_saveRow. reflexivity.
  - repeat (apply nothrow_bind; [|intros _]);
      first [apply nothrow_ret | apply nothrow_saveRow | apply nothrow_count].
Qed.

Lemma syncPublisherFile_invalid env filePath parsed st :
  parseMarkdownFile env filePath = Ok parsed ->
  publisherFrontmatterSchema (frontmatter parsed) = None ->
  syncPublisherFile env filePath st =
  (Ok tt,
   run (count (Processed EPublisher))
     (run (saveRow env EPublisher (slugFromPath filePath)
             (overviewRow (slugFromPath filePath) parsed filePath)) st)).
Proof.
  intros Hp Hv. unfold syncPublisherFile. rewrite Hp, bind_lift_ok. cbv beta zeta. rewrite Hv.
  change (linkOwnGames env GamePublishers (slugFromPath filePath) (pfm_games <$> None))
    with (ret tt).
  change (replaceOwnStudios env PublisherStudios (slugFromPath filePath) (pfm_studios <$> None))
    with (ret tt).
  rewrite tryCatch_nothrow.
  - f_equal.
    rewrite run_seq by apply nothrow_saveRow. reflexivity.
  - repeat (apply nothrow_bind; [|intros _]);
      first [apply nothrow_ret | apply nothrow_saveRow | apply nothrow_count].
Qed.

Lemma syncGameFile_invalid env filePath parsed st :
  parseMarkdownFile env filePath = Ok parsed ->
  gameFrontmatterSchema env (frontmatter parsed) = None ->
  syncGameFile env filePath st = syncStubGame env (slugFromPath filePath) filePath st.
Proof.
  intros Hp Hv. unfold syncGameFile. rewrite Hp, bind_lift_ok. cbv beta zeta. rewrite Hv. rewrite tryCatch_nothrow by apply nothrow_syncStubGame.
  unfold run. destruct (nothrow_syncStubGame env (slugFromPath filePath) filePath st) as [[] H].
  destruct (syncStubGame env (slugFromPath filePath) filePath st) as [[[]|e] st'];
    simpl in *; [reflexivity | discriminate H].
Qed.

(** C9. A studio or publisher document whose front matter fails validation
    is reconciled like a valid one: the row of its slug, with the overview
    section of the body, no director and the path of the document, is
    created, or compared with the stored row and written when a field
    differs; the document is counted and no error is recorded; only its
    relationships are left out.  A game document whose front matter fails
    validation is handled as a stub: when its row exists nothing is
    written, else a row with nothing but the slug, the path and the time
    is inserted. *)
Theorem invalid_front_matter_is_still_upserted (env : Env) (filePath : string)
    (parsed : ParsedMarkdown) (st : St) :
  parseMarkdownFile env filePath = Ok parsed ->
  let slug := slugFromPath filePath in
  let now := clock env (tick st) in
  (studioFrontmatterSchema (frontmatter parsed) = None ->
   fst (syncStudioFile env filePath st) = Ok tt /\
   reconciled env EStudio slug
     [("slug", FText slug); ("director", FNull);
      ("overviewText", otext (sections parsed !! "overview"));
      ("sourceFile", FText filePath); ("lastSyncedAt", FDate now)]
     st (run (syncStudioFile env filePath) st)) /\
  (publisherFrontmatterSchema (frontmatter parsed) = None ->
   fst (syncPublisherFile env filePath st) = Ok tt /\
   reconciled env EPublisher slug
     [("slug", FText slug);
      ("overviewText", otext (sections parsed !! "overview"));
      ("sourceFile", FText filePath); ("lastSyncedAt", FDate now)]
     st (run (syncPublisherFile env filePath) st)) /\
  (gameFrontmatterSchema env (frontmatter parsed) = None ->
   fst (syncGameFile env filePath st) = Ok tt /\
   keepLinks st (run (syncGameFile env filePath) st) /\
   (forall k, k <> EGame ->
      table k (db (run (syncGameFile env filePath) st)) = table k (db st)) /\
   match games (db st) !! slug with
   | Some _ =>
       db (run (syncGameFile env filePath) st) = db st /\
       report (run (syncGameFile env filePath) st) = bump (Processed EGame) (report st)
   | None =>
       games (db (run (syncGameFile env filePath) st)) =
       <[slug := storedRow EGame
                   [("slug", FText slug); ("sourceFile", FText filePath);
                    ("lastSyncedAt", FDate now)]]> (games (db st)) /\
       (forall f, f ∈ fieldsToCompare (gameRow slug
                      {| fm_status := None; fm_game_genre := []; fm_game_modes := [];
                         fm_game_genre_tags := []; fm_player_perspective := [];
                         fm_platform := None; fm_engine := None; fm_developer := [];
                         fm_publisher := []; fm_director := None; fm_release := None |}
                      parsed filePath now) ->
          field f (storedRow EGame
                     [("slug", FText slug); ("sourceFile", FText filePath);
                      ("lastSyncedAt", FDate now)]) = Some FNull) /\
       report (run (syncGameFile env filePath) st) =
       bump (Processed EGame) (bump Created (report st))
   end).
Proof.
  intros Hp slug now. split; [|split].
  - intros Hv. unfold run. rewrite (syncStudioFile_invalid _ _ _ _ Hp Hv).
    split; [reflexivity|]. cbn [snd].
    apply (saveRow_reconciled env EStudio slug (studioRow slug None parsed filePath) st);
      reflexivity.
  - intros Hv. unfold run. rewrite (syncPublisherFile_invalid _ _ _ _ Hp Hv).
    split; [reflexivity|]. cbn [snd].
    apply (saveRow_reconciled env EPublisher slug (overviewRow slug parsed filePath) st);
      reflexivity.
  - intros Hv. unfold run. rewrite (syncGameFile_invalid _ _ _ _ Hp Hv), syncStubGame_eq.
    fold slug. change (table EGame (db st)) with (games (db st)).
    destruct (games (db st) !! slug) as [r|] eqn:E.
    + simpl. repeat split; frame_tac.
    + cbv zeta. cbn [fst snd]. repeat split; frame_tac.
      apply list_elem_of_In in H. simpl in H.
      repeat (destruct H as [<-|H]; [reflexivity|]). destruct H.
Qed.

Lemma invalid_front_matter_is_still_upserted_witness :
  fst (syncStudioFile Sample.invalidStudioHost "lib/studios/Valve.md"
         (Sample.stateOf emptyDb)) = Ok tt.
Proof.
  refine (proj1 (proj1 (invalid_front_matter_is_still_upserted
                          Sample.invalidStudioHost "lib/studios/Valve.md"
                          {| frontmatter := [("class", JStr "studi0")];
                             sections := splitContentSections Sample.overviewBody;
                             rawContent := Sample.overviewBody |}
                          (Sample.stateOf emptyDb) _) _)).
  - reflexivity.
  - reflexivity.
Defined.

(* ===================================================================== *)
(** * Junction tables: replacing and linking *)
(* ===================================================================== *)

Lemma set_jtable_twice j t1 t2 d : set_jtable j t2 (set_jtable j t1 d) = set_jtable j t2 d.
Proof. now destruct j. Qed.

Lemma set_db_twice d1 d2 st : set_db d2 (set_db d1 st) = set_db d2 st.
Proof. reflexivity. Qed.

Lemma rowsOf_app (slug : string) (t1 t2 : list (string * string)) : rowsOf slug (t1 ++ t2) = rowsOf slug t1 ++ rowsOf slug t2.
Proof. apply List.filter_app. Qed.

Lemma rowsNotOf_app (slug : string) (t1 t2 : list (string * string)) :
  rowsNotOf slug (t1 ++ t2) = rowsNotOf slug t1 ++ rowsNotOf slug t2.
Proof. apply List.filter_app. Qed.

Lemma rowsOf_pairs (slug : string) (targets : list string) : rowsOf slug (map (pair slug) targets) = map (pair slug) targets.
Proof.
  unfold rowsOf. induction targets as [|x l IH]; simpl; [reflexivity|].
  now rewrite String.eqb_refl, IH.
Qed.

Lemma rowsNotOf_pairs (slug : string) (targets : list string) : rowsNotOf slug (map (pair slug) targets) = [].
Proof.
  unfold rowsNotOf. induction targets as [|x l IH]; simpl; [reflexivity|].
  rewrite String.eqb_refl. exact IH.
Qed.

Lemma rowsOf_rowsNotOf slug t : rowsOf slug (rowsNotOf slug t) = [].
Proof.
  unfold rowsOf, rowsNotOf. induction t as [|[a b] t IH]; simpl; [reflexivity|].
  destruct (String.eqb a slug) eqn:E; simpl; [exact IH | now rewrite E].
Qed.

Lemma rowsNotOf_idem slug t : rowsNotOf slug (rowsNotOf slug t) = rowsNotOf slug t.
Proof.
  unfold rowsNotOf. induction t as [|[a b] t IH]; simpl; [reflexivity|].
  destruct (String.eqb a slug) eqn:E; simpl; [exact IH | now rewrite E, IH].
Qed.

Lemma elem_of_rowsOf (slug : string) (t : list (string * string)) (a b : string) : (a, b) ∈ rowsOf slug t <-> a = slug /\ (a, b) ∈ t.
Proof.
  unfold rowsOf. rewrite !list_elem_of_In, filter_In. simpl.
  rewrite String.eqb_eq. tauto.
Qed.

Lemma elem_of_rowsNotOf (slug : string) (t : list (string * string)) (a b : string) : (a, b) ∈ rowsNotOf slug t <-> a <> slug /\ (a, b) ∈ t.
Proof.
  unfold rowsNotOf. rewrite !list_elem_of_In, filter_In. simpl.
  rewrite negb_true_iff, String.eqb_neq. tauto.
Qed.

Lemma elem_of_pairs (slug : string) (targets : list string) (a b : string) :
  (a, b) ∈ map (pair slug) targets <-> a = slug /\ b ∈ targets.
Proof.
  rewrite !list_elem_of_In, in_map_iff. split.
  - intros (x & [= <- <-] & Hx). split; [reflexivity | exact Hx].
  - intros [-> Hb]. exists b. split; [reflexivity | exact Hb].
Qed.

Lemma in_junction_iff (slug x : string) (t : list (string * string)) :
  (slug, x) ∈ t <-> x ∈ map snd (rowsOf slug t).
Proof.
  split.
  - intros H. apply list_elem_of_In, in_map_iff. exists (slug, x). split; [reflexivity|].
    apply list_elem_of_In, elem_of_rowsOf. now split.
  - intros H. apply list_elem_of_In, in_map_iff in H as ([a b] & Hb & Hin).
    simpl in Hb. subst b.
    apply list_elem_of_In, elem_of_rowsOf in Hin as [-> Hin]. exact Hin.
Qed.

(** The loop of inserts of a replacement: it inserts the targets up to the
    first one that is already there, and throws at that one. *)
Lemma insert_targets_eq env j slug targets st :
  forEach targets (fun target => insertJunction env j (slug, target)) st =
  let '(p, dup) := freshPrefix (map snd (rowsOf slug (jtable j (db st)))) targets in
  (if dup then Throw (sqliteError env (junctionName j)) else Ok tt,
   set_db (set_jtable j (jtable j (db st) ++ map (pair slug) p) (db st)) st).
Proof.
  revert st. induction targets as [|x l IH]; intros st.
  - simpl. unfold ret. now rewrite app_nil_r, set_jtable_id, set_db_id.
  - cbn [forEach freshPrefix]. unfold bind at 1. unfold insertJunction at 1.
    rewrite (bool_decide_ext _ _ (in_junction_iff slug x (jtable j (db st)))).
    destruct (bool_decide (x ∈ map snd (rowsOf slug (jtable j (db st))))) eqn:E.
    + simpl. now rewrite app_nil_r, set_jtable_id, set_db_id.
    + rewrite IH. autorewrite with st. rewrite decide_True by reflexivity.
      rewrite rowsOf_app, map_app.
      change (rowsOf slug [(slug, x)]) with
        (if String.eqb slug slug then [(slug, x)] else []).
      rewrite String.eqb_refl. cbn [map snd].
      destruct (freshPrefix (map snd (rowsOf slug (jtable j (db st))) ++ [x]) l) as [p dup].
      rewrite set_jtable_twice, set_db_twice. cbn [map].
      now rewrite <- app_assoc.
Qed.

Lemma replaceJunction_eq env j slug targets st :
  replaceJunction env j slug targets st =
  let '(p, dup) := freshPrefix [] targets in
  (if dup then Throw (sqliteError env (junctionName j)) else Ok tt,
   set_db (set_jtable j (rowsNotOf slug (jtable j (db st)) ++ map (pair slug) p) (db st)) st).
Proof.
  unfold replaceJunction. unfold bind at 1. unfold deleteJunction at 1. unfold modify.
  rewrite insert_targets_eq. autorewrite with st. rewrite decide_True by reflexivity.
  fold (rowsNotOf slug (jtable j (db st))). rewrite rowsOf_rowsNotOf. cbn [map].
  destruct (freshPrefix [] targets) as [p dup].
  now rewrite set_jtable_twice, set_db_twice.
Qed.

Lemma freshPrefix_NoDup seen targets :
  NoDup targets -> (forall x, x ∈ targets -> x ∉ seen) ->
  freshPrefix seen targets = (targets, false).
Proof.
  revert seen. induction targets as [|x l IH]; intros seen Hnd Hs; [reflexivity|].
  apply NoDup_cons in Hnd as [Hx Hnd]. cbn [freshPrefix].
  rewrite bool_decide_eq_false_2 by (apply Hs; now left).
  rewrite IH; [reflexivity | exact Hnd |].
  intros y Hy Hin. apply elem_of_app in Hin as [Hin|Hin].
  - eapply Hs; [right; exact Hy | exact Hin].
  - apply list_elem_of_singleton in Hin. now subst y.
Qed.

(** The prefix that is inserted has no repetition and comes from the list. *)
Lemma freshPrefix_facts seen targets :
  NoDup (fst (freshPrefix seen targets)) /\
  (forall x, x ∈ fst (freshPrefix seen targets) -> x ∈ targets /\ x ∉ seen) /\
  (snd (freshPrefix seen targets) = false -> fst (freshPrefix seen targets) = targets).
Proof.
  revert seen. induction targets as [|x l IH]; intros seen; cbn [freshPrefix].
  - split; [apply NoDup_nil_2|]. split; [|reflexivity].
    intros x Hx. now apply elem_of_nil in Hx.
  - case_bool_decide as Hx.
    + split; [apply NoDup_nil_2|]. split; [|discriminate].
      intros y Hy. now apply elem_of_nil in Hy.
    + specialize (IH (seen ++ [x])).
      destruct (freshPrefix (seen ++ [x]) l) as [p dup]. cbn [fst snd] in *.
      destruct IH as (Hnd & Hin & Heq).
      split; [|split].
      * apply NoDup_cons. split; [|exact Hnd]. intros Hp.
        destruct (Hin x Hp) as [_ Hn]. apply Hn, elem_of_app. right. now left.
      * intros y Hy. apply elem_of_cons in Hy as [->|Hy].
        -- split; [now left | exact Hx].
        -- destruct (Hin y Hy) as [Hl Hn]. split; [now right|].
           intros Hs. apply Hn, elem_of_app. now left.
      * intros Hd. now rewrite (Heq Hd).
Qed.

Lemma syncGameFile_valid env filePath parsed fm :
  parseMarkdownFile env filePath = Ok parsed ->
  gameFrontmatterSchema env (frontmatter parsed) = Some fm ->
  syncGameFile env filePath =
  tryCatch
    (trackGameReferences fm ;;;
     saveGame env (slugFromPath filePath) fm parsed filePath ;;;
     replaceJunction env GameDevelopers (slugFromPath filePath) (fm_developer fm) ;;;
     replaceJunction env GamePublishers (slugFromPath filePath) (fm_publisher fm) ;;;
     count (Processed EGame))
    (recordError "game" filePath).
Proof.
  intros Hp Hv. unfold syncGameFile. rewrite Hp, bind_lift_ok. cbv beta zeta.
  now rewrite Hv.
Qed.

(** Neither the references nor the row block touch a junction table. *)
Ltac side_keepJunctions :=
  idtac; intros; unfold keepJunctions; intros ?; autorewrite with st; reflexivity.

Lemma keepJunctions_trackGameReferences fm : rel keepJunctions (trackGameReferences fm).
Proof. rel_tac side_keepJunctions. Qed.

Lemma keepJunctions_saveGame env slug fm parsed filePath :
  rel keepJunctions (saveGame env slug fm parsed filePath).
Proof. rel_tac side_keepJunctions. Qed.

Lemma keepJunctions_saveRow env kind slug row : rel keepJunctions (saveRow env kind slug row).
Proof. rel_tac side_keepJunctions. Qed.

Lemma keepJunctions_trackDirector fm : rel keepJunctions (trackDirector fm).
Proof. rel_tac side_keepJunctions. Qed.

Lemma seq_eq {A B} (m : M A) (k : M B) (st : St) :
  nothrow m -> (m ;;; k) st = k (run m st).
Proof.
  intros H. destruct (H st) as [a Ha]. unfold bind, run.
  destruct (m st) as [[a'|e] st']; simpl in *; [reflexivity | discriminate Ha].
Qed.

Lemma replaceJunction_replaced env j slug targets st :
  replaceJunction env j slug targets st =
  (if snd (freshPrefix [] targets) then Throw (sqliteError env (junctionName j)) else Ok tt,
   replaced j slug targets st).
Proof.
  rewrite replaceJunction_eq. unfold replaced. now destruct (freshPrefix [] targets).
Qed.

(** One valid game document, step by step. *)
Lemma syncGameFile_valid_eq env filePath parsed fm st :
  parseMarkdownFile env filePath = Ok parsed ->
  gameFrontmatterSchema env (frontmatter parsed) = Some fm ->
  let slug := slugFromPath filePath in
  let st2 := run (saveGame env slug fm parsed filePath) (run (trackGameReferences fm) st) in
  let st3 := replaced GameDevelopers slug (fm_developer fm) st2 in
  let st4 := replaced GamePublishers slug (fm_publisher fm) st3 in
  syncGameFile env filePath st =
  (Ok tt,
   if snd (freshPrefix [] (fm_developer fm))
   then run (recordError "game" filePath (sqliteError env (junctionName GameDevelopers))) st3
   else if snd (freshPrefix [] (fm_publisher fm))
   then run (recordError "game" filePath (sqliteError env (junctionName GamePublishers))) st4
   else run (count (Processed EGame)) st4).
Proof.
  intros Hp Hv slug st2 st3 st4. rewrite (syncGameFile_valid _ _ _ _ Hp Hv).
  unfold tryCatch. fold slug.
  rewrite seq_eq by apply nothrow_trackGameReferences.
  rewrite seq_eq by apply nothrow_saveGame. fold st2.
  unfold bind at 1. rewrite replaceJunction_replaced. fold st3.
  destruct (snd (freshPrefix [] (fm_developer fm))); [reflexivity|].
  unfold bind at 1. rewrite replaceJunction_replaced. fold st4.
  destruct (snd (freshPrefix [] (fm_publisher fm))); reflexivity.
Qed.

Lemma jtable_replaced j j' slug targets st :
  jtable j (db (replaced j' slug targets st)) =
  if decide (j = j')
  then rowsNotOf slug (jtable j (db st)) ++ map (pair slug) (fst (freshPrefix [] targets))
  else jtable j (db st).
Proof.
  unfold replaced. autorewrite with st. case_decide; [now subst | reflexivity].
Qed.

Lemma table_replaced k j slug targets st :
  table k (db (replaced j slug targets st)) = table k (db st).
Proof. unfold replaced. now autorewrite with st. Qed.

Lemma report_replaced j slug targets st : report (replaced j slug targets st) = report st.
Proof. reflexivity. Qed.

Lemma refs_replaced w j slug targets st : refs w (replaced j slug targets st) = refs w st.
Proof. unfold replaced. now autorewrite with st. Qed.

#[global] Hint Rewrite jtable_replaced table_replaced report_replaced refs_replaced : st.

#[global] Instance keepErrors_preorder : PreOrder keepErrors.
Proof.
  split.
  - intros st. now split.
  - intros a b c [H1 H2] [H3 H4]. split; congruence.
Qed.

Ltac side_keepErrors :=
  idtac; intros; unfold keepErrors; autorewrite with st;
  rewrite ?errors_bump, ?errors_addChanges, ?gamesProcessed_bump, ?gamesProcessed_addChanges;
  split; reflexivity.

Lemma keepErrors_trackGameReferences fm : rel keepErrors (trackGameReferences fm).
Proof. rel_tac side_keepErrors. Qed.

Lemma keepErrors_saveGame env slug fm parsed filePath :
  rel keepErrors (saveGame env slug fm parsed filePath).
Proof. rel_tac side_keepErrors. Qed.

(* ===================================================================== *)
(** * The junction rows of a game document *)
(* ===================================================================== *)

(** C5, as the code has it. When the normalized developer and publisher
    lists of a valid game document have no repeated slug, the document is
    processed without error and, after it, the game-developer rows of its
    slug are one row per element of the developer list, the
    game-publisher rows one row per element of the publisher list, in the
    order of the lists; the rows of the other games are as before.  So a
    pair whose target is not in the list any more is not in the table,
    whatever the table held before. *)
Theorem game_junction_rows_are_replaced (env : Env) (filePath : string)
    (parsed : ParsedMarkdown) (fm : GameFrontmatter) (st : St) :
  parseMarkdownFile env filePath = Ok parsed ->
  gameFrontmatterSchema env (frontmatter parsed) = Some fm ->
  NoDup (fm_developer fm) ->
  NoDup (fm_publisher fm) ->
  let slug := slugFromPath filePath in
  let st' := run (syncGameFile env filePath) st in
  fst (syncGameFile env filePath st) = Ok tt /\
  errors (report st') = errors (report st) /\
  gamesProcessed (report st') = S (gamesProcessed (report st)) /\
  rowsOf slug (gameDevelopers (db st')) = map (pair slug) (fm_developer fm) /\
  rowsOf slug (gamePublishers (db st')) = map (pair slug) (fm_publisher fm) /\
  rowsNotOf slug (gameDevelopers (db st')) = rowsNotOf slug (gameDevelopers (db st)) /\
  rowsNotOf slug (gamePublishers (db st')) = rowsNotOf slug (gamePublishers (db st)) /\
  (forall target, (slug, target) ∈ gameDevelopers (db st') <-> target ∈ fm_developer fm) /\
  (forall target, (slug, target) ∈ gamePublishers (db st') <-> target ∈ fm_publisher fm).
Proof.
  intros Hp Hv Hd Hpub slug st'.
  pose proof (syncGameFile_valid_eq env filePath parsed fm st Hp Hv) as E.
  cbv zeta in E. fold slug in E.
  assert (Fd : freshPrefix [] (fm_developer fm) = (fm_developer fm, false))
    by (apply freshPrefix_NoDup; [exact Hd | intros x _ Hx; now apply elem_of_nil in Hx]).
  assert (Fp : freshPrefix [] (fm_publisher fm) = (fm_publisher fm, false))
    by (apply freshPrefix_NoDup; [exact Hpub | intros x _ Hx; now apply elem_of_nil in Hx]).
  rewrite Fd, Fp in E. cbn [fst snd] in E.
  set (st1 := run (trackGameReferences fm) st) in *.
  set (st2 := run (saveGame env slug fm parsed filePath) st1) in *.
  assert (J : forall j, jtable j (db st2) = jtable j (db st)).
  { intros j. unfold st2. rewrite (keepJunctions_saveGame env slug fm parsed filePath st1 j).
    apply (keepJunctions_trackGameReferences fm st j). }
  assert (K : keepErrors st st2).
  { transitivity st1; [apply keepErrors_trackGameReferences | apply keepErrors_saveGame]. }
  assert (GD : gameDevelopers (db st') =
               rowsNotOf slug (gameDevelopers (db st)) ++ map (pair slug) (fm_developer fm)).
  { unfold st', run at 1. rewrite E. cbn [snd].
    change (gameDevelopers ?d) with (jtable GameDevelopers d).
    autorewrite with st. rewrite Fd.
    rewrite decide_False by discriminate. rewrite decide_True by reflexivity.
    cbn [fst]. now rewrite J. }
  assert (GP : gamePublishers (db st') =
               rowsNotOf slug (gamePublishers (db st)) ++ map (pair slug) (fm_publisher fm)).
  { unfold st', run at 1. rewrite E. cbn [snd].
    change (gamePublishers ?d) with (jtable GamePublishers d).
    autorewrite with st. rewrite Fp.
    rewrite decide_True by reflexivity. rewrite decide_False by discriminate.
    cbn [fst]. now rewrite J. }
  split; [now rewrite E|].
  split; [|split].
  { unfold st', run at 1. rewrite E. cbn [snd]. autorewrite with st.
    rewrite errors_bump. apply K. }
  { unfold st', run at 1. rewrite E. cbn [snd]. autorewrite with st.
    rewrite gamesProcessed_bump. f_equal. apply K. }
  rewrite GD, GP.
  rewrite !rowsOf_app, !rowsNotOf_app, !rowsOf_rowsNotOf, !rowsNotOf_idem,
    !rowsOf_pairs, !rowsNotOf_pairs, !app_nil_r. cbn [app].
  repeat split; try reflexivity.
  - intros H. apply elem_of_app in H as [H|H].
    + apply elem_of_rowsNotOf in H as [H _]. now contradiction H.
    + now apply elem_of_pairs in H as [_ H].
  - intros H. apply elem_of_app. right. now apply elem_of_pairs.
  - intros H. apply elem_of_app in H as [H|H].
    + apply elem_of_rowsNotOf in H as [H _]. now contradiction H.
    + now apply elem_of_pairs in H as [_ H].
  - intros H. apply elem_of_app. right. now apply elem_of_pairs.
Qed.

Lemma game_junction_rows_are_replaced_witness :
  rowsOf "G" (gameDevelopers (db (run (syncGameFile Sample.twoDevelopersHost "lib/games/G.md")
                                     (Sample.stateOf Sample.storeWithPublisherLink))))
  = [("G", "A"); ("G", "B")] /\
  rowsOf "G" (gamePublishers (db (run (syncGameFile Sample.twoDevelopersHost "lib/games/G.md")
                                     (Sample.stateOf Sample.storeWithPublisherLink))))
  = [("G", "P")].
Proof.
  assert (Hv : gameFrontmatterSchema Sample.twoDevelopersHost Sample.twoDevelopersDoc =
               Some {| fm_status := None; fm_game_genre := []; fm_game_modes := [];
                       fm_game_genre_tags := []; fm_player_perspective := [];
                       fm_platform := None; fm_engine := None;
                       fm_developer := ["A"; "B"]; fm_publisher := ["P"];
                       fm_director := None; fm_release := None |})
    by (vm_compute; reflexivity).
  destruct (game_junction_rows_are_replaced
              Sample.twoDevelopersHost "lib/games/G.md"
              (Sample.parsedOf Sample.twoDevelopersDoc "") _
              (Sample.stateOf Sample.storeWithPublisherLink) eq_refl Hv)
    as (_ & _ & _ & Hd & Hp & _).
  - cbn [fm_developer]. apply (bool_decide_unpack _). vm_compute. reflexivity.
  - cbn [fm_publisher]. apply (bool_decide_unpack _). vm_compute. reflexivity.
  - split; [exact Hd | exact Hp].
Defined.

(** C5 as stated fails when a list repeats a slug: the second insert of
    the pair violates the primary key, the rest of the document is
    skipped, and the game-publisher rows of the game are not replaced.
    Here the document has no publisher and the pair (G, P) stays; the two
    elements of the developer list give one row. *)
Lemma repeated_developer_keeps_stale_publisher :
  fm_developer <$> gameFrontmatterSchema Sample.duplicateDeveloperHost
                     Sample.duplicateDeveloperDoc = Some ["A"; "A"] /\
  fm_publisher <$> gameFrontmatterSchema Sample.duplicateDeveloperHost
                     Sample.duplicateDeveloperDoc = Some [] /\
  gameDevelopers (snd (syncAll Sample.duplicateDeveloperHost 0 Sample.storeWithPublisherLink))
  = [("G", "A")] /\
  gamePublishers (snd (syncAll Sample.duplicateDeveloperHost 0 Sample.storeWithPublisherLink))
  = [("G", "P")] /\
  (errors <$> match fst (syncAll Sample.duplicateDeveloperHost 0
                           Sample.storeWithPublisherLink) with
              | Ok r => Some r
              | Throw _ => None
              end)
  = Some ["CSV parse error: ENOENT";
          "Error syncing game lib/games/G.md: UNIQUE constraint failed: game_developers"].
Proof. repeat split; vm_compute; reflexivity. Qed.

(* ===================================================================== *)
(** * Postconditions *)
(* ===================================================================== *)

Lemma post_seq_after {A B} (Q : St -> Prop) (m : M A) (k : M B) :
  nothrow m -> post Q k -> post Q (m ;;; k).
Proof. intros Hm Hk st. rewrite run_seq by exact Hm. apply Hk. Qed.

Lemma post_seq_keep {A B} (Q : St -> Prop) (m : M A) (k : M B) :
  post Q m -> rel (keeps Q) k -> post Q (m ;;; k).
Proof.
  intros Hm Hk st. destruct (fst (m st)) as [a|e] eqn:E.
  - rewrite (run_bind_ok _ _ _ _ E). apply Hk, Hm.
  - rewrite (run_bind_throw _ _ _ _ E). apply Hm.
Qed.

Lemma post_tryCatch (Q : St -> Prop) (body : M unit) (h : string -> M unit) :
  post Q body -> (forall e, rel (keeps Q) (h e)) -> post Q (tryCatch body h).
Proof.
  intros Hb Hh st. destruct (fst (body st)) as [a|e] eqn:E.
  - rewrite (run_tryCatch_ok _ _ _ _ E). apply Hb.
  - rewrite (run_tryCatch_throw _ _ _ _ E). apply Hh, Hb.
Qed.

(** A loop leaves what one of its turns establishes and the other turns
    keep. *)
Lemma post_forEach_member {A} (Q : St -> Prop) (l : list A) (body : A -> M unit) (x : A) :
  x ∈ l ->
  (forall y, y ∈ l -> nothrow (body y)) ->
  post Q (body x) ->
  (forall y, y ∈ l -> rel (keeps Q) (body y)) ->
  post Q (forEach l body).
Proof.
  induction l as [|y l IH]; intros Hx Hn Hq Hk st.
  - now apply elem_of_nil in Hx.
  - rewrite run_forEach_cons by (apply Hn; now left).
    apply elem_of_cons in Hx as [->|Hx].
    + apply (rel_forEach (keeps Q)); [intros z Hz; apply Hk; now right | apply Hq].
    + apply IH; [exact Hx | | exact Hq |]; intros z Hz; [apply Hn | apply Hk]; now right.
Qed.

Lemma rel_keeps (R : St -> St -> Prop) (Q : St -> Prop) {A} (m : M A) :
  (forall st st', R st st' -> Q st -> Q st') -> rel R m -> rel (keeps Q) m.
Proof. intros H Hm st. unfold keeps. apply H, Hm. Qed.

(* ===================================================================== *)
(** * The primary key of a junction table, one game at a time *)
(* ===================================================================== *)

Lemma rowsOf_rowsNotOf_comm slug a t :
  rowsOf slug (rowsNotOf a t) = rowsNotOf a (rowsOf slug t).
Proof.
  unfold rowsOf, rowsNotOf. induction t as [|r t IH]; simpl; [reflexivity|].
  destruct (String.eqb (fst r) a) eqn:Ea, (String.eqb (fst r) slug) eqn:Es; simpl;
    rewrite ?Ea, ?Es; simpl; now rewrite IH.
Qed.

Lemma NoDup_List_filter {A} (f : A -> bool) (l : list A) :
  NoDup l -> NoDup (List.filter f l).
Proof.
  induction l as [|x l IH]; intros H; simpl; [apply NoDup_nil_2|].
  apply NoDup_cons in H as [Hx H]. destruct (f x); [|now apply IH].
  apply NoDup_cons. split; [|now apply IH].
  intros Hin. apply Hx. apply list_elem_of_In in Hin. apply filter_In in Hin as [Hin _].
  now apply list_elem_of_In.
Qed.

Lemma NoDup_rowsOf_delete slug a t :
  NoDup (rowsOf slug t) -> NoDup (rowsOf slug (rowsNotOf a t)).
Proof. intros H. rewrite rowsOf_rowsNotOf_comm. now apply NoDup_List_filter. Qed.

Lemma NoDup_rowsOf_insert slug pair t :
  pair ∉ t -> NoDup (rowsOf slug t) -> NoDup (rowsOf slug (t ++ [pair])).
Proof.
  intros Hn H. rewrite rowsOf_app. unfold rowsOf at 2. simpl.
  destruct (String.eqb (fst pair) slug); [|now rewrite app_nil_r].
  apply NoDup_app. repeat split; [exact H | | apply NoDup_singleton].
  intros r Hr Hr'. apply list_elem_of_singleton in Hr'. subst r.
  apply Hn. destruct pair as [a b]. now apply elem_of_rowsOf in Hr as [_ Hr].
Qed.

Ltac side_keyAt :=
  idtac; intros; unfold keeps, keyAt; autorewrite with st;
  try case_decide; subst;
  auto using NoDup_rowsOf_delete, NoDup_rowsOf_insert.

(** Every step of the run keeps the key. *)
Lemma keyAt_syncGameFile j slug env filePath : rel (keeps (keyAt j slug)) (syncGameFile env filePath).
Proof. rel_tac side_keyAt. Qed.

Lemma keyAt_syncCsvGame j slug env g : rel (keeps (keyAt j slug)) (syncCsvGame env g).
Proof. rel_tac side_keyAt. Qed.

Lemma keyAt_syncStudioFile j slug env filePath :
  rel (keeps (keyAt j slug)) (syncStudioFile env filePath).
Proof. rel_tac side_keyAt. Qed.

Lemma keyAt_syncPublisherFile j slug env filePath :
  rel (keeps (keyAt j slug)) (syncPublisherFile env filePath).
Proof. rel_tac side_keyAt. Qed.

Lemma keyAt_syncDesignerFile j slug env filePath :
  rel (keeps (keyAt j slug)) (syncDesignerFile env filePath).
Proof. rel_tac side_keyAt. Qed.

Lemma keyAt_materializeStubs j slug env : rel (keeps (keyAt j slug)) (materializeStubs env).
Proof. rel_tac side_keyAt. Qed.

(* ===================================================================== *)
(** * A pair declared from both sides *)
(* ===================================================================== *)

Lemma NoDup_pairs (slug : string) (targets : list string) :
  NoDup targets -> NoDup (map (pair slug) targets).
Proof.
  induction targets as [|x l IH]; intros H; simpl; [apply NoDup_nil_2|].
  apply NoDup_cons in H as [Hx H]. apply NoDup_cons. split; [|now apply IH].
  intros Hin. apply elem_of_pairs in Hin as [_ Hin]. contradiction.
Qed.

(** A valid game document leaves the rows of its slug without a repeated
    pair, whatever the table held. *)
Lemma syncGameFile_establishes_key env filePath parsed fm :
  parseMarkdownFile env filePath = Ok parsed ->
  gameFrontmatterSchema env (frontmatter parsed) = Some fm ->
  post (keyAt GameDevelopers (slugFromPath filePath)) (syncGameFile env filePath).
Proof.
  intros Hp Hv st. unfold run. rewrite (syncGameFile_valid_eq _ _ _ _ st Hp Hv).
  cbv zeta. cbn [snd].
  set (st2 := run (saveGame env (slugFromPath filePath) fm parsed filePath)
                (run (trackGameReferences fm) st)).
  assert (K : forall st', jtable GameDevelopers (db st') =
                jtable GameDevelopers
                  (db (replaced GameDevelopers (slugFromPath filePath) (fm_developer fm) st2)) ->
              keyAt GameDevelopers (slugFromPath filePath) st').
  { intros st' E. unfold keyAt. rewrite E. autorewrite with st.
    rewrite decide_True by reflexivity.
    rewrite rowsOf_app, rowsOf_rowsNotOf, rowsOf_pairs. cbn [app].
    apply NoDup_pairs. apply (freshPrefix_facts [] (fm_developer fm)). }
  destruct (snd (freshPrefix [] (fm_developer fm))); [apply K; now autorewrite with st|].
  destruct (snd (freshPrefix [] (fm_publisher fm))); apply K; autorewrite with st;
    now rewrite decide_False by discriminate.
Qed.

(** No pair leaves table [j]. *)
Ltac side_growJunction :=
  idtac; intros; unfold growJunction; autorewrite with st;
  try case_decide; subst; try discriminate;
  intros ? ?; rewrite ?elem_of_app; auto.

Lemma growJunction_saveRow j env kind slug row : rel (growJunction j) (saveRow env kind slug row).
Proof. rel_tac side_growJunction. Qed.

Lemma growJunction_trackDirector j fm : rel (growJunction j) (trackDirector fm).
Proof. rel_tac side_growJunction. Qed.

Lemma growDevelopers_syncStudioFile env filePath :
  rel (growJunction GameDevelopers) (syncStudioFile env filePath).
Proof. rel_tac side_growJunction. Qed.

Lemma growDevelopers_syncPublisherFile env filePath :
  rel (growJunction GameDevelopers) (syncPublisherFile env filePath).
Proof. rel_tac side_growJunction. Qed.

Lemma growPublishers_syncPublisherFile env filePath :
  rel (growJunction GamePublishers) (syncPublisherFile env filePath).
Proof. rel_tac side_growJunction. Qed.

Lemma growJunction_syncDesignerFile j env filePath :
  rel (growJunction j) (syncDesignerFile env filePath).
Proof. rel_tac side_growJunction. Qed.

Lemma growJunction_materializeStubs j env : rel (growJunction j) (materializeStubs env).
Proof. rel_tac side_growJunction. Qed.

Lemma growJunction_linked j pair st st' :
  growJunction j st st' -> linked j pair st -> linked j pair st'.
Proof. intros H. apply H. Qed.

(** The reverse direction leaves the pair of every game it is given. *)
Lemma linkGames_links env j slug gameSlugs gameSlug :
  gameSlug ∈ gameSlugs ->
  post (linked j (gameSlug, slug)) (linkGames env j slug gameSlugs).
Proof.
  intros Hin. unfold linkGames.
  apply post_forEach_member with (x := gameSlug); [exact Hin | | |].
  - intros y _. apply nothrow_linkGame.
  - intros st. unfold run, linkGame, bind, selectJunction, gets, linked. cbn [fst snd].
    destruct (List.find _ _) as [r|] eqn:E.
    + apply find_junction_Some in E. exact E.
    + apply find_junction_None in E. unfold insertJunction.
      rewrite bool_decide_eq_false_2 by exact E. cbn [snd]. autorewrite with st.
      rewrite decide_True by reflexivity. apply elem_of_app. right. now left.
  - intros y _. apply (rel_keeps (growJunction j)); [apply growJunction_linked|].
    rel_tac side_growJunction.
Qed.

Lemma syncStudioFile_parsed env filePath parsed :
  parseMarkdownFile env filePath = Ok parsed ->
  syncStudioFile env filePath =
  tryCatch
    (trackDirector (studioFrontmatterSchema (frontmatter parsed)) ;;;
     saveRow env EStudio (slugFromPath filePath)
       (studioRow (slugFromPath filePath) (studioFrontmatterSchema (frontmatter parsed))
          parsed filePath) ;;;
     linkOwnGames env GameDevelopers (slugFromPath filePath)
       (sfm_games <$> studioFrontmatterSchema (frontmatter parsed)) ;;;
     replaceOwnStudios env RelatedStudios (slugFromPath filePath)
       (sfm_studios <$> studioFrontmatterSchema (frontmatter parsed)) ;;;
     count (Processed EStudio))
    (recordError "studio" filePath).
Proof. intros Hp. unfold syncStudioFile. now rewrite Hp, bind_lift_ok. Qed.

Lemma syncPublisherFile_parsed env filePath parsed :
  parseMarkdownFile env filePath = Ok parsed ->
  syncPublisherFile env filePath =
  tryCatch
    (saveRow env EPublisher (slugFromPath filePath)
       (overviewRow (slugFromPath filePath) parsed filePath) ;;;
     linkOwnGames env GamePublishers (slugFromPath filePath)
       (pfm_games <$> publisherFrontmatterSchema (frontmatter parsed)) ;;;
     replaceOwnStudios env PublisherStudios (slugFromPath filePath)
       (pfm_studios <$> publisherFrontmatterSchema (frontmatter parsed)) ;;;
     count (Processed EPublisher))
    (recordError "publisher" filePath).
Proof. intros Hp. unfold syncPublisherFile. now rewrite Hp, bind_lift_ok. Qed.

(** A valid studio document leaves the pair of every game it lists. *)
Lemma syncStudioFile_links env filePath parsed fm gameSlug :
  parseMarkdownFile env filePath = Ok parsed ->
  studioFrontmatterSchema (frontmatter parsed) = Some fm ->
  gameSlug ∈ sfm_games fm ->
  post (linked GameDevelopers (gameSlug, slugFromPath filePath)) (syncStudioFile env filePath).
Proof.
  intros Hp Hv Hg. rewrite (syncStudioFile_parsed _ _ _ Hp), Hv.
  apply post_tryCatch.
  - apply post_seq_after; [apply nothrow_trackDirector|].
    apply post_seq_after; [apply nothrow_saveRow|].
    apply post_seq_keep.
    + cbn [fmap option_fmap option_map]. destruct (sfm_games fm) as [|g0 gs] eqn:E.
      * now apply elem_of_nil in Hg.
      * cbn [linkOwnGames]. now apply linkGames_links.
    + apply (rel_keeps (growJunction GameDevelopers)); [apply growJunction_linked|].
      rel_tac side_growJunction.
  - intros e. apply (rel_keeps (growJunction GameDevelopers)); [apply growJunction_linked|].
    rel_tac side_growJunction.
Qed.

(** The five loops of phases 2 to 4, one after the other. *)
Lemma run_syncDocuments env csvGames st :
  run (syncDocuments env csvGames) st =
  run (forEach (globSync env "lib/designers/*.md") (syncDesignerFile env))
    (run (forEach (globSync env "lib/publishers/*.md") (syncPublisherFile env))
       (run (forEach (globSync env "lib/studios/*.md") (syncStudioFile env))
          (run (forEach csvGames (syncCsvGame env))
             (run (forEach (globSync env "lib/games/*.md") (syncGameFile env)) st)))).
Proof.
  unfold syncDocuments.
  rewrite run_seq by (apply nothrow_forEach; intros; apply nothrow_syncGameFile).
  rewrite run_seq by (apply nothrow_forEach; intros; apply nothrow_syncCsvGame).
  rewrite run_seq by (apply nothrow_forEach; intros; apply nothrow_syncStudioFile).
  rewrite run_seq by (apply nothrow_forEach; intros; apply nothrow_syncPublisherFile).
  reflexivity.
Qed.

Lemma occurrences_rowsOf (a b : string) (t : list (string * string)) :
  occurrences (a, b) t = occurrences (a, b) (rowsOf a t).
Proof.
  unfold occurrences, rowsOf. induction t as [|r t IH]; simpl; [reflexivity|].
  destruct (String.eqb (fst r) a) eqn:E; simpl.
  - destruct (bool_decide (r = (a, b))); simpl; now rewrite IH.
  - rewrite bool_decide_eq_false_2; [exact IH|].
    intros ->. simpl in E. now rewrite String.eqb_refl in E.
Qed.

Lemma occurrences_NoDup (pair : string * string) (t : list (string * string)) :
  NoDup t -> pair ∈ t -> occurrences pair t = 1.
Proof.
  unfold occurrences. induction t as [|r t IH]; intros Hn Hin.
  - now apply elem_of_nil in Hin.
  - apply NoDup_cons in Hn as [Hr Hn]. simpl. case_bool_decide as E.
    + subst r. simpl. f_equal.
      clear -Hr. induction t as [|r t IH]; simpl; [reflexivity|].
      rewrite bool_decide_eq_false_2.
      * apply IH. intros H. apply Hr. now right.
      * intros ->. apply Hr. now left.
    + apply IH; [exact Hn|]. apply elem_of_cons in Hin as [->|Hin]; [contradiction | exact Hin].
Qed.

(** C6. When a game document is valid and the document of a studio lists
    the game among its games, the store after the run holds the pair
    (game, studio) exactly once in the game-developer table, also when the
    developer list of the game names the studio, and whatever the store
    held before.  The studio phase inserts the pair only when
    the rows of the game do not have it: a table that has the pair is left
    as it is, and a table that lacks it gets it once. *)
Theorem pair_declared_from_both_sides_is_stored_once (env : Env) (now0 : nat) (d : Db)
    (gamePath studioPath : string) (parsedG parsedS : ParsedMarkdown)
    (fmG : GameFrontmatter) (fmS : StudioFrontmatter) :
  gamePath ∈ globSync env "lib/games/*.md" ->
  parseMarkdownFile env gamePath = Ok parsedG ->
  gameFrontmatterSchema env (frontmatter parsedG) = Some fmG ->
  studioPath ∈ globSync env "lib/studios/*.md" ->
  parseMarkdownFile env studioPath = Ok parsedS ->
  studioFrontmatterSchema (frontmatter parsedS) = Some fmS ->
  slugFromPath studioPath ∈ fm_developer fmG ->
  slugFromPath gamePath ∈ sfm_games fmS ->
  occurrences (slugFromPath gamePath, slugFromPath studioPath)
    (gameDevelopers (snd (syncAll env now0 d))) = 1 /\
  (forall st,
     (slugFromPath gamePath, slugFromPath studioPath) ∈ gameDevelopers (db st) ->
     linkGame env GameDevelopers (slugFromPath studioPath) (slugFromPath gamePath) st
     = (Ok tt, st)) /\
  (forall st,
     (slugFromPath gamePath, slugFromPath studioPath) ∉ gameDevelopers (db st) ->
     gameDevelopers (db (run (linkGame env GameDevelopers (slugFromPath studioPath)
                                (slugFromPath gamePath)) st))
     = gameDevelopers (db st) ++ [(slugFromPath gamePath, slugFromPath studioPath)]).
Proof.
  intros HgIn HgP HgV HsIn HsP HsV _ Hgames.
  set (g := slugFromPath gamePath). set (s := slugFromPath studioPath).
  split; [|split].
  - rewrite syncAll_eq. cbn [snd]. rewrite run_transact, run_syncDocuments.
    set (st0 := initialState env now0 d).
    set (st1 := run (forEach (globSync env "lib/games/*.md") (syncGameFile env)) st0).
    set (st2 := run (forEach (fst (readCatalog env)) (syncCsvGame env)) st1).
    set (st3 := run (forEach (globSync env "lib/studios/*.md") (syncStudioFile env)) st2).
    set (st4 := run (forEach (globSync env "lib/publishers/*.md") (syncPublisherFile env)) st3).
    set (st5 := run (forEach (globSync env "lib/designers/*.md") (syncDesignerFile env)) st4).
    set (st6 := run (materializeStubs env) st5).
    assert (K1 : keyAt GameDevelopers g st1).
    { apply (post_forEach_member (keyAt GameDevelopers g) _ _ gamePath HgIn).
      - intros y _. apply nothrow_syncGameFile.
      - now apply (syncGameFile_establishes_key env gamePath parsedG fmG).
      - intros y _. apply keyAt_syncGameFile. }
    assert (K3 : keyAt GameDevelopers g st3).
    { apply (rel_forEach (keeps (keyAt GameDevelopers g)));
        [intros y _; apply keyAt_syncStudioFile|].
      apply (rel_forEach (keeps (keyAt GameDevelopers g)));
        [intros y _; apply keyAt_syncCsvGame | exact K1]. }
    assert (L3 : linked GameDevelopers (g, s) st3).
    { apply (post_forEach_member (linked GameDevelopers (g, s)) _ _ studioPath HsIn).
      - intros y _. apply nothrow_syncStudioFile.
      - now apply (syncStudioFile_links env studioPath parsedS fmS).
      - intros y _. apply (rel_keeps (growJunction GameDevelopers));
          [apply growJunction_linked | apply growDevelopers_syncStudioFile]. }
    assert (K6 : keyAt GameDevelopers g st6).
    { apply keyAt_materializeStubs.
      apply (rel_forEach (keeps (keyAt GameDevelopers g)));
        [intros y _; apply keyAt_syncDesignerFile|].
      apply (rel_forEach (keeps (keyAt GameDevelopers g)));
        [intros y _; apply keyAt_syncPublisherFile | exact K3]. }
    assert (L6 : linked GameDevelopers (g, s) st6).
    { apply (growJunction_linked _ _ st5); [apply growJunction_materializeStubs|].
      apply (growJunction_linked _ _ st4);
        [apply (rel_forEach (growJunction GameDevelopers)); intros y _;
         apply growJunction_syncDesignerFile|].
      apply (growJunction_linked _ _ st3);
        [apply (rel_forEach (growJunction GameDevelopers)); intros y _;
         apply growDevelopers_syncPublisherFile | exact L3]. }
    change (gameDevelopers (db st6)) with (jtable GameDevelopers (db st6)).
    rewrite occurrences_rowsOf. apply occurrences_NoDup; [exact K6|].
    apply elem_of_rowsOf. split; [reflexivity | exact L6].
  - intros st Hin. unfold linkGame, bind, selectJunction, gets.
    destruct (List.find _ _) as [r|] eqn:E; [reflexivity|].
    apply find_junction_None in E. contradiction.
  - intros st Hn. unfold run, linkGame, bind, selectJunction, gets.
    destruct (List.find _ _) as [r|] eqn:E.
    + apply find_junction_Some in E. contradiction.
    + unfold insertJunction. cbn [jtable].
      rewrite bool_decide_eq_false_2 by exact Hn. reflexivity.
Qed.

Lemma pair_declared_from_both_sides_is_stored_once_witness :
  occurrences ("G", "S") (gameDevelopers (snd (syncAll Sample.bothSidesHost 0 emptyDb))) = 1.
Proof.
  refine (proj1 (pair_declared_from_both_sides_is_stored_once
                   Sample.bothSidesHost 0 emptyDb "lib/games/G.md" "lib/studios/S.md"
                   (Sample.parsedOf Sample.gameOfStudioDoc "")
                   (Sample.parsedOf Sample.studioOfGameDoc "")
                   {| fm_status := None; fm_game_genre := []; fm_game_modes := [];
                      fm_game_genre_tags := []; fm_player_perspective := [];
                      fm_platform := None; fm_engine := None;
                      fm_developer := ["S"]; fm_publisher := [];
                      fm_director := None; fm_release := None |}
                   {| sfm_director := None; sfm_games := ["G"]; sfm_studios := [] |}
                   _ _ _ _ _ _ _ _)).
  - apply list_elem_of_In. vm_compute. now left.
  - reflexivity.
  - vm_compute. reflexivity.
  - apply list_elem_of_In. vm_compute. now left.
  - reflexivity.
  - vm_compute. reflexivity.
  - apply list_elem_of_In. vm_compute. now left.
  - apply list_elem_of_In. vm_compute. now left.
Defined.

(* ===================================================================== *)
(** * Pending references *)
(* ===================================================================== *)

Lemma elem_of_addAll (xs s : list string) (y : string) :
  y ∈ addAll xs s <-> y ∈ xs \/ y ∈ s.
Proof.
  unfold addAll. revert s. induction xs as [|x xs IH]; intros s; simpl.
  - split; [now right | intros [H|H]; [now apply elem_of_nil in H | exact H]].
  - rewrite IH, elem_of_setAdd, elem_of_cons. tauto.
Qed.

Lemma addAll_app (xs ys s : list string) : addAll (xs ++ ys) s = addAll ys (addAll xs s).
Proof. unfold addAll. apply fold_left_app. Qed.

Lemma set_refs_twice w s1 s2 st : set_refs w s2 (set_refs w s1 st) = set_refs w s2 st.
Proof. now destruct w. Qed.

Lemma set_refs_id w st : set_refs w (refs w st) st = st.
Proof. destruct w; apply St_eta. Qed.

Lemma set_db_set_refs d w s st : set_db d (set_refs w s st) = set_refs w s (set_db d st).
Proof. now destruct w. Qed.

(** The loop of a replacement of [owner.studios]: as for a replacement,
    and every target that is inserted becomes a pending reference. *)
Lemma link_targets_eq env j slug targets st :
  forEach targets
    (fun studioSlug =>
       insertJunction env j (slug, studioSlug) ;;; addRef ReferencedStudios studioSlug) st =
  (if snd (freshPrefix (map snd (rowsOf slug (jtable j (db st)))) targets)
   then Throw (sqliteError env (junctionName j)) else Ok tt,
   set_refs ReferencedStudios
     (addAll (fst (freshPrefix (map snd (rowsOf slug (jtable j (db st)))) targets))
        (refs ReferencedStudios st))
     (set_db (set_jtable j
                (jtable j (db st)
                 ++ map (pair slug)
                      (fst (freshPrefix (map snd (rowsOf slug (jtable j (db st)))) targets)))
                (db st)) st)).
Proof.
  revert st. induction targets as [|x l IH]; intros st.
  - cbn [forEach freshPrefix fst snd map addAll fold_left]. unfold ret.
    rewrite app_nil_r, set_jtable_id, set_db_id.
    now rewrite (set_refs_id ReferencedStudios).
  - cbn [forEach freshPrefix]. unfold bind at 1. unfold bind at 1.
    unfold insertJunction at 1.
    rewrite (bool_decide_ext _ _ (in_junction_iff slug x (jtable j (db st)))).
    destruct (bool_decide (x ∈ map snd (rowsOf slug (jtable j (db st))))) eqn:E.
    + cbn [fst snd map addAll fold_left]. rewrite app_nil_r, set_jtable_id, set_db_id.
      now rewrite (set_refs_id ReferencedStudios).
    + unfold addRef at 1. unfold modify. rewrite IH. autorewrite with st.
      rewrite !decide_True by reflexivity.
      rewrite rowsOf_app, map_app.
      change (rowsOf slug [(slug, x)]) with
        (if String.eqb slug slug then [(slug, x)] else []).
      rewrite String.eqb_refl. cbn [map snd].
      destruct (freshPrefix (map snd (rowsOf slug (jtable j (db st))) ++ [x]) l) as [p dup].
      cbn [fst snd map addAll fold_left].
      rewrite set_db_set_refs, set_refs_twice, set_jtable_twice, set_db_twice.
      now rewrite <- app_assoc.
Qed.

Lemma replaceStudios_eq env j slug targets st :
  replaceStudios env j slug targets st =
  (if snd (freshPrefix [] targets) then Throw (sqliteError env (junctionName j)) else Ok tt,
   set_refs ReferencedStudios
     (addAll (fst (freshPrefix [] targets)) (refs ReferencedStudios st))
     (replaced j slug targets st)).
Proof.
  unfold replaceStudios. unfold bind at 1. unfold deleteJunction at 1. unfold modify.
  rewrite link_targets_eq. autorewrite with st. rewrite decide_True by reflexivity.
  fold (rowsNotOf slug (jtable j (db st))). rewrite rowsOf_rowsNotOf. cbn [map].
  unfold replaced. now rewrite set_jtable_twice, set_db_twice.
Qed.

#[global] Instance keepRefs_preorder : PreOrder keepRefs.
Proof.
  split.
  - intros st w. reflexivity.
  - intros a b c H1 H2 w. now rewrite H2, H1.
Qed.

#[global] Instance untouched_preorder kind slug : PreOrder (untouched kind slug).
Proof.
  split.
  - intros st. reflexivity.
  - intros a b c H1 H2. unfold untouched in *. now rewrite H2, H1.
Qed.

Ltac side_keepRefs :=
  idtac; intros; unfold keepRefs; intros ?; autorewrite with st; reflexivity.

Lemma keepRefs_createStub env kind slug : rel keepRefs (createStub env kind slug).
Proof. rel_tac side_keepRefs. Qed.

Lemma keepRefs_createStubs env kind which : rel keepRefs (createStubs env kind which).
Proof. rel_tac side_keepRefs. Qed.

Lemma keepRefs_saveRow env kind slug row : rel keepRefs (saveRow env kind slug row).
Proof. rel_tac side_keepRefs. Qed.

Lemma keepRefs_saveGame env slug fm parsed filePath :
  rel keepRefs (saveGame env slug fm parsed filePath).
Proof. rel_tac side_keepRefs. Qed.

Lemma keepRefs_linkGames env j slug gameSlugs : rel keepRefs (linkGames env j slug gameSlugs).
Proof. rel_tac side_keepRefs. Qed.

Lemma keepRefs_linkOwnGames env j slug games : rel keepRefs (linkOwnGames env j slug games).
Proof. rel_tac side_keepRefs. Qed.

Lemma keepRefs_syncStubGame env slug filePath : rel keepRefs (syncStubGame env slug filePath).
Proof. rel_tac side_keepRefs. Qed.

Lemma keepRefs_syncCsvGame env g : rel keepRefs (syncCsvGame env g).
Proof. rel_tac side_keepRefs. Qed.

Lemma keepRefs_syncDesignerFile env filePath : rel keepRefs (syncDesignerFile env filePath).
Proof. rel_tac side_keepRefs. Qed.

(** Every step keeps the pending references it finds. *)
Lemma growRefs_syncGameFile env filePath : rel growRefs (syncGameFile env filePath).
Proof. rel_tac side_growRefs. Qed.

Lemma growRefs_syncCsvGame env g : rel growRefs (syncCsvGame env g).
Proof. rel_tac side_growRefs. Qed.

Lemma growRefs_syncStudioFile env filePath : rel growRefs (syncStudioFile env filePath).
Proof. rel_tac side_growRefs. Qed.

Lemma growRefs_syncPublisherFile env filePath : rel growRefs (syncPublisherFile env filePath).
Proof. rel_tac side_growRefs. Qed.

Lemma growRefs_syncDesignerFile env filePath : rel growRefs (syncDesignerFile env filePath).
Proof. rel_tac side_growRefs. Qed.

Lemma growRefs_pending w x st st' : growRefs st st' -> x ∈ refs w st -> x ∈ refs w st'.
Proof. intros H. apply H. Qed.

Lemma run_addRef w x st : run (addRef w x) st = set_refs w (setAdd x (refs w st)) st.
Proof. reflexivity. Qed.

#[global] Hint Rewrite run_addRef : st.

(** The references of a game document are pending after its turn. *)
Lemma trackGameReferences_refs fm st :
  forall w, refs w (run (trackGameReferences fm) st) =
    match w with
    | ReferencedStudios => addAll (fm_developer fm) (refs w st)
    | ReferencedPublishers => addAll (fm_publisher fm) (refs w st)
    | ReferencedDesigners =>
        if truthy (fm_director fm)
        then setAdd (default "" (fm_director fm)) (refs w st) else refs w st
    end.
Proof.
  assert (L : forall which xs st0 w,
             refs w (run (forEach xs (addRef which)) st0) =
             if decide (w = which) then addAll xs (refs w st0) else refs w st0).
  { intros which xs. induction xs as [|x xs IH]; intros st0 w.
    - simpl. now case_decide.
    - rewrite run_forEach_cons by apply nothrow_addRef. rewrite IH.
      autorewrite with st. case_decide; [subst; reflexivity | reflexivity]. }
  intros w. unfold trackGameReferences.
  rewrite run_seq by (apply nothrow_forEach; intros; apply nothrow_addRef).
  rewrite run_seq by (apply nothrow_forEach; intros; apply nothrow_addRef).
  destruct (truthy (fm_director fm)); autorewrite with st; rewrite !L;
    destruct w; reflexivity.
Qed.

(* ===================================================================== *)
(** * What the documents make pending *)
(* ===================================================================== *)

Lemma growRefs_keeps_pending w x {A} (m : M A) : rel growRefs m -> rel (keeps (pending w x)) m.
Proof. apply rel_keeps. intros st st' H. apply H. Qed.

Lemma syncGameFile_pending env filePath parsed fm w x :
  parseMarkdownFile env filePath = Ok parsed ->
  gameFrontmatterSchema env (frontmatter parsed) = Some fm ->
  x ∈ gameReferences fm w ->
  post (pending w x) (syncGameFile env filePath).
Proof.
  intros Hp Hv Hx. rewrite (syncGameFile_valid _ _ _ _ Hp Hv).
  apply post_tryCatch.
  - apply post_seq_keep.
    + intros st. unfold pending. rewrite trackGameReferences_refs.
      destruct w; cbn [gameReferences] in Hx.
      * apply elem_of_addAll. now left.
      * apply elem_of_addAll. now left.
      * destruct (truthy (fm_director fm)); [|now apply elem_of_nil in Hx].
        apply list_elem_of_singleton in Hx. subst x. apply elem_of_setAdd. now left.
    + apply growRefs_keeps_pending. rel_tac side_growRefs.
  - intros e. apply growRefs_keeps_pending. rel_tac side_growRefs.
Qed.

Lemma replaceOwnStudios_pending env j slug targets x :
  x ∈ fst (freshPrefix [] targets) ->
  post (pending ReferencedStudios x) (replaceOwnStudios env j slug (Some targets)).
Proof.
  intros Hx st. destruct targets as [|t ts]; [now apply elem_of_nil in Hx|].
  cbn [replaceOwnStudios]. unfold run, pending. rewrite replaceStudios_eq. cbn [snd].
  autorewrite with st. rewrite decide_True by reflexivity.
  apply elem_of_addAll. now left.
Qed.

Lemma syncStudioFile_pending env filePath parsed fm w x :
  parseMarkdownFile env filePath = Ok parsed ->
  studioFrontmatterSchema (frontmatter parsed) = Some fm ->
  x ∈ studioReferences fm w ->
  post (pending w x) (syncStudioFile env filePath).
Proof.
  intros Hp Hv Hx. rewrite (syncStudioFile_parsed _ _ _ Hp), Hv.
  cbn [fmap option_fmap option_map].
  apply post_tryCatch; [|intros e; apply growRefs_keeps_pending; rel_tac side_growRefs].
  destruct w; cbn [studioReferences] in Hx.
  - apply post_seq_after; [apply nothrow_trackDirector|].
    apply post_seq_after; [apply nothrow_saveRow|].
    apply post_seq_after; [apply nothrow_linkOwnGames|].
    apply post_seq_keep; [now apply replaceOwnStudios_pending|].
    apply growRefs_keeps_pending. rel_tac side_growRefs.
  - now apply elem_of_nil in Hx.
  - apply post_seq_keep; [|apply growRefs_keeps_pending; rel_tac side_growRefs].
    intros st. unfold trackDirector, pending. cbn [mbind option_bind].
    destruct (truthy (sfm_director fm)); [|now apply elem_of_nil in Hx].
    apply list_elem_of_singleton in Hx. subst x. autorewrite with st.
    rewrite decide_True by reflexivity. apply elem_of_setAdd. now left.
Qed.

Lemma syncPublisherFile_pending env filePath parsed fm w x :
  parseMarkdownFile env filePath = Ok parsed ->
  publisherFrontmatterSchema (frontmatter parsed) = Some fm ->
  x ∈ publisherReferences fm w ->
  post (pending w x) (syncPublisherFile env filePath).
Proof.
  intros Hp Hv Hx. rewrite (syncPublisherFile_parsed _ _ _ Hp), Hv.
  cbn [fmap option_fmap option_map].
  apply post_tryCatch; [|intros e; apply growRefs_keeps_pending; rel_tac side_growRefs].
  destruct w; cbn [publisherReferences] in Hx;
    [|now apply elem_of_nil in Hx|now apply elem_of_nil in Hx].
  apply post_seq_after; [apply nothrow_saveRow|].
  apply post_seq_after; [apply nothrow_linkOwnGames|].
  apply post_seq_keep; [now apply replaceOwnStudios_pending|].
  apply growRefs_keeps_pending. rel_tac side_growRefs.
Qed.

(* ===================================================================== *)
(** * Phase 5: the stubs *)
(* ===================================================================== *)

Lemma createStubs_eq env kind which st :
  createStubs env kind which st = forEach (refs which st) (createStub env kind) st.
Proof. reflexivity. Qed.

Lemma storedRow_stubRow which slug now :
  storedRow (kindOf which) (stubRow (kindOf which) slug now) = stubRow (kindOf which) slug now.
Proof. now destruct which. Qed.

(** A loop whose turns only insert rows that are missing. *)
Ltac side_insertOnly :=
  idtac; intros; unfold growTables; split; intros *; autorewrite with st;
  try case_decide; subst; rewrite ?lookup_insert; try case_decide; subst;
  auto; try congruence; try tauto.

Lemma insertOnly_createStub env kind slug :
  rel (growTables (fun _ _ => False)) (createStub env kind slug).
Proof. rel_tac side_insertOnly. Qed.

Lemma insertOnly_createStubs env kind which :
  rel (growTables (fun _ _ => False)) (createStubs env kind which).
Proof. rel_tac side_insertOnly. Qed.

Lemma insertOnly_hasRow kind x st st' :
  growTables (fun _ _ => False) st st' -> hasRow kind x st -> hasRow kind x st'.
Proof. intros [H _]. apply H. Qed.

Lemma insertOnly_hasStub kind x st st' :
  growTables (fun _ _ => False) st st' -> hasStub kind x st -> hasStub kind x st'.
Proof. intros [_ H] [now Hn]. exists now. apply (H _ _ _ Hn). tauto. Qed.

Lemma createStub_hasRow env kind x : post (hasRow kind x) (createStub env kind x).
Proof.
  intros st. unfold run, hasRow. rewrite createStub_eq.
  destruct (table kind (db st) !! x) as [r|] eqn:E; cbn [snd].
  - rewrite E. now eexists.
  - autorewrite with st. rewrite decide_True by reflexivity.
    rewrite lookup_insert_eq. now eexists.
Qed.

(** Every pending slug has a row once the loop over its set has run. *)
Lemma createStubs_hasRow env kind which x st :
  pending which x st -> hasRow kind x (run (createStubs env kind which) st).
Proof.
  intros Hx. unfold run. rewrite createStubs_eq.
  apply (post_forEach_member (hasRow kind x) _ _ x Hx).
  - intros y _. apply nothrow_createStub.
  - apply createStub_hasRow.
  - intros y _. apply (rel_keeps (growTables (fun _ _ => False)));
      [apply insertOnly_hasRow | apply insertOnly_createStub].
Qed.

(** A loop establishes [Q] at the first turn for [x], when the turns
    before it keep [P] and that turn takes [P] to [Q]. *)
Lemma forEach_first_turn {A} `{EqDecision A} (P Q : St -> Prop) (l : list A)
    (body : A -> M unit) (x : A) :
  x ∈ l ->
  (forall y, nothrow (body y)) ->
  (forall y, y <> x -> rel (keeps P) (body y)) ->
  (forall st, P st -> Q (run (body x) st)) ->
  (forall y, rel (keeps Q) (body y)) ->
  forall st, P st -> Q (run (forEach l body) st).
Proof.
  intros Hx Hn Hp Hpq Hq. induction l as [|y l IH]; intros st HP.
  - now apply elem_of_nil in Hx.
  - rewrite run_forEach_cons by apply Hn.
    destruct (decide (y = x)) as [->|Hne].
    + apply (rel_forEach (keeps Q)); [intros z _; apply Hq | now apply Hpq].
    + apply IH; [|now apply (Hp y Hne)].
      apply elem_of_cons in Hx as [->|Hx]; [contradiction | exact Hx].
Qed.

Lemma createStub_other env kind x y :
  y <> x -> rel (keeps (noRow kind x)) (createStub env kind y).
Proof.
  intros Hne st. unfold keeps, noRow, run. rewrite createStub_eq.
  destruct (table kind (db st) !! y); cbn [snd]; [easy|].
  intros H. autorewrite with st. rewrite decide_True by reflexivity.
  now rewrite lookup_insert_ne.
Qed.

(** A pending slug without a row gets a stub row from the loop over its
    set. *)
Lemma createStubs_hasStub env which x st :
  pending which x st -> noRow (kindOf which) x st ->
  hasStub (kindOf which) x (run (createStubs env (kindOf which) which) st).
Proof.
  intros Hx Hn. unfold run. rewrite createStubs_eq.
  apply (forEach_first_turn (noRow (kindOf which) x) (hasStub (kindOf which) x) _ _ x Hx).
  - intros y. apply nothrow_createStub.
  - intros y Hne. now apply createStub_other.
  - intros st0 H0. unfold run, hasStub. rewrite createStub_eq.
    unfold noRow in H0. rewrite H0. cbn [snd]. autorewrite with st.
    rewrite decide_True by reflexivity. rewrite lookup_insert_eq, storedRow_stubRow.
    now eexists.
  - intros y. apply (rel_keeps (growTables (fun _ _ => False)));
      [apply insertOnly_hasStub | apply insertOnly_createStub].
  - exact Hn.
Qed.

(** The loop over another set leaves the table alone. *)
Lemma createStubs_untouched env kind kind' which x :
  kind <> kind' -> rel (untouched kind x) (createStubs env kind' which).
Proof.
  intros Hne.
  rel_tac ltac:(idtac; intros; unfold untouched; autorewrite with st;
                try case_decide; subst; congruence).
Qed.

Lemma run_materializeStubs env st :
  run (materializeStubs env) st =
  run (createStubs env EDesigner ReferencedDesigners)
    (run (createStubs env EPublisher ReferencedPublishers)
       (run (createStubs env EStudio ReferencedStudios) st)).
Proof.
  unfold materializeStubs.
  rewrite run_seq by apply nothrow_createStubs.
  rewrite run_seq by apply nothrow_createStubs.
  reflexivity.
Qed.

Lemma keepRefs_pending w x st st' : keepRefs st st' -> pending w x st -> pending w x st'.
Proof. intros H. unfold pending. now rewrite H. Qed.

Lemma untouched_noRow kind x st st' : untouched kind x st st' -> noRow kind x st -> noRow kind x st'.
Proof. unfold untouched, noRow. now intros ->. Qed.

(** Phase 5 gives a row to every pending slug. *)
Lemma materializeStubs_hasRow env w x st :
  pending w x st -> hasRow (kindOf w) x (run (materializeStubs env) st).
Proof.
  intros Hx. rewrite run_materializeStubs.
  set (s1 := run (createStubs env EStudio ReferencedStudios) st).
  set (s2 := run (createStubs env EPublisher ReferencedPublishers) s1).
  assert (P1 : pending w x s1) by (apply (keepRefs_pending _ _ st); [apply keepRefs_createStubs | exact Hx]).
  assert (P2 : pending w x s2) by (apply (keepRefs_pending _ _ s1); [apply keepRefs_createStubs | exact P1]).
  destruct w; cbn [kindOf].
  - apply (insertOnly_hasRow _ _ s2); [apply insertOnly_createStubs|].
    apply (insertOnly_hasRow _ _ s1); [apply insertOnly_createStubs|].
    now apply createStubs_hasRow.
  - apply (insertOnly_hasRow _ _ s2); [apply insertOnly_createStubs|].
    now apply createStubs_hasRow.
  - now apply createStubs_hasRow.
Qed.

(** Phase 5 gives a stub row to every pending slug that has no row. *)
Lemma materializeStubs_hasStub env w x st :
  pending w x st -> noRow (kindOf w) x st ->
  hasStub (kindOf w) x (run (materializeStubs env) st).
Proof.
  intros Hx Hn. rewrite run_materializeStubs.
  set (s1 := run (createStubs env EStudio ReferencedStudios) st).
  set (s2 := run (createStubs env EPublisher ReferencedPublishers) s1).
  assert (P1 : pending w x s1) by (apply (keepRefs_pending _ _ st); [apply keepRefs_createStubs | exact Hx]).
  assert (P2 : pending w x s2) by (apply (keepRefs_pending _ _ s1); [apply keepRefs_createStubs | exact P1]).
  destruct w; cbn [kindOf] in *.
  - apply (insertOnly_hasStub _ _ s2); [apply insertOnly_createStubs|].
    apply (insertOnly_hasStub _ _ s1); [apply insertOnly_createStubs|].
    now apply (createStubs_hasStub env ReferencedStudios).
  - apply (insertOnly_hasStub _ _ s2); [apply insertOnly_createStubs|].
    apply (createStubs_hasStub env ReferencedPublishers); [exact P1|].
    apply (untouched_noRow _ _ st); [|exact Hn].
    now apply createStubs_untouched.
  - apply (createStubs_hasStub env ReferencedDesigners); [exact P2|].
    apply (untouched_noRow _ _ s1); [now apply createStubs_untouched|].
    apply (untouched_noRow _ _ st); [now apply createStubs_untouched | exact Hn].
Qed.

(** A slug that a turn of a loop makes pending is pending after the loop. *)
Lemma pending_after_loop w x (l : list string) (body : string -> M unit) (filePath : string) :
  filePath ∈ l ->
  (forall y, nothrow (body y)) ->
  (forall y, rel growRefs (body y)) ->
  post (pending w x) (body filePath) ->
  post (pending w x) (forEach l body).
Proof.
  intros Hin Hn Hg Hp.
  apply (post_forEach_member (pending w x) l body filePath Hin).
  - intros y _. apply Hn.
  - exact Hp.
  - intros y _. apply growRefs_keeps_pending, Hg.
Qed.

Lemma pending_kept_by_loop w x {A} (l : list A) (body : A -> M unit) st :
  (forall y, rel growRefs (body y)) ->
  pending w x st -> pending w x (run (forEach l body) st).
Proof.
  intros Hg. apply (rel_forEach (keeps (pending w x))).
  intros y _. apply growRefs_keeps_pending, Hg.
Qed.

(** The store that [syncAll] leaves is the store after phase 5. *)
Lemma syncAll_store env now0 d :
  snd (syncAll env now0 d) =
  db (run (materializeStubs env)
        (run (syncDocuments env (fst (readCatalog env))) (initialState env now0 d))).
Proof. rewrite syncAll_eq. cbn [snd]. now rewrite run_transact. Qed.

Lemma collected_has_row env now0 d w x :
  x ∈ refs w (run (syncDocuments env (fst (readCatalog env))) (initialState env now0 d)) ->
  is_Some (table (kindOf w) (snd (syncAll env now0 d)) !! x).
Proof. intros Hx. rewrite syncAll_store. now apply (materializeStubs_hasRow env w x). Qed.

Lemma game_references_collected env csvGames st filePath parsed fm w x :
  filePath ∈ globSync env "lib/games/*.md" ->
  parseMarkdownFile env filePath = Ok parsed ->
  gameFrontmatterSchema env (frontmatter parsed) = Some fm ->
  x ∈ gameReferences fm w ->
  x ∈ refs w (run (syncDocuments env csvGames) st).
Proof.
  intros Hin Hp Hv Hx. rewrite run_syncDocuments.
  apply pending_kept_by_loop; [apply growRefs_syncDesignerFile|].
  apply pending_kept_by_loop; [apply growRefs_syncPublisherFile|].
  apply pending_kept_by_loop; [apply growRefs_syncStudioFile|].
  apply pending_kept_by_loop; [apply growRefs_syncCsvGame|].
  apply (pending_after_loop w x _ _ filePath Hin).
  - apply nothrow_syncGameFile.
  - apply growRefs_syncGameFile.
  - now apply (syncGameFile_pending env filePath parsed fm).
Qed.

Lemma studio_references_collected env csvGames st filePath parsed fm w x :
  filePath ∈ globSync env "lib/studios/*.md" ->
  parseMarkdownFile env filePath = Ok parsed ->
  studioFrontmatterSchema (frontmatter parsed) = Some fm ->
  x ∈ studioReferences fm w ->
  x ∈ refs w (run (syncDocuments env csvGames) st).
Proof.
  intros Hin Hp Hv Hx. rewrite run_syncDocuments.
  apply pending_kept_by_loop; [apply growRefs_syncDesignerFile|].
  apply pending_kept_by_loop; [apply growRefs_syncPublisherFile|].
  apply (pending_after_loop w x _ _ filePath Hin).
  - apply nothrow_syncStudioFile.
  - apply growRefs_syncStudioFile.
  - now apply (syncStudioFile_pending env filePath parsed fm).
Qed.

Lemma publisher_references_collected env csvGames st filePath parsed fm w x :
  filePath ∈ globSync env "lib/publishers/*.md" ->
  parseMarkdownFile env filePath = Ok parsed ->
  publisherFrontmatterSchema (frontmatter parsed) = Some fm ->
  x ∈ publisherReferences fm w ->
  x ∈ refs w (run (syncDocuments env csvGames) st).
Proof.
  intros Hin Hp Hv Hx. rewrite run_syncDocuments.
  apply pending_kept_by_loop; [apply growRefs_syncDesignerFile|].
  apply (pending_after_loop w x _ _ filePath Hin).
  - apply nothrow_syncPublisherFile.
  - apply growRefs_syncPublisherFile.
  - now apply (syncPublisherFile_pending env filePath parsed fm).
Qed.

(** C1, as the code has it. After a run, every studio, publisher and
    designer slug that phases 2 to 4 collected as a pending reference has
    a row in its table; when it had none after phases 2 to 4, the row is
    the stub: sourceFile "(referenced)" and every content field null.  The
    collected slugs are the developers, the publishers and the director of
    every valid game document, the director of every valid studio
    document, and the studios that a valid studio or publisher document
    links itself to.  Nothing is said of the game slugs of a studio's or a
    publisher's [games] list. *)
Theorem referenced_entities_are_materialized (env : Env) (now0 : nat) (d : Db) :
  let st4 := run (syncDocuments env (fst (readCatalog env))) (initialState env now0 d) in
  let final := snd (syncAll env now0 d) in
  (forall w x, x ∈ refs w st4 -> is_Some (table (kindOf w) final !! x)) /\
  (forall w x, x ∈ refs w st4 -> table (kindOf w) (db st4) !! x = None ->
     exists now, table (kindOf w) final !! x = Some (stubRow (kindOf w) x now)) /\
  (forall w x now,
     field "sourceFile" (stubRow (kindOf w) x now) = Some (FText "(referenced)") /\
     forall f, f ∈ fieldsToCompare (stubRow (kindOf w) x now) ->
       field f (stubRow (kindOf w) x now) = Some FNull) /\
  (forall filePath parsed fm w x,
     filePath ∈ globSync env "lib/games/*.md" ->
     parseMarkdownFile env filePath = Ok parsed ->
     gameFrontmatterSchema env (frontmatter parsed) = Some fm ->
     x ∈ gameReferences fm w ->
     x ∈ refs w st4 /\ is_Some (table (kindOf w) final !! x)) /\
  (forall filePath parsed fm w x,
     filePath ∈ globSync env "lib/studios/*.md" ->
     parseMarkdownFile env filePath = Ok parsed ->
     studioFrontmatterSchema (frontmatter parsed) = Some fm ->
     x ∈ studioReferences fm w ->
     x ∈ refs w st4 /\ is_Some (table (kindOf w) final !! x)) /\
  (forall filePath parsed fm w x,
     filePath ∈ globSync env "lib/publishers/*.md" ->
     parseMarkdownFile env filePath = Ok parsed ->
     publisherFrontmatterSchema (frontmatter parsed) = Some fm ->
     x ∈ publisherReferences fm w ->
     x ∈ refs w st4 /\ is_Some (table (kindOf w) final !! x)).
Proof.
  intros st4 final.
  split; [intros w x; apply collected_has_row|].
  split; [|split; [|split; [|split]]].
  - intros w x Hx Hn. unfold final. rewrite syncAll_store.
    now apply (materializeStubs_hasStub env w x).
  - intros w x now. split; [now destruct w|].
    intros f Hf. apply list_elem_of_In in Hf.
    destruct w; simpl in Hf; repeat (destruct Hf as [<-|Hf]; [reflexivity|]); destruct Hf.
  - intros filePath parsed fm w x Hin Hp Hv Hx.
    pose proof (game_references_collected env (fst (readCatalog env))
                  (initialState env now0 d) filePath parsed fm w x Hin Hp Hv Hx) as P.
    split; [exact P | now apply collected_has_row].
  - intros filePath parsed fm w x Hin Hp Hv Hx.
    pose proof (studio_references_collected env (fst (readCatalog env))
                  (initialState env now0 d) filePath parsed fm w x Hin Hp Hv Hx) as P.
    split; [exact P | now apply collected_has_row].
  - intros filePath parsed fm w x Hin Hp Hv Hx.
    pose proof (publisher_references_collected env (fst (readCatalog env))
                  (initialState env now0 d) filePath parsed fm w x Hin Hp Hv Hx) as P.
    split; [exact P | now apply collected_has_row].
Qed.

Lemma referenced_entities_are_materialized_witness :
  is_Some (studios (snd (syncAll Sample.bothSidesHost 0 emptyDb)) !! "S").
Proof.
  refine (proj2 (proj1 (proj2 (proj2 (proj2
            (referenced_entities_are_materialized Sample.bothSidesHost 0 emptyDb))))
            "lib/games/G.md" (Sample.parsedOf Sample.gameOfStudioDoc "")
            {| fm_status := None; fm_game_genre := []; fm_game_modes := [];
               fm_game_genre_tags := []; fm_player_perspective := [];
               fm_platform := None; fm_engine := None;
               fm_developer := ["S"]; fm_publisher := [];
               fm_director := None; fm_release := None |}
            ReferencedStudios "S" _ _ _ _)).
  - apply list_elem_of_In. vm_compute. now left.
  - reflexivity.
  - vm_compute. reflexivity.
  - apply list_elem_of_In. vm_compute. now left.
Defined.

(** C1 as stated fails for the game slugs of a [games] list: the studio
    phase inserts the pair (Ghost, S) from the document of studio S, and
    no row is made for the game Ghost, which has no document and no
    catalog line. *)
Lemma listed_game_without_row :
  sfm_games <$> studioFrontmatterSchema Sample.studioOfGhostDoc = Some ["Ghost"] /\
  gameDevelopers (snd (syncAll Sample.ghostGameHost 0 emptyDb)) = [("Ghost", "S")] /\
  games (snd (syncAll Sample.ghostGameHost 0 emptyDb)) !! "Ghost" = None /\
  is_Some (studios (snd (syncAll Sample.ghostGameHost 0 emptyDb)) !! "S").
Proof.
  split; [vm_compute; reflexivity|]. split; [vm_compute; reflexivity|].
  split; [vm_compute; reflexivity|]. vm_compute. eexists. reflexivity.
Qed.

(* ===================================================================== *)
(** * The run acts on the junction tables as a fixed removal and a fixed
      addition of pairs *)
(* ===================================================================== *)

Lemma affine_keep {A} (m : M A) : rel keepJunctions m -> affine m.
Proof.
  intros H. exists (fun _ _ => False), (fun _ _ => False). intros st j p.
  rewrite (H st j). tauto.
Qed.

Lemma affine_seq {A B} (m : M A) (k : M B) :
  nothrow m -> affine m -> affine k -> affine (m ;;; k).
Proof.
  intros Hn (D1 & A1 & H1) (D2 & A2 & H2).
  exists (fun j p => D1 j p \/ D2 j p), (fun j p => (A1 j p /\ ~ D2 j p) \/ A2 j p).
  intros st j p. rewrite run_seq by exact Hn. rewrite H2, H1. tauto.
Qed.

Lemma affine_seq_keep {A B} (m : M A) (k : M B) :
  affine m -> rel keepJunctions k -> affine (m ;;; k).
Proof.
  intros (D & Add & H) Hk. exists D, Add. intros st j p.
  destruct (fst (m st)) as [a|e] eqn:E.
  - rewrite (run_bind_ok _ _ _ _ E), (Hk (run m st) j). apply H.
  - rewrite (run_bind_throw _ _ _ _ E). apply H.
Qed.

Lemma affine_seq_throws {A B} (m : M A) (k : M B) :
  throws m -> affine m -> affine (m ;;; k).
Proof.
  intros Ht (D & Add & H). exists D, Add. intros st j p.
  destruct (Ht st) as [e E]. rewrite (run_bind_throw _ _ _ _ E). apply H.
Qed.

Lemma affine_tryCatch (body : M unit) (h : string -> M unit) :
  affine body -> (forall e, rel keepJunctions (h e)) -> affine (tryCatch body h).
Proof.
  intros (D & Add & H) Hh. exists D, Add. intros st j p.
  destruct (fst (body st)) as [a|e] eqn:E.
  - rewrite (run_tryCatch_ok _ _ _ _ E). apply H.
  - rewrite (run_tryCatch_throw _ _ _ _ E), (Hh e (run body st) j). apply H.
Qed.

Lemma affine_forEach {A} (l : list A) (body : A -> M unit) :
  (forall x, nothrow (body x)) -> (forall x, affine (body x)) -> affine (forEach l body).
Proof.
  intros Hn Ha. induction l as [|x l IH]; simpl.
  - apply affine_keep. apply rel_ret. apply _.
  - apply affine_seq; [apply Hn | apply Ha | exact IH].
Qed.

(** Applying the same removal and addition twice is applying it once. *)
Lemma affine_idempotent {A} (m : M A) (st st' : St) :
  affine m ->
  (forall j p, p ∈ jtable j (db st') <-> p ∈ jtable j (db (run m st))) ->
  forall j p, p ∈ jtable j (db (run m st')) <-> p ∈ jtable j (db st').
Proof.
  intros (D & Add & H) E j p. rewrite H, E, H. tauto.
Qed.

Lemma replaceJunction_decided env j slug targets :
  (snd (freshPrefix [] targets) = false /\ nothrow (replaceJunction env j slug targets)) \/
  (snd (freshPrefix [] targets) = true /\ throws (replaceJunction env j slug targets)).
Proof.
  destruct (snd (freshPrefix [] targets)) eqn:E; [right | left]; (split; [reflexivity|]);
    intros st; rewrite replaceJunction_replaced, E; now eexists.
Qed.

Lemma affine_replaced j slug targets {A} (m : M A) :
  (forall st j', jtable j' (db (run m st)) = jtable j' (db (replaced j slug targets st))) ->
  affine m.
Proof.
  intros H.
  exists (fun j' p => j' = j /\ fst p = slug),
         (fun j' p => j' = j /\ p ∈ map (pair slug) (fst (freshPrefix [] targets))).
  intros st j' [a b]. rewrite H. autorewrite with st. cbn [fst].
  case_decide as Hj.
  - subst j'. rewrite elem_of_app, elem_of_rowsNotOf. tauto.
  - tauto.
Qed.

Lemma affine_replaceJunction env j slug targets : affine (replaceJunction env j slug targets).
Proof.
  apply (affine_replaced j slug targets). intros st j'. unfold run.
  now rewrite replaceJunction_replaced.
Qed.

Lemma affine_replaceStudios env j slug targets : affine (replaceStudios env j slug targets).
Proof.
  apply (affine_replaced j slug targets). intros st j'. unfold run.
  rewrite replaceStudios_eq. cbn [snd]. now autorewrite with st.
Qed.

Lemma affine_replaceOwnStudios env j slug studios :
  affine (replaceOwnStudios env j slug studios).
Proof.
  destruct studios as [[|s ss]|]; cbn [replaceOwnStudios];
    [apply affine_keep, rel_ret; apply _ | apply affine_replaceStudios
    | apply affine_keep, rel_ret; apply _].
Qed.

Lemma affine_linkGame env j slug gameSlug : affine (linkGame env j slug gameSlug).
Proof.
  exists (fun _ _ => False), (fun j' p => j' = j /\ p = (gameSlug, slug)).
  intros st j' p. unfold run, linkGame, bind, selectJunction, gets.
  destruct (List.find _ _) as [r|] eqn:E.
  - apply find_junction_Some in E. cbn [snd ret]. split; [tauto|].
    intros [[H _]|[-> ->]]; [exact H | exact E].
  - apply find_junction_None in E. unfold insertJunction.
    rewrite bool_decide_eq_false_2 by exact E. cbn [snd]. autorewrite with st.
    case_decide as Hj.
    + subst j'. rewrite elem_of_app, list_elem_of_singleton. tauto.
    + tauto.
Qed.

Lemma affine_linkOwnGames env j slug games : affine (linkOwnGames env j slug games).
Proof.
  destruct games as [[|g gs]|]; cbn [linkOwnGames];
    [apply affine_keep, rel_ret; apply _ | | apply affine_keep, rel_ret; apply _].
  unfold linkGames. apply affine_forEach; intros x;
    [apply nothrow_linkGame | apply affine_linkGame].
Qed.

Lemma keepJunctions_count c : rel keepJunctions (count c).
Proof. rel_tac side_keepJunctions. Qed.

Lemma keepJunctions_recordError what filePath e : rel keepJunctions (recordError what filePath e).
Proof. rel_tac side_keepJunctions. Qed.

Lemma keepJunctions_syncStubGame env slug filePath :
  rel keepJunctions (syncStubGame env slug filePath).
Proof. rel_tac side_keepJunctions. Qed.

Lemma keepJunctions_syncCsvGame env g : rel keepJunctions (syncCsvGame env g).
Proof. rel_tac side_keepJunctions. Qed.

Lemma keepJunctions_syncDesignerFile env filePath :
  rel keepJunctions (syncDesignerFile env filePath).
Proof. rel_tac side_keepJunctions. Qed.

Lemma keepJunctions_materializeStubs env : rel keepJunctions (materializeStubs env).
Proof. rel_tac side_keepJunctions. Qed.

Lemma syncGameFile_unreadable env filePath e :
  parseMarkdownFile env filePath = Throw e ->
  syncGameFile env filePath = tryCatch (throw e) (recordError "game" filePath).
Proof. intros H. unfold syncGameFile. now rewrite H. Qed.

Lemma syncStudioFile_unreadable env filePath e :
  parseMarkdownFile env filePath = Throw e ->
  syncStudioFile env filePath = tryCatch (throw e) (recordError "studio" filePath).
Proof. intros H. unfold syncStudioFile. now rewrite H. Qed.

Lemma syncPublisherFile_unreadable env filePath e :
  parseMarkdownFile env filePath = Throw e ->
  syncPublisherFile env filePath = tryCatch (throw e) (recordError "publisher" filePath).
Proof. intros H. unfold syncPublisherFile. now rewrite H. Qed.

Lemma syncDesignerFile_unreadable env filePath e :
  parseMarkdownFile env filePath = Throw e ->
  syncDesignerFile env filePath = tryCatch (throw e) (recordError "designer" filePath).
Proof. intros H. unfold syncDesignerFile. now rewrite H. Qed.

Lemma run_unreadable what filePath e st :
  run (tryCatch (throw e) (recordError what filePath)) st =
  run (recordError what filePath e) st.
Proof. reflexivity. Qed.

Lemma affine_unreadable what filePath e :
  affine (tryCatch (throw e) (recordError what filePath)).
Proof.
  apply affine_keep. intros st. rewrite run_unreadable. apply keepJunctions_recordError.
Qed.

Lemma affine_syncGameFile env filePath : affine (syncGameFile env filePath).
Proof.
  destruct (parseMarkdownFile env filePath) as [parsed|e] eqn:Hp.
  - destruct (gameFrontmatterSchema env (frontmatter parsed)) as [fm|] eqn:Hv.
    + rewrite (syncGameFile_valid _ _ _ _ Hp Hv).
      apply affine_tryCatch; [|intros e; apply keepJunctions_recordError].
      apply affine_seq;
        [apply nothrow_trackGameReferences
        | apply affine_keep, keepJunctions_trackGameReferences |].
      apply affine_seq; [apply nothrow_saveGame | apply affine_keep, keepJunctions_saveGame |].
      destruct (replaceJunction_decided env GameDevelopers (slugFromPath filePath)
                  (fm_developer fm)) as [[_ Hn]|[_ Ht]].
      * apply affine_seq; [exact Hn | apply affine_replaceJunction |].
        apply affine_seq_keep; [apply affine_replaceJunction | apply keepJunctions_count].
      * apply affine_seq_throws; [exact Ht | apply affine_replaceJunction].
    + apply affine_keep. intros st. unfold run.
      rewrite (syncGameFile_invalid _ _ _ _ Hp Hv). apply keepJunctions_syncStubGame.
  - rewrite (syncGameFile_unreadable _ _ _ Hp). apply affine_unreadable.
Qed.

Lemma affine_syncStudioFile env filePath : affine (syncStudioFile env filePath).
Proof.
  destruct (parseMarkdownFile env filePath) as [parsed|e] eqn:Hp.
  - rewrite (syncStudioFile_parsed _ _ _ Hp).
    apply affine_tryCatch; [|intros e; apply keepJunctions_recordError].
    apply affine_seq;
      [apply nothrow_trackDirector | apply affine_keep, keepJunctions_trackDirector |].
    apply affine_seq; [apply nothrow_saveRow | apply affine_keep, keepJunctions_saveRow |].
    apply affine_seq; [apply nothrow_linkOwnGames | apply affine_linkOwnGames |].
    apply affine_seq_keep; [apply affine_replaceOwnStudios | apply keepJunctions_count].
  - rewrite (syncStudioFile_unreadable _ _ _ Hp). apply affine_unreadable.
Qed.

Lemma affine_syncPublisherFile env filePath : affine (syncPublisherFile env filePath).
Proof.
  destruct (parseMarkdownFile env filePath) as [parsed|e] eqn:Hp.
  - rewrite (syncPublisherFile_parsed _ _ _ Hp).
    apply affine_tryCatch; [|intros e; apply keepJunctions_recordError].
    apply affine_seq; [apply nothrow_saveRow | apply affine_keep, keepJunctions_saveRow |].
    apply affine_seq; [apply nothrow_linkOwnGames | apply affine_linkOwnGames |].
    apply affine_seq_keep; [apply affine_replaceOwnStudios | apply keepJunctions_count].
  - rewrite (syncPublisherFile_unreadable _ _ _ Hp). apply affine_unreadable.
Qed.

(** The whole body of the transaction. *)
Lemma affine_transact env csvGames : affine (transact env csvGames).
Proof.
  unfold transact.
  apply affine_seq;
    [apply nothrow_syncDocuments | | apply affine_keep, keepJunctions_materializeStubs].
  unfold syncDocuments.
  apply affine_seq;
    [apply nothrow_forEach; intros; apply nothrow_syncGameFile
    | apply affine_forEach; intros;
      [apply nothrow_syncGameFile | apply affine_syncGameFile] |].
  apply affine_seq;
    [apply nothrow_forEach; intros; apply nothrow_syncCsvGame
    | apply affine_forEach; intros;
      [apply nothrow_syncCsvGame | apply affine_keep, keepJunctions_syncCsvGame] |].
  apply affine_seq;
    [apply nothrow_forEach; intros; apply nothrow_syncStudioFile
    | apply affine_forEach; intros;
      [apply nothrow_syncStudioFile | apply affine_syncStudioFile] |].
  apply affine_seq;
    [apply nothrow_forEach; intros; apply nothrow_syncPublisherFile
    | apply affine_forEach; intros;
      [apply nothrow_syncPublisherFile | apply affine_syncPublisherFile] |].
  apply affine_forEach; intros;
    [apply nothrow_syncDesignerFile | apply affine_keep, keepJunctions_syncDesignerFile].
Qed.

(* ===================================================================== *)
(** * The pending references of a run do not depend on the store *)
(* ===================================================================== *)

Lemma refsOnly_keep {A} (m : M A) : rel keepRefs m -> refsOnly m.
Proof. intros H st st' E w. now rewrite (H st w), (H st' w). Qed.

Lemma refsOnly_seq {A B} (m : M A) (k : M B) :
  nothrow m -> refsOnly m -> refsOnly k -> refsOnly (m ;;; k).
Proof.
  intros Hn Hm Hk st st' E w. rewrite !run_seq by exact Hn.
  apply Hk. now apply Hm.
Qed.

Lemma refsOnly_seq_keep {A B} (m : M A) (k : M B) :
  refsOnly m -> rel keepRefs k -> refsOnly (m ;;; k).
Proof.
  intros Hm Hk st st' E w.
  assert (forall s, refs w (run (m ;;; k) s) = refs w (run m s)) as X.
  { intros s. destruct (fst (m s)) as [a|e] eqn:Em.
    - now rewrite (run_bind_ok _ _ _ _ Em), (Hk (run m s) w).
    - now rewrite (run_bind_throw _ _ _ _ Em). }
  rewrite !X. now apply Hm.
Qed.

Lemma refsOnly_tryCatch (body : M unit) (h : string -> M unit) :
  refsOnly body -> (forall e, rel keepRefs (h e)) -> refsOnly (tryCatch body h).
Proof.
  intros Hb Hh st st' E w.
  assert (forall s, refs w (run (tryCatch body h) s) = refs w (run body s)) as X.
  { intros s. destruct (fst (body s)) as [a|e] eqn:Em.
    - now rewrite (run_tryCatch_ok _ _ _ _ Em).
    - now rewrite (run_tryCatch_throw _ _ _ _ Em), (Hh e (run body s) w). }
  rewrite !X. now apply Hb.
Qed.

Lemma refsOnly_forEach {A} (l : list A) (body : A -> M unit) :
  (forall x, nothrow (body x)) -> (forall x, refsOnly (body x)) -> refsOnly (forEach l body).
Proof.
  intros Hn Ha. induction l as [|x l IH]; simpl.
  - apply refsOnly_keep. apply rel_ret. apply _.
  - apply refsOnly_seq; [apply Hn | apply Ha | exact IH].
Qed.

Lemma refsOnly_trackGameReferences fm : refsOnly (trackGameReferences fm).
Proof.
  intros st st' E w. rewrite !trackGameReferences_refs, !E. reflexivity.
Qed.

Lemma refsOnly_addRef which x : refsOnly (addRef which x).
Proof.
  intros st st' E w. rewrite !run_addRef. autorewrite with st.
  case_decide; [now rewrite E | apply E].
Qed.

Lemma refsOnly_trackDirector fm : refsOnly (trackDirector fm).
Proof.
  unfold trackDirector. destruct (truthy _); [apply refsOnly_addRef|].
  apply refsOnly_keep, rel_ret. apply _.
Qed.

Lemma refsOnly_replaceOwnStudios env j slug studios :
  refsOnly (replaceOwnStudios env j slug studios).
Proof.
  destruct studios as [[|s ss]|]; cbn [replaceOwnStudios];
    [apply refsOnly_keep, rel_ret; apply _ | | apply refsOnly_keep, rel_ret; apply _].
  intros st st' E w. unfold run. rewrite !replaceStudios_eq. cbn [snd].
  unfold replaced. autorewrite with st. case_decide; [now rewrite E | apply E].
Qed.

Lemma refsOnly_unreadable what filePath e :
  refsOnly (tryCatch (throw e) (recordError what filePath)).
Proof.
  apply refsOnly_keep. intros st. rewrite run_unreadable. revert st.
  change (rel keepRefs (recordError what filePath e)). rel_tac side_keepRefs.
Qed.

Lemma keepRefs_recordError what filePath e : rel keepRefs (recordError what filePath e).
Proof. rel_tac side_keepRefs. Qed.

Lemma keepRefs_count c : rel keepRefs (count c).
Proof. rel_tac side_keepRefs. Qed.

Lemma refsOnly_syncGameFile env filePath : refsOnly (syncGameFile env filePath).
Proof.
  destruct (parseMarkdownFile env filePath) as [parsed|e] eqn:Hp.
  - destruct (gameFrontmatterSchema env (frontmatter parsed)) as [fm|] eqn:Hv.
    + rewrite (syncGameFile_valid _ _ _ _ Hp Hv).
      apply refsOnly_tryCatch; [|intros e; apply keepRefs_recordError].
      apply refsOnly_seq_keep; [apply refsOnly_trackGameReferences|].
      rel_tac side_keepRefs.
    + apply refsOnly_keep. intros st. unfold run.
      rewrite (syncGameFile_invalid _ _ _ _ Hp Hv). apply keepRefs_syncStubGame.
  - rewrite (syncGameFile_unreadable _ _ _ Hp). apply refsOnly_unreadable.
Qed.

Lemma refsOnly_syncStudioFile env filePath : refsOnly (syncStudioFile env filePath).
Proof.
  destruct (parseMarkdownFile env filePath) as [parsed|e] eqn:Hp.
  - rewrite (syncStudioFile_parsed _ _ _ Hp).
    apply refsOnly_tryCatch; [|intros e; apply keepRefs_recordError].
    apply refsOnly_seq; [apply nothrow_trackDirector | apply refsOnly_trackDirector |].
    apply refsOnly_seq; [apply nothrow_saveRow | apply refsOnly_keep, keepRefs_saveRow |].
    apply refsOnly_seq;
      [apply nothrow_linkOwnGames | apply refsOnly_keep, keepRefs_linkOwnGames |].
    apply refsOnly_seq_keep; [apply refsOnly_replaceOwnStudios | apply keepRefs_count].
  - rewrite (syncStudioFile_unreadable _ _ _ Hp). apply refsOnly_unreadable.
Qed.

Lemma refsOnly_syncPublisherFile env filePath : refsOnly (syncPublisherFile env filePath).
Proof.
  destruct (parseMarkdownFile env filePath) as [parsed|e] eqn:Hp.
  - rewrite (syncPublisherFile_parsed _ _ _ Hp).
    apply refsOnly_tryCatch; [|intros e; apply keepRefs_recordError].
    apply refsOnly_seq; [apply nothrow_saveRow | apply refsOnly_keep, keepRefs_saveRow |].
    apply refsOnly_seq;
      [apply nothrow_linkOwnGames | apply refsOnly_keep, keepRefs_linkOwnGames |].
    apply refsOnly_seq_keep; [apply refsOnly_replaceOwnStudios | apply keepRefs_count].
  - rewrite (syncPublisherFile_unreadable _ _ _ Hp). apply refsOnly_unreadable.
Qed.

(** Phases 2 to 4 collect the same references from every store. *)
Lemma refsOnly_syncDocuments env csvGames : refsOnly (syncDocuments env csvGames).
Proof.
  unfold syncDocuments.
  apply refsOnly_seq;
    [apply nothrow_forEach; intros; apply nothrow_syncGameFile
    | apply refsOnly_forEach; intros;
      [apply nothrow_syncGameFile | apply refsOnly_syncGameFile] |].
  apply refsOnly_seq;
    [apply nothrow_forEach; intros; apply nothrow_syncCsvGame
    | apply refsOnly_forEach; intros;
      [apply nothrow_syncCsvGame | apply refsOnly_keep, keepRefs_syncCsvGame] |].
  apply refsOnly_seq;
    [apply nothrow_forEach; intros; apply nothrow_syncStudioFile
    | apply refsOnly_forEach; intros;
      [apply nothrow_syncStudioFile | apply refsOnly_syncStudioFile] |].
  apply refsOnly_seq;
    [apply nothrow_forEach; intros; apply nothrow_syncPublisherFile
    | apply refsOnly_forEach; intros;
      [apply nothrow_syncPublisherFile | apply refsOnly_syncPublisherFile] |].
  apply refsOnly_forEach; intros;
    [apply nothrow_syncDesignerFile | apply refsOnly_keep, keepRefs_syncDesignerFile].
Qed.

(* ===================================================================== *)
(** * After a run, the row of every document is settled *)
(* ===================================================================== *)

Lemma sameComparable_refl env row : sameComparable env row row.
Proof. now intros f _. Qed.

Lemma timeless_sameComparable env ex mkRow now now' :
  timeless mkRow -> sameComparable env ex (mkRow now) -> sameComparable env ex (mkRow now').
Proof.
  intros Ht. apply sameComparable_ext; [apply Ht|].
  intros f H1 H2 H3. split; [reflexivity | now apply Ht].
Qed.

Ltac timeless_tac :=
  intros now now'; split; [reflexivity|];
  intros f H1 H2 H3; cbn [field gameRow studioRow overviewRow];
  repeat (match goal with
          | |- context [String.eqb f ?k] => destruct (String.eqb_spec f k); [subst; try reflexivity; try congruence|]
          end);
  try reflexivity; try congruence.

Lemma timeless_gameRow slug fm parsed filePath :
  timeless (gameRow slug fm parsed filePath).
Proof. timeless_tac. Qed.

Lemma timeless_studioRow slug fm parsed filePath :
  timeless (studioRow slug fm parsed filePath).
Proof. timeless_tac. Qed.

Lemma timeless_overviewRow slug parsed filePath :
  timeless (overviewRow slug parsed filePath).
Proof. timeless_tac. Qed.

Lemma upsert_settles env kind slug (mkRow : Z -> Row) n st :
  (forall now, storedRow kind (mkRow now) = mkRow now) ->
  (forall ex now, updatedRow kind ex (mkRow now) = mkRow now) ->
  timeless mkRow ->
  rowSettled env kind slug mkRow
    (run (upsert env kind slug (table kind (db st) !! slug) (mkRow n)) st).
Proof.
  intros Hs Hu Ht. unfold rowSettled, run.
  destruct (table kind (db st) !! slug) as [ex|] eqn:E.
  - rewrite (upsert_existing _ _ _ _ _ _ E).
    destruct (changedFields env slug kind ex (mkRow n)) as [|c cs] eqn:C.
    + exists ex. cbn [snd]. autorewrite with st. split; [exact E|].
      intros now. apply (timeless_sameComparable _ _ _ n); [exact Ht|].
      now apply changedFields_nil in C.
    + exists (mkRow n). cbn [snd]. autorewrite with st.
      rewrite decide_True by reflexivity. rewrite Hu, lookup_insert_eq.
      split; [reflexivity|]. intros now.
      apply (timeless_sameComparable _ _ _ n); [exact Ht | apply sameComparable_refl].
  - rewrite (upsert_new _ _ _ _ _ E).
    exists (mkRow n). cbn [snd]. autorewrite with st.
    rewrite decide_True by reflexivity. rewrite Hs, lookup_insert_eq.
    split; [reflexivity|]. intros now.
    apply (timeless_sameComparable _ _ _ n); [exact Ht | apply sameComparable_refl].
Qed.

Lemma saveRow_settles env kind slug (mkRow : Z -> Row) :
  (forall now, storedRow kind (mkRow now) = mkRow now) ->
  (forall ex now, updatedRow kind ex (mkRow now) = mkRow now) ->
  timeless mkRow ->
  post (rowSettled env kind slug mkRow) (saveRow env kind slug mkRow).
Proof.
  intros Hs Hu Ht st. unfold run. rewrite saveRow_eq.
  apply (upsert_settles env kind slug mkRow _ (set_tick (S (tick st)) st) Hs Hu Ht).
Qed.

Lemma saveGame_settles env slug fm parsed filePath :
  post (rowSettled env EGame slug (gameRow slug fm parsed filePath))
    (saveGame env slug fm parsed filePath).
Proof.
  intros st. unfold run. rewrite saveGame_eq.
  apply (upsert_settles env EGame slug (gameRow slug fm parsed filePath) _
           (set_tick (S (tick st)) st)).
  - intros. apply storedRow_gameRow.
  - intros. apply updatedRow_gameRow.
  - apply timeless_gameRow.
Qed.

#[global] Instance spares_preorder kind slug : PreOrder (spares kind slug).
Proof. unfold spares. apply _. Qed.

Lemma growTables_hasRow W kind x st st' :
  growTables W st st' -> hasRow kind x st -> hasRow kind x st'.
Proof. intros [H _]. apply H. Qed.

Lemma spares_rowSettled env kind slug mkRow st st' :
  spares kind slug st st' -> rowSettled env kind slug mkRow st ->
  rowSettled env kind slug mkRow st'.
Proof.
  intros [_ H] (ex & E & Hex). exists ex. split; [|exact Hex].
  apply H; [exact E|]. intros [X|X]; now apply X.
Qed.

(** A document writes the row of its own slug only. *)
Ltac side_ownRow :=
  idtac; intros; unfold growTables; split; intros *; autorewrite with st;
  try case_decide; subst; rewrite ?lookup_insert; try case_decide; subst;
  auto; try congruence; try tauto;
  try (intros ? X; exfalso; apply X; split; reflexivity).

Lemma ownRow_syncGameFile env filePath :
  rel (growTables (fun k s => k = EGame /\ s = slugFromPath filePath))
    (syncGameFile env filePath).
Proof. rel_tac side_ownRow. Qed.

Lemma insertOnly_syncCsvGame env g :
  rel (growTables (fun _ _ => False)) (syncCsvGame env g).
Proof. rel_tac side_insertOnly. Qed.

Lemma ownRow_syncStudioFile env filePath :
  rel (growTables (fun k s => k = EStudio /\ s = slugFromPath filePath))
    (syncStudioFile env filePath).
Proof. rel_tac side_ownRow. Qed.

Lemma ownRow_syncPublisherFile env filePath :
  rel (growTables (fun k s => k = EPublisher /\ s = slugFromPath filePath))
    (syncPublisherFile env filePath).
Proof. rel_tac side_ownRow. Qed.

Lemma ownRow_syncDesignerFile env filePath :
  rel (growTables (fun k s => k = EDesigner /\ s = slugFromPath filePath))
    (syncDesignerFile env filePath).
Proof. rel_tac side_ownRow. Qed.

Lemma insertOnly_materializeStubs env :
  rel (growTables (fun _ _ => False)) (materializeStubs env).
Proof. rel_tac side_insertOnly. Qed.

Lemma spares_ownRow kind slug kind' slug' {A} (m : M A) :
  kind' <> kind \/ slug' <> slug ->
  rel (growTables (fun k s => k = kind' /\ s = slug')) m ->
  rel (spares kind slug) m.
Proof.
  intros H. apply rel_weaken. intros st st'. apply growTables_weaken.
  intros k s [-> ->]. exact H.
Qed.

Lemma spares_insertOnly kind slug {A} (m : M A) :
  rel (growTables (fun _ _ => False)) m -> rel (spares kind slug) m.
Proof.
  apply rel_weaken. intros st st'. apply growTables_weaken. intros k s [].
Qed.

Lemma insertOnly_keeps_rowSettled env kind slug mkRow {A} (m : M A) :
  rel (growTables (fun _ _ => False)) m -> rel (keeps (rowSettled env kind slug mkRow)) m.
Proof.
  intros H. apply (rel_keeps (spares kind slug)); [apply spares_rowSettled|].
  now apply spares_insertOnly.
Qed.

Lemma spares_keeps_rowSettled env kind slug mkRow {A} (m : M A) :
  rel (spares kind slug) m -> rel (keeps (rowSettled env kind slug mkRow)) m.
Proof. apply rel_keeps, spares_rowSettled. Qed.

Lemma rowSettled_through env kind slug mkRow {A} (m : M A) st :
  rel (spares kind slug) m -> rowSettled env kind slug mkRow st ->
  rowSettled env kind slug mkRow (run m st).
Proof. intros H. now apply spares_keeps_rowSettled. Qed.

(** In a loop over elements with distinct keys, what the turn of [x]
    establishes and the turns of the other keys keep holds at the end. *)
Lemma post_forEach_unique {A B} (key : A -> B) (Q : St -> Prop) (l : list A)
    (body : A -> M unit) (x : A) :
  NoDup (map key l) ->
  x ∈ l ->
  (forall y, nothrow (body y)) ->
  post Q (body x) ->
  (forall y, key y <> key x -> rel (keeps Q) (body y)) ->
  post Q (forEach l body).
Proof.
  intros Hnd Hx Hn Hq Hk. induction l as [|y l IH]; [now apply elem_of_nil in Hx|].
  cbn [map] in Hnd. apply NoDup_cons in Hnd as [Hy Hnd]. intros st.
  rewrite run_forEach_cons by apply Hn.
  apply elem_of_cons in Hx as [<-|Hx].
  - assert (rel (keeps Q) (forEach l body)) as Hl.
    { apply rel_forEach; [apply _|]. intros z Hz. apply Hk. intros E. apply Hy.
      rewrite <- E. apply list_elem_of_fmap. now exists z. }
    apply Hl, Hq.
  - now apply IH.
Qed.

Lemma syncDesignerFile_parsed env filePath parsed :
  parseMarkdownFile env filePath = Ok parsed ->
  syncDesignerFile env filePath =
  tryCatch
    (saveRow env EDesigner (slugFromPath filePath)
       (overviewRow (slugFromPath filePath) parsed filePath) ;;;
     count (Processed EDesigner))
    (recordError "designer" filePath).
Proof. intros Hp. unfold syncDesignerFile. now rewrite Hp, bind_lift_ok. Qed.

Lemma insertOnly_recordError what filePath e :
  rel (growTables (fun _ _ => False)) (recordError what filePath e).
Proof. rel_tac side_insertOnly. Qed.

(** The turn of a valid game document settles its row. *)
Lemma syncGameFile_settles env filePath parsed fm :
  parseMarkdownFile env filePath = Ok parsed ->
  gameFrontmatterSchema env (frontmatter parsed) = Some fm ->
  post (rowSettled env EGame (slugFromPath filePath)
          (gameRow (slugFromPath filePath) fm parsed filePath))
    (syncGameFile env filePath).
Proof.
  intros Hp Hv. rewrite (syncGameFile_valid _ _ _ _ Hp Hv).
  apply post_tryCatch;
    [|intros e; apply insertOnly_keeps_rowSettled, insertOnly_recordError].
  apply post_seq_after; [apply nothrow_trackGameReferences|].
  apply post_seq_keep; [apply saveGame_settles|].
  apply insertOnly_keeps_rowSettled. rel_tac side_insertOnly.
Qed.

(** The turn of a game document whose front matter is invalid leaves a
    row. *)
Lemma syncGameFile_leaves_row env filePath parsed :
  parseMarkdownFile env filePath = Ok parsed ->
  gameFrontmatterSchema env (frontmatter parsed) = None ->
  post (hasRow EGame (slugFromPath filePath)) (syncGameFile env filePath).
Proof.
  intros Hp Hv st. unfold run, hasRow.
  rewrite (syncGameFile_invalid _ _ _ _ Hp Hv), syncStubGame_eq.
  destruct (table EGame (db st) !! slugFromPath filePath) as [r|] eqn:E; cbn [snd].
  - autorewrite with st. now rewrite E.
  - cbv zeta. autorewrite with st. rewrite decide_True by reflexivity.
    now rewrite lookup_insert_eq.
Qed.

Lemma syncCsvGame_leaves_row env g : post (hasRow EGame (pc_slug g)) (syncCsvGame env g).
Proof.
  intros st. unfold run, hasRow. rewrite syncCsvGame_eq.
  destruct (table EGame (db st) !! pc_slug g) as [r|] eqn:E; cbn [snd].
  - now rewrite E.
  - cbv zeta. autorewrite with st. rewrite decide_True by reflexivity.
    now rewrite lookup_insert_eq.
Qed.

Lemma syncStudioFile_settles env filePath parsed :
  parseMarkdownFile env filePath = Ok parsed ->
  post (rowSettled env EStudio (slugFromPath filePath)
          (studioRow (slugFromPath filePath) (studioFrontmatterSchema (frontmatter parsed))
             parsed filePath))
    (syncStudioFile env filePath).
Proof.
  intros Hp. rewrite (syncStudioFile_parsed _ _ _ Hp).
  apply post_tryCatch;
    [|intros e; apply insertOnly_keeps_rowSettled, insertOnly_recordError].
  apply post_seq_after; [apply nothrow_trackDirector|].
  apply post_seq_keep.
  - apply saveRow_settles;
      [intros; apply storedRow_studioRow | intros; apply updatedRow_studioRow
      | apply timeless_studioRow].
  - apply insertOnly_keeps_rowSettled. rel_tac side_insertOnly.
Qed.

Lemma syncPublisherFile_settles env filePath parsed :
  parseMarkdownFile env filePath = Ok parsed ->
  post (rowSettled env EPublisher (slugFromPath filePath)
          (overviewRow (slugFromPath filePath) parsed filePath))
    (syncPublisherFile env filePath).
Proof.
  intros Hp. rewrite (syncPublisherFile_parsed _ _ _ Hp).
  apply post_tryCatch;
    [|intros e; apply insertOnly_keeps_rowSettled, insertOnly_recordError].
  apply post_seq_keep.
  - apply saveRow_settles;
      [intros; apply storedRow_overviewRow; now left
      | intros; apply updatedRow_overviewRow; now left
      | apply timeless_overviewRow].
  - apply insertOnly_keeps_rowSettled. rel_tac side_insertOnly.
Qed.

Lemma syncDesignerFile_settles env filePath parsed :
  parseMarkdownFile env filePath = Ok parsed ->
  post (rowSettled env EDesigner (slugFromPath filePath)
          (overviewRow (slugFromPath filePath) parsed filePath))
    (syncDesignerFile env filePath).
Proof.
  intros Hp. rewrite (syncDesignerFile_parsed _ _ _ Hp).
  apply post_tryCatch;
    [|intros e; apply insertOnly_keeps_rowSettled, insertOnly_recordError].
  apply post_seq_keep.
  - apply saveRow_settles;
      [intros; apply storedRow_overviewRow; now right
      | intros; apply updatedRow_overviewRow; now right
      | apply timeless_overviewRow].
  - apply insertOnly_keeps_rowSettled. rel_tac side_insertOnly.
Qed.

(** The phases, seen from the row of one document. *)
Lemma spares_games kind slug env l :
  kind <> EGame -> rel (spares kind slug) (forEach l (syncGameFile env)).
Proof.
  intros H. apply rel_forEach; [apply _|]. intros f _.
  apply (spares_ownRow _ _ EGame (slugFromPath f)); [left; congruence|].
  apply ownRow_syncGameFile.
Qed.

Lemma spares_csv kind slug env l : rel (spares kind slug) (forEach l (syncCsvGame env)).
Proof.
  apply rel_forEach; [apply _|]. intros g _.
  apply spares_insertOnly, insertOnly_syncCsvGame.
Qed.

Lemma spares_studios kind slug env l :
  kind <> EStudio -> rel (spares kind slug) (forEach l (syncStudioFile env)).
Proof.
  intros H. apply rel_forEach; [apply _|]. intros f _.
  apply (spares_ownRow _ _ EStudio (slugFromPath f)); [left; congruence|].
  apply ownRow_syncStudioFile.
Qed.

Lemma spares_publishers kind slug env l :
  kind <> EPublisher -> rel (spares kind slug) (forEach l (syncPublisherFile env)).
Proof.
  intros H. apply rel_forEach; [apply _|]. intros f _.
  apply (spares_ownRow _ _ EPublisher (slugFromPath f)); [left; congruence|].
  apply ownRow_syncPublisherFile.
Qed.

Lemma spares_designers kind slug env l :
  kind <> EDesigner -> rel (spares kind slug) (forEach l (syncDesignerFile env)).
Proof.
  intros H. apply rel_forEach; [apply _|]. intros f _.
  apply (spares_ownRow _ _ EDesigner (slugFromPath f)); [left; congruence|].
  apply ownRow_syncDesignerFile.
Qed.

Lemma spares_materializeStubs kind slug env : rel (spares kind slug) (materializeStubs env).
Proof. apply spares_insertOnly, insertOnly_materializeStubs. Qed.

Lemma run_documents_and_stubs env csvGames st :
  run (transact env csvGames) st =
  run (materializeStubs env)
    (run (forEach (globSync env "lib/designers/*.md") (syncDesignerFile env))
       (run (forEach (globSync env "lib/publishers/*.md") (syncPublisherFile env))
          (run (forEach (globSync env "lib/studios/*.md") (syncStudioFile env))
             (run (forEach csvGames (syncCsvGame env))
                (run (forEach (globSync env "lib/games/*.md") (syncGameFile env)) st))))).
Proof. now rewrite run_transact, run_syncDocuments. Qed.

(** After the run, the row of a valid game document is settled. *)
Lemma game_row_settled env csvGames st filePath parsed fm :
  NoDup (map slugFromPath (globSync env "lib/games/*.md")) ->
  filePath ∈ globSync env "lib/games/*.md" ->
  parseMarkdownFile env filePath = Ok parsed ->
  gameFrontmatterSchema env (frontmatter parsed) = Some fm ->
  rowSettled env EGame (slugFromPath filePath)
    (gameRow (slugFromPath filePath) fm parsed filePath)
    (run (transact env csvGames) st).
Proof.
  intros Hnd Hf Hp Hv. rewrite run_documents_and_stubs.
  apply rowSettled_through; [apply spares_materializeStubs|].
  apply rowSettled_through; [apply spares_designers; discriminate|].
  apply rowSettled_through; [apply spares_publishers; discriminate|].
  apply rowSettled_through; [apply spares_studios; discriminate|].
  apply rowSettled_through; [apply spares_csv|].
  apply (post_forEach_unique slugFromPath _ _ _ filePath Hnd Hf).
  - intros y. apply nothrow_syncGameFile.
  - now apply syncGameFile_settles.
  - intros y Hy. apply spares_keeps_rowSettled.
    apply (spares_ownRow _ _ EGame (slugFromPath y)); [now right|].
    apply ownRow_syncGameFile.
Qed.

Lemma studio_row_settled env csvGames st filePath parsed :
  NoDup (map slugFromPath (globSync env "lib/studios/*.md")) ->
  filePath ∈ globSync env "lib/studios/*.md" ->
  parseMarkdownFile env filePath = Ok parsed ->
  rowSettled env EStudio (slugFromPath filePath)
    (studioRow (slugFromPath filePath) (studioFrontmatterSchema (frontmatter parsed))
       parsed filePath)
    (run (transact env csvGames) st).
Proof.
  intros Hnd Hf Hp. rewrite run_documents_and_stubs.
  apply rowSettled_through; [apply spares_materializeStubs|].
  apply rowSettled_through; [apply spares_designers; discriminate|].
  apply rowSettled_through; [apply spares_publishers; discriminate|].
  apply (post_forEach_unique slugFromPath _ _ _ filePath Hnd Hf).
  - intros y. apply nothrow_syncStudioFile.
  - now apply syncStudioFile_settles.
  - intros y Hy. apply spares_keeps_rowSettled.
    apply (spares_ownRow _ _ EStudio (slugFromPath y)); [now right|].
    apply ownRow_syncStudioFile.
Qed.

Lemma publisher_row_settled env csvGames st filePath parsed :
  NoDup (map slugFromPath (globSync env "lib/publishers/*.md")) ->
  filePath ∈ globSync env "lib/publishers/*.md" ->
  parseMarkdownFile env filePath = Ok parsed ->
  rowSettled env EPublisher (slugFromPath filePath)
    (overviewRow (slugFromPath filePath) parsed filePath)
    (run (transact env csvGames) st).
Proof.
  intros Hnd Hf Hp. rewrite run_documents_and_stubs.
  apply rowSettled_through; [apply spares_materializeStubs|].
  apply rowSettled_through; [apply spares_designers; discriminate|].
  apply (post_forEach_unique slugFromPath _ _ _ filePath Hnd Hf).
  - intros y. apply nothrow_syncPublisherFile.
  - now apply syncPublisherFile_settles.
  - intros y Hy. apply spares_keeps_rowSettled.
    apply (spares_ownRow _ _ EPublisher (slugFromPath y)); [now right|].
    apply ownRow_syncPublisherFile.
Qed.

Lemma designer_row_settled env csvGames st filePath parsed :
  NoDup (map slugFromPath (globSync env "lib/designers/*.md")) ->
  filePath ∈ globSync env "lib/designers/*.md" ->
  parseMarkdownFile env filePath = Ok parsed ->
  rowSettled env EDesigner (slugFromPath filePath)
    (overviewRow (slugFromPath filePath) parsed filePath)
    (run (transact env csvGames) st).
Proof.
  intros Hnd Hf Hp. rewrite run_documents_and_stubs.
  apply rowSettled_through; [apply spares_materializeStubs|].
  apply (post_forEach_unique slugFromPath _ _ _ filePath Hnd Hf).
  - intros y. apply nothrow_syncDesignerFile.
  - now apply syncDesignerFile_settles.
  - intros y Hy. apply spares_keeps_rowSettled.
    apply (spares_ownRow _ _ EDesigner (slugFromPath y)); [now right|].
    apply ownRow_syncDesignerFile.
Qed.

Lemma growTables_keeps_hasRow W kind x {A} (m : M A) :
  rel (growTables W) m -> rel (keeps (hasRow kind x)) m.
Proof. apply rel_keeps. intros st st'. apply growTables_hasRow. Qed.

Lemma anyRow_forEach {A} kind x (l : list A) (body : A -> M unit) :
  (forall y, rel (growTables (fun _ _ => True)) (body y)) ->
  rel (keeps (hasRow kind x)) (forEach l body).
Proof.
  intros H. apply (growTables_keeps_hasRow (fun _ _ => True)).
  apply rel_forEach; [apply _|]. intros y _. apply H.
Qed.

Lemma anyRow_syncGameFile env f : rel (growTables (fun _ _ => True)) (syncGameFile env f).
Proof. rel_tac side_growTables. Qed.
Lemma anyRow_syncCsvGame env g : rel (growTables (fun _ _ => True)) (syncCsvGame env g).
Proof. rel_tac side_growTables. Qed.
Lemma anyRow_syncStudioFile env f : rel (growTables (fun _ _ => True)) (syncStudioFile env f).
Proof. rel_tac side_growTables. Qed.
Lemma anyRow_syncPublisherFile env f :
  rel (growTables (fun _ _ => True)) (syncPublisherFile env f).
Proof. rel_tac side_growTables. Qed.
Lemma anyRow_syncDesignerFile env f :
  rel (growTables (fun _ _ => True)) (syncDesignerFile env f).
Proof. rel_tac side_growTables. Qed.
Lemma anyRow_materializeStubs env : rel (growTables (fun _ _ => True)) (materializeStubs env).
Proof. rel_tac side_growTables. Qed.

(** After the run, a game document whose front matter is invalid has a
    row. *)
Lemma invalid_game_has_row env csvGames st filePath parsed :
  filePath ∈ globSync env "lib/games/*.md" ->
  parseMarkdownFile env filePath = Ok parsed ->
  gameFrontmatterSchema env (frontmatter parsed) = None ->
  hasRow EGame (slugFromPath filePath) (run (transact env csvGames) st).
Proof.
  intros Hf Hp Hv. rewrite run_documents_and_stubs.
  apply (growTables_keeps_hasRow _ _ _ _ (anyRow_materializeStubs env)).
  apply anyRow_forEach; [apply anyRow_syncDesignerFile|].
  apply anyRow_forEach; [apply anyRow_syncPublisherFile|].
  apply anyRow_forEach; [apply anyRow_syncStudioFile|].
  apply anyRow_forEach; [apply anyRow_syncCsvGame|].
  apply (post_forEach_member _ _ _ filePath Hf).
  - intros y _. apply nothrow_syncGameFile.
  - now apply (syncGameFile_leaves_row _ _ parsed).
  - intros y _. apply (growTables_keeps_hasRow _ _ _ _ (anyRow_syncGameFile env y)).
Qed.

(** After the run, every game of the catalog has a row. *)
Lemma catalog_game_has_row env csvGames st g :
  g ∈ csvGames ->
  hasRow EGame (pc_slug g) (run (transact env csvGames) st).
Proof.
  intros Hg. rewrite run_documents_and_stubs.
  apply (growTables_keeps_hasRow _ _ _ _ (anyRow_materializeStubs env)).
  apply anyRow_forEach; [apply anyRow_syncDesignerFile|].
  apply anyRow_forEach; [apply anyRow_syncPublisherFile|].
  apply anyRow_forEach; [apply anyRow_syncStudioFile|].
  apply (post_forEach_member _ _ _ g Hg).
  - intros y _. apply nothrow_syncCsvGame.
  - apply syncCsvGame_leaves_row.
  - intros y _. apply (growTables_keeps_hasRow _ _ _ _ (anyRow_syncCsvGame env y)).
Qed.

(* ===================================================================== *)
(** * A run against a settled store writes no row *)
(* ===================================================================== *)

(** The run settles the store, when no two documents of a kind share a
    slug. *)
Lemma run_settles env csvGames st :
  NoDup (map slugFromPath (globSync env "lib/games/*.md")) ->
  NoDup (map slugFromPath (globSync env "lib/studios/*.md")) ->
  NoDup (map slugFromPath (globSync env "lib/publishers/*.md")) ->
  NoDup (map slugFromPath (globSync env "lib/designers/*.md")) ->
  settled env csvGames (run (transact env csvGames) st).
Proof.
  intros Hg Hs Hp Hd. split; intros.
  - now apply game_row_settled.
  - now apply (invalid_game_has_row _ _ _ _ parsed).
  - now apply catalog_game_has_row.
  - now apply studio_row_settled.
  - now apply publisher_row_settled.
  - now apply designer_row_settled.
Qed.

#[global] Instance keeps_quiet_preorder st0 : PreOrder (keeps (quiet st0)).
Proof. apply _. Qed.

Lemma keepEntities_quiet st0 st st' : keepEntities st st' -> quiet st0 st -> quiet st0 st'.
Proof.
  intros (Ht & Hc & Hu & Hch) (Qt & Qc & Qu & Qch). repeat split.
  - intros k. now rewrite Ht.
  - now rewrite Hc.
  - now rewrite Hu.
  - now rewrite Hch.
Qed.

Lemma keepEntities_keeps_quiet st0 {A} (m : M A) :
  rel keepEntities m -> rel (keeps (quiet st0)) m.
Proof. apply rel_keeps, keepEntities_quiet. Qed.

(** The entity tables and the counts of writes are left alone. *)
Ltac side_keepEntities :=
  idtac; intros; unfold keepEntities; split; [intros ?|]; autorewrite with st;
  rewrite ?created_bump, ?updated_bump, ?changes_bump;
  repeat split; reflexivity.

Lemma keepEntities_recordError what filePath e : rel keepEntities (recordError what filePath e).
Proof. rel_tac side_keepEntities. Qed.

Lemma keepEntities_processed kind : rel keepEntities (count (Processed kind)).
Proof. rel_tac side_keepEntities. Qed.

Lemma keepEntities_trackGameReferences fm : rel keepEntities (trackGameReferences fm).
Proof. rel_tac side_keepEntities. Qed.

Lemma keepEntities_trackDirector fm : rel keepEntities (trackDirector fm).
Proof. rel_tac side_keepEntities. Qed.

Lemma keepEntities_replaceJunction env j slug targets :
  rel keepEntities (replaceJunction env j slug targets).
Proof. rel_tac side_keepEntities. Qed.

Lemma keepEntities_linkOwnGames env j slug games :
  rel keepEntities (linkOwnGames env j slug games).
Proof. rel_tac side_keepEntities. Qed.

Lemma keepEntities_replaceOwnStudios env j slug studios :
  rel keepEntities (replaceOwnStudios env j slug studios).
Proof. rel_tac side_keepEntities. Qed.

Lemma quiet_unreadable st0 what filePath e :
  rel (keeps (quiet st0)) (tryCatch (throw e) (recordError what filePath)).
Proof.
  intros st. rewrite run_unreadable.
  apply keepEntities_keeps_quiet, keepEntities_recordError.
Qed.

(** Against a settled row, the shared block writes nothing. *)
Lemma quiet_upsert env kind slug (mkRow : Z -> Row) n st0 st :
  rowSettled env kind slug mkRow st0 ->
  quiet st0 st ->
  quiet st0 (run (upsert env kind slug (table kind (db st) !! slug) (mkRow n)) st).
Proof.
  intros (ex & E & Hs) Hq. pose proof Hq as (Qt & Qc & Qu & Qch).
  assert (table kind (db st) !! slug = Some ex) as E' by now rewrite Qt.
  unfold run. rewrite E', (upsert_existing _ _ _ _ _ _ E').
  rewrite (proj2 (changedFields_nil env slug kind ex (mkRow n)) (Hs n)).
  cbn [snd]. repeat split; autorewrite with st;
    rewrite ?created_bump, ?updated_bump, ?changes_bump; auto.
Qed.

Lemma quiet_set_tick st0 n st : quiet st0 st -> quiet st0 (set_tick n st).
Proof. intros H. exact H. Qed.

Lemma quiet_saveRow env kind slug (mkRow : Z -> Row) st0 :
  rowSettled env kind slug mkRow st0 ->
  rel (keeps (quiet st0)) (saveRow env kind slug mkRow).
Proof.
  intros Hs st Hq. unfold run. rewrite saveRow_eq.
  apply (quiet_upsert env kind slug mkRow _ st0 (set_tick (S (tick st)) st) Hs).
  now apply quiet_set_tick.
Qed.

Lemma quiet_saveGame env slug fm parsed filePath st0 :
  rowSettled env EGame slug (gameRow slug fm parsed filePath) st0 ->
  rel (keeps (quiet st0)) (saveGame env slug fm parsed filePath).
Proof.
  intros Hs st Hq. unfold run. rewrite saveGame_eq.
  apply (quiet_upsert env EGame slug (gameRow slug fm parsed filePath) _ st0
           (set_tick (S (tick st)) st) Hs).
  now apply quiet_set_tick.
Qed.

Section SecondRun.

Variable env : Env.
Variable csvGames : list ParsedCsvGame.
Variable st0 : St.
Hypothesis Hsettled : settled env csvGames st0.

Lemma quiet_syncGameFile filePath :
  filePath ∈ globSync env "lib/games/*.md" ->
  rel (keeps (quiet st0)) (syncGameFile env filePath).
Proof.
  intros Hf. destruct (parseMarkdownFile env filePath) as [parsed|e] eqn:Hp.
  - destruct (gameFrontmatterSchema env (frontmatter parsed)) as [fm|] eqn:Hv.
    + rewrite (syncGameFile_valid _ _ _ _ Hp Hv).
      apply rel_tryCatch; [apply _ | |
        intros e; apply keepEntities_keeps_quiet, keepEntities_recordError].
      apply rel_bind; [apply _ |
        apply keepEntities_keeps_quiet, keepEntities_trackGameReferences | intros _].
      apply rel_bind; [apply _ |
        apply quiet_saveGame, (settled_game _ _ _ Hsettled _ _ _ Hf Hp Hv) | intros _].
      apply rel_bind; [apply _ |
        apply keepEntities_keeps_quiet, keepEntities_replaceJunction | intros _].
      apply rel_bind; [apply _ |
        apply keepEntities_keeps_quiet, keepEntities_replaceJunction | intros _].
      apply keepEntities_keeps_quiet, keepEntities_processed.
    + intros st Hq. unfold run.
      rewrite (syncGameFile_invalid _ _ _ _ Hp Hv), syncStubGame_eq.
      destruct (settled_invalid_game _ _ _ Hsettled _ _ Hf Hp Hv) as [r E].
      pose proof Hq as (Qt & Qc & Qu & Qch). rewrite Qt, E. cbn [snd].
      repeat split; autorewrite with st;
        rewrite ?created_bump, ?updated_bump, ?changes_bump; auto.
  - rewrite (syncGameFile_unreadable _ _ _ Hp). apply quiet_unreadable.
Qed.

Lemma quiet_syncCsvGame g :
  g ∈ csvGames -> rel (keeps (quiet st0)) (syncCsvGame env g).
Proof.
  intros Hg st Hq. unfold run. rewrite syncCsvGame_eq.
  destruct (settled_catalog _ _ _ Hsettled _ Hg) as [r E].
  pose proof Hq as (Qt & _). rewrite Qt, E. exact Hq.
Qed.

Lemma quiet_syncStudioFile filePath :
  filePath ∈ globSync env "lib/studios/*.md" ->
  rel (keeps (quiet st0)) (syncStudioFile env filePath).
Proof.
  intros Hf. destruct (parseMarkdownFile env filePath) as [parsed|e] eqn:Hp.
  - rewrite (syncStudioFile_parsed _ _ _ Hp).
    apply rel_tryCatch; [apply _ | |
      intros e; apply keepEntities_keeps_quiet, keepEntities_recordError].
    apply rel_bind; [apply _ |
      apply keepEntities_keeps_quiet, keepEntities_trackDirector | intros _].
    apply rel_bind; [apply _ |
      apply quiet_saveRow, (settled_studio _ _ _ Hsettled _ _ Hf Hp) | intros _].
    apply rel_bind; [apply _ |
      apply keepEntities_keeps_quiet, keepEntities_linkOwnGames | intros _].
    apply rel_bind; [apply _ |
      apply keepEntities_keeps_quiet, keepEntities_replaceOwnStudios | intros _].
    apply keepEntities_keeps_quiet, keepEntities_processed.
  - rewrite (syncStudioFile_unreadable _ _ _ Hp). apply quiet_unreadable.
Qed.

Lemma quiet_syncPublisherFile filePath :
  filePath ∈ globSync env "lib/publishers/*.md" ->
  rel (keeps (quiet st0)) (syncPublisherFile env filePath).
Proof.
  intros Hf. destruct (parseMarkdownFile env filePath) as [parsed|e] eqn:Hp.
  - rewrite (syncPublisherFile_parsed _ _ _ Hp).
    apply rel_tryCatch; [apply _ | |
      intros e; apply keepEntities_keeps_quiet, keepEntities_recordError].
    apply rel_bind; [apply _ |
      apply quiet_saveRow, (settled_publisher _ _ _ Hsettled _ _ Hf Hp) | intros _].
    apply rel_bind; [apply _ |
      apply keepEntities_keeps_quiet, keepEntities_linkOwnGames | intros _].
    apply rel_bind; [apply _ |
      apply keepEntities_keeps_quiet, keepEntities_replaceOwnStudios | intros _].
    apply keepEntities_keeps_quiet, keepEntities_processed.
  - rewrite (syncPublisherFile_unreadable _ _ _ Hp). apply quiet_unreadable.
Qed.

Lemma quiet_syncDesignerFile filePath :
  filePath ∈ globSync env "lib/designers/*.md" ->
  rel (keeps (quiet st0)) (syncDesignerFile env filePath).
Proof.
  intros Hf. destruct (parseMarkdownFile env filePath) as [parsed|e] eqn:Hp.
  - rewrite (syncDesignerFile_parsed _ _ _ Hp).
    apply rel_tryCatch; [apply _ | |
      intros e; apply keepEntities_keeps_quiet, keepEntities_recordError].
    apply rel_bind; [apply _ |
      apply quiet_saveRow, (settled_designer _ _ _ Hsettled _ _ Hf Hp) | intros _].
    apply keepEntities_keeps_quiet, keepEntities_processed.
  - rewrite (syncDesignerFile_unreadable _ _ _ Hp). apply quiet_unreadable.
Qed.

(** Phases 2 to 4 against a settled store. *)
Lemma quiet_syncDocuments : rel (keeps (quiet st0)) (syncDocuments env csvGames).
Proof.
  unfold syncDocuments.
  apply rel_bind; [apply _ |
    apply rel_forEach; [apply _ | intros f Hf; now apply quiet_syncGameFile] | intros _].
  apply rel_bind; [apply _ |
    apply rel_forEach; [apply _ | intros f Hf; now apply quiet_syncCsvGame] | intros _].
  apply rel_bind; [apply _ |
    apply rel_forEach; [apply _ | intros f Hf; now apply quiet_syncStudioFile] | intros _].
  apply rel_bind; [apply _ |
    apply rel_forEach; [apply _ | intros f Hf; now apply quiet_syncPublisherFile] | intros _].
  apply rel_forEach; [apply _ | intros f Hf; now apply quiet_syncDesignerFile].
Qed.

End SecondRun.

(** A reference whose row exists is passed over. *)
Lemma forEach_createStub_existing env kind (l : list string) st :
  (forall x, x ∈ l -> hasRow kind x st) ->
  forEach l (createStub env kind) st = (Ok tt, st).
Proof.
  induction l as [|x l IH]; intros H; [reflexivity|].
  cbn [forEach].
  assert (createStub env kind x st = (Ok tt, st)) as E.
  { rewrite createStub_eq. destruct (H x) as [r ->]; [now left | reflexivity]. }
  rewrite (bind_ok _ _ _ _ _ E). apply IH. intros y Hy. apply H. now right.
Qed.

Lemma createStubs_existing env kind which st :
  (forall x, x ∈ refs which st -> hasRow kind x st) ->
  run (createStubs env kind which) st = st.
Proof.
  intros H. unfold run. rewrite createStubs_eq.
  now rewrite forEach_createStub_existing.
Qed.

(** Phase 5 when every pending reference has its row. *)
Lemma materializeStubs_existing env st :
  (forall w x, x ∈ refs w st -> hasRow (kindOf w) x st) ->
  run (materializeStubs env) st = st.
Proof.
  intros H. rewrite run_materializeStubs.
  rewrite (createStubs_existing env EStudio ReferencedStudios st)
    by apply (H ReferencedStudios).
  rewrite (createStubs_existing env EPublisher ReferencedPublishers st)
    by apply (H ReferencedPublishers).
  apply (createStubs_existing env EDesigner ReferencedDesigners st), (H ReferencedDesigners).
Qed.

Lemma readCatalog_quiet env :
  created (snd (readCatalog env)) = 0 /\
  updated (snd (readCatalog env)) = 0 /\
  changes (snd (readCatalog env)) = [].
Proof. unfold readCatalog. now destruct (parseCsvFile env "lib/games.csv"). Qed.

(* ===================================================================== *)
(** * The slugs of the documents of one directory *)
(* ===================================================================== *)

Lemma chars_append (a b : string) : Js.chars (a +:+ b) = Js.chars a ++ Js.chars b.
Proof.
  unfold Js.chars. induction a as [|c a IH]; [reflexivity|].
  cbn. now rewrite <- IH.
Qed.

Lemma splitL_nonempty sep cur l : Js.splitL sep cur l <> [].
Proof.
  revert cur. induction l as [|c l IH]; intros cur; cbn; [discriminate|].
  destruct (Ascii.eqb c sep); [discriminate | apply IH].
Qed.

Lemma splitL_no_separator sep cur l :
  sep ∉ l -> Js.splitL sep cur l = [Js.str (rev cur ++ l)].
Proof.
  revert cur. induction l as [|c l IH]; intros cur H; cbn.
  - now rewrite app_nil_r.
  - apply not_elem_of_cons in H as [Hc H].
    destruct (Ascii.eqb_spec c sep) as [->|_]; [contradiction|].
    rewrite (IH _ H). cbn. now rewrite <- app_assoc.
Qed.

Lemma last_splitL sep cur l1 l2 d :
  List.last (Js.splitL sep cur (l1 ++ sep :: l2)) d = List.last (Js.splitL sep [] l2) d.
Proof.
  revert cur. induction l1 as [|c l1 IH]; intros cur; cbn [app Js.splitL].
  - rewrite Ascii.eqb_refl.
    destruct (Js.splitL sep [] l2) eqn:E; [now apply splitL_nonempty in E | reflexivity].
  - destruct (Ascii.eqb c sep); [|apply IH].
    destruct (Js.splitL sep [] (l1 ++ sep :: l2)) eqn:E;
      [now apply splitL_nonempty in E|].
    change (List.last (s :: l) d = List.last (Js.splitL sep [] l2) d).
    rewrite <- E. apply IH.
Qed.

(** One literal character of a pattern. *)
Lemma exec_at_lit ml d r prev rest pos op cap :
  Re.exec_at ml (Re.lit d :: r) prev rest pos op cap =
  match rest with
  | c :: rest' =>
      if Js.is_char d c then Re.exec_at ml r (Some c) rest' (pos + 1) op cap else None
  | [] => None
  end.
Proof.
  unfold Re.lit. cbn [Re.exec_at]. destruct rest as [|c rest']; [reflexivity|].
  cbn [Re.run]. destruct (Js.is_char d c); [|reflexivity].
  replace (Re.run (Js.is_char d) (Nat.pred <$> Some 1) rest') with 0 by (destruct rest'; reflexivity).
  cbn. rewrite drop_0. now destruct (Re.exec_at ml r (Some c) rest' (pos + 1) op cap).
Qed.

(** [/\.md$/] does not match where the input goes on after [.md]. *)
Lemma mdSuffix_not_here prev c (n : list ascii) pos :
  Re.exec_at false mdSuffixRegex prev
    (c :: n ++ ["."; "m"; "d"]%char) pos pos None = None.
Proof.
  unfold mdSuffixRegex. rewrite exec_at_lit.
  destruct (Js.is_char "." c); [|reflexivity].
  rewrite exec_at_lit. destruct n as [|c2 n]; [reflexivity|]. cbn [app].
  destruct (Js.is_char "m" c2); [|reflexivity].
  rewrite exec_at_lit. destruct n as [|c3 n]; [reflexivity|]. cbn [app].
  destruct (Js.is_char "d" c3); [|reflexivity].
  now destruct n.
Qed.

Lemma mdSuffix_search prev (n : list ascii) pos :
  Re.search false mdSuffixRegex prev (n ++ ["."; "m"; "d"]%char) pos =
  Some (pos + length n, pos + length n + 3, None).
Proof.
  revert prev pos. induction n as [|c n IH]; intros prev pos.
  - cbn. replace (pos + 0) with pos by lia.
    now replace (pos + 1 + 1 + 1) with (pos + 3) by lia.
  - cbn [app Re.search]. rewrite mdSuffix_not_here, IH. cbn [length].
    now replace (S pos + length n) with (pos + S (length n)) by lia.
Qed.

Lemma remove_mdSuffix (name : string) :
  Re.remove_first false mdSuffixRegex (name +:+ ".md") = name.
Proof.
  unfold Re.remove_first, Re.match_first, Re.search_from.
  rewrite chars_append. cbn [Re.prev_after skipn].
  change (Js.chars ".md") with ["."; "m"; "d"]%char.
  rewrite drop_0, mdSuffix_search. cbn [Nat.add].
  rewrite firstn_app, firstn_all, Nat.sub_diag. cbn [firstn].
  rewrite skipn_app, skipn_all2 by lia.
  replace (length (Js.chars name) + 3 - length (Js.chars name)) with 3 by lia.
  cbn [skipn app]. rewrite !app_nil_r. apply str_chars.
Qed.

(** The slug of a document of a directory is its name without [.md]. *)
Lemma slugFromPath_document (dir name : string) :
  "/"%char ∉ Js.chars name ->
  slugFromPath (dir +:+ "/" +:+ name +:+ ".md") = name.
Proof.
  intros H. unfold slugFromPath, Js.split.
  rewrite chars_append. change (Js.chars ("/" +:+ name +:+ ".md"))
    with ("/"%char :: Js.chars (name +:+ ".md")).
  rewrite last_splitL, splitL_no_separator.
  - cbn [rev app List.last]. rewrite str_chars. apply remove_mdSuffix.
  - rewrite chars_append. intros Hin. apply elem_of_app in Hin as [Hin|Hin]; [contradiction|].
    change (Js.chars ".md") with ["."; "m"; "d"]%char in Hin.
    repeat (apply elem_of_cons in Hin as [Hin|Hin]; [discriminate|]).
    now apply elem_of_nil in Hin.
Qed.

(** A listing of the documents of a directory that names no document
    twice gives no slug twice. *)
Lemma listing_has_distinct_slugs (dir : string) (l : list string) :
  NoDup l ->
  (forall f, f ∈ l ->
     exists name, f = dir +:+ "/" +:+ name +:+ ".md" /\ "/"%char ∉ Js.chars name) ->
  NoDup (map slugFromPath l).
Proof.
  intros Hnd H. apply (NoDup_fmap_2_strong slugFromPath); [|exact Hnd].
  intros x y Hx Hy E.
  destruct (H x Hx) as (nx & -> & Hnx). destruct (H y Hy) as (ny & -> & Hny).
  rewrite !slugFromPath_document in E by assumption. now subst.
Qed.

(* ===================================================================== *)
(** * Running the engine twice *)
(* ===================================================================== *)

Lemma keyAt_transact j slug env csvGames :
  rel (keeps (keyAt j slug)) (transact env csvGames).
Proof. rel_tac side_keyAt. Qed.

Lemma rowsOf_cons slug (p : string * string) t :
  rowsOf slug (p :: t) = if String.eqb (fst p) slug then p :: rowsOf slug t else rowsOf slug t.
Proof. reflexivity. Qed.

(** The key of a junction table, one first component at a time. *)
Lemma NoDup_by_key (t : list (string * string)) :
  (forall slug, NoDup (rowsOf slug t)) -> NoDup t.
Proof.
  induction t as [|p t IH]; intros H; [apply NoDup_nil_2|].
  apply NoDup_cons. split.
  - intros Hp. specialize (H (fst p)). rewrite rowsOf_cons, String.eqb_refl in H.
    apply NoDup_cons in H as [H _]. apply H.
    unfold rowsOf. apply list_elem_of_In, filter_In. split.
    + now apply list_elem_of_In.
    + apply String.eqb_refl.
  - apply IH. intros slug. specialize (H slug). rewrite rowsOf_cons in H.
    destruct (String.eqb (fst p) slug); [now apply NoDup_cons in H as [_ H] | exact H].
Qed.

(** The run keeps the primary key of every junction table. *)
Lemma junctionKey_transact j env csvGames st :
  junctionKey j st -> junctionKey j (run (transact env csvGames) st).
Proof.
  unfold junctionKey. intros H. apply NoDup_by_key. intros slug.
  apply (keyAt_transact j slug env csvGames st). now apply NoDup_List_filter.
Qed.

Lemma refs_initialState env now0 d w : refs w (initialState env now0 d) = [].
Proof. now destruct w. Qed.

(** The transaction, started on the store that an earlier transaction
    left, leaves the entity tables and the counts of writes as they are
    and the junction tables with the same pairs. *)
Lemma second_transaction env now1 now2 d0 :
  NoDup (map slugFromPath (globSync env "lib/games/*.md")) ->
  NoDup (map slugFromPath (globSync env "lib/studios/*.md")) ->
  NoDup (map slugFromPath (globSync env "lib/publishers/*.md")) ->
  NoDup (map slugFromPath (globSync env "lib/designers/*.md")) ->
  let csvGames := fst (readCatalog env) in
  let st1 := run (transact env csvGames) (initialState env now1 d0) in
  let st2 := run (transact env csvGames) (initialState env now2 (db st1)) in
  quiet st1 st2 /\
  (forall j p, p ∈ jtable j (db st2) <-> p ∈ jtable j (db st1)) /\
  (forall j, NoDup (jtable j d0) -> jtable j (db st2) ≡ₚ jtable j (db st1)).
Proof.
  intros Hg Hs Hp Hd csvGames st1 st2.
  assert (settled env csvGames st1) as Hsettled by now apply run_settles.
  assert (quiet st1 (initialState env now2 (db st1))) as Hq0.
  { split; [reflexivity | apply readCatalog_quiet]. }
  pose proof (quiet_syncDocuments env csvGames st1 Hsettled _ Hq0) as Hq4.
  assert (st2 = run (syncDocuments env csvGames) (initialState env now2 (db st1))) as E2.
  { unfold st2. rewrite run_transact. apply materializeStubs_existing.
    intros w x Hx. unfold hasRow. rewrite (proj1 Hq4 (kindOf w)).
    rewrite (refsOnly_syncDocuments env csvGames _ (initialState env now1 d0)) in Hx
      by (intros w'; now rewrite !refs_initialState).
    apply (collected_has_row env now1 d0) in Hx.
    now rewrite syncAll_eq in Hx. }
  assert (forall j p, p ∈ jtable j (db st2) <-> p ∈ jtable j (db st1)) as Hj.
  { apply (affine_idempotent (transact env csvGames) (initialState env now1 d0)
             (initialState env now2 (db st1)) (affine_transact env csvGames)).
    reflexivity. }
  split; [now rewrite E2|]. split; [exact Hj|].
  intros j Hk. apply NoDup_Permutation; [| |apply Hj].
  - apply (junctionKey_transact j env csvGames (initialState env now2 (db st1))).
    apply (junctionKey_transact j env csvGames (initialState env now1 d0)). exact Hk.
  - apply (junctionKey_transact j env csvGames (initialState env now1 d0)). exact Hk.
Qed.



(* ===================================================================== *)
(** * wiki-link.ts: links, slugs and paths *)
(* ===================================================================== *)

(** The matcher, one atom at a time. *)
Lemma exec_at_Bol ml r prev rest pos op cap :
  Re.exec_at ml (Re.Bol :: r) prev rest pos op cap =
  if match prev with None => true | Some c => ml && Js.is_lt c end
  then Re.exec_at ml r prev rest pos op cap else None.
Proof. reflexivity. Qed.

Lemma exec_at_Eol ml r prev rest pos op cap :
  Re.exec_at ml (Re.Eol :: r) prev rest pos op cap =
  if match rest with [] => true | c :: _ => ml && Js.is_lt c end
  then Re.exec_at ml r prev rest pos op cap else None.
Proof. reflexivity. Qed.

Lemma exec_at_Open ml r prev rest pos op cap :
  Re.exec_at ml (Re.Open :: r) prev rest pos op cap =
  Re.exec_at ml r prev rest pos pos cap.
Proof. reflexivity. Qed.

Lemma exec_at_Close ml r prev rest pos op cap :
  Re.exec_at ml (Re.Close :: r) prev rest pos op cap =
  Re.exec_at ml r prev rest pos op (Some (op, pos)).
Proof. reflexivity. Qed.

Lemma exec_at_Rep ml cls lo hi r prev rest pos op cap :
  Re.exec_at ml (Re.Rep cls lo hi :: r) prev rest pos op cap =
  Re.try_down
    (fun j => Re.exec_at ml r (Re.prev_after prev rest j) (skipn j rest) (pos + j) op cap)
    lo (Re.run cls hi rest).
Proof. reflexivity. Qed.

Lemma exec_at_nil ml prev rest pos op cap :
  Re.exec_at ml [] prev rest pos op cap = Some (pos, cap).
Proof. reflexivity. Qed.

Lemma try_down_skip {R} (f : nat -> option R) lo k :
  lo <= k -> f (S k) = None -> Re.try_down f lo (S k) = Re.try_down f lo k.
Proof.
  intros Hlo Hf. cbn [Re.try_down]. rewrite Hf.
  destruct (Nat.ltb_spec (S k) lo); [lia | reflexivity].
Qed.

Lemma try_down_here {R} (f : nat -> option R) lo k r :
  lo <= k -> f k = Some r -> Re.try_down f lo k = Some r.
Proof.
  intros Hlo Hf. destruct k; cbn [Re.try_down]; rewrite Hf.
  - destruct (Nat.ltb_spec 0 lo); [lia | reflexivity].
  - destruct (Nat.ltb_spec (S k) lo); [lia | reflexivity].
Qed.

Lemma try_down_found {R} (f : nat -> option R) lo k r :
  Re.try_down f lo k = Some r -> exists j, lo <= j <= k /\ f j = Some r.
Proof.
  induction k as [|k IH]; cbn [Re.try_down].
  - destruct (Nat.ltb_spec 0 lo); [discriminate|].
    destruct (f 0) eqn:E; [|discriminate]. intros [= <-]. exists 0. split; [lia | exact E].
  - destruct (Nat.ltb_spec (S k) lo); [discriminate|].
    destruct (f (S k)) eqn:E.
    + intros [= <-]. exists (S k). split; [lia | exact E].
    + intros H'. destruct (IH H') as (j & Hj & Hfj). exists j. split; [lia | exact Hfj].
Qed.

Lemma try_down_none {R} (f : nat -> option R) lo k :
  (forall j, j <= k -> f j = None) -> Re.try_down f lo k = None.
Proof.
  induction k as [|k IH]; intros H; cbn [Re.try_down].
  - rewrite (H 0) by lia. now destruct (0 <? lo).
  - rewrite (H (S k)) by lia. rewrite IH by (intros; apply H; lia).
    now destruct (S k <? lo).
Qed.

Lemma run_unbounded_app cls (l l' : list ascii) :
  Forall (fun c => cls c = true) l ->
  Re.run cls None (l ++ l') = length l + Re.run cls None l'.
Proof.
  induction 1 as [|c l Hc _ IH]; [reflexivity|].
  cbn [app Re.run fmap option_fmap option_map]. now rewrite Hc, IH.
Qed.

Lemma run_le_length cls hi (l : list ascii) : Re.run cls hi l <= length l.
Proof.
  revert hi. induction l as [|c l IH]; intros hi; cbn [Re.run length]; [lia|].
  destruct hi as [[|n]|]; [lia | |]; destruct (cls c); try lia;
    match goal with |- S (Re.run _ ?h _) <= _ => specialize (IH h) end; lia.
Qed.

(** The characters that a run takes are in the class. *)
Lemma run_in_class cls hi (l : list ascii) :
  Forall (fun c => cls c = true) (firstn (Re.run cls hi l) l).
Proof.
  revert hi. induction l as [|c l IH]; intros hi; cbn [Re.run]; [constructor|].
  destruct hi as [[|n]|]; [constructor | |]; destruct (cls c) eqn:E;
    try constructor; auto.
Qed.

Lemma substring_0_append (s t : string) : substring 0 (String.length s) (s +:+ t) = s.
Proof. induction s as [|c s IH]; simpl; [now destruct t | f_equal; exact IH]. Qed.

Lemma length_chars (s : string) : length (Js.chars s) = String.length s.
Proof. unfold Js.chars. induction s as [|c s IH]; cbn; [reflexivity | now rewrite IH]. Qed.

Lemma is_dot_bracket : Js.is_dot "]" = true.
Proof. reflexivity. Qed.

(** [/^\[\[(.+)\]\]$/] on a name between brackets: the group is the name. *)
Lemma wikiLink_match (n : list ascii) :
  n <> [] ->
  Forall (fun c => Js.is_dot c = true) n ->
  Re.exec_at false wikiLinkRegex None
    ("["%char :: "["%char :: n ++ ["]"; "]"]%char) 0 0 None =
  Some (2 + length n + 2, Some (2, 2 + length n)).
Proof.
  intros Hne Hdot. unfold wikiLinkRegex.
  rewrite exec_at_Bol, !exec_at_lit, exec_at_Open. unfold Re.plus. rewrite exec_at_Rep.
  change (Js.is_char "[" "[") with true. cbv iota.
  rewrite run_unbounded_app by exact Hdot.
  change (Re.run Js.is_dot None ["]"; "]"]%char) with 2.
  assert (1 <= length n) as Hlen by (destruct n; [contradiction | cbn; lia]).
  replace (length n + 2) with (S (S (length n))) by lia.
  rewrite try_down_skip; [| lia |].
  2:{ rewrite exec_at_Close, exec_at_lit.
      replace (S (S (length n))) with (length n + 2) by lia.
      now rewrite drop_app_add' by reflexivity. }
  rewrite try_down_skip; [| lia |].
  2:{ rewrite exec_at_Close, exec_at_lit.
      replace (S (length n)) with (length n + 1) by lia.
      rewrite drop_app_add' by reflexivity.
      cbn [drop Js.is_char]. rewrite Ascii.eqb_refl. now rewrite exec_at_lit. }
  apply try_down_here; [lia|].
  rewrite exec_at_Close, exec_at_lit, drop_app_length' by reflexivity.
  cbn [Js.is_char]. rewrite Ascii.eqb_refl.
  rewrite exec_at_lit. cbn [Js.is_char]. rewrite Ascii.eqb_refl.
  rewrite exec_at_Eol, exec_at_nil. cbn [Nat.add].
  now replace (S (S (length n + 1 + 1))) with (S (S (length n + 2))) by lia.
Qed.

Lemma search_eq ml r prev rest pos :
  Re.search ml r prev rest pos =
  match Re.exec_at ml r prev rest pos pos None with
  | Some (e, cap) => Some (pos, e, cap)
  | None =>
      match rest with
      | [] => None
      | c :: rest' => Re.search ml r (Some c) rest' (S pos)
      end
  end.
Proof. now destruct rest. Qed.

(** Without the [m] flag, [^] matches at the start of the input only. *)
Lemma search_after_start r c rest pos :
  Re.search false (Re.Bol :: r) (Some c) rest pos = None.
Proof.
  revert c pos. induction rest as [|d rest IH]; intros c pos;
    rewrite search_eq, exec_at_Bol; cbn [andb]; [reflexivity | apply IH].
Qed.

Lemma match_first_eq ml r s :
  Re.match_first ml r s = Re.search ml r None (Js.chars s) 0.
Proof. unfold Re.match_first, Re.search_from. now rewrite drop_0. Qed.

Lemma is_lt_is_dot (l : list ascii) :
  Forall (fun c => Js.is_lt c = false) l <-> Forall (fun c => Js.is_dot c = true) l.
Proof.
  unfold Js.is_dot. split; intros H; (eapply Forall_impl; [exact H|]); intros c Hc;
    cbv beta in *; [now rewrite Hc | now apply negb_true_iff].
Qed.

Lemma chars_nonempty (s : string) : s <> "" -> Js.chars s <> [].
Proof. now destruct s. Qed.

Lemma slice_between (a name b : string) :
  Js.slice (String.length a) (String.length a + String.length name) (a +:+ name +:+ b) = name.
Proof.
  unfold Js.slice. replace (String.length a + String.length name - String.length a)
    with (String.length name) by lia.
  induction a as [|c a IH]; [exact (substring_0_append name b) | exact IH].
Qed.

(** X1. A link [[[name]]], where the name is not empty and holds no line
    terminator, is parsed to the name. *)
Theorem parseWikiLink_brackets (name : string) :
  name <> "" ->
  Forall (fun c => Js.is_lt c = false) (Js.chars name) ->
  parseWikiLink ("[[" +:+ name +:+ "]]") = name.
Proof.
  intros Hne Hlt. unfold parseWikiLink. rewrite match_first_eq, search_eq.
  change (Js.chars ("[[" +:+ name +:+ "]]"))
    with ("["%char :: "["%char :: Js.chars (name +:+ "]]")).
  rewrite chars_append. change (Js.chars "]]") with ["]"; "]"]%char.
  rewrite wikiLink_match by (try apply chars_nonempty; try apply is_lt_is_dot; assumption).
  rewrite length_chars. apply (slice_between "[[" name "]]").
Qed.

Lemma parseWikiLink_brackets_witness : parseWikiLink "[[Atomic-Heart]]" = "Atomic-Heart".
Proof.
  apply (parseWikiLink_brackets "Atomic-Heart"); [discriminate|].
  apply (bool_decide_unpack _). vm_compute. reflexivity.
Defined.

(** What a match of [/^\[\[(.+)\]\]$/] at the start says of the input. *)
Lemma wikiLink_matched (l : list ascii) e cap :
  Re.exec_at false wikiLinkRegex None l 0 0 None = Some (e, cap) ->
  exists mid,
    l = "["%char :: "["%char :: mid ++ ["]"; "]"]%char /\
    mid <> [] /\
    Forall (fun c => Js.is_dot c = true) mid /\
    cap = Some (2, 2 + length mid).
Proof.
  unfold wikiLinkRegex. rewrite exec_at_Bol, exec_at_lit.
  destruct l as [|c1 l]; [discriminate|].
  destruct (Ascii.eqb_spec "[" c1) as [<-|]; cbn [Js.is_char];
    [rewrite Ascii.eqb_refl | now rewrite (proj2 (Ascii.eqb_neq _ _))].
  rewrite exec_at_lit. destruct l as [|c2 l]; [discriminate|].
  destruct (Ascii.eqb_spec "[" c2) as [<-|]; cbn [Js.is_char];
    [rewrite Ascii.eqb_refl | now rewrite (proj2 (Ascii.eqb_neq _ _))].
  rewrite exec_at_Open. unfold Re.plus. rewrite exec_at_Rep.
  intros H. apply try_down_found in H as (j & Hj & H).
  rewrite exec_at_Close, exec_at_lit in H.
  destruct (drop j l) as [|c3 t] eqn:Ed; [discriminate|].
  destruct (Ascii.eqb_spec "]" c3) as [<-|]; cbn [Js.is_char] in H;
    [rewrite Ascii.eqb_refl in H | now rewrite (proj2 (Ascii.eqb_neq _ _)) in H].
  rewrite exec_at_lit in H. destruct t as [|c4 t]; [discriminate|].
  destruct (Ascii.eqb_spec "]" c4) as [<-|]; cbn [Js.is_char] in H;
    [rewrite Ascii.eqb_refl in H | now rewrite (proj2 (Ascii.eqb_neq _ _)) in H].
  rewrite exec_at_Eol in H. destruct t as [|c5 t]; [|discriminate].
  rewrite exec_at_nil in H. injection H as _ <-.
  pose proof (run_le_length Js.is_dot None l) as Hrun.
  exists (take j l). rewrite length_take_le by lia. repeat split.
  - now rewrite <- Ed, take_drop.
  - destruct l; [cbn in Hj; lia|]. destruct j; [lia | discriminate].
  - pose proof (run_in_class Js.is_dot None l) as Hc.
    replace j with (min j (Re.run Js.is_dot None l)) by lia.
    rewrite <- take_take. now apply Forall_take.
Qed.

(** X2. [parseWikiLink] returns its input, or the name between the
    brackets when the input is [[[name]]] with a name that is not empty and
    holds no line terminator; it does nothing else. *)
Theorem parseWikiLink_cases (raw : string) :
  parseWikiLink raw = raw \/
  (raw = "[[" +:+ parseWikiLink raw +:+ "]]" /\
   parseWikiLink raw <> "" /\
   Forall (fun c => Js.is_lt c = false) (Js.chars (parseWikiLink raw))).
Proof.
  unfold parseWikiLink. rewrite match_first_eq, search_eq.
  destruct (Re.exec_at false wikiLinkRegex None (Js.chars raw) 0 0 None)
    as [[e cap]|] eqn:E.
  - apply wikiLink_matched in E as (mid & Hl & Hne & Hdot & ->).
    right. assert (raw = "[[" +:+ Js.str mid +:+ "]]") as Hraw.
    { apply chars_inj. rewrite Hl.
      change (Js.chars ("[[" +:+ Js.str mid +:+ "]]"))
        with ("["%char :: "["%char :: Js.chars (Js.str mid +:+ "]]")).
      now rewrite chars_append, chars_str. }
    assert (Js.slice 2 (2 + length mid) raw = Js.str mid) as Hs.
    { rewrite Hraw at 1. rewrite <- (chars_str mid) at 1. rewrite length_chars.
      apply (slice_between "[[" (Js.str mid) "]]"). }
    rewrite Hs. split; [exact Hraw|]. split.
    + intros H0. apply Hne. rewrite <- (chars_str mid), H0. reflexivity.
    + rewrite chars_str. now apply is_lt_is_dot.
  - left. destruct (Js.chars raw) as [|c rest]; [reflexivity|].
    unfold wikiLinkRegex. now rewrite search_after_start.
Qed.

Lemma hyphenate_no_whitespace in_run (l : list ascii) :
  Forall (fun c => Js.is_ws c = false) (hyphenate in_run l).
Proof.
  revert in_run. induction l as [|c l IH]; intros in_run; cbn [hyphenate]; [constructor|].
  destruct (Js.is_ws c) eqn:E; [destruct in_run|]; try apply IH;
    constructor; auto.
Qed.

Lemma hyphenate_clean in_run (l : list ascii) :
  Forall (fun c => Js.is_ws c = false) l -> hyphenate in_run l = l.
Proof.
  intros H. revert in_run. induction H as [|c l Hc _ IH]; intros in_run; [reflexivity|].
  cbn [hyphenate]. now rewrite Hc, IH.
Qed.

Lemma trimStartL_clean (l : list ascii) :
  Forall (fun c => Js.is_ws c = false) l -> Js.trimStartL l = l.
Proof. intros [|c l' Hc _]; [reflexivity|]. cbn. now rewrite Hc. Qed.

Lemma trimEndL_clean (l : list ascii) :
  Forall (fun c => Js.is_ws c = false) l -> Js.trimEndL l = l.
Proof.
  intros H. unfold Js.trimEndL. rewrite trimStartL_clean by now apply Forall_rev.
  apply rev_involutive.
Qed.

Lemma toSlug_clean (name : string) :
  Forall (fun c => Js.is_ws c = false) (Js.chars name) -> toSlug name = name.
Proof.
  intros H. unfold toSlug, Js.trim.
  rewrite (trimStartL_clean _ H), (trimEndL_clean _ H), chars_str, (hyphenate_clean _ _ H).
  apply str_chars.
Qed.

Lemma toSlug_normal (name : string) :
  Forall (fun c => Js.is_ws c = false) (Js.chars (toSlug name)).
Proof. unfold toSlug. rewrite chars_str. apply hyphenate_no_whitespace. Qed.

(** X3. A slug holds no white space; a name without white space is its own
    slug; and the slug of a slug is the slug. *)
Theorem toSlug_normal_form (name : string) :
  Forall (fun c => Js.is_ws c = false) (Js.chars (toSlug name)) /\
  (Forall (fun c => Js.is_ws c = false) (Js.chars name) -> toSlug name = name) /\
  toSlug (toSlug name) = toSlug name.
Proof.
  assert (Forall (fun c => Js.is_ws c = false) (Js.chars (toSlug name))) as H.
  { unfold toSlug. rewrite chars_str. apply hyphenate_no_whitespace. }
  split; [exact H|]. split; [apply toSlug_clean | now apply toSlug_clean].
Qed.

Lemma toSlug_normal_form_witness : toSlug "Atomic-Heart" = "Atomic-Heart".
Proof.
  apply (proj1 (proj2 (toSlug_normal_form "Atomic-Heart"))).
  apply (bool_decide_unpack _). vm_compute. reflexivity.
Defined.

(** X4. The slug of the document [name.md] of a directory is [name],
    when the name holds no slash; so is the slug of the bare file name. *)
Theorem slugFromPath_of_document (dir name : string) :
  "/"%char ∉ Js.chars name ->
  slugFromPath (dir +:+ "/" +:+ name +:+ ".md") = name /\
  slugFromPath (name +:+ ".md") = name.
Proof.
  intros H. split; [now apply slugFromPath_document|].
  unfold slugFromPath, Js.split. rewrite splitL_no_separator.
  - cbn [rev app List.last]. rewrite str_chars. apply remove_mdSuffix.
  - rewrite chars_append. intros Hin. apply elem_of_app in Hin as [Hin|Hin]; [contradiction|].
    change (Js.chars ".md") with ["."; "m"; "d"]%char in Hin.
    repeat (apply elem_of_cons in Hin as [Hin|Hin]; [discriminate|]).
    now apply elem_of_nil in Hin.
Qed.

Lemma slugFromPath_of_document_witness :
  slugFromPath "lib/games/Atomic-Heart.md" = "Atomic-Heart".
Proof.
  apply (slugFromPath_of_document "lib/games" "Atomic-Heart").
  apply (bool_decide_unpack _). vm_compute. reflexivity.
Defined.

(* ===================================================================== *)
(** * validators.ts: what validation yields *)
(* ===================================================================== *)

Lemma trimStartL_idem (l : list ascii) : Js.trimStartL (Js.trimStartL l) = Js.trimStartL l.
Proof.
  induction l as [|c l IH]; [reflexivity|]. cbn [Js.trimStartL].
  destruct (Js.is_ws c) eqn:E; [exact IH|]. cbn [Js.trimStartL]. now rewrite E.
Qed.

Lemma trimEndL_idem (l : list ascii) : Js.trimEndL (Js.trimEndL l) = Js.trimEndL l.
Proof. unfold Js.trimEndL. now rewrite rev_involutive, trimStartL_idem. Qed.

Lemma trimStartL_snoc (a : list ascii) (c : ascii) :
  Js.is_ws c = false -> Js.trimStartL (a ++ [c]) = Js.trimStartL a ++ [c].
Proof.
  intros Hc. induction a as [|d a IH]; cbn [app Js.trimStartL]; [now rewrite Hc|].
  now destruct (Js.is_ws d).
Qed.

Lemma trimEndL_cons (c : ascii) (l : list ascii) :
  Js.is_ws c = false -> Js.trimEndL (c :: l) = c :: Js.trimEndL l.
Proof.
  intros Hc. unfold Js.trimEndL. cbn [rev].
  now rewrite trimStartL_snoc, rev_app_distr by exact Hc.
Qed.

(** What is left of a list trimmed at its start does not start with white
    space. *)
Lemma trimStartL_trimEndL (l : list ascii) :
  Js.trimStartL (Js.trimEndL (Js.trimStartL l)) = Js.trimEndL (Js.trimStartL l).
Proof.
  induction l as [|c l IH]; [reflexivity|]. cbn [Js.trimStartL].
  destruct (Js.is_ws c) eqn:E; [exact IH|].
  rewrite trimEndL_cons by exact E. cbn [Js.trimStartL]. now rewrite E.
Qed.

Lemma trim_idem (s : string) : Js.trim (Js.trim s) = Js.trim s.
Proof.
  unfold Js.trim. now rewrite chars_str, trimStartL_trimEndL, trimEndL_idem.
Qed.

Lemma orNull_Some (s p : string) : orNull s = Some p -> p = s /\ s <> "".
Proof.
  unfold orNull. destruct (Js.falsy s) eqn:E; [discriminate|]. intros [= <-].
  split; [reflexivity|]. intros ->. discriminate.
Qed.

Lemma falsy_false (s : string) : s <> "" -> Js.falsy s = false.
Proof. intros H. destruct (Js.falsy s) eqn:E; [now apply falsy_spec in E | reflexivity]. Qed.

Lemma normalized_text (env : Env) :
  (forall v p, normalizePlatform v = Some p ->
     p <> "" /\ Js.trim p = p /\ p <> "Xbok 360" /\ normalizePlatform (Some p) = Some p) /\
  (forall v p, trimOrNull v = Some p -> p <> "" /\ Js.trim p = p) /\
  (forall s p, normalizeRelease env (Some (inl s)) = Some p ->
     p <> "" /\ Js.trim p = p /\ p <> "YYYY-MM-DD").
Proof.
  split; [|split].
  - intros [val|] p; [|discriminate]. unfold normalizePlatform.
    destruct (Js.falsy val); [discriminate|].
    destruct (String.eqb_spec (Js.trim val) "Xbok 360") as [E|E].
    + intros [= <-]. repeat split; discriminate.
    + intros H. apply orNull_Some in H as [-> Hne].
      split; [exact Hne|]. split; [apply trim_idem|]. split; [exact E|].
      rewrite falsy_false by exact Hne. rewrite trim_idem.
      destruct (String.eqb_spec (Js.trim val) "Xbok 360"); [contradiction|].
      unfold orNull. now rewrite falsy_false.
  - intros [val|] p; [|discriminate]. cbn [trimOrNull]. intros H.
    apply orNull_Some in H as [-> Hne]. split; [exact Hne | apply trim_idem].
  - intros s p. cbn [normalizeRelease]. destruct (Js.falsy s); [discriminate|].
    destruct (String.eqb_spec (Js.trim s) "YYYY-MM-DD") as [E|E]; [discriminate|].
    destruct (String.eqb_spec (Js.trim s) "") as [E'|E']; [discriminate|].
    cbn [orb]. intros [= <-]. split; [exact E'|]. split; [apply trim_idem | exact E].
Qed.

(** X5. The platform, the engine (and the notes of a catalog line) and the
    release given as a string come out of validation without surrounding
    white space and never empty; the platform is never the misspelt
    [Xbok 360], the release never the placeholder [YYYY-MM-DD]; and a
    normalized platform is normalized to itself. *)
Theorem normalized_text_is_trimmed (env : Env) :
  (forall v p, normalizePlatform v = Some p ->
     p <> "" /\ Js.trim p = p /\ p <> "Xbok 360" /\ normalizePlatform (Some p) = Some p) /\
  (forall v p, trimOrNull v = Some p -> p <> "" /\ Js.trim p = p) /\
  (forall s p, normalizeRelease env (Some (inl s)) = Some p ->
     p <> "" /\ Js.trim p = p /\ p <> "YYYY-MM-DD").
Proof. apply normalized_text. Qed.

Lemma normalized_text_is_trimmed_witness :
  normalizePlatform (Some " Xbok 360 ") = Some "Xbox 360" /\ Js.trim "Xbox 360" = "Xbox 360".
Proof.
  split; [reflexivity|].
  apply (proj1 (normalized_text_is_trimmed Sample.quietHost) (Some " Xbok 360 ") "Xbox 360").
  reflexivity.
Defined.

Lemma normalizeStatus_range (v : option string) (s : string) :
  normalizeStatus v = Some s -> s ∈ ["finished"; "started"; "bought"; "not started"].
Proof.
  destruct v as [val|]; [|discriminate]. unfold normalizeStatus.
  destruct (Js.falsy val); [discriminate|].
  repeat (match goal with
          | |- (if ?b then _ else _) = _ -> _ => destruct b
          end; [intros [= <-]; set_solver|]).
  discriminate.
Qed.

Lemma zLiteral_Some lit v s : zLiteral lit v = Some s -> v = Some (JStr lit).
Proof.
  destruct v as [[| | |x| | |]|]; try discriminate. cbn.
  destruct (String.eqb_spec x lit); [now subst | discriminate].
Qed.

(** X6. The front matter that validation accepts for a game is normalized:
    its class is [game], its status is one of the four known ones or
    absent, and its platform and engine are absent or trimmed and not
    empty; a developer or publisher key that is missing or null gives the
    empty list, and one that holds a single string gives the one link. *)
Theorem valid_game_front_matter_is_normalized (env : Env) (data : jsobject)
    (fm : GameFrontmatter) :
  gameFrontmatterSchema env data = Some fm ->
  prop "class" data = Some (JStr "game") /\
  (forall s, fm_status fm = Some s ->
     s ∈ ["finished"; "started"; "bought"; "not started"]) /\
  (forall p, fm_platform fm = Some p -> p <> "" /\ Js.trim p = p) /\
  (forall e, fm_engine fm = Some e -> e <> "" /\ Js.trim e = e) /\
  (forall r, fm_release fm = Some r ->
     (exists t, prop "release" data = Some (JDate t)) \/
     (r <> "" /\ Js.trim r = r /\ r <> "YYYY-MM-DD")) /\
  (prop "developer" data = None \/ prop "developer" data = Some JNull ->
   fm_developer fm = []) /\
  (forall s, prop "developer" data = Some (JStr s) -> fm_developer fm = [parseWikiLink s]) /\
  (prop "publisher" data = None \/ prop "publisher" data = Some JNull ->
   fm_publisher fm = []) /\
  (forall s, prop "publisher" data = Some (JStr s) -> fm_publisher fm = [parseWikiLink s]).
Proof.
  unfold gameFrontmatterSchema. intros H.
  destruct (zLiteral "game" (prop "class" data)) as [cls|] eqn:Hc; [|discriminate].
  apply zLiteral_Some in Hc. cbn [mbind option_bind] in H.
  destruct (statusSchema (prop "status" data)) as [status|] eqn:Hst; [|discriminate].
  cbn [mbind option_bind] in H.
  destruct (optionalStringArray (prop "game-genre" data)); [|discriminate].
  cbn [mbind option_bind] in H.
  destruct (optionalStringArray (prop "game-modes" data)); [|discriminate].
  cbn [mbind option_bind] in H.
  destruct (optionalStringArray (prop "game-genre-tags" data)); [|discriminate].
  cbn [mbind option_bind] in H.
  destruct (optionalStringArray (prop "player-perspective" data)); [|discriminate].
  cbn [mbind option_bind] in H.
  destruct (platformSchema (prop "platform" data)) as [platform|] eqn:Hpl; [|discriminate].
  cbn [mbind option_bind] in H.
  destruct (transform (optionalNullable zString) trimOrNull (prop "engine" data))
    as [engine|] eqn:Hen; [|discriminate].
  cbn [mbind option_bind] in H.
  destruct (optionalWikiLinkArray (prop "developer" data)) as [developer|] eqn:Hdev;
    [|discriminate].
  cbn [mbind option_bind] in H.
  destruct (optionalWikiLinkArray (prop "publisher" data)) as [publisher|] eqn:Hpub;
    [|discriminate].
  cbn [mbind option_bind] in H.
  destruct (optionalNullable wikiLinkSchema (prop "director" data)); [|discriminate].
  cbn [mbind option_bind] in H.
  destruct (transform (optionalNullable zStringOrDate) (normalizeRelease env)
              (prop "release" data)) as [release|] eqn:Hrel; [|discriminate].
  cbn [mbind option_bind] in H. injection H as <-. cbn.
  split; [exact Hc|]. split; [|split; [|split; [|split]]].
  - intros s ->. unfold statusSchema, transform in Hst.
    destruct (optionalNullable zString (prop "status" data)) as [v|]; [|discriminate].
    injection Hst as Hst. now apply normalizeStatus_range in Hst.
  - intros p ->. unfold platformSchema, transform in Hpl.
    destruct (optionalNullable zString (prop "platform" data)) as [v|]; [|discriminate].
    injection Hpl as Hpl.
    now destruct (proj1 (normalized_text env) _ _ Hpl) as (? & ? & _).
  - intros e ->. unfold transform in Hen.
    destruct (optionalNullable zString (prop "engine" data)) as [v|]; [|discriminate].
    injection Hen as Hen. exact (proj1 (proj2 (normalized_text env)) _ _ Hen).
  - intros r ->. unfold transform in Hrel.
    destruct (prop "release" data) as [[| | | s | t | |]|] eqn:Hp; try discriminate.
    + right. injection Hrel as Hrel.
      exact (proj2 (proj2 (normalized_text env)) _ _ Hrel).
    + left. now exists t.
  - repeat split.
    + intros [E|E]; rewrite E in Hdev; now injection Hdev as <-.
    + intros s E. rewrite E in Hdev. now injection Hdev as <-.
    + intros [E|E]; rewrite E in Hpub; now injection Hpub as <-.
    + intros s E. rewrite E in Hpub. now injection Hpub as <-.
Qed.

Lemma valid_game_front_matter_is_normalized_witness :
  prop "class" Sample.twoDevelopersDoc = Some (JStr "game").
Proof.
  refine (proj1 (valid_game_front_matter_is_normalized Sample.quietHost
                   Sample.twoDevelopersDoc _ _)).
  vm_compute. reflexivity.
Defined.

(* ===================================================================== *)
(** * csv-parser.ts: lines, cells and entries *)
(* ===================================================================== *)

Lemma run_stops cls (a : list ascii) (c : ascii) (b : list ascii) :
  cls c = false -> Re.run cls None (a ++ c :: b) <= length a.
Proof.
  intros Hc. induction a as [|d a IH]; cbn [app Re.run fmap option_fmap option_map length].
  - rewrite Hc. lia.
  - destruct (cls d); lia.
Qed.

Lemma run_all cls (l : list ascii) :
  Forall (fun c => cls c = true) l -> Re.run cls None l = length l.
Proof.
  intros H. rewrite <- (app_nil_r l) at 1. rewrite run_unbounded_app by exact H.
  cbn. lia.
Qed.

(** [/,\s*$/] does not match at a comma that another comma follows. *)
Lemma trailingComma_not_here prev c (L W : list ascii) pos :
  Re.exec_at false trailingCommaRegex prev (c :: L ++ ","%char :: W) pos pos None = None.
Proof.
  unfold trailingCommaRegex. rewrite exec_at_lit.
  destruct (Js.is_char "," c); [|reflexivity].
  unfold Re.star. rewrite exec_at_Rep. apply try_down_none. intros j Hj.
  rewrite exec_at_Eol.
  pose proof (run_stops Js.is_ws L "," W eq_refl) as Hr.
  destruct (drop j (L ++ ","%char :: W)) as [|d t] eqn:E; [|reflexivity].
  apply (f_equal (@length ascii)) in E. rewrite length_drop, length_app in E.
  cbn [length] in E. lia.
Qed.

Lemma trailingComma_search prev (L W : list ascii) pos :
  Forall (fun c => Js.is_ws c = true) W ->
  Re.search false trailingCommaRegex prev (L ++ ","%char :: W) pos =
  Some (pos + length L, pos + length L + 1 + length W, None).
Proof.
  intros HW. revert prev pos. induction L as [|c L IH]; intros prev pos.
  - rewrite search_eq. cbn [app]. unfold trailingCommaRegex. rewrite exec_at_lit.
    cbn [Js.is_char]. rewrite Ascii.eqb_refl. unfold Re.star. rewrite exec_at_Rep.
    rewrite (run_all _ _ HW).
    rewrite (try_down_here _ 0 (length W) (pos + 1 + length W, @None (nat * nat)));
      [| lia |].
    + cbn [length]. now replace (pos + 0) with pos by lia.
    + rewrite exec_at_Eol, drop_all. now rewrite exec_at_nil.
  - rewrite search_eq. cbn [app]. rewrite trailingComma_not_here, IH. cbn [length].
    now replace (S pos + length L) with (pos + S (length L)) by lia.
Qed.

Lemma remove_trailing_comma (line ws : string) :
  Forall (fun c => Js.is_ws c = true) (Js.chars ws) ->
  Re.remove_first false trailingCommaRegex (line +:+ "," +:+ ws) = line.
Proof.
  intros HW. unfold Re.remove_first. rewrite match_first_eq, chars_append.
  change (Js.chars ("," +:+ ws)) with (","%char :: Js.chars ws).
  rewrite trailingComma_search by exact HW. cbn [Nat.add].
  rewrite take_app_length. rewrite drop_ge by (rewrite length_app; cbn [length]; lia).
  rewrite app_nil_r. apply str_chars.
Qed.

(** X7. A comma at the end of a data line, with or without blanks after
    it, is dropped before the line is split: the line has the cells of the
    line without it.  Only that one comma is dropped. *)
Theorem trailing_comma_is_dropped (line ws : string) :
  Forall (fun c => Js.is_ws c = true) (Js.chars ws) ->
  csvCells (line +:+ "," +:+ ws) = splitCsvLine line /\
  csvHeader (line +:+ "," +:+ ws) =
    map (fun h => Js.toLowerCase (Js.trim h)) (Js.split "," line).
Proof.
  intros HW. unfold csvCells, csvHeader. now rewrite remove_trailing_comma.
Qed.

Lemma trailing_comma_is_dropped_witness :
  csvCells "Doom,finished,," = ["Doom"; "finished"; ""].
Proof.
  apply (proj1 (trailing_comma_is_dropped "Doom,finished," "" (Forall_nil_2 _))).
Defined.

Lemma splitL_separator sep cur (a b : list ascii) :
  sep ∉ a ->
  Js.splitL sep cur (a ++ sep :: b) = Js.str (rev cur ++ a) :: Js.splitL sep [] b.
Proof.
  revert cur. induction a as [|c a IH]; intros cur H; cbn [app Js.splitL].
  - now rewrite Ascii.eqb_refl, app_nil_r.
  - apply not_elem_of_cons in H as [Hc H].
    destruct (Ascii.eqb_spec c sep) as [->|_]; [contradiction|].
    rewrite (IH _ H). cbn [rev]. now rewrite <- app_assoc.
Qed.

Lemma split_join sep (cells : list string) :
  cells <> [] ->
  Forall (fun cell => sep ∉ Js.chars cell) cells ->
  Js.split sep (Js.str (joinL [sep] (map Js.chars cells))) = cells.
Proof.
  intros Hne H. unfold Js.split. rewrite chars_str.
  induction H as [|c cells Hc H IH]; [contradiction|].
  destruct cells as [|c2 cells].
  - cbn [map joinL]. rewrite splitL_no_separator by exact Hc. cbn [rev app].
    now rewrite str_chars.
  - change (joinL [sep] (map Js.chars (c :: c2 :: cells)))
      with (Js.chars c ++ sep :: joinL [sep] (map Js.chars (c2 :: cells))).
    rewrite splitL_separator by exact Hc. cbn [rev app]. rewrite str_chars.
    f_equal. now apply IH.
Qed.

Lemma length_splitL sep cur (l : list ascii) :
  length (Js.splitL sep cur l) = S (length (List.filter (fun c => Ascii.eqb c sep) l)).
Proof.
  revert cur. induction l as [|c l IH]; intros cur; cbn [Js.splitL List.filter]; [reflexivity|].
  destruct (Ascii.eqb c sep); cbn [length]; now rewrite IH.
Qed.

(** X8. Splitting a line gives one trimmed cell more than the line has
    commas; and splitting the cells joined by commas gives the cells back,
    trimmed, when no cell holds a comma. *)
Theorem splitCsvLine_of_joined_cells (cells : list string) :
  cells <> [] ->
  Forall (fun cell => ","%char ∉ Js.chars cell) cells ->
  splitCsvLine (Js.str (joinL [","%char] (map Js.chars cells))) = map Js.trim cells /\
  forall line,
    length (splitCsvLine line) =
    S (length (List.filter (fun c => Ascii.eqb c ",") (Js.chars line))).
Proof.
  intros Hne H. split.
  - unfold splitCsvLine. now rewrite split_join.
  - intros line. unfold splitCsvLine, Js.split. rewrite length_map. apply length_splitL.
Qed.

Lemma splitCsvLine_of_joined_cells_witness :
  splitCsvLine "Doom , finished,PC" = ["Doom"; "finished"; "PC"].
Proof.
  apply (proj1 (splitCsvLine_of_joined_cells ["Doom "; " finished"; "PC"]
                  ltac:(discriminate)
                  ltac:(apply (bool_decide_unpack _); vm_compute; reflexivity))).
Defined.

Lemma splitL_pieces (P : ascii -> Prop) sep cur (l : list ascii) :
  Forall P cur -> Forall P l ->
  Forall (fun s => Forall P (Js.chars s)) (Js.splitL sep cur l).
Proof.
  intros Hcur Hl. revert cur Hcur. induction Hl as [|c l Hc Hl IH]; intros cur Hcur;
    cbn [Js.splitL].
  - constructor; [|constructor]. rewrite chars_str. now apply Forall_rev.
  - destruct (Ascii.eqb c sep).
    + constructor; [rewrite chars_str; now apply Forall_rev | now apply IH].
    + apply IH. now constructor.
Qed.

Lemma trim_blank (s : string) :
  Forall (fun c => Js.is_ws c = true) (Js.chars s) -> Js.trim s = "".
Proof.
  intros H. unfold Js.trim.
  assert (Js.trimStartL (Js.chars s) = []) as ->; [|reflexivity].
  induction H as [|c l Hc _ IH]; [reflexivity|]. cbn. now rewrite Hc.
Qed.

Lemma csvLines_blank (raw : string) :
  Forall (fun c => Js.is_ws c = true) (Js.chars raw) -> csvLines raw = [].
Proof.
  intros H. unfold csvLines, Js.split.
  pose proof (splitL_pieces _ "010"%char [] _ (Forall_nil_2 _) H) as Hp.
  induction Hp as [|s l Hs _ IH]; [reflexivity|].
  cbn [List.filter]. now rewrite (trim_blank _ Hs).
Qed.

Lemma length_omap_le {A B} (f : A -> option B) (l : list A) :
  length (omap f l) <= length l.
Proof. induction l as [|x l IH]; cbn; [lia|]. destruct (f x); cbn; lia. Qed.

(** X9. [parseCsvFile] throws what reading the file throws; a file of
    blank lines gives no entry; and a file that is read gives at most one
    entry for each non-blank line after the header, so none when the
    header is its only line. *)
Theorem parseCsvFile_edges (env : Env) (path : string) :
  (forall e, readFileSync env path = Throw e -> parseCsvFile env path = Throw e) /\
  (forall raw, readFileSync env path = Ok raw ->
     Forall (fun c => Js.is_ws c = true) (Js.chars raw) ->
     parseCsvFile env path = Ok []) /\
  (forall raw, readFileSync env path = Ok raw ->
     exists results,
       parseCsvFile env path = Ok results /\
       length results <= length (csvLines raw) - 1).
Proof.
  split; [|split].
  - intros e H. unfold parseCsvFile. now rewrite H.
  - intros raw H Hb. rewrite (parseCsvFile_readable _ _ _ H). now rewrite csvLines_blank.
  - intros raw H. rewrite (parseCsvFile_readable _ _ _ H). eexists. split; [reflexivity|].
    destruct (csvLines raw) as [|line0 lines]; cbn [length]; [lia|].
    pose proof (length_omap_le (csvLine (csvHeader line0)) lines). lia.
Qed.

Lemma parseCsvFile_edges_witness :
  parseCsvFile Sample.quietHost "lib/games.csv" = Throw "ENOENT".
Proof. apply (proj1 (parseCsvFile_edges Sample.quietHost "lib/games.csv")). reflexivity. Defined.

Lemma fillRecord_trimmed (header values : list string) (record : jsobject) k v :
  prop k (fillRecord header values record) = Some v ->
  (exists x, v = JStr (Js.trim x)) \/ prop k record = Some v.
Proof.
  revert values record. induction header as [|h header IH]; intros values record H;
    cbn [fillRecord] in H; [now right|].
  apply IH in H as [H|H]; [now left|]. rewrite prop_setProp in H.
  destruct (String.eqb k h); [left; injection H as <-; eauto | now right].
Qed.

Lemma toSlug_nonempty (name : string) : Js.trim name <> "" -> toSlug name <> "".
Proof.
  intros H. unfold toSlug. destruct (Js.chars (Js.trim name)) as [|c l] eqn:E.
  - exfalso. apply H. apply chars_inj. now rewrite E.
  - cbn [hyphenate]. now destruct (Js.is_ws c).
Qed.

(** X10. Every entry that [parseCsvFile] returns is normalized: its name
    is trimmed and not empty, its slug is the slug of the name, not empty
    and without white space, its status is one of the four known ones or
    absent, and its platform and notes are absent or trimmed and not
    empty. *)
Theorem catalog_entries_are_normalized (env : Env) (path : string)
    (results : list ParsedCsvGame) (g : ParsedCsvGame) :
  parseCsvFile env path = Ok results ->
  g ∈ results ->
  csv_name (pc_row g) <> "" /\
  Js.trim (csv_name (pc_row g)) = csv_name (pc_row g) /\
  pc_slug g = toSlug (csv_name (pc_row g)) /\
  pc_slug g <> "" /\
  Forall (fun c => Js.is_ws c = false) (Js.chars (pc_slug g)) /\
  (forall s, csv_status (pc_row g) = Some s ->
     s ∈ ["finished"; "started"; "bought"; "not started"]) /\
  (forall p, csv_platform (pc_row g) = Some p -> p <> "" /\ Js.trim p = p) /\
  (forall n, csv_notes (pc_row g) = Some n -> n <> "" /\ Js.trim n = n).
Proof.
  intros Hparse Hg. unfold parseCsvFile in Hparse.
  destruct (readFileSync env path) as [raw|]; [|discriminate].
  destruct (csvLines raw) as [|line0 lines]; injection Hparse as <-;
    [now apply elem_of_nil in Hg|].
  apply list_elem_of_omap in Hg as (line & _ & Hline). unfold csvLine in Hline.
  destruct (nameMissing (csvRecord (csvHeader line0) line)) eqn:Hmiss; [discriminate|].
  destruct (csvRowSchema (csvRecord (csvHeader line0) line)) as [data|] eqn:Hschema;
    [|discriminate].
  injection Hline as <-. cbn [pc_slug pc_row].
  unfold csvRowSchema in Hschema.
  destruct (prop "name" (csvRecord (csvHeader line0) line)) as [v|] eqn:Hname;
    [|discriminate].
  destruct (fillRecord_trimmed _ _ _ _ _ Hname) as [[x ->]|]; [|discriminate].
  unfold nameMissing in Hmiss. rewrite Hname in Hmiss.
  cbn [transform zString option_map mbind option_bind] in Hschema.
  destruct (statusSchema _) as [status|] eqn:Hst; [|discriminate].
  cbn [mbind option_bind] in Hschema.
  destruct (platformSchema _) as [platform|] eqn:Hpl; [|discriminate].
  cbn [mbind option_bind] in Hschema.
  destruct (transform (optionalNullable zString) trimOrNull _) as [notes|] eqn:Hnt;
    [|discriminate].
  cbn [mbind option_bind] in Hschema. injection Hschema as <-. cbn.
  rewrite trim_idem.
  assert (Js.trim x <> "") as Hne by (intros E; rewrite E in Hmiss; discriminate).
  split; [exact Hne|]. split; [apply trim_idem|]. split; [reflexivity|].
  split; [apply toSlug_nonempty; now rewrite trim_idem|].
  split; [apply toSlug_normal|]. split; [|split].
  - intros s ->. unfold statusSchema, transform in Hst.
    destruct (optionalNullable zString _) as [w|]; [|discriminate].
    injection Hst as Hst. now apply normalizeStatus_range in Hst.
  - intros p ->. unfold platformSchema, transform in Hpl.
    destruct (optionalNullable zString _) as [w|]; [|discriminate].
    injection Hpl as Hpl.
    now destruct (proj1 (normalized_text env) _ _ Hpl) as (? & ? & _).
  - intros n ->. unfold transform in Hnt.
    destruct (optionalNullable zString _) as [w|]; [|discriminate].
    injection Hnt as Hnt. exact (proj1 (proj2 (normalized_text env)) _ _ Hnt).
Qed.

Lemma catalog_entries_are_normalized_witness :
  parseCsvFile Sample.catalogHost "lib/games.csv" =
  Ok [{| pc_slug := "Doom";
         pc_row := {| csv_name := "Doom"; csv_status := Some "finished";
                      csv_platform := Some "Xbox 360"; csv_notes := None |} |};
      {| pc_slug := "Quake";
         pc_row := {| csv_name := "Quake"; csv_status := Some "not started";
                      csv_platform := None; csv_notes := None |} |}] /\
  toSlug "Doom" <> "".
Proof.
  assert (parseCsvFile Sample.catalogHost "lib/games.csv" =
          Ok [{| pc_slug := "Doom";
                 pc_row := {| csv_name := "Doom"; csv_status := Some "finished";
                              csv_platform := Some "Xbox 360"; csv_notes := None |} |};
              {| pc_slug := "Quake";
                 pc_row := {| csv_name := "Quake"; csv_status := Some "not started";
                              csv_platform := None; csv_notes := None |} |}]) as H
    by (vm_compute; reflexivity).
  split; [exact H|].
  destruct (catalog_entries_are_normalized _ _ _ _ H (list_elem_of_here _ _))
    as (_ & _ & _ & Hs & _).
  exact Hs.
Defined.

(* ===================================================================== *)
(** * parser.ts: the sections of a body *)
(* ===================================================================== *)

Lemma run_bounded_none cls n (l : list ascii) :
  match l with [] => True | c :: _ => cls c = false end ->
  Re.run cls (Some n) l = 0.
Proof.
  destruct l as [|c l]; [reflexivity|]. intros Hc. cbn [Re.run].
  destruct n; [reflexivity | now rewrite Hc].
Qed.

(** [/^#{1,3}\s+(.+)$/gm] finds nothing where there is no [#]. *)
Lemma heading_search_none prev (rest : list ascii) pos :
  "#"%char ∉ rest -> Re.search true headingRegex prev rest pos = None.
Proof.
  revert prev pos. induction rest as [|c rest IH]; intros prev pos H; rewrite search_eq.
  - unfold headingRegex. rewrite exec_at_Bol, exec_at_Rep. cbn [Re.run Re.try_down Nat.ltb Nat.leb].
    now destruct (match prev with None => true | Some c => true && Js.is_lt c end).
  - apply not_elem_of_cons in H as [Hc H].
    assert (Re.exec_at true headingRegex prev (c :: rest) pos pos None = None) as ->.
    { unfold headingRegex. rewrite exec_at_Bol, exec_at_Rep.
      rewrite run_bounded_none.
      - cbn [Re.try_down Nat.ltb Nat.leb].
        now destruct (match prev with None => true | Some c => true && Js.is_lt c end).
      - cbn [Js.is_char]. now apply Ascii.eqb_neq. }
    now apply IH.
Qed.

Lemma findHeadings_none (content : string) :
  "#"%char ∉ Js.chars content -> findHeadings content = [].
Proof.
  intros H. unfold findHeadings. cbn [Re.exec_all]. unfold Re.search_from.
  rewrite drop_0. now rewrite heading_search_none.
Qed.

(** X11. A body without any [#] has no section. *)
Theorem no_hash_no_section (content : string) :
  "#"%char ∉ Js.chars content ->
  splitContentSections content = ∅ /\
  forall env path raw data,
    readFileSync env path = Ok raw ->
    matter env raw = Ok (data, content) ->
    parseMarkdownFile env path =
    Ok {| frontmatter := data; sections := ∅; rawContent := content |}.
Proof.
  intros H.
  assert (splitContentSections content = ∅) as E.
  { unfold splitContentSections. now rewrite findHeadings_none. }
  split; [exact E|]. intros env path raw data Hr Hm. unfold parseMarkdownFile.
  now rewrite Hr, Hm, E.
Qed.

Lemma no_hash_no_section_witness : splitContentSections "Just text." = ∅.
Proof.
  apply (no_hash_no_section "Just text.").
  apply (bool_decide_unpack _). vm_compute. reflexivity.
Defined.

Lemma run_bounded_app cls n (l rest : list ascii) :
  Forall (fun c => cls c = true) l ->
  length l <= n ->
  match rest with [] => True | c :: _ => cls c = false end ->
  Re.run cls (Some n) (l ++ rest) = length l.
Proof.
  intros Hl. revert n. induction Hl as [|c l Hc _ IH]; intros n Hn Hrest.
  - now apply run_bounded_none.
  - cbn [app Re.run length]. destruct n as [|n]; [cbn in Hn; lia|].
    rewrite Hc. cbn [fmap option_fmap option_map pred]. rewrite IH; auto.
    cbn [length] in Hn. lia.
Qed.

Lemma run_unbounded_stop cls (l : list ascii) (c : ascii) (rest : list ascii) :
  Forall (fun c => cls c = true) l -> cls c = false ->
  Re.run cls None (l ++ c :: rest) = length l.
Proof.
  intros Hl Hc. rewrite run_unbounded_app by exact Hl. cbn [Re.run]. rewrite Hc. lia.
Qed.

(** The heading pattern on a heading line at the start of the input. *)
Lemma heading_match (hashes sp title body : list ascii) (t1 : ascii) (title' : list ascii) :
  Forall (fun c => Js.is_char "#" c = true) hashes ->
  1 <= length hashes <= 3 ->
  sp <> [] ->
  Forall (fun c => Js.is_ws c = true) sp ->
  title = t1 :: title' ->
  Js.is_ws t1 = false ->
  Forall (fun c => Js.is_dot c = true) title ->
  Re.exec_at true headingRegex None (hashes ++ sp ++ title ++ "010"%char :: body) 0 0 None =
  Some (length hashes + length sp + length title,
        Some (length hashes + length sp, length hashes + length sp + length title)).
Proof.
  intros Hh Hlen Hsp Hws Ht Ht1 Hdot. unfold headingRegex.
  rewrite exec_at_Bol, exec_at_Rep.
  rewrite run_bounded_app; [|exact Hh|lia|].
  2:{ destruct sp as [|s sp']; [contradiction|]. cbn [app].
      apply Forall_cons in Hws as [Hs _]. cbn [Js.is_char].
      apply Ascii.eqb_neq. intros <-. discriminate Hs. }
  apply try_down_here; [lia|].
  rewrite drop_app_length. unfold Re.plus. rewrite exec_at_Rep.
  assert (Re.run Js.is_ws None (sp ++ title ++ "010"%char :: body) = length sp) as ->.
  { rewrite Ht. cbn [app]. now apply run_unbounded_stop. }
  assert (1 <= length sp) by (destruct sp; [contradiction | cbn; lia]).
  apply try_down_here; [lia|].
  rewrite drop_app_length, exec_at_Open, exec_at_Rep.
  rewrite (run_unbounded_stop Js.is_dot title "010" body Hdot eq_refl).
  apply try_down_here; [rewrite Ht; cbn; lia|].
  rewrite drop_app_length, exec_at_Close, exec_at_Eol. cbn [andb Js.is_lt].
  rewrite exec_at_nil. reflexivity.
Qed.

Lemma length_str (l : list ascii) : String.length (Js.str l) = length l.
Proof. rewrite <- length_chars. now rewrite chars_str. Qed.

Lemma substring_all (b : string) : substring 0 (String.length b) b = b.
Proof. induction b as [|c b IH]; simpl; [reflexivity | f_equal; exact IH]. Qed.

Lemma slice_tail (a b : string) :
  Js.slice (String.length a) (String.length (a +:+ b)) (a +:+ b) = b.
Proof.
  unfold Js.slice. induction a as [|c a IH]; simpl.
  - rewrite Nat.sub_0_r. apply substring_all.
  - exact IH.
Qed.

Lemma trim_after_line_feed (body : string) :
  Js.trim (String "010" body) = Js.trim body.
Proof. reflexivity. Qed.

Lemma str_app (a b : list ascii) : Js.str (a ++ b) = Js.str a +:+ Js.str b.
Proof. apply chars_inj. now rewrite chars_append, !chars_str. Qed.

(** The headings of a document that is one heading line and a body
    without [#]. *)
Lemma findHeadings_single (hashes sp title body : list ascii) (t1 : ascii)
    (title' : list ascii) :
  Forall (fun c => Js.is_char "#" c = true) hashes ->
  1 <= length hashes <= 3 ->
  sp <> [] ->
  Forall (fun c => Js.is_ws c = true) sp ->
  title = t1 :: title' ->
  Js.is_ws t1 = false ->
  Forall (fun c => Js.is_dot c = true) title ->
  "#"%char ∉ body ->
  findHeadings (Js.str (hashes ++ sp ++ title ++ "010"%char :: body)) =
  [{| h_name := Js.toLowerCase (Js.trim (Js.str title));
      h_index := length hashes + length sp + length title |}].
Proof.
  intros Hh Hlen Hsp Hws Ht Ht1 Hdot Hb. unfold findHeadings.
  rewrite chars_str, length_str.
  assert (length (hashes ++ sp ++ title ++ "010"%char :: body) =
          S (length hashes + length sp + length title + length body)) as Hl.
  { rewrite !length_app. cbn [length]. lia. }
  rewrite Hl. cbn [Re.exec_all]. unfold Re.search_from.
  rewrite drop_0, search_eq. cbn [Re.prev_after].
  rewrite (heading_match hashes sp title body t1 title') by assumption.
  assert (drop (length hashes + length sp + length title)
            (hashes ++ sp ++ title ++ "010"%char :: body) = "010"%char :: body) as ->.
  { rewrite !app_assoc, <- !length_app. apply drop_app_length. }
  rewrite heading_search_none.
  - cbn [map]. f_equal. f_equal. f_equal. f_equal.
    pose proof (slice_between (Js.str (hashes ++ sp)) (Js.str title)
                  (Js.str ("010"%char :: body))) as Hs.
    rewrite !length_str, length_app, <- !str_app, <- !app_assoc in Hs. exact Hs.
  - apply not_elem_of_cons. split; [discriminate | exact Hb].
Qed.



(* ===================================================================== *)
(** * sync-engine.ts: what a run reports and what it leaves alone *)
(* ===================================================================== *)

#[global] Instance growErrors_preorder : PreOrder growErrors.
Proof.
  split.
  - intros st. unfold growErrors. reflexivity.
  - intros a b c H1 H2. unfold growErrors in *. now transitivity (errors (report b)).
Qed.

Ltac side_growErrors :=
  idtac; intros; unfold growErrors; autorewrite with st;
  rewrite ?errors_bump, ?errors_addChanges, ?errors_pushError;
  try reflexivity; try (now apply prefix_app_r).

Lemma growErrors_syncGameFile env f : rel growErrors (syncGameFile env f).
Proof. rel_tac side_growErrors. Qed.
Lemma growErrors_syncCsvGame env g : rel growErrors (syncCsvGame env g).
Proof. rel_tac side_growErrors. Qed.
Lemma growErrors_syncStudioFile env f : rel growErrors (syncStudioFile env f).
Proof. rel_tac side_growErrors. Qed.
Lemma growErrors_syncPublisherFile env f : rel growErrors (syncPublisherFile env f).
Proof. rel_tac side_growErrors. Qed.
Lemma growErrors_syncDesignerFile env f : rel growErrors (syncDesignerFile env f).
Proof. rel_tac side_growErrors. Qed.
Lemma growErrors_materializeStubs env : rel growErrors (materializeStubs env).
Proof. rel_tac side_growErrors. Qed.
Lemma growErrors_transact env csvGames : rel growErrors (transact env csvGames).
Proof. rel_tac side_growErrors. Qed.

Lemma growErrors_reported msg st st' : growErrors st st' -> reported msg st -> reported msg st'.
Proof. intros [k Hk] H. unfold reported. rewrite Hk. apply elem_of_app. now left. Qed.

Lemma growErrors_keeps_reported msg {A} (m : M A) :
  rel growErrors m -> rel (keeps (reported msg)) m.
Proof. apply rel_keeps. intros st st'. apply growErrors_reported. Qed.

Lemma reported_through msg {A} (m : M A) st :
  rel growErrors m -> reported msg st -> reported msg (run m st).
Proof. intros H. now apply growErrors_keeps_reported. Qed.

Lemma growErrors_forEach {A} (l : list A) (body : A -> M unit) :
  (forall x, rel growErrors (body x)) -> rel growErrors (forEach l body).
Proof. intros H. apply rel_forEach; [apply _|]. intros x _. apply H. Qed.

Lemma unreadable_reported what filePath e :
  post (reported ("Error syncing " +:+ what +:+ " " +:+ filePath +:+ ": " +:+ e))
    (tryCatch (throw e) (recordError what filePath)).
Proof.
  intros st. rewrite run_unreadable. unfold reported, run, recordError, modify. cbn [snd].
  autorewrite with st. rewrite errors_pushError. apply elem_of_app. right. now left.
Qed.

(** What one loop over documents leaves in the report for an unreadable
    document. *)
Lemma unreadable_in_loop what (step : string -> M unit) (l : list string) filePath e :
  (forall y, nothrow (step y)) ->
  (forall y, rel growErrors (step y)) ->
  step filePath = tryCatch (throw e) (recordError what filePath) ->
  filePath ∈ l ->
  post (reported ("Error syncing " +:+ what +:+ " " +:+ filePath +:+ ": " +:+ e))
    (forEach l step).
Proof.
  intros Hn Hg Hs Hf. apply (post_forEach_member _ _ _ filePath Hf).
  - intros y _. apply Hn.
  - rewrite Hs. apply unreadable_reported.
  - intros y _. now apply growErrors_keeps_reported.
Qed.



Lemma spares_documents kind slug kind' (step : string -> M unit) (l : list string) :
  (forall f, rel (growTables (fun k s => k = kind' /\ s = slugFromPath f)) (step f)) ->
  (kind' = kind -> forall f, f ∈ l -> slugFromPath f <> slug) ->
  rel (spares kind slug) (forEach l step).
Proof.
  intros Hstep Hl. apply rel_forEach; [apply _|]. intros f Hf.
  apply (spares_ownRow _ _ kind' (slugFromPath f)); [|apply Hstep].
  destruct (decide (kind' = kind)) as [E|E]; [right; now apply Hl | now left].
Qed.

Lemma spares_untouched kind slug st st' r :
  spares kind slug st st' -> table kind (db st) !! slug = Some r ->
  table kind (db st') !! slug = Some r.
Proof. intros [_ H] E. apply H; [exact E|]. intros [X|X]; now apply X. Qed.

(** The run, seen from the row of a slug that no document of its kind
    has. *)
Lemma spares_transact kind slug env csvGames :
  (forall f, f ∈ globSync env (pattern kind) -> slugFromPath f <> slug) ->
  rel (spares kind slug) (transact env csvGames).
Proof.
  intros H. unfold transact.
  apply rel_bind; [apply _ | | intros _; apply spares_materializeStubs].
  unfold syncDocuments.
  apply rel_bind; [apply _ | | intros _].
  { apply (spares_documents _ _ EGame); [apply ownRow_syncGameFile | intros <-; exact H]. }
  apply rel_bind; [apply _ | apply spares_csv | intros _].
  apply rel_bind; [apply _ | | intros _].
  { apply (spares_documents _ _ EStudio); [apply ownRow_syncStudioFile | intros <-; exact H]. }
  apply rel_bind; [apply _ | | intros _].
  { apply (spares_documents _ _ EPublisher);
      [apply ownRow_syncPublisherFile | intros <-; exact H]. }
  apply (spares_documents _ _ EDesigner);
    [apply ownRow_syncDesignerFile | intros <-; exact H].
Qed.

(** X14. A run removes no row of an entity table, and it leaves a row as
    it is when no document of its kind has its slug: neither the catalog
    nor a reference writes over a row that exists. *)
Theorem rows_without_document_are_kept (env : Env) (now0 : nat) (d : Db)
    (kind : EntityKind) (slug : string) (r : Row) :
  table kind d !! slug = Some r ->
  is_Some (table kind (snd (syncAll env now0 d)) !! slug) /\
  ((forall f, f ∈ globSync env (pattern kind) -> slugFromPath f <> slug) ->
   table kind (snd (syncAll env now0 d)) !! slug = Some r).
Proof.
  intros E. rewrite syncAll_eq. cbn [snd]. split.
  - apply (growTables_hasRow _ kind slug _ _
             (growTables_transact env (fst (readCatalog env)) (initialState env now0 d))).
    unfold hasRow. cbn [initialState db]. now rewrite E.
  - intros H. apply (spares_untouched kind slug (initialState env now0 d));
      [now apply spares_transact | exact E].
Qed.

Lemma rows_without_document_are_kept_witness :
  publishers (snd (syncAll Sample.bothSidesHost 0
                     (set_table EPublisher {[ "Valve" := Sample.storedPublisher ]} emptyDb)))
    !! "Valve" = Some Sample.storedPublisher.
Proof.
  apply (rows_without_document_are_kept Sample.bothSidesHost 0
           (set_table EPublisher {[ "Valve" := Sample.storedPublisher ]} emptyDb)
           EPublisher "Valve" Sample.storedPublisher).
  - reflexivity.
  - intros f Hf. apply list_elem_of_In in Hf. vm_compute in Hf. contradiction.
Defined.

(* ===================================================================== *)
(** * Every document is counted or reported *)
(* ===================================================================== *)

Lemma accounted_bump c r :
  accounted (bump c r) = match c with Processed _ => S (accounted r) | _ => accounted r end.
Proof. destruct c as [| | |[]]; unfold accounted; cbn; lia. Qed.

Lemma accounted_pushError e r : accounted (pushError e r) = S (accounted r).
Proof. unfold accounted. cbn. rewrite length_app. cbn. lia. Qed.

Lemma accounted_addChanges cs r : accounted (addChanges cs r) = accounted r.
Proof.
  unfold addChanges. revert r. induction cs as [|c cs IH]; intros r; [reflexivity|].
  cbn [fold_left]. now rewrite IH.
Qed.

#[global] Instance keepAccounted_preorder : PreOrder keepAccounted.
Proof.
  split.
  - intros st. reflexivity.
  - intros a b c H1 H2. unfold keepAccounted in *. now rewrite H2.
Qed.

Ltac side_keepAccounted :=
  idtac; intros; unfold keepAccounted; autorewrite with st;
  rewrite ?accounted_bump, ?accounted_addChanges; reflexivity.

Lemma counts_bind {A B} (m : M A) (k : A -> M B) :
  rel keepAccounted m -> (forall a, counts (k a)) -> counts (bind m k).
Proof.
  intros Hm Hk st. destruct (fst (m st)) as [a|e] eqn:E.
  - rewrite (run_bind_ok _ _ _ _ E), (fst_bind_ok _ _ _ _ E), (Hk a (run m st)).
    pose proof (Hm st) as X. unfold keepAccounted in X. now rewrite X.
  - rewrite (run_bind_throw _ _ _ _ E), (fst_bind_throw _ _ _ _ E). apply Hm.
Qed.

Lemma counts_processed kind : counts (count (Processed kind)).
Proof. intros st. rewrite run_count. autorewrite with st. now rewrite accounted_bump. Qed.

Lemma counts_throw {A} e : counts (@throw A e).
Proof. intros st. reflexivity. Qed.

(** A body that counts its document on return, under the handler that
    reports it on a throw, accounts for exactly one. *)
Lemma counts_tryCatch (body : M unit) what filePath st :
  counts body ->
  accounted (report (run (tryCatch body (recordError what filePath)) st)) =
  S (accounted (report st)).
Proof.
  intros Hb. specialize (Hb st). destruct (fst (body st)) as [a|e] eqn:E.
  - now rewrite (run_tryCatch_ok _ _ _ _ E).
  - rewrite (run_tryCatch_throw _ _ _ _ E), run_recordError. autorewrite with st.
    now rewrite accounted_pushError, Hb.
Qed.

Lemma accounts_syncGameFile env f st :
  accounted (report (run (syncGameFile env f) st)) = S (accounted (report st)).
Proof.
  destruct (parseMarkdownFile env f) as [parsed|e] eqn:Hp.
  - destruct (gameFrontmatterSchema env (frontmatter parsed)) as [fm|] eqn:Hv.
    + rewrite (syncGameFile_valid _ _ _ _ Hp Hv). apply counts_tryCatch.
      apply counts_bind; [rel_tac side_keepAccounted | intros _].
      apply counts_bind; [rel_tac side_keepAccounted | intros _].
      apply counts_bind; [rel_tac side_keepAccounted | intros _].
      apply counts_bind; [rel_tac side_keepAccounted | intros _].
      apply counts_processed.
    + unfold run. rewrite (syncGameFile_invalid _ _ _ _ Hp Hv).
      assert (counts (syncStubGame env (slugFromPath f) f)) as Hc.
      { unfold syncStubGame.
        apply counts_bind; [rel_tac side_keepAccounted | intros existing].
        apply counts_bind; [destruct existing; rel_tac side_keepAccounted | intros _].
        apply counts_processed. }
      specialize (Hc st). destruct (nothrow_syncStubGame env (slugFromPath f) f st) as [a Ha].
      now rewrite Ha in Hc.
  - rewrite (syncGameFile_unreadable _ _ _ Hp). apply counts_tryCatch, counts_throw.
Qed.

Lemma accounts_syncStudioFile env f st :
  accounted (report (run (syncStudioFile env f) st)) = S (accounted (report st)).
Proof.
  destruct (parseMarkdownFile env f) as [parsed|e] eqn:Hp.
  - rewrite (syncStudioFile_parsed _ _ _ Hp). apply counts_tryCatch.
    apply counts_bind; [rel_tac side_keepAccounted | intros _].
    apply counts_bind; [rel_tac side_keepAccounted | intros _].
    apply counts_bind; [rel_tac side_keepAccounted | intros _].
    apply counts_bind; [rel_tac side_keepAccounted | intros _].
    apply counts_processed.
  - rewrite (syncStudioFile_unreadable _ _ _ Hp). apply counts_tryCatch, counts_throw.
Qed.

Lemma accounts_syncPublisherFile env f st :
  accounted (report (run (syncPublisherFile env f) st)) = S (accounted (report st)).
Proof.
  destruct (parseMarkdownFile env f) as [parsed|e] eqn:Hp.
  - rewrite (syncPublisherFile_parsed _ _ _ Hp). apply counts_tryCatch.
    apply counts_bind; [rel_tac side_keepAccounted | intros _].
    apply counts_bind; [rel_tac side_keepAccounted | intros _].
    apply counts_bind; [rel_tac side_keepAccounted | intros _].
    apply counts_processed.
  - rewrite (syncPublisherFile_unreadable _ _ _ Hp). apply counts_tryCatch, counts_throw.
Qed.

Lemma accounts_syncDesignerFile env f st :
  accounted (report (run (syncDesignerFile env f) st)) = S (accounted (report st)).
Proof.
  destruct (parseMarkdownFile env f) as [parsed|e] eqn:Hp.
  - rewrite (syncDesignerFile_parsed _ _ _ Hp). apply counts_tryCatch.
    apply counts_bind; [rel_tac side_keepAccounted | intros _].
    apply counts_processed.
  - rewrite (syncDesignerFile_unreadable _ _ _ Hp). apply counts_tryCatch, counts_throw.
Qed.

Lemma accounts_syncCsvGame env g st :
  accounted (report st) <= accounted (report (run (syncCsvGame env g) st))
  <= S (accounted (report st)).
Proof.
  unfold run. rewrite syncCsvGame_eq.
  destruct (table EGame (db st) !! pc_slug g); cbn [snd]; [lia|].
  cbv zeta. autorewrite with st. rewrite !accounted_bump. lia.
Qed.

Lemma keepAccounted_materializeStubs env : rel keepAccounted (materializeStubs env).
Proof. rel_tac side_keepAccounted. Qed.

Lemma accounts_forEach {A} (l : list A) (body : A -> M unit) st :
  (forall x, nothrow (body x)) ->
  (forall x st, accounted (report (run (body x) st)) = S (accounted (report st))) ->
  accounted (report (run (forEach l body) st)) = accounted (report st) + length l.
Proof.
  intros Hn H. revert st. induction l as [|x l IH]; intros st.
  - cbn. lia.
  - rewrite run_forEach_cons by apply Hn. rewrite IH, H. cbn [length]. lia.
Qed.

Lemma accounts_forEach_at_most {A} (l : list A) (body : A -> M unit) st :
  (forall x, nothrow (body x)) ->
  (forall x st, accounted (report st) <= accounted (report (run (body x) st))
                <= S (accounted (report st))) ->
  accounted (report st) <= accounted (report (run (forEach l body) st))
  <= accounted (report st) + length l.
Proof.
  intros Hn H. revert st. induction l as [|x l IH]; intros st.
  - cbn. lia.
  - rewrite run_forEach_cons by apply Hn.
    specialize (IH (run (body x) st)). specialize (H x st). cbn [length]. lia.
Qed.


(* ===================================================================== *)
(** * The changes of a report *)
(* ===================================================================== *)

Lemma changedFields_real env slug kind ex row :
  Forall realChange (changedFields env slug kind ex row).
Proof.
  apply Forall_forall. intros c Hc. unfold changedFields in Hc.
  apply list_elem_of_omap in Hc as (f & Hf & Hc).
  case_bool_decide as E; [discriminate|]. injection Hc as <-. split; [exact E|].
  cbn [field_]. apply fieldsToCompare_excludes in Hf as (H1 & H2 & H3).
  intros Hin. repeat (apply elem_of_cons in Hin as [->|Hin]; [contradiction|]).
  now apply elem_of_nil in Hin.
Qed.

#[global] Instance keepChanges_preorder : PreOrder keepChanges.
Proof.
  split.
  - intros st. now split.
  - intros a b c [H1 H2] [H3 H4]. split; [now rewrite H3 | now rewrite H4].
Qed.

Lemma keepChanges_explained st st' :
  keepChanges st st' -> changesExplained st -> changesExplained st'.
Proof. intros [H1 H2] H. unfold changesExplained. now rewrite H1, H2. Qed.

Lemma keepChanges_keeps {A} (m : M A) :
  rel keepChanges m -> rel (keeps changesExplained) m.
Proof. apply rel_keeps, keepChanges_explained. Qed.

Ltac side_keepChanges :=
  idtac; intros; unfold keepChanges; autorewrite with st;
  rewrite ?updated_bump, ?changes_bump; split; reflexivity.

(** The shared block keeps the updates and the changes in agreement. *)
Lemma explained_upsert env kind slug row st :
  changesExplained st ->
  changesExplained (run (upsert env kind slug (table kind (db st) !! slug) row) st).
Proof.
  intros (H1 & H2 & H3). unfold run.
  destruct (table kind (db st) !! slug) as [ex|] eqn:E.
  - rewrite (upsert_existing _ _ _ _ _ _ E).
    pose proof (changedFields_real env slug kind ex row) as Hreal.
    destruct (changedFields env slug kind ex row) as [|c cs]; cbn [snd];
      unfold changesExplained; autorewrite with st;
      rewrite ?updated_bump, ?changes_bump, ?updated_addChanges, ?changes_addChanges.
    + auto.
    + rewrite length_app. cbn [length]. repeat split; [lia | discriminate|].
      now apply Forall_app.
  - rewrite (upsert_new _ _ _ _ _ E). cbn [snd].
    unfold changesExplained. autorewrite with st.
    rewrite ?updated_bump, ?changes_bump. auto.
Qed.

Lemma explained_saveRow env kind slug row :
  rel (keeps changesExplained) (saveRow env kind slug row).
Proof.
  intros st H. unfold run. rewrite saveRow_eq.
  apply (explained_upsert env kind slug _ (set_tick (S (tick st)) st)). exact H.
Qed.

Lemma explained_saveGame env slug fm parsed filePath :
  rel (keeps changesExplained) (saveGame env slug fm parsed filePath).
Proof.
  intros st H. unfold run. rewrite saveGame_eq.
  apply (explained_upsert env EGame slug _ (set_tick (S (tick st)) st)). exact H.
Qed.

Lemma explained_unreadable what filePath e :
  rel (keeps changesExplained) (tryCatch (throw e) (recordError what filePath)).
Proof.
  intros st. rewrite run_unreadable. revert st.
  apply keepChanges_keeps. rel_tac side_keepChanges.
Qed.

Lemma explained_syncGameFile env f : rel (keeps changesExplained) (syncGameFile env f).
Proof.
  destruct (parseMarkdownFile env f) as [parsed|e] eqn:Hp.
  - destruct (gameFrontmatterSchema env (frontmatter parsed)) as [fm|] eqn:Hv.
    + rewrite (syncGameFile_valid _ _ _ _ Hp Hv).
      apply rel_tryCatch; [apply _ | | intros e; apply keepChanges_keeps;
                                         rel_tac side_keepChanges].
      apply rel_bind; [apply _ | apply keepChanges_keeps; rel_tac side_keepChanges
                      | intros _].
      apply rel_bind; [apply _ | apply explained_saveGame | intros _].
      apply keepChanges_keeps. rel_tac side_keepChanges.
    + intros st. unfold run. rewrite (syncGameFile_invalid _ _ _ _ Hp Hv).
      revert st. apply keepChanges_keeps. rel_tac side_keepChanges.
  - rewrite (syncGameFile_unreadable _ _ _ Hp). apply explained_unreadable.
Qed.

Lemma explained_syncStudioFile env f : rel (keeps changesExplained) (syncStudioFile env f).
Proof.
  destruct (parseMarkdownFile env f) as [parsed|e] eqn:Hp.
  - rewrite (syncStudioFile_parsed _ _ _ Hp).
    apply rel_tryCatch; [apply _ | | intros e; apply keepChanges_keeps;
                                       rel_tac side_keepChanges].
    apply rel_bind; [apply _ | apply keepChanges_keeps; rel_tac side_keepChanges | intros _].
    apply rel_bind; [apply _ | apply explained_saveRow | intros _].
    apply keepChanges_keeps. rel_tac side_keepChanges.
  - rewrite (syncStudioFile_unreadable _ _ _ Hp). apply explained_unreadable.
Qed.

Lemma explained_syncPublisherFile env f :
  rel (keeps changesExplained) (syncPublisherFile env f).
Proof.
  destruct (parseMarkdownFile env f) as [parsed|e] eqn:Hp.
  - rewrite (syncPublisherFile_parsed _ _ _ Hp).
    apply rel_tryCatch; [apply _ | | intros e; apply keepChanges_keeps;
                                       rel_tac side_keepChanges].
    apply rel_bind; [apply _ | apply explained_saveRow | intros _].
    apply keepChanges_keeps. rel_tac side_keepChanges.
  - rewrite (syncPublisherFile_unreadable _ _ _ Hp). apply explained_unreadable.
Qed.

Lemma explained_syncDesignerFile env f :
  rel (keeps changesExplained) (syncDesignerFile env f).
Proof.
  destruct (parseMarkdownFile env f) as [parsed|e] eqn:Hp.
  - rewrite (syncDesignerFile_parsed _ _ _ Hp).
    apply rel_tryCatch; [apply _ | | intros e; apply keepChanges_keeps;
                                       rel_tac side_keepChanges].
    apply rel_bind; [apply _ | apply explained_saveRow | intros _].
    apply keepChanges_keeps. rel_tac side_keepChanges.
  - rewrite (syncDesignerFile_unreadable _ _ _ Hp). apply explained_unreadable.
Qed.

Lemma explained_transact env csvGames :
  rel (keeps changesExplained) (transact env csvGames).
Proof.
  unfold transact.
  apply rel_bind; [apply _ | | intros _; apply keepChanges_keeps; rel_tac side_keepChanges].
  unfold syncDocuments.
  apply rel_bind; [apply _ | | intros _].
  { apply rel_forEach; [apply _ | intros f _; apply explained_syncGameFile]. }
  apply rel_bind; [apply _ | | intros _].
  { apply keepChanges_keeps. rel_tac side_keepChanges. }
  apply rel_bind; [apply _ | | intros _].
  { apply rel_forEach; [apply _ | intros f _; apply explained_syncStudioFile]. }
  apply rel_bind; [apply _ | | intros _].
  { apply rel_forEach; [apply _ | intros f _; apply explained_syncPublisherFile]. }
  apply rel_forEach; [apply _ | intros f _; apply explained_syncDesignerFile].
Qed.

(** X16. In the report of a run, the updates and the changes agree: there
    are at least as many changes as updated rows, there is no change when
    no row was updated, and every change tells two different values of a
    field other than [lastSyncedAt], [sourceFile] and [slug]. *)
Theorem reported_changes_are_real (env : Env) (now0 : nat) (d : Db) :
  exists report,
    fst (syncAll env now0 d) = Ok report /\
    updated report <= length (changes report) /\
    (updated report = 0 <-> changes report = []) /\
    forall c, c ∈ changes report ->
      oldValue c <> newValue c /\
      field_ c <> "lastSyncedAt" /\ field_ c <> "sourceFile" /\ field_ c <> "slug".
Proof.
  rewrite syncAll_eq. cbn [fst]. eexists. split; [reflexivity|].
  destruct (explained_transact env (fst (readCatalog env)) (initialState env now0 d))
    as (H1 & H2 & H3).
  { unfold changesExplained, initialState. cbn [report].
    destruct (readCatalog_quiet env) as (_ & -> & ->). repeat split; auto. }
  split; [exact H1|]. split; [split; [exact H2 | intros E; rewrite E in H1; cbn in H1; lia]|].
  intros c Hc. rewrite Forall_forall in H3. destruct (H3 c Hc) as [Hd Hf].
  split; [exact Hd|]. repeat split; intros E; apply Hf; rewrite E; set_solver.
Qed.

(* ===================================================================== *)
(** * The store after a run *)
(* ===================================================================== *)

(** X17. After a run over a corpus whose documents of one kind have
    distinct slugs, the store reflects the documents: every valid game
    document and every studio, publisher and designer document that could
    be read has its row, and the row has what the document gives in every
    compared field; a game document whose front matter is invalid and
    every game of the catalog have a row. *)
Theorem store_reflects_documents (env : Env) (now0 : nat) (d : Db) :
  NoDup (map slugFromPath (globSync env "lib/games/*.md")) ->
  NoDup (map slugFromPath (globSync env "lib/studios/*.md")) ->
  NoDup (map slugFromPath (globSync env "lib/publishers/*.md")) ->
  NoDup (map slugFromPath (globSync env "lib/designers/*.md")) ->
  let d' := snd (syncAll env now0 d) in
  (forall f parsed fm,
     f ∈ globSync env "lib/games/*.md" ->
     parseMarkdownFile env f = Ok parsed ->
     gameFrontmatterSchema env (frontmatter parsed) = Some fm ->
     exists ex, table EGame d' !! slugFromPath f = Some ex /\
       forall now, sameComparable env ex (gameRow (slugFromPath f) fm parsed f now)) /\
  (forall f parsed,
     f ∈ globSync env "lib/games/*.md" ->
     parseMarkdownFile env f = Ok parsed ->
     gameFrontmatterSchema env (frontmatter parsed) = None ->
     is_Some (table EGame d' !! slugFromPath f)) /\
  (forall g, g ∈ fst (readCatalog env) -> is_Some (table EGame d' !! pc_slug g)) /\
  (forall f parsed,
     f ∈ globSync env "lib/studios/*.md" ->
     parseMarkdownFile env f = Ok parsed ->
     exists ex, table EStudio d' !! slugFromPath f = Some ex /\
       forall now,
         sameComparable env ex
           (studioRow (slugFromPath f) (studioFrontmatterSchema (frontmatter parsed))
              parsed f now)) /\
  (forall f parsed,
     f ∈ globSync env "lib/publishers/*.md" ->
     parseMarkdownFile env f = Ok parsed ->
     exists ex, table EPublisher d' !! slugFromPath f = Some ex /\
       forall now, sameComparable env ex (overviewRow (slugFromPath f) parsed f now)) /\
  (forall f parsed,
     f ∈ globSync env "lib/designers/*.md" ->
     parseMarkdownFile env f = Ok parsed ->
     exists ex, table EDesigner d' !! slugFromPath f = Some ex /\
       forall now, sameComparable env ex (overviewRow (slugFromPath f) parsed f now)).
Proof.
  intros Hg Hs Hp Hd d'. unfold d'. rewrite syncAll_eq. cbn [snd].
  destruct (run_settles env (fst (readCatalog env)) (initialState env now0 d) Hg Hs Hp Hd)
    as [S1 S2 S3 S4 S5 S6].
  repeat split; intros.
  - now apply S1.
  - now apply (S2 _ parsed).
  - now apply S3.
  - now apply S4.
  - now apply S5.
  - now apply S6.
Qed.

Lemma store_reflects_documents_witness :
  is_Some (table EStudio (snd (syncAll Sample.bothSidesHost 0 emptyDb)) !! "S").
Proof.
  assert (forall pat, NoDup (map slugFromPath (globSync Sample.bothSidesHost pat))) as Hnd.
  { intros pat. cbn [globSync Sample.bothSidesHost Sample.host].
    repeat (destruct (String.eqb pat _));
      apply (bool_decide_unpack _); vm_compute; reflexivity. }
  destruct (store_reflects_documents Sample.bothSidesHost 0 emptyDb
              (Hnd _) (Hnd _) (Hnd _) (Hnd _))
    as (_ & _ & _ & H & _).
  destruct (H "lib/studios/S.md" (Sample.parsedOf Sample.studioOfGameDoc ""))
    as (ex & E & _).
  - apply list_elem_of_In. vm_compute. now left.
  - reflexivity.
  - exists ex. exact E.
Defined.

Lemma freshPrefix_stopped seen targets p :
  freshPrefix seen targets = (p, true) ->
  exists x rest, targets = p ++ x :: rest /\ x ∈ seen ++ p.
Proof.
  revert seen p. induction targets as [|x l IH]; intros seen p; cbn [freshPrefix];
    [discriminate|].
  case_bool_decide as Hx.
  - intros [= <-]. exists x, l. split; [reflexivity|]. now rewrite app_nil_r.
  - destruct (freshPrefix (seen ++ [x]) l) as [q dup] eqn:E. intros [= <- ->].
    destruct (IH _ _ E) as (y & rest & -> & Hy). exists y, rest. split; [reflexivity|].
    rewrite <- app_assoc in Hy. exact Hy.
Qed.

Lemma repeated_stops targets :
  ~ NoDup targets -> snd (freshPrefix [] targets) = true.
Proof.
  intros H. destruct (snd (freshPrefix [] targets)) eqn:E; [reflexivity|].
  exfalso. apply H. destruct (freshPrefix_facts [] targets) as (Hnd & _ & Heq).
  now rewrite <- (Heq E).
Qed.

(** X18. A valid game document that names a developer twice is not
    counted: the insert of the repeated pair fails, the error of the
    database is reported for the document, and the loop goes on.  Its row
    is written all the same, its developers up to the repeated one are
    stored, and its publisher rows are left as they were. *)
Theorem repeated_developer_is_reported (env : Env) (filePath : string)
    (parsed : ParsedMarkdown) (fm : GameFrontmatter) (st : St) :
  parseMarkdownFile env filePath = Ok parsed ->
  gameFrontmatterSchema env (frontmatter parsed) = Some fm ->
  ~ NoDup (fm_developer fm) ->
  let slug := slugFromPath filePath in
  let st' := run (syncGameFile env filePath) st in
  fst (syncGameFile env filePath st) = Ok tt /\
  errors (report st') =
    errors (report st)
    ++ ["Error syncing game " +:+ filePath +:+ ": " +:+ sqliteError env "game_developers"] /\
  gamesProcessed (report st') = gamesProcessed (report st) /\
  rowSettled env EGame slug (gameRow slug fm parsed filePath) st' /\
  gamePublishers (db st') = gamePublishers (db st) /\
  exists p x rest,
    fm_developer fm = p ++ x :: rest /\ x ∈ p /\ NoDup p /\
    rowsOf slug (gameDevelopers (db st')) = map (pair slug) p.
Proof.
  intros Hp Hv Hrep slug st'.
  pose proof (syncGameFile_valid_eq env filePath parsed fm st Hp Hv) as E.
  cbv zeta in E. rewrite (repeated_stops _ Hrep) in E.
  unfold st', run. rewrite E. cbn [fst snd]. rewrite run_recordError.
  set (st1 := run (trackGameReferences fm) st).
  set (st2 := run (saveGame env (slugFromPath filePath) fm parsed filePath) st1).
  destruct (keepErrors_trackGameReferences fm st) as [He1 Hg1].
  destruct (keepErrors_saveGame env (slugFromPath filePath) fm parsed filePath st1)
    as [He2 Hg2].
  fold st1 in He1, Hg1. fold st2 in He2, Hg2.
  split; [reflexivity|]. autorewrite with st. rewrite errors_pushError.
  split; [now rewrite He2, He1|]. split; [cbn; now rewrite Hg2, Hg1|].
  split; [|split].
  - destruct (saveGame_settles env (slugFromPath filePath) fm parsed filePath st1)
      as (ex & Hex & Hs).
    exists ex. split; [|exact Hs]. autorewrite with st. exact Hex.
  - change (jtable GamePublishers
              (db (replaced GameDevelopers (slugFromPath filePath) (fm_developer fm) st2)) =
            jtable GamePublishers (db st)).
    rewrite jtable_replaced. rewrite decide_False by discriminate.
    unfold st2. rewrite (keepJunctions_saveGame _ _ _ _ _ st1 GamePublishers).
    apply (keepJunctions_trackGameReferences fm st GamePublishers).
  - destruct (freshPrefix [] (fm_developer fm)) as [p dup] eqn:F.
    pose proof (repeated_stops _ Hrep) as Hdup. rewrite F in Hdup. cbn [snd] in Hdup.
    subst dup. destruct (freshPrefix_stopped _ _ _ F) as (x & rest & Hl & Hx).
    destruct (freshPrefix_facts [] (fm_developer fm)) as (Hnd & _). rewrite F in Hnd.
    exists p, x, rest. repeat split; try assumption.
    change (rowsOf slug
              (jtable GameDevelopers
                 (db (replaced GameDevelopers (slugFromPath filePath) (fm_developer fm) st2)))
            = map (pair slug) p).
    rewrite jtable_replaced, decide_True by reflexivity. rewrite F. cbn [fst].
    now rewrite rowsOf_app, rowsOf_rowsNotOf, rowsOf_pairs.
Qed.

Lemma repeated_developer_is_reported_witness :
  gamesProcessed
    (report (run (syncGameFile Sample.duplicateDeveloperHost "lib/games/G.md")
               (Sample.stateOf Sample.storeWithPublisherLink))) = 0.
Proof.
  assert (gameFrontmatterSchema Sample.duplicateDeveloperHost Sample.duplicateDeveloperDoc =
          Some {| fm_status := None; fm_game_genre := []; fm_game_modes := [];
                  fm_game_genre_tags := []; fm_player_perspective := [];
                  fm_platform := None; fm_engine := None;
                  fm_developer := ["A"; "A"]; fm_publisher := [];
                  fm_director := None; fm_release := None |}) as Hv
    by (vm_compute; reflexivity).
  destruct (repeated_developer_is_reported Sample.duplicateDeveloperHost "lib/games/G.md"
              (Sample.parsedOf Sample.duplicateDeveloperDoc "") _
              (Sample.stateOf Sample.storeWithPublisherLink) eq_refl Hv)
    as (_ & _ & H & _).
  - cbn [fm_developer]. intros Hnd. apply NoDup_cons in Hnd as [Hin _]. apply Hin. now left.
  - exact H.
Defined.

(** Junction table [j] is left as it is: the relation of a state before
    and after to a table [t] that it had. *)
Ltac side_keepTable :=
  idtac; intros; unfold keeps; autorewrite with st;
  try case_decide; try discriminate; auto.

Lemma keepRelated_syncStudioFile env f parsed t :
  parseMarkdownFile env f = Ok parsed ->
  (forall s ss, sfm_studios <$> studioFrontmatterSchema (frontmatter parsed) <> Some (s :: ss)) ->
  rel (keeps (fun st => jtable RelatedStudios (db st) = t)) (syncStudioFile env f).
Proof.
  intros Hp Hs. rewrite (syncStudioFile_parsed _ _ _ Hp).
  assert (replaceOwnStudios env RelatedStudios (slugFromPath f)
            (sfm_studios <$> studioFrontmatterSchema (frontmatter parsed)) = ret tt) as ->.
  { destruct (sfm_studios <$> studioFrontmatterSchema (frontmatter parsed))
      as [[|s ss]|] eqn:E; [reflexivity | now destruct (Hs s ss) | reflexivity]. }
  rel_tac side_keepTable.
Qed.

Lemma keepPublisherStudios_syncPublisherFile env f parsed t :
  parseMarkdownFile env f = Ok parsed ->
  (forall s ss,
     pfm_studios <$> publisherFrontmatterSchema (frontmatter parsed) <> Some (s :: ss)) ->
  rel (keeps (fun st => jtable PublisherStudios (db st) = t)) (syncPublisherFile env f).
Proof.
  intros Hp Hs. rewrite (syncPublisherFile_parsed _ _ _ Hp).
  assert (replaceOwnStudios env PublisherStudios (slugFromPath f)
            (pfm_studios <$> publisherFrontmatterSchema (frontmatter parsed)) = ret tt) as ->.
  { destruct (pfm_studios <$> publisherFrontmatterSchema (frontmatter parsed))
      as [[|s ss]|] eqn:E; [reflexivity | now destruct (Hs s ss) | reflexivity]. }
  rel_tac side_keepTable.
Qed.

(** X19. The studios of a studio or publisher document are replaced only
    when the document lists at least one: a document whose [studios] list
    is empty or missing, or whose front matter is invalid, leaves the
    related-studio (publisher-studio) pairs as they are, those of its own
    slug too.  And the games of such a document only add pairs: no
    game-developer (game-publisher) pair is removed by its turn. *)
Theorem emptied_studios_list_keeps_pairs (env : Env) (f : string)
    (parsed : ParsedMarkdown) (st : St) :
  parseMarkdownFile env f = Ok parsed ->
  ((forall s ss,
      sfm_studios <$> studioFrontmatterSchema (frontmatter parsed) <> Some (s :: ss)) ->
   relatedStudios (db (run (syncStudioFile env f) st)) = relatedStudios (db st)) /\
  ((forall s ss,
      pfm_studios <$> publisherFrontmatterSchema (frontmatter parsed) <> Some (s :: ss)) ->
   publisherStudios (db (run (syncPublisherFile env f) st)) = publisherStudios (db st)) /\
  (forall p, p ∈ gameDevelopers (db st) ->
             p ∈ gameDevelopers (db (run (syncStudioFile env f) st))) /\
  (forall p, p ∈ gamePublishers (db st) ->
             p ∈ gamePublishers (db (run (syncPublisherFile env f) st))).
Proof.
  intros Hp. repeat split.
  - intros Hs.
    apply (keepRelated_syncStudioFile env f parsed (jtable RelatedStudios (db st)) Hp Hs st).
    reflexivity.
  - intros Hs.
    apply (keepPublisherStudios_syncPublisherFile env f parsed
             (jtable PublisherStudios (db st)) Hp Hs st).
    reflexivity.
  - apply (growDevelopers_syncStudioFile env f st).
  - apply (growPublishers_syncPublisherFile env f st).
Qed.

Lemma emptied_studios_list_keeps_pairs_witness :
  relatedStudios
    (db (run (syncStudioFile Sample.bothSidesHost "lib/studios/S.md")
           (Sample.stateOf (set_jtable RelatedStudios [("S", "Old")] emptyDb))))
  = [("S", "Old")].
Proof.
  apply (emptied_studios_list_keeps_pairs Sample.bothSidesHost "lib/studios/S.md"
           (Sample.parsedOf Sample.studioOfGameDoc "")
           (Sample.stateOf (set_jtable RelatedStudios [("S", "Old")] emptyDb)) eq_refl).
  intros s ss. vm_compute. discriminate.
Defined.

(* ===================================================================== *)
(** * Serialized values *)
(* ===================================================================== *)

Lemma unjsonChar_jsonChar (c : ascii) (rest : list ascii) :
  unjsonChar (jsonChar c ++ rest) = Some (c, rest).
Proof. destruct c as [[] [] [] [] [] [] [] []]; reflexivity. Qed.

Lemma jsonChars_inj (a b : list ascii) (r1 r2 : list ascii) :
  concat (map jsonChar a) ++ "034"%char :: r1 = concat (map jsonChar b) ++ "034"%char :: r2 ->
  a = b /\ r1 = r2.
Proof.
  revert b. induction a as [|c a IH]; intros [|d b] H; cbn [map concat app] in H.
  - now injection H as <-.
  - apply (f_equal unjsonChar) in H. rewrite <- app_assoc, unjsonChar_jsonChar in H.
    discriminate.
  - apply (f_equal unjsonChar) in H. rewrite <- app_assoc, unjsonChar_jsonChar in H.
    discriminate.
  - apply (f_equal unjsonChar) in H. rewrite <- !app_assoc, !unjsonChar_jsonChar in H.
    injection H as <- H. destruct (IH _ H) as [<- <-]. now split.
Qed.

Lemma jsonString_inj (x y : string) (r1 r2 : list ascii) :
  jsonString x ++ r1 = jsonString y ++ r2 -> x = y /\ r1 = r2.
Proof.
  unfold jsonString. cbn [app]. rewrite <- !app_assoc. cbn [app]. intros [= H].
  apply jsonChars_inj in H as [H <-]. split; [now apply chars_inj | reflexivity].
Qed.

Lemma joinL_cons2 (sep p q : list ascii) (l : list (list ascii)) :
  joinL sep (p :: q :: l) = p ++ sep ++ joinL sep (q :: l).
Proof. reflexivity. Qed.

Lemma jsonItems_inj (a b : list string) (r1 r2 : list ascii) :
  joinL [","%char] (map jsonString a) ++ "]"%char :: r1 =
  joinL [","%char] (map jsonString b) ++ "]"%char :: r2 ->
  a = b /\ r1 = r2.
Proof.
  revert b. induction a as [|x a IH]; intros [|y b] H.
  - now injection H as <-.
  - destruct b; discriminate H.
  - destruct a; discriminate H.
  - destruct a as [|x2 a], b as [|y2 b]; cbn [map] in H;
      rewrite ?joinL_cons2 in H; cbn [joinL] in H; rewrite <- ?app_assoc in H;
      apply jsonString_inj in H as [<- H]; try discriminate H.
    + now injection H as <-.
    + cbn [app] in H. injection H as H.
      destruct (IH (y2 :: b) H) as [E <-]. now rewrite E.
Qed.

Lemma jsonStringify_inj (a b : list string) : jsonStringify a = jsonStringify b -> a = b.
Proof.
  unfold jsonStringify. intros H. apply (f_equal Js.chars) in H. rewrite !chars_str in H.
  injection H as H. now apply jsonItems_inj in H as [-> _].
Qed.

(** X20. Serialization tells the values of a field apart: two lists of
    strings, or two texts, serialize alike only when they are equal, and
    neither serializes as an absent value does.  So a row that the
    comparison finds unchanged has, in every compared field, the list or
    the text that the document gives. *)
Theorem serialization_tells_values_apart (env : Env) :
  (forall a b, serialize env (Some (FJson a)) = serialize env (Some (FJson b)) -> a = b) /\
  (forall s t, serialize env (Some (FText s)) = serialize env (Some (FText t)) -> s = t) /\
  (forall a, serialize env (Some (FJson a)) <> serialize env (Some FNull)) /\
  (forall s, serialize env (Some (FText s)) <> serialize env None) /\
  (forall ex row f a b,
     sameComparable env ex row -> f ∈ fieldsToCompare row ->
     field f ex = Some (FJson a) -> field f row = Some (FJson b) -> a = b) /\
  (forall ex row f s t,
     sameComparable env ex row -> f ∈ fieldsToCompare row ->
     field f ex = Some (FText s) -> field f row = Some (FText t) -> s = t).
Proof.
  assert (forall a b, serialize env (Some (FJson a)) = serialize env (Some (FJson b)) -> a = b)
    as HJ
    by (intros a b H; apply jsonStringify_inj; cbn [serialize] in H; congruence).
  assert (forall s t, serialize env (Some (FText s)) = serialize env (Some (FText t)) -> s = t)
    as HT
    by (intros s t H; cbn [serialize] in H; congruence).
  repeat split; try assumption; try discriminate.
  - intros ex row f a b Hs Hf Ha Hb. apply HJ. rewrite <- Ha, <- Hb. now apply Hs.
  - intros ex row f s t Hs Hf Ha Hb. apply HT. rewrite <- Ha, <- Hb. now apply Hs.
Qed.

Lemma serialization_tells_values_apart_witness :
  fm_developer <$> gameFrontmatterSchema Sample.twoDevelopersHost Sample.twoDevelopersDoc
  = Some ["A"; "B"].
Proof.
  destruct (gameFrontmatterSchema Sample.twoDevelopersHost Sample.twoDevelopersDoc)
    as [fm|] eqn:E; [|vm_compute in E; discriminate].
  cbn [fmap option_fmap option_map]. f_equal.
  apply (proj1 (serialization_tells_values_apart Sample.twoDevelopersHost)).
  vm_compute in E. injection E as <-. reflexivity.
Defined.

(* ===================================================================== *)
(** * The games of the catalog *)
(* ===================================================================== *)

Lemma untouched_other_game env f slug :
  slugFromPath f <> slug -> rel (untouched EGame slug) (syncGameFile env f).
Proof.
  intros Hne.
  rel_tac ltac:(idtac; intros; unfold untouched; autorewrite with st;
                try case_decide; rewrite ?lookup_insert_ne by congruence; congruence).
Qed.

Lemma storedRow_csvGameRow slug row now :
  storedRow EGame (csvGameRow slug row now) = csvGameRow slug row now.
Proof. reflexivity. Qed.

Lemma spares_hasCatalogRow csvGames slug st st' :
  spares EGame slug st st' -> hasCatalogRow csvGames slug st -> hasCatalogRow csvGames slug st'.
Proof.
  intros Hs (g & now & Hg & Hslug & E). exists g, now. repeat split; try assumption.
  now apply (spares_untouched EGame slug st).
Qed.

Lemma catalog_row_through csvGames slug {A} (m : M A) st :
  rel (spares EGame slug) m -> hasCatalogRow csvGames slug st ->
  hasCatalogRow csvGames slug (run m st).
Proof. intros H. apply spares_hasCatalogRow, H. Qed.

(** The loop over the catalog, for a slug that has no row yet. *)
Lemma catalog_loop env (l csvGames : list ParsedCsvGame) slug st :
  (forall g, g ∈ l -> g ∈ csvGames) ->
  noRow EGame slug st ->
  (exists g, g ∈ l /\ pc_slug g = slug) ->
  hasCatalogRow csvGames slug (run (forEach l (syncCsvGame env)) st).
Proof.
  revert st. induction l as [|y l IH]; intros st Hsub Hno (g & Hg & Hslug).
  - now apply elem_of_nil in Hg.
  - rewrite run_forEach_cons by apply nothrow_syncCsvGame.
    destruct (decide (pc_slug y = slug)) as [Ey|Ny].
    + apply catalog_row_through; [apply spares_csv|].
      unfold run. rewrite syncCsvGame_eq, Ey. unfold noRow in Hno. rewrite Hno. cbn [snd].
      exists y, (clock env (tick st)). split; [apply Hsub; now left|]. split; [exact Ey|].
      cbv zeta. autorewrite with st. rewrite decide_True by reflexivity.
      now rewrite lookup_insert_eq, storedRow_csvGameRow.
    + apply IH.
      * intros g' Hg'. apply Hsub. now right.
      * unfold noRow, run. rewrite syncCsvGame_eq.
        destruct (table EGame (db st) !! pc_slug y); cbn [snd]; [exact Hno|].
        cbv zeta. autorewrite with st. rewrite decide_True by reflexivity.
        now rewrite lookup_insert_ne.
      * apply elem_of_cons in Hg as [->|Hg]; [contradiction|]. now exists g.
Qed.

(** X21. A game of the catalog that has no document and no row gets its
    row from the catalog: the status and the platform of a catalog entry
    of its slug, every other column null, and [lib/games.csv] as its
    source. *)
Theorem catalog_game_without_document (env : Env) (now0 : nat) (d : Db)
    (g : ParsedCsvGame) :
  g ∈ fst (readCatalog env) ->
  table EGame d !! pc_slug g = None ->
  (forall f, f ∈ globSync env "lib/games/*.md" -> slugFromPath f <> pc_slug g) ->
  exists g' now,
    g' ∈ fst (readCatalog env) /\ pc_slug g' = pc_slug g /\
    table EGame (snd (syncAll env now0 d)) !! pc_slug g =
    Some [("slug", FText (pc_slug g));
          ("status", otext (csv_status (pc_row g')));
          ("platform", otext (csv_platform (pc_row g')));
          ("engine", FNull); ("release", FNull); ("director", FNull);
          ("gameGenre", FNull); ("gameModes", FNull); ("gameGenreTags", FNull);
          ("playerPerspective", FNull); ("gameplayText", FNull);
          ("synopsisText", FNull); ("reviewText", FNull); ("notesText", FNull);
          ("sourceFile", FText "lib/games.csv"); ("lastSyncedAt", FDate now)].
Proof.
  intros Hg Hno Hdoc. rewrite syncAll_eq. cbn [snd]. rewrite run_documents_and_stubs.
  apply catalog_row_through; [apply spares_materializeStubs|].
  apply catalog_row_through; [apply spares_designers; discriminate|].
  apply catalog_row_through; [apply spares_publishers; discriminate|].
  apply catalog_row_through; [apply spares_studios; discriminate|].
  apply catalog_loop; [auto | | now exists g].
  assert (rel (untouched EGame (pc_slug g))
            (forEach (globSync env "lib/games/*.md") (syncGameFile env))) as Hu.
  { apply rel_forEach; [apply _|]. intros f Hf. apply untouched_other_game. now apply Hdoc. }
  unfold noRow. rewrite (Hu (initialState env now0 d)). exact Hno.
Qed.

Lemma catalog_game_without_document_witness :
  exists g' now,
    g' ∈ fst (readCatalog Sample.catalogHost) /\ pc_slug g' = "Doom" /\
    table EGame (snd (syncAll Sample.catalogHost 0 emptyDb)) !! "Doom" =
    Some [("slug", FText "Doom");
          ("status", otext (csv_status (pc_row g')));
          ("platform", otext (csv_platform (pc_row g')));
          ("engine", FNull); ("release", FNull); ("director", FNull);
          ("gameGenre", FNull); ("gameModes", FNull); ("gameGenreTags", FNull);
          ("playerPerspective", FNull); ("gameplayText", FNull);
          ("synopsisText", FNull); ("reviewText", FNull); ("notesText", FNull);
          ("sourceFile", FText "lib/games.csv"); ("lastSyncedAt", FDate now)].
Proof.
  apply (catalog_game_without_document Sample.catalogHost 0 emptyDb
           {| pc_slug := "Doom";
              pc_row := {| csv_name := "Doom"; csv_status := Some "finished";
                           csv_platform := Some "Xbox 360"; csv_notes := None |} |}).
  - apply list_elem_of_In. vm_compute. now left.
  - reflexivity.
  - intros f Hf. apply list_elem_of_In in Hf. vm_compute in Hf. contradiction.
Defined.

(* ===================================================================== *)
(** * What every stored section looks like *)
(* ===================================================================== *)

Lemma lower_char_idem (c : ascii) : Js.lower_char (Js.lower_char c) = Js.lower_char c.
Proof. destruct c as [[] [] [] [] [] [] [] []]; reflexivity. Qed.

Lemma toLowerCase_idem (s : string) : Js.toLowerCase (Js.toLowerCase s) = Js.toLowerCase s.
Proof.
  unfold Js.toLowerCase. rewrite chars_str, map_map. f_equal.
  apply map_ext. intros c. apply lower_char_idem.
Qed.

Lemma heading_name_normal (content : string) (h : Heading) :
  In h (findHeadings content) ->
  Js.toLowerCase (h_name h) = h_name h /\ Js.trim (h_name h) = h_name h.
Proof.
  unfold findHeadings. intros Hin. apply in_map_iff in Hin as [[[b e] cap] [<- _]].
  cbn [h_name]. destruct cap as [[a c]|]; [|split; reflexivity].
  split; [apply toLowerCase_idem|].
  now rewrite trim_toLowerCase, trim_idem.
Qed.

Lemma fillSections_entries (content : string) (P : string -> string -> Prop) :
  forall (headings : list Heading) (sections : gmap string string),
  (forall k v, sections !! k = Some v -> P k v) ->
  (forall h a b, In h headings ->
     Js.trim (Js.slice a b content) <> "" -> P (h_name h) (Js.trim (Js.slice a b content))) ->
  forall k v, fillSections content headings sections !! k = Some v -> P k v.
Proof.
  induction headings as [|h rest IH]; intros sections Hs Hh k v; cbn [fillSections].
  - apply Hs.
  - apply IH.
    + destruct (Js.falsy _) eqn:E; [exact Hs|].
      intros k' v'. destruct (decide (h_name h = k')) as [<-|Hne].
      * rewrite lookup_insert_eq. intros [= <-]. apply Hh; [now left|].
        intros Hemp. rewrite Hemp in E. discriminate.
      * rewrite lookup_insert_ne by exact Hne. apply Hs.
    + intros h' a b Hin. apply Hh. now right.
Qed.

(** X22. Whatever the body of a document is, every section [parseMarkdownFile]
    keeps has a key that is the lower-cased, trimmed title of one of the
    headings found, and a text that is a trimmed, non-empty slice of the body:
    a heading with nothing but white space under it gives no section at all. *)
Theorem sections_are_trimmed_slices (content key text : string) :
  splitContentSections content !! key = Some text ->
  text <> "" /\ Js.trim text = text /\
  (exists h a b, In h (findHeadings content) /\ key = h_name h /\
                 text = Js.trim (Js.slice a b content)) /\
  Js.toLowerCase key = key /\ Js.trim key = key.
Proof.
  unfold splitContentSections.
  apply (fillSections_entries content
           (fun k v => v <> "" /\ Js.trim v = v /\
              (exists h a b, In h (findHeadings content) /\ k = h_name h /\
                             v = Js.trim (Js.slice a b content)) /\
              Js.toLowerCase k = k /\ Js.trim k = k)).
  - intros k v. rewrite lookup_empty. discriminate.
  - intros h a b Hin Hne. split; [exact Hne|]. split; [apply trim_idem|].
    split; [now exists h, a, b|]. now apply (heading_name_normal content).
Qed.

Lemma sections_are_trimmed_slices_witness :
  "Makes games." <> "" /\ Js.trim "Makes games." = "Makes games." /\
  (exists h a b, In h (findHeadings Sample.overviewBody) /\ "overview" = h_name h /\
                 "Makes games." = Js.trim (Js.slice a b Sample.overviewBody)) /\
  Js.toLowerCase "overview" = "overview" /\ Js.trim "overview" = "overview".
Proof.
  apply (sections_are_trimmed_slices Sample.overviewBody "overview" "Makes games.").
  vm_compute. reflexivity.
Defined.

(* ===================================================================== *)
(** * Designer documents, and the success path of a studio document *)
(* ===================================================================== *)

Lemma processed_addChanges cs r :
  studiosProcessed (addChanges cs r) = studiosProcessed r /\
  publishersProcessed (addChanges cs r) = publishersProcessed r /\
  designersProcessed (addChanges cs r) = designersProcessed r.
Proof.
  unfold addChanges. revert r. induction cs as [|c cs IH]; intros r; simpl;
    [now repeat split|].
  destruct (IH (pushChange c r)) as (H1 & H2 & H3).
  now rewrite H1, H2, H3.
Qed.

(** X23. The front matter of a designer document is never looked at: once
    the document can be read, whatever its front matter holds, the turn
    does not throw, records no error, counts the designer, leaves the other
    tables, the junction tables and the pending references as they are, and
    the row of its slug - the overview section, the path, the time - is
    created, or compared with the stored row and written when a compared
    field differs. *)
Theorem designer_document_is_never_validated (env : Env) (filePath : string)
    (parsed : ParsedMarkdown) (st : St) :
  parseMarkdownFile env filePath = Ok parsed ->
  let slug := slugFromPath filePath in
  let st' := run (syncDesignerFile env filePath) st in
  fst (syncDesignerFile env filePath st) = Ok tt /\
  reconciled env EDesigner slug
    [("slug", FText slug);
     ("overviewText", otext (sections parsed !! "overview"));
     ("sourceFile", FText filePath);
     ("lastSyncedAt", FDate (clock env (tick st)))] st st' /\
  errors (report st') = errors (report st) /\
  designersProcessed (report st') = S (designersProcessed (report st)).
Proof.
  intros Hp slug st'.
  assert (E : syncDesignerFile env filePath st =
              (Ok tt, run (count (Processed EDesigner))
                        (run (saveRow env EDesigner slug
                                (overviewRow slug parsed filePath)) st))).
  { rewrite (syncDesignerFile_parsed _ _ _ Hp). rewrite tryCatch_nothrow.
    - f_equal. rewrite run_seq by apply nothrow_saveRow. reflexivity.
    - apply nothrow_bind; [apply nothrow_saveRow | intros _; apply nothrow_count]. }
  pose proof (saveRow_reconciled env EDesigner slug (overviewRow slug parsed filePath) st
                (fun _ => eq_refl) (fun _ _ => eq_refl)) as R.
  assert (Hst : st' = run (count (Processed EDesigner))
                         (run (saveRow env EDesigner slug
                                 (overviewRow slug parsed filePath)) st))
    by (unfold st', run at 1; now rewrite E).
  rewrite E. clearbody st'. subst st'.
  split; [reflexivity|]. split; [exact R|].
  destruct R as (_ & _ & R).
  destruct (table EDesigner (db st) !! slug) as [ex|].
  - destruct (changedFields env slug EDesigner ex _) as [|c cs];
      destruct R as [_ ->]; rewrite ?errors_bump, ?errors_addChanges;
      (split; [reflexivity|]); cbn [bump designersProcessed];
      try reflexivity.
    f_equal. apply processed_addChanges.
  - destruct R as [_ ->]. split; reflexivity.
Qed.

Lemma designer_document_is_never_validated_witness :
  designerFrontmatterSchema [("class", JStr "studio")] = None /\
  fst (syncDesignerFile Sample.misfiledDesignerHost "lib/designers/D.md"
         (Sample.stateOf emptyDb)) = Ok tt /\
  designersProcessed
    (report (run (syncDesignerFile Sample.misfiledDesignerHost "lib/designers/D.md")
               (Sample.stateOf emptyDb))) = 1.
Proof.
  split; [reflexivity|].
  destruct (designer_document_is_never_validated Sample.misfiledDesignerHost
              "lib/designers/D.md"
              (Sample.parsedOf [("class", JStr "studio")] Sample.overviewBody)
              (Sample.stateOf emptyDb) eq_refl) as (H1 & _ & _ & H2).
  split; [exact H1 | exact H2].
Defined.

(* ===================================================================== *)
(** * The turn of a valid studio document *)
(* ===================================================================== *)

Lemma replaceOwnStudios_NoDup env j slug targets st :
  NoDup targets ->
  replaceOwnStudios env j slug (Some targets) st =
  (Ok tt,
   match targets with
   | [] => st
   | _ => set_refs ReferencedStudios (addAll targets (refs ReferencedStudios st))
            (replaced j slug targets st)
   end).
Proof.
  intros Hnd. destruct targets as [|t ts]; [reflexivity|].
  cbn [replaceOwnStudios]. rewrite replaceStudios_eq.
  rewrite (freshPrefix_NoDup [] (t :: ts) Hnd)
    by (intros x _ Hx; now apply elem_of_nil in Hx).
  reflexivity.
Qed.

(** No error is recorded and no studio is counted. *)
Ltac side_keepStudioCount :=
  idtac; intros; unfold keeps; autorewrite with st;
  rewrite ?errors_bump, ?errors_addChanges;
  cbn [bump studiosProcessed];
  rewrite ?(proj1 (processed_addChanges _ _));
  try case_decide; try discriminate; auto.

Lemma keepStudioCount_prefix env slug fm parsed filePath n e :
  rel (keeps (fun st => studiosProcessed (report st) = n /\ errors (report st) = e))
    (trackDirector (Some fm) ;;;
     saveRow env EStudio slug (studioRow slug (Some fm) parsed filePath) ;;;
     linkOwnGames env GameDevelopers slug (Some (sfm_games fm))).
Proof. rel_tac side_keepStudioCount. Qed.

Lemma keepRelated_prefix env slug fm parsed filePath t :
  rel (keeps (fun st => jtable RelatedStudios (db st) = t))
    (trackDirector (Some fm) ;;;
     saveRow env EStudio slug (studioRow slug (Some fm) parsed filePath) ;;;
     linkOwnGames env GameDevelopers slug (Some (sfm_games fm))).
Proof. rel_tac side_keepTable. Qed.

(** X24. The turn of a valid studio document whose [studios] list has no
    repeated slug does not throw, records no error and counts the studio.
    After it every game the document lists is paired with the studio in the
    game-developer table; when the [studios] list is not empty the
    related-studio rows of the studio are one row per element of the list,
    in its order, the rows of the other studios being as before; and the
    related studios and a non-empty director are pending references, so that
    the stub phase gives each of them a row. *)
Theorem valid_studio_document_is_linked (env : Env) (filePath : string)
    (parsed : ParsedMarkdown) (fm : StudioFrontmatter) (st : St) :
  parseMarkdownFile env filePath = Ok parsed ->
  studioFrontmatterSchema (frontmatter parsed) = Some fm ->
  NoDup (sfm_studios fm) ->
  let slug := slugFromPath filePath in
  let st' := run (syncStudioFile env filePath) st in
  fst (syncStudioFile env filePath st) = Ok tt /\
  errors (report st') = errors (report st) /\
  studiosProcessed (report st') = S (studiosProcessed (report st)) /\
  (forall g, g ∈ sfm_games fm -> (g, slug) ∈ gameDevelopers (db st')) /\
  (sfm_studios fm <> [] ->
   rowsOf slug (relatedStudios (db st')) = map (pair slug) (sfm_studios fm) /\
   rowsNotOf slug (relatedStudios (db st')) = rowsNotOf slug (relatedStudios (db st))) /\
  (forall s, s ∈ sfm_studios fm -> s ∈ refs ReferencedStudios st') /\
  (forall dir, sfm_director fm = Some dir -> dir <> "" ->
               dir ∈ refs ReferencedDesigners st').
Proof.
  intros Hp Hv Hnd slug st'.
  assert (Fs : freshPrefix [] (sfm_studios fm) = (sfm_studios fm, false))
    by (apply freshPrefix_NoDup; [exact Hnd | intros x _ Hx; now apply elem_of_nil in Hx]).
  set (prefix := trackDirector (Some fm) ;;;
                 saveRow env EStudio slug (studioRow slug (Some fm) parsed filePath) ;;;
                 linkOwnGames env GameDevelopers slug (Some (sfm_games fm))).
  set (st3 := run prefix st).
  set (st4 := match sfm_studios fm with
              | [] => st3
              | _ => set_refs ReferencedStudios
                       (addAll (sfm_studios fm) (refs ReferencedStudios st3))
                       (replaced RelatedStudios slug (sfm_studios fm) st3)
              end).
  assert (E : syncStudioFile env filePath st = (Ok tt, run (count (Processed EStudio)) st4)).
  { rewrite (syncStudioFile_parsed _ _ _ Hp), Hv. cbn [fmap option_fmap option_map].
    fold slug.
    assert (B : (trackDirector (Some fm) ;;;
                 saveRow env EStudio slug (studioRow slug (Some fm) parsed filePath) ;;;
                 linkOwnGames env GameDevelopers slug (Some (sfm_games fm)) ;;;
                 replaceOwnStudios env RelatedStudios slug (Some (sfm_studios fm)) ;;;
                 count (Processed EStudio)) st
                = (Ok tt, run (count (Processed EStudio)) st4)).
    { apply injective_projections.
      - rewrite fst_seq by apply nothrow_trackDirector.
        rewrite fst_seq by apply nothrow_saveRow.
        rewrite fst_seq by apply nothrow_linkOwnGames.
        rewrite (fst_bind_ok _ _ _ tt)
          by (now rewrite (replaceOwnStudios_NoDup _ _ _ _ _ Hnd)).
        reflexivity.
      - change (snd (?m st)) with (run m st).
        rewrite run_seq by apply nothrow_trackDirector.
        rewrite run_seq by apply nothrow_saveRow.
        rewrite run_seq by apply nothrow_linkOwnGames.
        rewrite (run_bind_ok _ _ _ tt)
          by (now rewrite (replaceOwnStudios_NoDup _ _ _ _ _ Hnd)).
        unfold run at 2. rewrite (replaceOwnStudios_NoDup _ _ _ _ _ Hnd). cbn [snd].
        unfold st4, st3, prefix.
        rewrite run_seq by apply nothrow_trackDirector.
        rewrite run_seq by apply nothrow_saveRow.
        reflexivity. }
    unfold tryCatch. now rewrite B. }
  assert (Hst : st' = run (count (Processed EStudio)) st4)
    by (unfold st', run at 1; now rewrite E).
  destruct (keepStudioCount_prefix env slug fm parsed filePath
              (studiosProcessed (report st)) (errors (report st)) st
              (conj eq_refl eq_refl)) as [Hc He].
  fold prefix in Hc, He. fold st3 in Hc, He.
  assert (R4 : report st4 = report st3)
    by (unfold st4; destruct (sfm_studios fm); [reflexivity | now autorewrite with st]).
  split; [now rewrite E|].
  split; [rewrite Hst; autorewrite with st; rewrite errors_bump; now rewrite R4|].
  split; [rewrite Hst; autorewrite with st; cbn [bump studiosProcessed];
          now rewrite R4, Hc|].
  split; [intros g Hg; apply (syncStudioFile_links env filePath parsed fm g Hp Hv Hg st)|].
  split; [|split].
  - intros Hne.
    assert (T : relatedStudios (db st') =
                rowsNotOf slug (relatedStudios (db st)) ++ map (pair slug) (sfm_studios fm)).
    { rewrite Hst. change (relatedStudios ?d) with (jtable RelatedStudios d).
      autorewrite with st. unfold st4.
      destruct (sfm_studios fm) as [|s ss] eqn:Es; [now contradiction Hne|].
      autorewrite with st. rewrite Fs. rewrite decide_True by reflexivity. cbn [fst].
      unfold st3, prefix. now rewrite (keepRelated_prefix env slug fm parsed filePath _ st eq_refl). }
    rewrite T.
    rewrite !rowsOf_app, !rowsNotOf_app, !rowsOf_rowsNotOf, !rowsNotOf_idem,
      !rowsOf_pairs, !rowsNotOf_pairs, !app_nil_r. now split.
  - intros s Hs.
    apply (syncStudioFile_pending env filePath parsed fm ReferencedStudios s Hp Hv).
    cbn [studioReferences]. now rewrite Fs.
  - intros dir Hd Hne.
    apply (syncStudioFile_pending env filePath parsed fm ReferencedDesigners dir Hp Hv).
    cbn [studioReferences]. rewrite Hd. cbn [truthy default].
    rewrite (falsy_false _ Hne). cbn [negb]. now apply list_elem_of_singleton.
Qed.

Lemma valid_studio_document_is_linked_witness :
  let st' := run (syncStudioFile Sample.groupStudioHost "lib/studios/S.md")
               (Sample.stateOf (set_jtable RelatedStudios [("S", "Old")] emptyDb)) in
  ("G", "S") ∈ gameDevelopers (db st') /\
  rowsOf "S" (relatedStudios (db st')) = [("S", "North"); ("S", "South")] /\
  "Dana" ∈ refs ReferencedDesigners st'.
Proof.
  assert (Hv : studioFrontmatterSchema Sample.groupStudioDoc =
               Some {| sfm_director := Some "Dana"; sfm_games := ["G"];
                       sfm_studios := ["North"; "South"] |})
    by (vm_compute; reflexivity).
  destruct (valid_studio_document_is_linked
              Sample.groupStudioHost "lib/studios/S.md"
              (Sample.parsedOf Sample.groupStudioDoc "") _
              (Sample.stateOf (set_jtable RelatedStudios [("S", "Old")] emptyDb))
              eq_refl Hv)
    as (_ & _ & _ & Hg & Hs & _ & Hd).
  - cbn [sfm_studios]. apply (bool_decide_unpack _). vm_compute. reflexivity.
  - intros st'. split; [|split].
    + apply Hg. cbn [sfm_games]. now apply list_elem_of_singleton.
    + apply Hs. discriminate.
    + apply (Hd "Dana"); [reflexivity | discriminate].
Defined.

(* ===================================================================== *)
(** * The turn of a valid publisher document *)
(* ===================================================================== *)

Lemma syncPublisherFile_links env filePath parsed fm gameSlug :
  parseMarkdownFile env filePath = Ok parsed ->
  publisherFrontmatterSchema (frontmatter parsed) = Some fm ->
  gameSlug ∈ pfm_games fm ->
  post (linked GamePublishers (gameSlug, slugFromPath filePath))
    (syncPublisherFile env filePath).
Proof.
  intros Hp Hv Hg. rewrite (syncPublisherFile_parsed _ _ _ Hp), Hv.
  apply post_tryCatch.
  - apply post_seq_after; [apply nothrow_saveRow|].
    apply post_seq_keep.
    + cbn [fmap option_fmap option_map]. destruct (pfm_games fm) as [|g0 gs] eqn:E.
      * now apply elem_of_nil in Hg.
      * cbn [linkOwnGames]. now apply linkGames_links.
    + apply (rel_keeps (growJunction GamePublishers)); [apply growJunction_linked|].
      rel_tac side_growJunction.
  - intros e. apply (rel_keeps (growJunction GamePublishers)); [apply growJunction_linked|].
    rel_tac side_growJunction.
Qed.

Ltac side_keepPublisherCount :=
  idtac; intros; unfold keeps; autorewrite with st;
  rewrite ?errors_bump, ?errors_addChanges;
  cbn [bump publishersProcessed];
  rewrite ?(proj1 (proj2 (processed_addChanges _ _)));
  try case_decide; try discriminate; auto.

Lemma keepPublisherCount_prefix env slug fm parsed filePath n e :
  rel (keeps (fun st => publishersProcessed (report st) = n /\ errors (report st) = e))
    (saveRow env EPublisher slug (overviewRow slug parsed filePath) ;;;
     linkOwnGames env GamePublishers slug (Some (pfm_games fm))).
Proof. rel_tac side_keepPublisherCount. Qed.

Lemma keepPublisherStudios_prefix env slug fm parsed filePath t :
  rel (keeps (fun st => jtable PublisherStudios (db st) = t))
    (saveRow env EPublisher slug (overviewRow slug parsed filePath) ;;;
     linkOwnGames env GamePublishers slug (Some (pfm_games fm))).
Proof. rel_tac side_keepTable. Qed.

Lemma keepGames_syncPublisherFile env filePath t :
  rel (keeps (fun st => table EGame (db st) = t)) (syncPublisherFile env filePath).
Proof. rel_tac side_keepTable. Qed.

(** X25. The turn of a valid publisher document whose [studios] list has
    no repeated slug does not throw, records no error and counts the
    publisher.  After it every game the document lists is paired with the
    publisher in the game-publisher table; when the [studios] list is not
    empty the publisher-studio rows of the publisher are one row per element
    of the list, in its order, the rows of the other publishers being as
    before; and the studios are pending references, so that the stub phase
    gives each of them a row.  The games are not: a game that only a
    publisher names gets no row from this turn. *)
Theorem valid_publisher_document_is_linked (env : Env) (filePath : string)
    (parsed : ParsedMarkdown) (fm : PublisherFrontmatter) (st : St) :
  parseMarkdownFile env filePath = Ok parsed ->
  publisherFrontmatterSchema (frontmatter parsed) = Some fm ->
  NoDup (pfm_studios fm) ->
  let slug := slugFromPath filePath in
  let st' := run (syncPublisherFile env filePath) st in
  fst (syncPublisherFile env filePath st) = Ok tt /\
  errors (report st') = errors (report st) /\
  publishersProcessed (report st') = S (publishersProcessed (report st)) /\
  (forall g, g ∈ pfm_games fm -> (g, slug) ∈ gamePublishers (db st')) /\
  (pfm_studios fm <> [] ->
   rowsOf slug (publisherStudios (db st')) = map (pair slug) (pfm_studios fm) /\
   rowsNotOf slug (publisherStudios (db st')) = rowsNotOf slug (publisherStudios (db st))) /\
  (forall s, s ∈ pfm_studios fm -> s ∈ refs ReferencedStudios st') /\
  table EGame (db st') = table EGame (db st).
Proof.
  intros Hp Hv Hnd slug st'.
  assert (Fs : freshPrefix [] (pfm_studios fm) = (pfm_studios fm, false))
    by (apply freshPrefix_NoDup; [exact Hnd | intros x _ Hx; now apply elem_of_nil in Hx]).
  set (prefix := saveRow env EPublisher slug (overviewRow slug parsed filePath) ;;;
                 linkOwnGames env GamePublishers slug (Some (pfm_games fm))).
  set (st3 := run prefix st).
  set (st4 := match pfm_studios fm with
              | [] => st3
              | _ => set_refs ReferencedStudios
                       (addAll (pfm_studios fm) (refs ReferencedStudios st3))
                       (replaced PublisherStudios slug (pfm_studios fm) st3)
              end).
  assert (E : syncPublisherFile env filePath st =
              (Ok tt, run (count (Processed EPublisher)) st4)).
  { rewrite (syncPublisherFile_parsed _ _ _ Hp), Hv. cbn [fmap option_fmap option_map].
    fold slug.
    assert (B : (saveRow env EPublisher slug (overviewRow slug parsed filePath) ;;;
                 linkOwnGames env GamePublishers slug (Some (pfm_games fm)) ;;;
                 replaceOwnStudios env PublisherStudios slug (Some (pfm_studios fm)) ;;;
                 count (Processed EPublisher)) st
                = (Ok tt, run (count (Processed EPublisher)) st4)).
    { apply injective_projections.
      - rewrite fst_seq by apply nothrow_saveRow.
        rewrite fst_seq by apply nothrow_linkOwnGames.
        rewrite (fst_bind_ok _ _ _ tt)
          by (now rewrite (replaceOwnStudios_NoDup _ _ _ _ _ Hnd)).
        reflexivity.
      - change (snd (?m st)) with (run m st).
        rewrite run_seq by apply nothrow_saveRow.
        rewrite run_seq by apply nothrow_linkOwnGames.
        rewrite (run_bind_ok _ _ _ tt)
          by (now rewrite (replaceOwnStudios_NoDup _ _ _ _ _ Hnd)).
        unfold run at 2. rewrite (replaceOwnStudios_NoDup _ _ _ _ _ Hnd). cbn [snd].
        unfold st4, st3, prefix.
        rewrite run_seq by apply nothrow_saveRow.
        reflexivity. }
    unfold tryCatch. now rewrite B. }
  assert (Hst : st' = run (count (Processed EPublisher)) st4)
    by (unfold st', run at 1; now rewrite E).
  destruct (keepPublisherCount_prefix env slug fm parsed filePath
              (publishersProcessed (report st)) (errors (report st)) st
              (conj eq_refl eq_refl)) as [Hc He].
  fold prefix in Hc, He. fold st3 in Hc, He.
  assert (R4 : report st4 = report st3)
    by (unfold st4; destruct (pfm_studios fm); [reflexivity | now autorewrite with st]).
  split; [now rewrite E|].
  split; [rewrite Hst; autorewrite with st; rewrite errors_bump; now rewrite R4|].
  split; [rewrite Hst; autorewrite with st; cbn [bump publishersProcessed];
          now rewrite R4, Hc|].
  split; [intros g Hg; apply (syncPublisherFile_links env filePath parsed fm g Hp Hv Hg st)|].
  split; [|split].
  - intros Hne.
    assert (T : publisherStudios (db st') =
                rowsNotOf slug (publisherStudios (db st))
                ++ map (pair slug) (pfm_studios fm)).
    { rewrite Hst. change (publisherStudios ?d) with (jtable PublisherStudios d).
      autorewrite with st. unfold st4.
      destruct (pfm_studios fm) as [|s ss] eqn:Es; [now contradiction Hne|].
      autorewrite with st. rewrite Fs. rewrite decide_True by reflexivity. cbn [fst].
      unfold st3, prefix.
      now rewrite (keepPublisherStudios_prefix env slug fm parsed filePath _ st eq_refl). }
    rewrite T.
    rewrite !rowsOf_app, !rowsNotOf_app, !rowsOf_rowsNotOf, !rowsNotOf_idem,
      !rowsOf_pairs, !rowsNotOf_pairs, !app_nil_r. now split.
  - intros s Hs.
    apply (syncPublisherFile_pending env filePath parsed fm ReferencedStudios s Hp Hv).
    cbn [publisherReferences]. now rewrite Fs.
  - apply (keepGames_syncPublisherFile env filePath (table EGame (db st)) st eq_refl).
Qed.

Lemma valid_publisher_document_is_linked_witness :
  let st' := run (syncPublisherFile Sample.groupPublisherHost "lib/publishers/P.md")
               (Sample.stateOf (set_jtable PublisherStudios [("P", "Old")] emptyDb)) in
  ("G", "P") ∈ gamePublishers (db st') /\
  rowsOf "P" (publisherStudios (db st')) = [("P", "North"); ("P", "South")] /\
  table EGame (db st') = ∅.
Proof.
  assert (Hv : publisherFrontmatterSchema Sample.groupPublisherDoc =
               Some {| pfm_games := ["G"]; pfm_studios := ["North"; "South"] |})
    by (vm_compute; reflexivity).
  destruct (valid_publisher_document_is_linked
              Sample.groupPublisherHost "lib/publishers/P.md"
              (Sample.parsedOf Sample.groupPublisherDoc "") _
              (Sample.stateOf (set_jtable PublisherStudios [("P", "Old")] emptyDb))
              eq_refl Hv)
    as (_ & _ & _ & Hg & Hs & _ & Ht).
  - cbn [pfm_studios]. apply (bool_decide_unpack _). vm_compute. reflexivity.
  - intros st'. split; [|split].
    + apply Hg. cbn [pfm_games]. now apply list_elem_of_singleton.
    + apply Hs. discriminate.
    + exact Ht.
Defined.
